(** * galois: finite-field linear algebra and the Reed-Solomon codec

    A shallow embedding of [galois/meta_mixin_jit.py] (matrix product,
    convolution, polynomial division and evaluation over a field),
    [galois/code/reed_solomon.py] (construction, [encode], [decode],
    [decode_calculate], the matrices as functions) and the loops of
    [galois/_polys/_factor.py] ([equal_degree_factorization],
    [distinct_degree_factorization]).

    Conventions.
    - Array elements are [int64] values, modelled as [Z]; none of the
      integer arithmetic the sources perform on indices or counts leaves
      the 64-bit range, so no wrap-around is written.
    - A Python exception is an outcome [Raise e] of type [result].
    - The compiled scalar kernels of a field ([ADD], [MULTIPLY], ...) are
      total functions on [Z]; what they return outside the field is left
      open and constrained only by [FieldLaws]. *)

From Stdlib Require Import ZArith List Lia Bool Znumtheory Zpow_facts.
From Stdlib Require Import Ring Setoid Morphisms Sorted.
Import ListNotations.
Local Open Scope Z_scope.

(* ================================================================== *)
(** * Part I. The model *)
(* ================================================================== *)

(** ** Python outcomes *)

Inductive exception : Type :=
| TypeError
| ValueError
| AttributeError
| IndexError
| AssertionError
| NotImplementedError
| ZeroDivisionError.

Inductive result (A : Type) : Type :=
| Ok (a : A)
| Raise (e : exception).

Arguments Ok {A} a.
Arguments Raise {A} e.

Definition bind {A B : Type} (r : result A) (k : A -> result B) : result B :=
  match r with
  | Ok a => k a
  | Raise e => Raise e
  end.

Notation "x <- e ;; k" := (bind e (fun x => k))
  (at level 61, e at next level, right associativity).

(** [for i in range(n): s = body(i, s)] *)
Definition for_range {S : Type} (n : nat) (body : nat -> S -> S) (s : S) : S :=
  fold_left (fun s i => body i s) (seq 0 n) s.

(** The same loop when the body can raise. *)
Fixpoint for_each_m {S : Type} (is_ : list nat) (body : nat -> S -> result S)
  (s : S) : result S :=
  match is_ with
  | [] => Ok s
  | i :: rest => s' <- body i s ;; for_each_m rest body s'
  end.

Definition for_range_m {S : Type} (n : nat) (body : nat -> S -> result S)
  (s : S) : result S :=
  for_each_m (seq 0 n) body s.

(** ** numpy arrays *)

(** The class of an array object: a plain [numpy.ndarray] or the array
    class of one Galois field, named by the identity of that class. *)
Inductive array_type : Type :=
| np_ndarray
| FieldArray (class_id : Z).

Definition array_type_eqb (a b : array_type) : bool :=
  match a, b with
  | np_ndarray, np_ndarray => true
  | FieldArray x, FieldArray y => x =? y
  | _, _ => false
  end.

(** Array contents by number of dimensions.  Arrays of three or more
    dimensions are only ever rejected; their contents are not kept. *)
Inductive nddata : Type :=
| Arr0 (x : Z)
| Arr1 (v : list Z)
| Arr2 (nrows ncols : nat) (rows : list (list Z))
| ArrN (shape_ : list nat).

Record ndarray : Type := mk_ndarray { atype : array_type; val : nddata }.

Definition data_shape (d : nddata) : list nat :=
  match d with
  | Arr0 _ => []
  | Arr1 v => [length v]
  | Arr2 r c _ => [r; c]
  | ArrN s => s
  end.

Definition shape (a : ndarray) : list nat := data_shape (val a).
Definition ndim (a : ndarray) : nat := length (shape a).

Definition wf_data (d : nddata) : Prop :=
  match d with
  | Arr2 r c rows => length rows = r /\ Forall (fun row => length row = c) rows
  | ArrN s => (3 <= length s)%nat
  | _ => True
  end.

(** [a.view(cls)]: the same contents under another array class. *)
Definition view (a : ndarray) (cls : array_type) : ndarray :=
  {| atype := cls; val := val a |}.

(** Element access on lists used as arrays; every subscript the matrix
    routines compute is in range. *)
Fixpoint upd {A : Type} (i : nat) (x : A) (l : list A) : list A :=
  match l, i with
  | [], _ => []
  | _ :: t, O => x :: t
  | h :: t, S i' => h :: upd i' x t
  end.

Definition get2 (C : list (list Z)) (i j : nat) : Z := nth j (nth i C []) 0.

Definition set2 (C : list (list Z)) (i j : nat) (x : Z) : list (list Z) :=
  upd i (upd j x (nth i C [])) C.

Definition column (rows : list (list Z)) (j : nat) : list Z :=
  map (fun row => nth j row 0) rows.

(** [a.T] of a two-dimensional array *)
Definition transpose (d : nddata) : nddata :=
  match d with
  | Arr2 r c rows => Arr2 c r (map (column rows) (seq 0 c))
  | other => other
  end.

(** [np.atleast_2d] *)
Definition atleast_2d (d : nddata) : nddata :=
  match d with
  | Arr0 x => Arr2 1 1 [[x]]
  | Arr1 v => Arr2 1 (length v) [v]
  | other => other
  end.

(** Python slice bounds: a negative bound counts from the end, and both
    are clipped to the sequence. *)
Definition slice_bound (len : nat) (a : Z) : nat :=
  if a <? 0 then Z.to_nat (Z.max 0 (a + Z.of_nat len))
  else Z.to_nat (Z.min a (Z.of_nat len)).

(** [l[a:b]] *)
Definition slice {A : Type} (l : list A) (a b : Z) : list A :=
  let a' := slice_bound (length l) a in
  let b' := slice_bound (length l) b in
  firstn (b' - a') (skipn a' l).

(** [l[a:]] *)
Definition slice_from {A : Type} (l : list A) (a : Z) : list A :=
  skipn (slice_bound (length l) a) l.

(** ** A Galois field class *)

Inductive ufunc_mode_t : Type :=
| jit_lookup
| jit_calculate
| python_calculate.

Definition ufunc_mode_eqb (a b : ufunc_mode_t) : bool :=
  match a, b with
  | jit_lookup, jit_lookup => true
  | jit_calculate, jit_calculate => true
  | python_calculate, python_calculate => true
  | _, _ => false
  end.

(** The trailing [*args] of every kernel call:
    [CHARACTERISTIC, DEGREE, IRREDUCIBLE_POLY]. *)
Definition kernel_args : Type := (Z * Z * Z)%type.

Definition UNARY_CALCULATE_SIG : Type := Z -> kernel_args -> Z.
Definition BINARY_CALCULATE_SIG : Type := Z -> Z -> kernel_args -> Z.

Definition BERLEKAMP_MASSEY_CALCULATE_SIG : Type :=
  list Z -> BINARY_CALCULATE_SIG -> BINARY_CALCULATE_SIG ->
  BINARY_CALCULATE_SIG -> UNARY_CALCULATE_SIG -> kernel_args -> list Z.

(** The result of [POLY_ROOTS] is a [2 x R] array: row 0 holds the roots
    and row 1 their powers of the primitive element.  It is kept as its
    list of [R] columns. *)
Definition POLY_ROOTS_CALCULATE_SIG : Type :=
  list Z -> list Z -> Z -> BINARY_CALCULATE_SIG -> BINARY_CALCULATE_SIG ->
  BINARY_CALCULATE_SIG -> kernel_args -> list (Z * Z).

Definition POLY_EVALUATE_CALCULATE_SIG : Type :=
  list Z -> Z -> BINARY_CALCULATE_SIG -> BINARY_CALCULATE_SIG ->
  kernel_args -> Z.

Definition CONVOLVE_CALCULATE_SIG : Type :=
  list Z -> list Z -> BINARY_CALCULATE_SIG -> BINARY_CALCULATE_SIG ->
  kernel_args -> list Z.

(** What the sources read from a field class.  The class itself
    ([galois.field]) is not part of the sources at hand, so a field is
    whatever record of this shape the [Field] factory returns. *)
Record FieldClass : Type := {
  class_id : Z;
  order : Z;
  characteristic : Z;
  degree : Z;
  _irreducible_poly_int : Z;
  primitive_element : Z;
  ufunc_mode : ufunc_mode_t;
  _calculate_jit_add : BINARY_CALCULATE_SIG;
  _calculate_jit_subtract : BINARY_CALCULATE_SIG;
  _calculate_jit_multiply : BINARY_CALCULATE_SIG;
  _calculate_jit_divide : BINARY_CALCULATE_SIG;
  _calculate_jit_reciprocal : UNARY_CALCULATE_SIG;
  _calculate_jit_power : BINARY_CALCULATE_SIG;
  _function_berlekamp_massey : BERLEKAMP_MASSEY_CALCULATE_SIG;
  _function_poly_roots : POLY_ROOTS_CALCULATE_SIG;
  _function_poly_evaluate : POLY_EVALUATE_CALCULATE_SIG;
  _function_convolve : CONVOLVE_CALCULATE_SIG
}.

Definition field_args (cls : FieldClass) : kernel_args :=
  (characteristic cls, degree cls, _irreducible_poly_int cls).

Definition is_prime_field (cls : FieldClass) : bool := degree cls =? 1.

Definition field_type (cls : FieldClass) : array_type := FieldArray (class_id cls).

(** The two-argument kernels [cls._ADD_JIT], ... of [JITMixin]: the
    field operation with the class constants already supplied. *)
Definition _ADD_JIT (cls : FieldClass) (x y : Z) : Z :=
  _calculate_jit_add cls x y (field_args cls).
Definition _SUBTRACT_JIT (cls : FieldClass) (x y : Z) : Z :=
  _calculate_jit_subtract cls x y (field_args cls).
Definition _MULTIPLY_JIT (cls : FieldClass) (x y : Z) : Z :=
  _calculate_jit_multiply cls x y (field_args cls).
Definition _DIVIDE_JIT (cls : FieldClass) (x y : Z) : Z :=
  _calculate_jit_divide cls x y (field_args cls).
Definition _RECIPROCAL_JIT (cls : FieldClass) (x : Z) : Z :=
  _calculate_jit_reciprocal cls x (field_args cls).
Definition _POWER_JIT (cls : FieldClass) (x e : Z) : Z :=
  _calculate_jit_power cls x e (field_args cls).

(** ** [meta_mixin_jit.py]: matrix product *)

(** [_matmul_jit]: the triple loop over a zero matrix. *)
Definition _matmul_jit (ADD_JIT MULTIPLY_JIT : Z -> Z -> Z) (A B : nddata)
  : result nddata :=
  match A, B with
  | Arr2 M KA rowsA, Arr2 K N rowsB =>
      if (KA =? K)%nat then
        let C := repeat (repeat 0 N) M in
        let C :=
          for_range M (fun i C =>
            for_range N (fun j C =>
              for_range K (fun k C =>
                set2 C i j
                  (ADD_JIT (get2 C i j)
                     (MULTIPLY_JIT (get2 rowsA i k) (get2 rowsB k j)))) C) C) C in
        Ok (Arr2 M N C)
      else Raise AssertionError
  | _, _ => Raise AssertionError
  end.

(** [np.sum] of a field array: the field's [add] reduced from the left. *)
Definition np_sum (add : Z -> Z -> Z) (l : list Z) : Z :=
  match l with
  | [] => 0
  | h :: t => fold_left add t h
  end.

(** [_matmul_python]: [C[i,j] = np.sum(A[i,:] * B[:,j])]. *)
Definition _matmul_python (cls : FieldClass) (A B : nddata) : result nddata :=
  match A, B with
  | Arr2 M KA rowsA, Arr2 K N rowsB =>
      if (KA =? K)%nat then
        let C := repeat (repeat 0 N) M in
        let C :=
          for_range M (fun i C =>
            for_range N (fun j C =>
              set2 C i j
                (np_sum (_ADD_JIT cls)
                   (map (fun ab => _MULTIPLY_JIT cls (fst ab) (snd ab))
                      (combine (nth i rowsA []) (column rowsB j))))) C) C in
        Ok (Arr2 M N C)
      else Raise AssertionError
  | _, _ => Raise AssertionError
  end.

(** Integer dot product, as [np.matmul] computes it on integer arrays. *)
Definition int_dot (a b : list Z) : Z :=
  fold_left (fun acc ab => acc + fst ab * snd ab) (combine a b) 0.

(** [np.matmul] on integer arrays of one or two dimensions. *)
Definition np_matmul (A B : nddata) : result nddata :=
  match A, B with
  | Arr1 a, Arr1 b =>
      if (length a =? length b)%nat then Ok (Arr0 (int_dot a b))
      else Raise ValueError
  | Arr1 a, Arr2 K N rowsB =>
      if (length a =? K)%nat
      then Ok (Arr1 (map (fun j => int_dot a (column rowsB j)) (seq 0 N)))
      else Raise ValueError
  | Arr2 M K rowsA, Arr1 b =>
      if (K =? length b)%nat
      then Ok (Arr1 (map (fun i => int_dot (nth i rowsA []) b) (seq 0 M)))
      else Raise ValueError
  | Arr2 M KA rowsA, Arr2 K N rowsB =>
      if (KA =? K)%nat
      then Ok (Arr2 M N
                 (map (fun i =>
                         map (fun j => int_dot (nth i rowsA []) (column rowsB j))
                           (seq 0 N))
                    (seq 0 M)))
      else Raise ValueError
  | _, _ => Raise ValueError
  end.

Definition map_data (f : Z -> Z) (d : nddata) : nddata :=
  match d with
  | Arr0 x => Arr0 (f x)
  | Arr1 v => Arr1 (map f v)
  | Arr2 r c rows => Arr2 r c (map (map f) rows)
  | ArrN s => ArrN s
  end.

(** Modelled from the spec: [_lapack_linalg] of [galois/linalg.py], which
    is not among the sources.  Section 4.3: in a prime field the product
    is the integer matrix product reduced modulo the characteristic. *)
Definition _lapack_linalg_matmul (cls : FieldClass) (A B : ndarray)
  : result ndarray :=
  C <- np_matmul (val A) (val B) ;;
  Ok {| atype := atype A; val := map_data (fun x => x mod characteristic cls) C |}.

(** [C.reshape(shape)] after [shape = shape[1:]] (when [prepend]) and
    [shape = shape[:-1]] (when [append]). *)
Definition drop_added_axes (prepend append : bool) (C : nddata) : nddata :=
  match C with
  | Arr2 M N rows =>
      match prepend, append with
      | false, false => Arr2 M N rows
      | true, false => Arr1 (concat rows)
      | false, true => Arr1 (concat rows)
      | true, true => Arr0 (nth 0 (concat rows) 0)
      end
  | other => other
  end.

Definition last_dim (d : nddata) : nat := last (data_shape d) 0%nat.
Definition second_last_dim (d : nddata) : nat :=
  last (removelast (data_shape d)) 0%nat.

(** [JITMixin._matmul] *)
Definition _matmul (cls : FieldClass) (A B : ndarray) : result ndarray :=
  if negb (array_type_eqb (atype A) (atype B)) then Raise TypeError else
  if negb ((1 <=? ndim A)%nat && (1 <=? ndim B)%nat) then Raise ValueError else
  if negb ((ndim A <=? 2)%nat && (ndim B <=? 2)%nat) then Raise ValueError else
  let field := atype A in
  if is_prime_field cls then _lapack_linalg_matmul cls A B else
  let '(A', prepend) :=
    match val A with
    | Arr1 a => (Arr2 1 (length a) [a], true)
    | other => (other, false)
    end in
  let '(B', append) :=
    match val B with
    | Arr1 b => (Arr2 (length b) 1 (map (fun x => [x]) b), true)
    | other => (other, false)
    end in
  if negb (last_dim A' =? second_last_dim B')%nat then Raise ValueError else
  C <- (if ufunc_mode_eqb (ufunc_mode cls) python_calculate
        then _matmul_python cls A' B'
        else _matmul_jit (_ADD_JIT cls) (_MULTIPLY_JIT cls) A' B') ;;
  Ok {| atype := field; val := drop_added_axes prepend append C |}.

(** ** [meta_mixin_jit.py]: convolution and polynomial division *)

(** [_convolve_jit].  ([np.zeros] rejects the length [-1] of two empty
    operands; coefficient arrays are never empty.) *)
Definition _convolve_jit (ADD_JIT MULTIPLY_JIT : Z -> Z -> Z) (a b : list Z)
  : list Z :=
  let c := repeat 0 (length a + length b - 1) in
  for_range (length a) (fun i c =>
    fold_left (fun c j =>
                 upd (i + j)
                   (ADD_JIT (nth (i + j) c 0)
                      (MULTIPLY_JIT (nth i a 0) (nth j b 0))) c)
      (rev (seq 0 (length b))) c) c.

(** [_poly_divmod_jit]: quotient and remainder in one array [qr]. *)
Definition _poly_divmod_jit (SUBTRACT_JIT MULTIPLY_JIT DIVIDE_JIT : Z -> Z -> Z)
  (a b : list Z) : result (list Z) :=
  if (length b <=? length a)%nat then
    let q_degree := (length a - length b)%nat in
    let qr := a in
    Ok (for_range (q_degree + 1) (fun i qr =>
          if nth i qr 0 >? 0 then
            let q := DIVIDE_JIT (nth i qr 0) (nth 0 b 0) in
            let qr :=
              for_range (length b) (fun j qr =>
                upd (i + j)
                  (SUBTRACT_JIT (nth (i + j) qr 0) (MULTIPLY_JIT q (nth j b 0)))
                  qr) qr in
            upd i q qr
          else qr) qr)
  else Raise AssertionError.

(** [JITMixin._poly_divmod] for the compiled modes: the two slices of
    [qr]. *)
Definition _poly_divmod (cls : FieldClass) (a b : list Z)
  : result (list Z * list Z) :=
  let q_degree := Z.of_nat (length a) - Z.of_nat (length b) in
  let r_degree := Z.of_nat (length b) - 1 in
  qr <- _poly_divmod_jit (_SUBTRACT_JIT cls) (_MULTIPLY_JIT cls) (_DIVIDE_JIT cls) a b ;;
  Ok (slice qr 0 (q_degree + 1),
      slice qr (q_degree + 1) (q_degree + 1 + r_degree + 1)).

(** ** Polynomials of the codec *)

(** Modelled from the spec: [Poly.__mul__] of [galois/field/poly.py],
    which is not among the sources.  Section 4.2: the product is the
    convolution of the coefficient sequences (descending degree) with the
    kernel [mul]/[add]. *)
Definition Poly_mul (cls : FieldClass) (a b : list Z) : list Z :=
  _convolve_jit (_ADD_JIT cls) (_MULTIPLY_JIT cls) a b.

(** Modelled from the spec: [Poly.Roots] of [galois/field/poly.py], which
    is not among the sources.  Section 4.4: the polynomial with the given
    roots, by repeated multiplication with [x - root], starting from 1. *)
Definition Poly_Roots (cls : FieldClass) (roots : list Z) : list Z :=
  fold_left (fun poly root => Poly_mul cls poly [1; _SUBTRACT_JIT cls 0 root])
    roots [1].

(** [np.arange(a, b)] *)
Definition arange (a b : Z) : list Z :=
  map (fun i => a + Z.of_nat i) (seq 0 (Z.to_nat (b - a))).

(** [np.arange(size - 1, -1, -1)] *)
Definition arange_down (size : nat) : list Z :=
  map (fun i => Z.of_nat i) (rev (seq 0 size)).

(** ** [galois/code/common.py], not among the sources *)

(** The coefficient array of [x^(n-1-i)] as a length-[n] vector. *)
Definition unit_vector (n i : nat) : list Z :=
  repeat 0 i ++ [1] ++ repeat 0 (n - 1 - i).

Fixpoint sequence {A : Type} (l : list (result A)) : result (list A) :=
  match l with
  | [] => Ok []
  | r :: rest => x <- r ;; xs <- sequence rest ;; Ok (x :: xs)
  end.

(** Modelled from the spec: [generator_poly_to_matrix] of
    [galois/code/common.py], which is not among the sources.  Section
    4.4: in systematic form [G = [I_k | P]] with the parity part of a
    message [m] equal to [-(m(x) x^(n-k) mod g(x))], so row [i] of [P] is
    the parity of the unit message [x^(k-1-i)]; otherwise the codeword of
    [m] is [m(x) g(x)], so row [i] holds the coefficients of [g] shifted
    [i] places. *)
Definition generator_poly_to_matrix (cls : FieldClass) (n : Z)
  (generator_poly : list Z) (systematic : bool) : result nddata :=
  let n' := Z.to_nat n in
  let deg := (length generator_poly - 1)%nat in
  let k := (n' - deg)%nat in
  if systematic then
    rows <- sequence
      (map (fun i =>
              qr <- _poly_divmod cls (unit_vector n' i) generator_poly ;;
              Ok (unit_vector k i ++ map (_SUBTRACT_JIT cls 0) (snd qr)))
         (seq 0 k)) ;;
    Ok (Arr2 k n' rows)
  else
    Ok (Arr2 k n'
          (map (fun i => repeat 0 i ++ generator_poly ++ repeat 0 (k - 1 - i))
             (seq 0 k))).

(** Modelled from the spec: [roots_to_parity_check_matrix] of
    [galois/code/common.py], which is not among the sources.  Section
    4.4: [H[i][j] = root_i^(n-1-j)]. *)
Definition roots_to_parity_check_matrix (cls : FieldClass) (n : Z)
  (roots : list Z) : nddata :=
  Arr2 (length roots) (Z.to_nat n)
    (map (fun root =>
            map (fun j => _POWER_JIT cls root (n - 1 - Z.of_nat j))
              (seq 0 (Z.to_nat n)))
       roots).

(** ** [reed_solomon.py]: construction *)

(** The parts of the package that construction calls and that are not
    among the sources: integer factorisation, the default primitive
    polynomial and the field factory. *)
Record galois_lib : Type := {
  prime_factors : Z -> result (list Z * list Z);
  matlab_primitive_poly : Z -> Z -> Z;
  Field : Z -> option Z -> option Z -> result FieldClass
}.

(** [if primitive_poly is None and m > 1: primitive_poly =
    matlab_primitive_poly(p, m)] *)
Definition default_primitive_poly (lib : galois_lib) (p m : Z)
  (primitive_poly : option Z) : option Z :=
  match primitive_poly with
  | None => if m >? 1 then Some (matlab_primitive_poly lib p m) else None
  | Some poly => Some poly
  end.

(** [_check_and_compute_field].  The arguments are typed, so the four
    [isinstance] checks pass. *)
Definition _check_and_compute_field (lib : galois_lib) (n k c : Z)
  (primitive_poly primitive_element_ : option Z) : result FieldClass :=
  if negb ((n - k) mod 2 =? 0) then Raise ValueError else
  pm <- prime_factors lib (n + 1) ;;
  let '(p, m) := pm in
  if negb ((length p =? 1)%nat && (length m =? 1)%nat) then Raise ValueError else
  if negb (c >=? 1) then Raise ValueError else
  let p := nth 0 p 0 in
  let m := nth 0 m 0 in
  let primitive_poly := default_primitive_poly lib p m primitive_poly in
  Field lib (p ^ m) primitive_poly primitive_element_.

(** [rs_generator_poly] with [roots=True]; the field class, which the
    caller reads back as [type(roots)], is returned with the roots. *)
Definition rs_generator_poly (lib : galois_lib) (n k c : Z)
  (primitive_poly primitive_element_ : option Z)
  : result (list Z * list Z * FieldClass) :=
  GF <- _check_and_compute_field lib n k c primitive_poly primitive_element_ ;;
  let alpha := primitive_element GF in
  let t := (n - k) / 2 in
  let roots_ := map (fun e => _POWER_JIT GF alpha e)
                  (map (fun i => c + i) (arange 0 (2 * t))) in
  let g := Poly_Roots GF roots_ in
  Ok (g, roots_, GF).

Record ReedSolomon : Type := {
  _n : Z;
  _k : Z;
  _c : Z;
  _systematic : bool;
  _generator_poly : list Z;
  _roots : list Z;
  _field : FieldClass;
  _t : Z;
  _G : nddata;
  _H : nddata;
  _is_narrow_sense : bool
}.

(** The attributes of the object under construction, to record which of
    them have been assigned when [__new__] stops. *)
Inductive attribute : Type :=
| attr_n
| attr_k
| attr_c
| attr_systematic
| attr_generator_poly
| attr_roots
| attr_field
| attr_t
| attr_G
| attr_H
| attr_is_narrow_sense.

Definition attribute_eqb (a b : attribute) : bool :=
  match a, b with
  | attr_n, attr_n | attr_k, attr_k | attr_c, attr_c
  | attr_systematic, attr_systematic
  | attr_generator_poly, attr_generator_poly | attr_roots, attr_roots
  | attr_field, attr_field | attr_t, attr_t | attr_G, attr_G | attr_H, attr_H
  | attr_is_narrow_sense, attr_is_narrow_sense => true
  | _, _ => false
  end.

(** [ReedSolomon.__new__]: the attributes assigned, in order, and the
    outcome.  [systematic] is a [bool], so its [isinstance] check passes. *)
Definition ReedSolomon_new (lib : galois_lib) (n k c : Z)
  (primitive_poly primitive_element_ : option Z) (systematic : bool)
  : list attribute * result ReedSolomon :=
  let assigned := [attr_n; attr_k; attr_c; attr_systematic] in
  match rs_generator_poly lib n k c primitive_poly primitive_element_ with
  | Raise e => (assigned, Raise e)
  | Ok (generator_poly, roots, field) =>
      let assigned := assigned ++ [attr_generator_poly; attr_roots; attr_field] in
      let t := Z.of_nat (length roots) / 2 in
      let assigned := assigned ++ [attr_t] in
      match generator_poly_to_matrix field n generator_poly systematic with
      | Raise e => (assigned, Raise e)
      | Ok G =>
          let assigned := assigned ++ [attr_G] in
          let H := roots_to_parity_check_matrix field n roots in
          let assigned := assigned ++ [attr_H; attr_is_narrow_sense] in
          (assigned,
           Ok {| _n := n; _k := k; _c := c; _systematic := systematic;
                 _generator_poly := generator_poly; _roots := roots;
                 _field := field; _t := t; _G := G; _H := H;
                 _is_narrow_sense := (c =? 1) |})
      end
  end.

(** ** [reed_solomon.py]: [decode_calculate] *)

(** A subscript on an axis of length [len].  A negative subscript counts
    from the end.  Any other subscript outside the axis is not checked by
    the compiled code and has no defined behaviour there; the model stops
    with [IndexError], as the interpreter would. *)
Definition axis_index (len : nat) (i : Z) : result nat :=
  if (0 <=? i) && (i <? Z.of_nat len) then Ok (Z.to_nat i)
  else if (- Z.of_nat len <=? i) && (i <? 0) then Ok (Z.to_nat (i + Z.of_nat len))
  else Raise IndexError.

(** [a[i, j]] and [a[i, j] = x] on an array with [ncols] columns, for a
    row number [i] produced by [range]. *)
Definition getitem2 (a : list (list Z)) (ncols : nat) (i : nat) (j : Z)
  : result Z :=
  j' <- axis_index ncols j ;; Ok (get2 a i j').

Definition setitem2 (a : list (list Z)) (ncols : nat) (i : nat) (j : Z) (x : Z)
  : result (list (list Z)) :=
  j' <- axis_index ncols j ;; Ok (set2 a i j' x).

(** The statements under [for i in range(N):]. *)
Definition decode_calculate_body
  (n : nat) (syndrome : list (list Z)) (t primitive_element_ : Z)
  (ADD SUBTRACT MULTIPLY : BINARY_CALCULATE_SIG)
  (RECIPROCAL : UNARY_CALCULATE_SIG) (POWER : BINARY_CALCULATE_SIG)
  (BERLEKAMP_MASSEY : BERLEKAMP_MASSEY_CALCULATE_SIG)
  (POLY_ROOTS : POLY_ROOTS_CALCULATE_SIG)
  (POLY_EVAL : POLY_EVALUATE_CALCULATE_SIG)
  (CONVOLVE : CONVOLVE_CALCULATE_SIG)
  (CHARACTERISTIC : Z) (args : kernel_args)
  (i : nat) (dec_codeword : list (list Z)) : result (list (list Z)) :=
  let syndrome_i := nth i syndrome [] in
  if negb (forallb (fun s => s =? 0) syndrome_i) then
    let sigma := BERLEKAMP_MASSEY syndrome_i ADD SUBTRACT MULTIPLY RECIPROCAL args in
    let sigma_rev :=
      BERLEKAMP_MASSEY (rev syndrome_i) ADD SUBTRACT MULTIPLY RECIPROCAL args in
    let v := Z.of_nat (length sigma) - 1 in
    if v >? t then
      setitem2 dec_codeword (n + 1) i (-1) (-1)
    else
      let degrees := arange_down (length sigma_rev) in
      let results :=
        POLY_ROOTS degrees sigma_rev primitive_element_ ADD MULTIPLY POWER args in
      let beta := map fst results in
      let error_locations := map snd results in
      if negb (Z.of_nat (length beta) =? v) then
        setitem2 dec_codeword (n + 1) i (-1) (-1)
      else
        let sigma_prime :=
          for_range (Z.to_nat v) (fun j sigma_prime =>
            let degree_ := v - Z.of_nat j in
            upd j (MULTIPLY (degree_ mod CHARACTERISTIC) (nth j sigma 0) args)
              sigma_prime)
            (repeat 0 (Z.to_nat v)) in
        let Z0 :=
          slice_from
            (CONVOLVE (slice_from sigma (- v)) (rev (slice syndrome_i 0 v))
               ADD MULTIPLY args)
            (- v) in
        dec_codeword <-
          for_range_m (Z.to_nat v) (fun j dec_codeword =>
            let beta_inv := RECIPROCAL (nth j beta 0) args in
            let Z0_i := POLY_EVAL Z0 beta_inv ADD MULTIPLY args in
            let sigma_prime_i := POLY_EVAL sigma_prime beta_inv ADD MULTIPLY args in
            let delta_i :=
              MULTIPLY (SUBTRACT 0 Z0_i args) (RECIPROCAL sigma_prime_i args) args in
            let position := Z.of_nat n - 1 - nth j error_locations 0 in
            old <- getitem2 dec_codeword (n + 1) i position ;;
            setitem2 dec_codeword (n + 1) i position (SUBTRACT old delta_i args))
            dec_codeword ;;
        setitem2 dec_codeword (n + 1) i (-1) v
  else Ok dec_codeword.

(** [decode_calculate].  The compiled signature takes two-dimensional
    [int64] arrays; anything else is rejected at the call. *)
Definition decode_calculate
  (codeword syndrome : nddata) (t primitive_element_ : Z)
  (ADD SUBTRACT MULTIPLY : BINARY_CALCULATE_SIG)
  (RECIPROCAL : UNARY_CALCULATE_SIG) (POWER : BINARY_CALCULATE_SIG)
  (BERLEKAMP_MASSEY : BERLEKAMP_MASSEY_CALCULATE_SIG)
  (POLY_ROOTS : POLY_ROOTS_CALCULATE_SIG)
  (POLY_EVAL : POLY_EVALUATE_CALCULATE_SIG)
  (CONVOLVE : CONVOLVE_CALCULATE_SIG)
  (CHARACTERISTIC DEGREE IRREDUCIBLE_POLY : Z) : result nddata :=
  let args := (CHARACTERISTIC, DEGREE, IRREDUCIBLE_POLY) in
  match codeword, syndrome with
  | Arr2 N n codeword_rows, Arr2 _ _ syndrome_rows =>
      (* dec_codeword = np.zeros((N, n + 1)); dec_codeword[:, 0:n] = codeword *)
      let dec_codeword := map (fun row => row ++ [0]) codeword_rows in
      dec_codeword <-
        for_range_m N
          (decode_calculate_body n syndrome_rows t primitive_element_
             ADD SUBTRACT MULTIPLY RECIPROCAL POWER
             BERLEKAMP_MASSEY POLY_ROOTS POLY_EVAL CONVOLVE CHARACTERISTIC args)
          dec_codeword ;;
      Ok (Arr2 N (n + 1) dec_codeword)
  | _, _ => Raise TypeError
  end.

(** ** [reed_solomon.py]: [encode] and [decode] *)

(** A Python value handed to [encode] or [decode]: a numpy array, or any
    object that is not one. *)
Inductive pyobject : Type :=
| PyArray (a : ndarray)
| PyOther.

(** [G[:, k:]] *)
Definition columns_from (d : nddata) (k : Z) : nddata :=
  match d with
  | Arr2 r c rows =>
      Arr2 r (c - slice_bound c k) (map (fun row => slice_from row k) rows)
  | other => other
  end.

(** [a[:, 0:k]] *)
Definition columns_upto (d : nddata) (k : Z) : nddata :=
  match d with
  | Arr2 r c rows => Arr2 r (slice_bound c k) (map (fun row => slice row 0 k) rows)
  | other => other
  end.

(** [a[:, -1]] *)
Definition last_column (d : nddata) : nddata :=
  match d with
  | Arr2 r c rows => Arr1 (map (fun row => last row 0) rows)
  | other => other
  end.

(** [np.hstack((a, b))] for operands of one or two dimensions. *)
Definition hstack (a b : nddata) : result nddata :=
  match a, b with
  | Arr1 x, Arr1 y => Ok (Arr1 (x ++ y))
  | Arr2 r1 c1 rows1, Arr2 r2 c2 rows2 =>
      if (r1 =? r2)%nat
      then Ok (Arr2 r1 (c1 + c2) (map (fun xy => fst xy ++ snd xy) (combine rows1 rows2)))
      else Raise ValueError
  | _, _ => Raise ValueError
  end.

(** [ReedSolomon.encode] *)
Definition encode (self : ReedSolomon) (message : pyobject) (parity_only : bool)
  : result ndarray :=
  match message with
  | PyOther => Raise TypeError
  | PyArray message =>
      if parity_only && negb (_systematic self) then Raise ValueError else
      match rev (shape message) with
      | [] => Raise IndexError
      | last_dimension :: _ =>
          if negb (Z.of_nat last_dimension =? _k self) then Raise ValueError else
          let field := field_type (_field self) in
          let P := {| atype := field; val := columns_from (_G self) (_k self) |} in
          if parity_only then
            parity <- _matmul (_field self) (view message field) P ;;
            Ok (view parity (atype message))
          else if _systematic self then
            parity <- _matmul (_field self) (view message field) P ;;
            codeword <- hstack (val message) (val parity) ;;
            Ok {| atype := atype message; val := codeword |}
          else
            codeword <- _matmul (_field self) (view message field)
                          {| atype := field; val := _G self |} ;;
            Ok (view codeword (atype message))
      end
  end.

(** The call of the compiled decoder, with the arguments [decode] passes. *)
Definition _decode_jit (self : ReedSolomon) (codeword syndrome : nddata)
  : result nddata :=
  let field := _field self in
  decode_calculate codeword syndrome (_t self) (primitive_element field)
    (_calculate_jit_add field) (_calculate_jit_subtract field)
    (_calculate_jit_multiply field) (_calculate_jit_reciprocal field)
    (_calculate_jit_power field)
    (_function_berlekamp_massey field) (_function_poly_roots field)
    (_function_poly_evaluate field) (_function_convolve field)
    (characteristic field) (degree field) (_irreducible_poly_int field).

(** Modelled from the spec: [field._poly_divmod] of
    [galois/field/meta_function.py] on a two-dimensional dividend, which
    is not among the sources.  Section 4.4 (3f): each corrected codeword
    polynomial is divided by [g(x)] and the quotient is the message.  Each
    row is divided as [_poly_divmod] of [meta_mixin_jit.py] divides. *)
Definition _poly_divmod_rows (cls : FieldClass) (a : nddata) (b : list Z)
  : result nddata :=
  match a with
  | Arr2 N n rows =>
      quotients <- sequence (map (fun row => qr <- _poly_divmod cls row b ;;
                                             Ok (fst qr)) rows) ;;
      Ok (Arr2 N (n - length b + 1) quotients)
  | _ => Raise AssertionError
  end.

(** What [decode] returns: the message, with the error counts when
    [errors=True]. *)
Inductive decoded : Type :=
| Message (message : ndarray)
| MessageErrors (message : ndarray) (N_errors : nddata).

(** [message[0,:]] and [N_errors[0]] *)
Definition first_row (d : nddata) : nddata :=
  match d with
  | Arr2 r c rows => Arr1 (nth 0 rows [])
  | other => other
  end.

Definition first_item (d : nddata) : nddata :=
  match d with
  | Arr1 v => Arr0 (nth 0 v 0)
  | other => other
  end.

(** [ReedSolomon.decode] *)
Definition decode (self : ReedSolomon) (codeword : pyobject) (errors : bool)
  : result decoded :=
  match codeword with
  | PyOther => Raise AttributeError
  | PyArray codeword =>
      let codeword_1d := (ndim codeword =? 1)%nat in
      let codeword := {| atype := atype codeword; val := atleast_2d (val codeword) |} in
      let field := field_type (_field self) in
      syndrome <- _matmul (_field self) (view codeword field)
                    {| atype := field; val := transpose (_H self) |} ;;
      if negb (ufunc_mode_eqb (ufunc_mode (_field self)) python_calculate) then
        dec_codeword <- _decode_jit self (val codeword) (val syndrome) ;;
        let N_errors := last_column dec_codeword in
        message <-
          (if _systematic self then Ok (columns_upto dec_codeword (_k self))
           else _poly_divmod_rows (_field self)
                  (columns_upto dec_codeword (_n self)) (_generator_poly self)) ;;
        let message := {| atype := atype codeword; val := message |} in
        let '(message, N_errors) :=
          if codeword_1d
          then ({| atype := atype message; val := first_row (val message) |},
                first_item N_errors)
          else (message, N_errors) in
        if negb errors then Ok (Message message)
        else Ok (MessageErrors message N_errors)
      else Raise NotImplementedError
  end.

(** ** The contract of the field kernels *)

(** Section 3 of the spec: the elements of a field of order [q] are the
    integers of [[0, q)]. *)
Definition in_field (cls : FieldClass) (x : Z) : Prop := 0 <= x < order cls.

(** Section 4.1 of the spec: on the elements of the field the kernels are
    closed and are the operations of a field, [power] is repeated
    multiplication, and in a prime field they are arithmetic modulo the
    characteristic.  Nothing is assumed outside the field. *)
Record FieldLaws (cls : FieldClass) : Prop := {
  law_order : 1 < order cls;
  law_add_closed : forall a b, in_field cls a -> in_field cls b ->
    in_field cls (_ADD_JIT cls a b);
  law_subtract_closed : forall a b, in_field cls a -> in_field cls b ->
    in_field cls (_SUBTRACT_JIT cls a b);
  law_multiply_closed : forall a b, in_field cls a -> in_field cls b ->
    in_field cls (_MULTIPLY_JIT cls a b);
  law_add_comm : forall a b, in_field cls a -> in_field cls b ->
    _ADD_JIT cls a b = _ADD_JIT cls b a;
  law_add_assoc : forall a b c,
    in_field cls a -> in_field cls b -> in_field cls c ->
    _ADD_JIT cls a (_ADD_JIT cls b c) = _ADD_JIT cls (_ADD_JIT cls a b) c;
  law_add_zero : forall a, in_field cls a -> _ADD_JIT cls 0 a = a;
  law_subtract : forall a b, in_field cls a -> in_field cls b ->
    _ADD_JIT cls (_SUBTRACT_JIT cls a b) b = a;
  law_multiply_comm : forall a b, in_field cls a -> in_field cls b ->
    _MULTIPLY_JIT cls a b = _MULTIPLY_JIT cls b a;
  law_multiply_assoc : forall a b c,
    in_field cls a -> in_field cls b -> in_field cls c ->
    _MULTIPLY_JIT cls a (_MULTIPLY_JIT cls b c)
    = _MULTIPLY_JIT cls (_MULTIPLY_JIT cls a b) c;
  law_multiply_one : forall a, in_field cls a -> _MULTIPLY_JIT cls 1 a = a;
  law_distr : forall a b c,
    in_field cls a -> in_field cls b -> in_field cls c ->
    _MULTIPLY_JIT cls a (_ADD_JIT cls b c)
    = _ADD_JIT cls (_MULTIPLY_JIT cls a b) (_MULTIPLY_JIT cls a c);
  law_divide_closed : forall a b, in_field cls a -> in_field cls b -> b <> 0 ->
    in_field cls (_DIVIDE_JIT cls a b);
  law_divide : forall a b, in_field cls a -> in_field cls b -> b <> 0 ->
    _MULTIPLY_JIT cls (_DIVIDE_JIT cls a b) b = a;
  law_reciprocal_closed : forall a, in_field cls a -> a <> 0 ->
    in_field cls (_RECIPROCAL_JIT cls a);
  law_reciprocal : forall a, in_field cls a -> a <> 0 ->
    _MULTIPLY_JIT cls a (_RECIPROCAL_JIT cls a) = 1;
  law_power_zero : forall a, in_field cls a -> _POWER_JIT cls a 0 = 1;
  law_power_succ : forall a e, in_field cls a -> 0 <= e ->
    _POWER_JIT cls a (e + 1) = _MULTIPLY_JIT cls a (_POWER_JIT cls a e);
  law_primitive_element : in_field cls (primitive_element cls);
  law_characteristic : 1 < characteristic cls;
  law_prime_field : degree cls = 1 ->
    order cls = characteristic cls /\
    forall a b, in_field cls a -> in_field cls b ->
      _ADD_JIT cls a b = (a + b) mod characteristic cls /\
      _MULTIPLY_JIT cls a b = (a * b) mod characteristic cls
}.

(** An array all of whose entries are elements of the field. *)
Definition data_in_field (cls : FieldClass) (d : nddata) : Prop :=
  match d with
  | Arr0 x => in_field cls x
  | Arr1 v => Forall (in_field cls) v
  | Arr2 _ _ rows => Forall (Forall (in_field cls)) rows
  | ArrN _ => True
  end.

(** ** The matrix product the spec asks for *)

(** Section 4.3: the contraction [sum_k a_k * b_k] with the kernel
    [add]/[mul]. *)
Fixpoint field_dot (cls : FieldClass) (a b : list Z) : Z :=
  match a, b with
  | x :: a', y :: b' =>
      _ADD_JIT cls (_MULTIPLY_JIT cls x y) (field_dot cls a' b')
  | _, _ => 0
  end.

(** The product of arrays of one or two dimensions, entry by entry. *)
Definition matmul_spec (cls : FieldClass) (A B : nddata) : nddata :=
  match A, B with
  | Arr1 a, Arr1 b => Arr0 (field_dot cls a b)
  | Arr1 a, Arr2 _ N rowsB =>
      Arr1 (map (fun j => field_dot cls a (column rowsB j)) (seq 0 N))
  | Arr2 M _ rowsA, Arr1 b =>
      Arr1 (map (fun i => field_dot cls (nth i rowsA []) b) (seq 0 M))
  | Arr2 M _ rowsA, Arr2 _ N rowsB =>
      Arr2 M N
        (map (fun i =>
                map (fun j => field_dot cls (nth i rowsA []) (column rowsB j))
                  (seq 0 N))
           (seq 0 M))
  | _, _ => Arr0 0
  end.

(** The number of columns of the left operand and of rows of the right
    one; a vector is a row on the left and a column on the right. *)
Definition columns_of (d : nddata) : nat := last (data_shape d) 0%nat.
Definition rows_of (d : nddata) : nat := hd 0%nat (data_shape d).

(** An array of one or two dimensions. *)
Definition is_vector_or_matrix (d : nddata) : Prop :=
  match d with
  | Arr1 _ | Arr2 _ _ _ => True
  | _ => False
  end.

(** ** Reference kernels, for worked examples

    The field classes themselves ([galois/field]) are not among the
    sources.  The definitions below follow Section 4.1 and 4.2 of the
    spec and serve as concrete fields on which the theorems are
    exercised; no theorem about the codec depends on them. *)

(** Modelled from the spec: the kernels of a prime field, arithmetic
    modulo [CHARACTERISTIC] (Section 4.1, the case [m = 1]). *)
Definition prime_add : BINARY_CALCULATE_SIG :=
  fun a b args => (a + b) mod (fst (fst args)).
Definition prime_subtract : BINARY_CALCULATE_SIG :=
  fun a b args => (a - b) mod (fst (fst args)).
Definition prime_multiply : BINARY_CALCULATE_SIG :=
  fun a b args => (a * b) mod (fst (fst args)).

(** Modelled from the spec: the kernels of [GF(2^m)], polynomials over
    [GF(2)] of degree below [DEGREE] multiplied modulo [IRREDUCIBLE_POLY]
    (Section 4.1, the case [m > 1]). *)
Definition binary_add : BINARY_CALCULATE_SIG :=
  fun a b _ => Z.lxor a b.
Definition binary_multiply : BINARY_CALCULATE_SIG :=
  fun a b args =>
    let m := snd (fst args) in
    let irreducible := snd args in
    fst (fst (Z.iter m
      (fun st =>
         let '(acc, a, b) := st in
         let acc := if Z.odd b then Z.lxor acc a else acc in
         let a := Z.shiftl a 1 in
         let a := if Z.testbit a m then Z.lxor a irreducible else a in
         (acc, a, Z.shiftr b 1))
      (0, a, b))).

(** [power] as repeated multiplication and [reciprocal] as the power
    [q - 2], for either kind of field. *)
Definition power_of (multiply : BINARY_CALCULATE_SIG) : BINARY_CALCULATE_SIG :=
  fun a e args => Z.iter e (fun x => multiply a x args) 1.
Definition reciprocal_of (multiply : BINARY_CALCULATE_SIG) : UNARY_CALCULATE_SIG :=
  fun a args =>
    let q := fst (fst args) ^ snd (fst args) in
    power_of multiply a (q - 2) args.
Definition divide_of (multiply : BINARY_CALCULATE_SIG) : BINARY_CALCULATE_SIG :=
  fun a b args => multiply a (reciprocal_of multiply b args) args.

(** Modelled from the spec: [evaluate] by Horner's rule (Section 4.2), as
    [_poly_evaluate_jit] of [meta_mixin_jit.py] does it. *)
Definition poly_evaluate_model : POLY_EVALUATE_CALCULATE_SIG :=
  fun coeffs value ADD MULTIPLY args =>
    match coeffs with
    | [] => 0
    | c0 :: rest =>
        fold_left (fun result c => ADD c (MULTIPLY result value args) args) rest c0
    end.

(** Modelled from the spec: [multiply] as the convolution of the
    coefficient sequences (Section 4.2), as [_convolve_jit] does it. *)
Definition convolve_model : CONVOLVE_CALCULATE_SIG :=
  fun a b ADD MULTIPLY args =>
    _convolve_jit (fun x y => ADD x y args) (fun x y => MULTIPLY x y args) a b.

(** Modelled from the spec: [roots] by exhaustive search over the powers
    of the primitive element, each root with its power (Section 4.2).
    The polynomial comes as its degrees and coefficients. *)
Definition poly_roots_model : POLY_ROOTS_CALCULATE_SIG :=
  fun degrees coeffs alpha ADD MULTIPLY POWER args =>
    let q := fst (fst args) ^ snd (fst args) in
    let value x :=
      fold_left (fun acc dc => ADD acc (MULTIPLY (snd dc) (POWER x (fst dc) args) args) args)
        (combine degrees coeffs) 0 in
    flat_map (fun i =>
                let x := POWER alpha (Z.of_nat i) args in
                if value x =? 0 then [(x, Z.of_nat i)] else [])
      (seq 0 (Z.to_nat (q - 1))).

(** Modelled from the spec: the Berlekamp-Massey algorithm (Section 4.4,
    step 3b), returning the connection polynomial of the sequence with
    its coefficients in descending degree. *)
Definition berlekamp_massey_model : BERLEKAMP_MASSEY_CALCULATE_SIG :=
  fun sequence ADD SUBTRACT MULTIPLY RECIPROCAL args =>
    let N := length sequence in
    let s k := nth k sequence 0 in
    let one := upd 0 1 (repeat 0 (N + 1)) in
    let final :=
      for_range N (fun n st =>
        let '(c, b, L, m, bb) := st in
        let d :=
          for_range (L + 1) (fun i d =>
            ADD d (MULTIPLY (s (n - i)%nat) (nth i c 0) args) args) 0 in
        if d =? 0 then (c, b, L, (m + 1)%nat, bb)
        else
          let d_bb := MULTIPLY d (RECIPROCAL bb args) args in
          let c' :=
            fold_left (fun c' i =>
                         upd i (SUBTRACT (nth i c' 0)
                                  (MULTIPLY d_bb (nth (i - m) b 0) args) args) c')
              (seq m (N + 1 - m)) c in
          if (2 * L <=? n)%nat then (c', c, (n + 1 - L)%nat, 1%nat, d)
          else (c', b, L, (m + 1)%nat, bb))
        (one, one, 0%nat, 1%nat, 1) in
    let '(c, _, L, _, _) := final in
    rev (firstn (L + 1) c).

(** A prime field [GF(p)] with primitive element [alpha]. *)
Definition prime_field_class (p alpha : Z) (mode : ufunc_mode_t) : FieldClass := {|
  class_id := p;
  order := p;
  characteristic := p;
  degree := 1;
  _irreducible_poly_int := p;
  primitive_element := alpha;
  ufunc_mode := mode;
  _calculate_jit_add := prime_add;
  _calculate_jit_subtract := prime_subtract;
  _calculate_jit_multiply := prime_multiply;
  _calculate_jit_divide := divide_of prime_multiply;
  _calculate_jit_reciprocal := reciprocal_of prime_multiply;
  _calculate_jit_power := power_of prime_multiply;
  _function_berlekamp_massey := berlekamp_massey_model;
  _function_poly_roots := poly_roots_model;
  _function_poly_evaluate := poly_evaluate_model;
  _function_convolve := convolve_model
|}.

(** A binary field [GF(2^m)] defined by [irreducible], with primitive
    element [alpha]. *)
Definition binary_field_class (m irreducible alpha : Z) (mode : ufunc_mode_t)
  : FieldClass := {|
  class_id := 2 ^ m;
  order := 2 ^ m;
  characteristic := 2;
  degree := m;
  _irreducible_poly_int := irreducible;
  primitive_element := alpha;
  ufunc_mode := mode;
  _calculate_jit_add := binary_add;
  _calculate_jit_subtract := binary_add;
  _calculate_jit_multiply := binary_multiply;
  _calculate_jit_divide := divide_of binary_multiply;
  _calculate_jit_reciprocal := reciprocal_of binary_multiply;
  _calculate_jit_power := power_of binary_multiply;
  _function_berlekamp_massey := berlekamp_massey_model;
  _function_poly_roots := poly_roots_model;
  _function_poly_evaluate := poly_evaluate_model;
  _function_convolve := convolve_model
|}.

(** [GF(7)] with primitive element 3, and [GF(2^3)] with [x^3 + x + 1]
    and primitive element [x]. *)
Definition GF7 : FieldClass := prime_field_class 7 3 jit_lookup.
Definition GF8 : FieldClass := binary_field_class 3 11 2 jit_lookup.

(** ** One codeword at a time

    What the statements under [for i in range(N):] do to row [i] of
    [dec_codeword], written on that row alone.  [decode_calculate_rows]
    below proves that the loop is this function applied to every row. *)

(** The error-locator data of one syndrome: [sigma], the number of
    errors [v], and the columns of [POLY_ROOTS] on [sigma_rev]. *)
Definition locator
  (ADD SUBTRACT MULTIPLY : BINARY_CALCULATE_SIG) (RECIPROCAL : UNARY_CALCULATE_SIG)
  (BERLEKAMP_MASSEY : BERLEKAMP_MASSEY_CALCULATE_SIG) (args : kernel_args)
  (syndrome_i : list Z) : list Z :=
  BERLEKAMP_MASSEY syndrome_i ADD SUBTRACT MULTIPLY RECIPROCAL args.

Definition locator_roots
  (primitive_element_ : Z)
  (ADD SUBTRACT MULTIPLY : BINARY_CALCULATE_SIG) (RECIPROCAL : UNARY_CALCULATE_SIG)
  (POWER : BINARY_CALCULATE_SIG)
  (BERLEKAMP_MASSEY : BERLEKAMP_MASSEY_CALCULATE_SIG)
  (POLY_ROOTS : POLY_ROOTS_CALCULATE_SIG) (args : kernel_args)
  (syndrome_i : list Z) : list (Z * Z) :=
  let sigma_rev :=
    BERLEKAMP_MASSEY (rev syndrome_i) ADD SUBTRACT MULTIPLY RECIPROCAL args in
  POLY_ROOTS (arange_down (length sigma_rev)) sigma_rev primitive_element_
    ADD MULTIPLY POWER args.

(** Section 4.4, steps b and c: the codeword is uncorrectable when its
    syndrome is non-zero and either [v > t] or the number of roots found
    differs from [v]. *)
Definition uncorrectable
  (t primitive_element_ : Z)
  (ADD SUBTRACT MULTIPLY : BINARY_CALCULATE_SIG) (RECIPROCAL : UNARY_CALCULATE_SIG)
  (POWER : BINARY_CALCULATE_SIG)
  (BERLEKAMP_MASSEY : BERLEKAMP_MASSEY_CALCULATE_SIG)
  (POLY_ROOTS : POLY_ROOTS_CALCULATE_SIG) (args : kernel_args)
  (syndrome_i : list Z) : Prop :=
  let sigma := locator ADD SUBTRACT MULTIPLY RECIPROCAL BERLEKAMP_MASSEY args syndrome_i in
  let v := Z.of_nat (length sigma) - 1 in
  let roots := locator_roots primitive_element_ ADD SUBTRACT MULTIPLY RECIPROCAL
                 POWER BERLEKAMP_MASSEY POLY_ROOTS args syndrome_i in
  Exists (fun s => s <> 0) syndrome_i /\
  (v > t \/ Z.of_nat (length roots) <> v).

(** Section 4.2: the formal derivative of the polynomial with
    coefficients [sigma] in descending degree: the coefficient of degree
    [d >= 1] is multiplied by [d] reduced modulo the characteristic and
    moves to degree [d - 1]. *)
Definition formal_derivative (MULTIPLY : BINARY_CALCULATE_SIG)
  (CHARACTERISTIC : Z) (args : kernel_args) (sigma : list Z) : list Z :=
  let v := (length sigma - 1)%nat in
  map (fun j => MULTIPLY (Z.of_nat (v - j) mod CHARACTERISTIC) (nth j sigma 0) args)
    (seq 0 v).

(** The error-evaluator polynomial as [decode_calculate] forms it. *)
Definition error_evaluator (ADD MULTIPLY : BINARY_CALCULATE_SIG)
  (CONVOLVE : CONVOLVE_CALCULATE_SIG) (args : kernel_args)
  (sigma syndrome_i : list Z) : list Z :=
  let v := Z.of_nat (length sigma) - 1 in
  slice_from
    (CONVOLVE (slice_from sigma (- v)) (rev (slice syndrome_i 0 v)) ADD MULTIPLY args)
    (- v).

(** Section 4.4, step d: the error value [-Z0(1/beta) / sigma'(1/beta)]
    at the locator [beta]; the quotient is the product with the
    reciprocal. *)
Definition error_value
  (SUBTRACT MULTIPLY : BINARY_CALCULATE_SIG) (RECIPROCAL : UNARY_CALCULATE_SIG)
  (ADD : BINARY_CALCULATE_SIG) (POLY_EVAL : POLY_EVALUATE_CALCULATE_SIG)
  (args : kernel_args) (Z0 sigma_prime : list Z) (beta : Z) : Z :=
  let beta_inv := RECIPROCAL beta args in
  MULTIPLY (SUBTRACT 0 (POLY_EVAL Z0 beta_inv ADD MULTIPLY args) args)
    (RECIPROCAL (POLY_EVAL sigma_prime beta_inv ADD MULTIPLY args) args) args.

(** Row [i] of [dec_codeword] after iteration [i], from the row before it
    and row [i] of the syndrome. *)
Definition decode_row
  (n : nat) (t primitive_element_ : Z)
  (ADD SUBTRACT MULTIPLY : BINARY_CALCULATE_SIG)
  (RECIPROCAL : UNARY_CALCULATE_SIG) (POWER : BINARY_CALCULATE_SIG)
  (BERLEKAMP_MASSEY : BERLEKAMP_MASSEY_CALCULATE_SIG)
  (POLY_ROOTS : POLY_ROOTS_CALCULATE_SIG)
  (POLY_EVAL : POLY_EVALUATE_CALCULATE_SIG)
  (CONVOLVE : CONVOLVE_CALCULATE_SIG)
  (CHARACTERISTIC : Z) (args : kernel_args)
  (syndrome_i : list Z) (row : list Z) : result (list Z) :=
  if forallb (fun s => s =? 0) syndrome_i then Ok row else
  let sigma := locator ADD SUBTRACT MULTIPLY RECIPROCAL BERLEKAMP_MASSEY args syndrome_i in
  let v := Z.of_nat (length sigma) - 1 in
  if v >? t then Ok (upd n (-1) row) else
  let roots := locator_roots primitive_element_ ADD SUBTRACT MULTIPLY RECIPROCAL
                 POWER BERLEKAMP_MASSEY POLY_ROOTS args syndrome_i in
  if negb (Z.of_nat (length roots) =? v) then Ok (upd n (-1) row) else
  let sigma_prime := formal_derivative MULTIPLY CHARACTERISTIC args sigma in
  let Z0 := error_evaluator ADD MULTIPLY CONVOLVE args sigma syndrome_i in
  row <- for_each_m (seq 0 (length roots)) (fun j row =>
           let root := nth j roots (0, 0) in
           let delta := error_value SUBTRACT MULTIPLY RECIPROCAL ADD POLY_EVAL args
                          Z0 sigma_prime (fst root) in
           p <- axis_index (n + 1) (Z.of_nat n - 1 - snd root) ;;
           Ok (upd p (SUBTRACT (nth p row 0) delta args) row)) row ;;
  Ok (upd n v row).

(** ** Polynomials as the spec reads them *)

(** Section 4.2: evaluation by Horner's rule, with the kernels of the
    field, as [_poly_evaluate_jit] of [meta_mixin_jit.py] runs it:
    [result = coeffs[0]], then [result = ADD(coeffs[j], MULTIPLY(result,
    x))]. *)
Definition horner (cls : FieldClass) (x : Z) (acc : Z) (coeffs : list Z) : Z :=
  fold_left (fun result c => _ADD_JIT cls c (_MULTIPLY_JIT cls result x)) coeffs acc.

Definition poly_eval (cls : FieldClass) (coeffs : list Z) (x : Z) : Z :=
  match coeffs with
  | [] => 0
  | c0 :: rest => horner cls x c0 rest
  end.

(** The product [(x - r_1)(x - r_2) ... (x - r_m)] in the field. *)
Definition product_of_differences (cls : FieldClass) (x : Z) (roots : list Z) : Z :=
  fold_right (fun r acc => _MULTIPLY_JIT cls (_SUBTRACT_JIT cls x r) acc) 1 roots.

(** [x^k] by repeated multiplication. *)
Fixpoint field_pow (cls : FieldClass) (x : Z) (k : nat) : Z :=
  match k with
  | O => 1
  | S k' => _MULTIPLY_JIT cls x (field_pow cls x k')
  end.

(** The parameters of a Reed-Solomon code [RS(n, k)] with first
    consecutive root [alpha^c]: [n + 1] is a prime power, [n - k] is
    even, [c >= 1], and the message is not longer than the codeword nor
    empty. *)
Definition is_prime_power (q : Z) : Prop :=
  exists p m, prime p /\ 1 <= m /\ q = p ^ m.

Definition valid_parameters (n k c : Z) : Prop :=
  is_prime_power (n + 1) /\ (n - k) mod 2 = 0 /\ 1 <= c /\ 1 <= k <= n.

(** ** The contract of the absent library functions *)

(** [prime_factors(x)] returns the distinct primes of [x] and their
    multiplicities (the tests of [galois.factors] in
    [tests/test_factor.py] read it so). *)
Definition factorisation_of (x : Z) (p m : list Z) : Prop :=
  length p = length m /\
  Forall prime p /\
  Forall (fun e => 1 <= e) m /\
  NoDup p /\
  x = fold_right (fun pe acc => fst pe ^ snd pe * acc) 1 (combine p m).

(** What construction of [RS(n, k)] needs from the library: a
    factorisation of [n + 1] when one is returned, a returned
    factorisation when [n + 1 >= 2], and, when [n + 1 = p^m] is a prime
    power, a field of that order from the [Field] factory for the
    field-selection inputs of the caller. *)
Definition library_contract (lib : galois_lib) (n : Z)
  (primitive_poly primitive_element_ : option Z) : Prop :=
  (forall p m, prime_factors lib (n + 1) = Ok (p, m) -> factorisation_of (n + 1) p m) /\
  (2 <= n + 1 -> exists p m, prime_factors lib (n + 1) = Ok (p, m)) /\
  (forall p m, prime p -> 1 <= m -> n + 1 = p ^ m ->
   exists GF,
     Field lib (p ^ m) (default_primitive_poly lib p m primitive_poly) primitive_element_
     = Ok GF /\ order GF = p ^ m).

(** ** The generator polynomial the spec asks for *)

(** [p(x) (x - r)] coefficient by coefficient, as [x p(x) - r p(x)];
    coefficients in descending degree. *)
Definition times_linear_factor (cls : FieldClass) (p : list Z) (r : Z) : list Z :=
  map (fun ab => _SUBTRACT_JIT cls (fst ab) (snd ab))
    (combine (p ++ [0]) (0 :: map (_MULTIPLY_JIT cls r) p)).

(** Section 4.4: [(x - r_1)(x - r_2) ... (x - r_m)]. *)
Definition product_of_linear_factors (cls : FieldClass) (roots : list Z) : list Z :=
  fold_left (times_linear_factor cls) roots [1].

(** ** One codeword through [decode] *)

(** One entry of the product as [_matmul] computes it, along the route
    the field's class selects: the integer product reduced modulo the
    characteristic, the interpreted sum of products, or the compiled
    accumulation. *)
Definition matmul_entry (cls : FieldClass) (a b : list Z) : Z :=
  if is_prime_field cls then int_dot a b mod characteristic cls
  else if ufunc_mode_eqb (ufunc_mode cls) python_calculate then
    np_sum (_ADD_JIT cls)
      (map (fun ab => _MULTIPLY_JIT cls (fst ab) (snd ab)) (combine a b))
  else
    fold_left (fun acc k => _ADD_JIT cls acc (_MULTIPLY_JIT cls (nth k a 0) (nth k b 0)))
      (seq 0 (length b)) 0.

Definition matmul_rows (cls : FieldClass) (M N : nat) (rowsA rowsB : list (list Z))
  : list (list Z) :=
  map (fun i => map (fun j => matmul_entry cls (nth i rowsA []) (column rowsB j)) (seq 0 N))
    (seq 0 M).

(** A code object returned by [ReedSolomon.__new__]. *)
Definition constructed (self : ReedSolomon) : Prop :=
  exists lib primitive_poly primitive_element_,
    snd (ReedSolomon_new lib (_n self) (_k self) (_c self) primitive_poly
           primitive_element_ (_systematic self)) = Ok self.

(** The rows of [H.T]. *)
Definition parity_check_columns (self : ReedSolomon) : list (list Z) :=
  match transpose (_H self) with
  | Arr2 _ _ rows => rows
  | _ => []
  end.

(** Row [i] of [codeword.view(field) @ H.T], from codeword [i]. *)
Definition syndrome_row (self : ReedSolomon) (cw : list Z) : list Z :=
  map (fun j => matmul_entry (_field self) cw (column (parity_check_columns self) j))
    (seq 0 (length (_roots self))).

(** Row [i] of [dec_codeword], from codeword [i]. *)
Definition decode_row_of (self : ReedSolomon) (cw : list Z) : result (list Z) :=
  let field := _field self in
  decode_row (length cw) (_t self) (primitive_element field)
    (_calculate_jit_add field) (_calculate_jit_subtract field)
    (_calculate_jit_multiply field) (_calculate_jit_reciprocal field)
    (_calculate_jit_power field)
    (_function_berlekamp_massey field) (_function_poly_roots field)
    (_function_poly_evaluate field) (_function_convolve field)
    (characteristic field)
    (characteristic field, degree field, _irreducible_poly_int field)
    (syndrome_row self cw) (cw ++ [0]).

(** Row [i] of [message], from row [i] of [dec_codeword]. *)
Definition message_of (self : ReedSolomon) (dec : list Z) : result (list Z) :=
  if _systematic self then Ok (slice dec 0 (_k self))
  else
    qr <- _poly_divmod (_field self) (slice dec 0 (_n self)) (_generator_poly self) ;;
    Ok (fst qr).




(** ** One message through [encode] *)

(** The rows of [G]. *)
Definition generator_matrix_rows (self : ReedSolomon) : list (list Z) :=
  match _G self with
  | Arr2 _ _ rows => rows
  | _ => []
  end.

(** The rows of [G[:, k:]]. *)
Definition parity_matrix_rows (self : ReedSolomon) : list (list Z) :=
  map (fun row => slice_from row (_k self)) (generator_matrix_rows self).

(** The codeword of one message: the message followed by its parity
    [m @ G[:, k:]] in a systematic code, [m @ G] otherwise. *)
Definition encode_row (self : ReedSolomon) (m : list Z) : list Z :=
  if _systematic self then
    m ++ map (fun j => matmul_entry (_field self) m (column (parity_matrix_rows self) j))
           (seq 0 (Z.to_nat (_n self) - Z.to_nat (_k self)))
  else
    map (fun j => matmul_entry (_field self) m (column (generator_matrix_rows self) j))
      (seq 0 (Z.to_nat (_n self))).

(** ** Checking the field laws of a small field *)

(** The elements [0, ..., q - 1]. *)
Definition elements (q : Z) : list Z := map Z.of_nat (seq 0 (Z.to_nat q)).

Definition all1 (q : Z) (P : Z -> bool) : bool := forallb P (elements q).
Definition all2 (q : Z) (P : Z -> Z -> bool) : bool :=
  all1 q (fun a => all1 q (P a)).
Definition all3 (q : Z) (P : Z -> Z -> Z -> bool) : bool :=
  all1 q (fun a => all2 q (P a)).

Definition in_fieldb (cls : FieldClass) (x : Z) : bool :=
  (0 <=? x) && (x <? order cls).

(** The laws of [FieldLaws] that quantify over elements only, by
    exhaustion. *)
Definition field_laws_check (cls : FieldClass) : bool :=
  let q := order cls in
  let add := _ADD_JIT cls in
  let sub := _SUBTRACT_JIT cls in
  let mul := _MULTIPLY_JIT cls in
  let div := _DIVIDE_JIT cls in
  let inv := _RECIPROCAL_JIT cls in
  (1 <? q) &&
  all2 q (fun a b => in_fieldb cls (add a b)) &&
  all2 q (fun a b => in_fieldb cls (sub a b)) &&
  all2 q (fun a b => in_fieldb cls (mul a b)) &&
  all2 q (fun a b => add a b =? add b a) &&
  all3 q (fun a b c => add a (add b c) =? add (add a b) c) &&
  all1 q (fun a => add 0 a =? a) &&
  all2 q (fun a b => add (sub a b) b =? a) &&
  all2 q (fun a b => mul a b =? mul b a) &&
  all3 q (fun a b c => mul a (mul b c) =? mul (mul a b) c) &&
  all1 q (fun a => mul 1 a =? a) &&
  all3 q (fun a b c => mul a (add b c) =? add (mul a b) (mul a c)) &&
  all2 q (fun a b => (b =? 0) || in_fieldb cls (div a b)) &&
  all2 q (fun a b => (b =? 0) || (mul (div a b) b =? a)) &&
  all1 q (fun a => (a =? 0) || in_fieldb cls (inv a)) &&
  all1 q (fun a => (a =? 0) || (mul a (inv a) =? 1)) &&
  in_fieldb cls (primitive_element cls) &&
  (1 <? characteristic cls) &&
  (negb (degree cls =? 1) ||
   ((q =? characteristic cls) &&
    all2 q (fun a b => (add a b =? (a + b) mod characteristic cls) &&
                       (mul a b =? (a * b) mod characteristic cls)))).

(** ** A library for the worked examples

    [galois/factor.py] and [galois/field] are not among the sources.  The
    definitions below stand in for them on the worked examples; the
    theorems about construction take the library as a parameter. *)

(** Divide [d] out of [x], counting. *)
Fixpoint strip_factor (fuel : nat) (x d e : Z) : Z * Z :=
  match fuel with
  | O => (x, e)
  | S fuel' =>
      if x mod d =? 0 then strip_factor fuel' (x / d) d (e + 1) else (x, e)
  end.

(** One candidate divisor of trial division; the state is what is left
    of [x], the candidate, and the primes and multiplicities found, last
    first. *)
Definition trial_step (st : Z * Z * list Z * list Z) : Z * Z * list Z * list Z :=
  let '(x, d, ps, ms) := st in
  if x <? d * d then st
  else
    let '(x', e) := strip_factor (Z.to_nat (Z.log2 x) + 1) x d 0 in
    if e =? 0 then (x, d + 1, ps, ms) else (x', d + 1, d :: ps, e :: ms).

(** Candidates until the square of the candidate exceeds what is left;
    the fuel bounds their number by a power of two. *)
Fixpoint trial_iter (fuel : positive) (st : Z * Z * list Z * list Z)
  : Z * Z * list Z * list Z :=
  match fuel with
  | xH => trial_step st
  | xO f | xI f =>
      let st' := trial_iter f st in
      let '(x, d, _, _) := st' in
      if x <? d * d then st' else trial_iter f st'
  end.

(** Modelled from the spec: [prime_factors] of [galois/factor.py], which
    is not among the sources (integer factorisation is an external
    collaborator of the spec).  The primes of [x] in ascending order and
    their multiplicities, as the tests of [tests/test_factor.py] read the
    result; [ValueError] below 2. *)
Definition example_prime_factors (x : Z) : result (list Z * list Z) :=
  if x <? 2 then Raise ValueError else
  let '(x', _, ps, ms) := trial_iter (Z.to_pos x) (x, 2, [], []) in
  let '(ps, ms) := if 1 <? x' then (x' :: ps, 1 :: ms) else (ps, ms) in
  Ok (rev ps, rev ms).

(** Modelled from the spec: [matlab_primitive_poly] of [galois/field],
    which is not among the sources; the two entries the examples use,
    [x^3 + x + 1] and [x^64 + x^4 + x^3 + x + 1]. *)
Definition example_matlab_primitive_poly (p m : Z) : Z :=
  if (p =? 2) && (m =? 3) then 11
  else if (p =? 2) && (m =? 64) then 2 ^ 64 + 27
  else 0.

(** [GF(2^64)]: its elements do not fit the machine integers of the
    compiled kernels, so its class works in "python-calculate" mode. *)
Definition GF2_64 : FieldClass :=
  binary_field_class 64 (2 ^ 64 + 27) 2 python_calculate.

(** Modelled from the spec: the [Field] factory of [galois/field], which
    is not among the sources, on the three fields of the examples and
    with the default primitive element. *)
Definition example_Field (q : Z) (irreducible_poly primitive_element_ : option Z)
  : result FieldClass :=
  match primitive_element_, irreducible_poly with
  | None, None => if q =? 7 then Ok GF7 else Raise ValueError
  | None, Some poly =>
      if (q =? 8) && (poly =? 11) then Ok GF8
      else if (q =? 2 ^ 64) && (poly =? 2 ^ 64 + 27) then Ok GF2_64
      else Raise ValueError
  | Some _, _ => Raise ValueError
  end.

Definition example_lib : galois_lib := {|
  prime_factors := example_prime_factors;
  matlab_primitive_poly := example_matlab_primitive_poly;
  Field := example_Field
|}.

(** ** Schoolbook division and the rows of [G] *)

(** [t - q * bs] on the leading coefficients of [t]. *)
Fixpoint sub_scaled (SUBTRACT_JIT MULTIPLY_JIT : Z -> Z -> Z) (q : Z) (bs t : list Z)
  : list Z :=
  match bs, t with
  | b0 :: bs', x :: t' =>
      SUBTRACT_JIT x (MULTIPLY_JIT q b0)
      :: sub_scaled SUBTRACT_JIT MULTIPLY_JIT q bs' t'
  | _, _ => t
  end.

(** Schoolbook division, one leading coefficient at a time: the quotient
    digit replaces the leading coefficient and the rest has [q * b]
    subtracted. *)
Fixpoint long_division (SUBTRACT_JIT MULTIPLY_JIT DIVIDE_JIT : Z -> Z -> Z)
  (b : list Z) (steps : nat) (qr : list Z) : list Z :=
  match steps, qr with
  | S s, h :: t =>
      if h >? 0 then
        let q := DIVIDE_JIT h (hd 0 b) in
        q :: long_division SUBTRACT_JIT MULTIPLY_JIT DIVIDE_JIT b s
               (sub_scaled SUBTRACT_JIT MULTIPLY_JIT q (tl b) t)
      else h :: long_division SUBTRACT_JIT MULTIPLY_JIT DIVIDE_JIT b s t
  | _, _ => qr
  end.

(** The rows of the generator matrix. *)
Definition generator_rows (cls : FieldClass) (n' : nat) (g : list Z)
  (systematic : bool) : list (list Z) :=
  let k := (n' - (length g - 1))%nat in
  if systematic then
    map (fun i =>
           unit_vector k i ++
           map (_SUBTRACT_JIT cls 0)
             (skipn k (long_division (_SUBTRACT_JIT cls) (_MULTIPLY_JIT cls)
                         (_DIVIDE_JIT cls) g k (unit_vector n' i))))
      (seq 0 k)
  else
    map (fun i => repeat 0 i ++ g ++ repeat 0 (k - 1 - i)) (seq 0 k).

(** The object [ReedSolomon.__new__] returns over the field [GF]. *)
Definition code_over (GF : FieldClass) (n k c : Z) (systematic : bool) : ReedSolomon :=
  let roots := map (fun i => _POWER_JIT GF (primitive_element GF) (c + Z.of_nat i))
                 (seq 0 (Z.to_nat (n - k))) in
  let g := Poly_Roots GF roots in
  {| _n := n; _k := k; _c := c; _systematic := systematic;
     _generator_poly := g; _roots := roots; _field := GF;
     _t := (n - k) / 2;
     _G := Arr2 (Z.to_nat k) (Z.to_nat n) (generator_rows GF (Z.to_nat n) g systematic);
     _H := roots_to_parity_check_matrix GF n roots;
     _is_narrow_sense := (c =? 1) |}.

(** The codes of the worked examples: [RS(7, 3)] over [GF(2^3)],
    systematic; [RS(6, 2)] over [GF(7)], not systematic; and a code over
    [GF(2^64)]. *)
Definition RS_7_3 : ReedSolomon := code_over GF8 7 3 1 true.
Definition RS_6_2 : ReedSolomon := code_over GF7 6 2 1 false.

(** A batch for [RS_6_2]: the codeword of the message [[1; 2]], the
    same with one, two and three symbols changed, and the syndromes of
    the four. *)
Definition example_codewords : list (list Z) :=
  [[1; 1; 1; 1; 1; 1]; [1; 1; 4; 1; 1; 1]; [1; 0; 4; 1; 1; 1]; [1; 0; 4; 1; 3; 1]].

Definition example_syndromes : list (list Z) :=
  map (syndrome_row RS_6_2) example_codewords.

Definition example_decoded : list (list Z) :=
  [[1; 1; 1; 1; 1; 1; 0]; [1; 1; 1; 1; 1; 1; 1];
   [1; 1; 1; 1; 1; 1; 2]; [1; 0; 4; 1; 3; 1; -1]].

(** ** [_polys/_factor.py]: [equal_degree_factorization] *)

(** What [_factor.py] imports and is not among the sources: the class
    [Poly] of [_poly.py] with its equality, subtraction, division,
    [degree], [integer] and the order of its field, [is_monic] of
    [_checks.py], and [poly_gcd] and [poly_pow] of [_functions.py]. *)
Record poly_lib : Type := {
  Poly : Type;
  poly_eqb : Poly -> Poly -> bool;
  Poly_One : Poly;
  poly_degree : Poly -> Z;
  poly_integer : Poly -> Z;
  is_monic : Poly -> bool;
  poly_sub : Poly -> Poly -> Poly;
  poly_div : Poly -> Poly -> Poly;
  poly_gcd : Poly -> Poly -> Poly;
  poly_pow : Poly -> Z -> Poly -> Poly;
  field_order : Z
}.

(** [list.remove(u)]: the first item equal to [u] goes; [ValueError]
    when there is none. *)
Fixpoint list_remove {A : Type} (eqb : A -> A -> bool) (u : A) (l : list A)
  : result (list A) :=
  match l with
  | [] => Raise ValueError
  | x :: t =>
      if eqb x u then Ok t
      else t' <- list_remove eqb u t ;; Ok (x :: t')
  end.

(** [sorted(l, key=key)]: a stable sort. *)
Fixpoint insert_by {A : Type} (key : A -> Z) (x : A) (l : list A) : list A :=
  match l with
  | [] => [x]
  | y :: t => if key x <=? key y then x :: y :: t else y :: insert_by key x t
  end.

Definition sorted {A : Type} (key : A -> Z) (l : list A) : list A :=
  fold_right (insert_by key) [] l.

(** [for u in factors_: ...], from the position [i] of the iterator.
    The body changes the list it iterates over: the iterator reads the
    list as it is at each step, by position.  [None] when the fuel runs
    out before the iterator is exhausted. *)
Fixpoint split_factors (L : poly_lib) (fuel : nat) (g : Poly L) (i : nat)
  (factors_ : list (Poly L)) : result (option (list (Poly L))) :=
  match nth_error factors_ i with
  | None => Ok (Some factors_)
  | Some u =>
      match fuel with
      | O => Ok None
      | S fuel' =>
          let gcd := poly_gcd L g u in
          if negb (poly_eqb L gcd (Poly_One L) || poly_eqb L gcd u) then
            removed <- list_remove (poly_eqb L) u factors_ ;;
            split_factors L fuel' g (i + 1)
              (removed ++ [gcd] ++ [poly_div L u gcd])
          else split_factors L fuel' g (i + 1) factors_
      end
  end.

(** [while len(factors_) < r: ...]; the polynomial of iteration [i] is
    [draws i], whatever [Poly.Random(random.randint(1, n - 1))] returned
    then.  [None] when the fuel runs out while the loop is running. *)
Fixpoint factorization_loop (L : poly_lib) (draws : nat -> Poly L) (fuel : nat)
  (iteration : nat) (poly : Poly L) (d r : Z) (factors_ : list (Poly L))
  : result (option (list (Poly L))) :=
  if Z.of_nat (length factors_) <? r then
    match fuel with
    | O => Ok None
    | S fuel' =>
        let one := Poly_One L in
        let q := field_order L in
        let h := draws iteration in
        let g := poly_gcd L poly h in
        let g :=
          if poly_eqb L g one
          then poly_sub L (poly_pow L h ((q ^ d - 1) / 2) poly) one
          else g in
        res <- split_factors L fuel g 0 factors_ ;;
        match res with
        | None => Ok None
        | Some factors_ =>
            factorization_loop L draws fuel' (S iteration) poly d r factors_
        end
    end
  else Ok (Some factors_).

(** [equal_degree_factorization(poly, d)].  The arguments are typed, so
    the two [isinstance] checks pass. *)
Definition equal_degree_factorization (L : poly_lib) (draws : nat -> Poly L)
  (fuel : nat) (poly : Poly L) (d : Z) : result (option (list (Poly L))) :=
  if negb (poly_degree L poly >=? 1) then Raise ValueError else
  if negb (is_monic L poly) then Raise ValueError else
  if d =? 0 then Raise ZeroDivisionError else
  if negb (poly_degree L poly mod d =? 0) then Raise ValueError else
  let r := poly_degree L poly / d in
  res <- factorization_loop L draws fuel 0 poly d r [poly] ;;
  Ok (option_map (sorted (poly_integer L)) res).

(** The arguments the checks of [equal_degree_factorization] accept. *)
Definition accepted_input (L : poly_lib) (poly : Poly L) (d : Z) : Prop :=
  1 <= poly_degree L poly /\ is_monic L poly = true /\ d <> 0 /\
  poly_degree L poly mod d = 0.

(** The polynomial [g] that iteration [i] splits with. *)
Definition splitting_poly (L : poly_lib) (draws : nat -> Poly L) (i : nat)
  (poly : Poly L) (d : Z) : Poly L :=
  let g := poly_gcd L poly (draws i) in
  if poly_eqb L g (Poly_One L)
  then poly_sub L (poly_pow L (draws i) ((field_order L ^ d - 1) / 2) poly) (Poly_One L)
  else g.

(** Draw [i] does not split [poly]: the gcd of its [g] with [poly] is 1
    or [poly]. *)
Definition no_split (L : poly_lib) (draws : nat -> Poly L) (poly : Poly L) (d : Z)
  (i : nat) : Prop :=
  let gcd := poly_gcd L (splitting_poly L draws i poly d) poly in
  poly_eqb L gcd (Poly_One L) || poly_eqb L gcd poly = true.

(** ** Polynomials over [GF(p)], for the worked examples *)

(** Coefficients in descending degree, without leading zeros; the zero
    polynomial is [[0]], of degree 0. *)
Fixpoint strip_zeros (a : list Z) : list Z :=
  match a with
  | x :: (_ :: _) as t => if x =? 0 then strip_zeros t else a
  | _ => a
  end.

Definition pad_left (n : nat) (a : list Z) : list Z := repeat 0 (n - length a) ++ a.

Definition example_poly_add (p : Z) (a b : list Z) : list Z :=
  let n := Nat.max (length a) (length b) in
  strip_zeros (map (fun xy => (fst xy + snd xy) mod p)
                 (combine (pad_left n a) (pad_left n b))).

Definition example_poly_sub (p : Z) (a b : list Z) : list Z :=
  let n := Nat.max (length a) (length b) in
  strip_zeros (map (fun xy => (fst xy - snd xy) mod p)
                 (combine (pad_left n a) (pad_left n b))).

Definition example_poly_mul (p : Z) (a b : list Z) : list Z :=
  strip_zeros
    (_convolve_jit (fun x y => (x + y) mod p) (fun x y => (x * y) mod p) a b).

(** Quotient and remainder by schoolbook division; the leading
    coefficient of the divisor is inverted by Fermat's little theorem. *)
Definition example_poly_divmod (p : Z) (a b : list Z) : list Z * list Z :=
  if (length a <? length b)%nat then ([0], a) else
  let steps := (length a - length b + 1)%nat in
  let qr :=
    long_division (fun x y => (x - y) mod p) (fun x y => (x * y) mod p)
      (fun x y => (x * (y ^ (p - 2))) mod p) b steps a in
  (strip_zeros (firstn steps qr),
   strip_zeros (match skipn steps qr with [] => [0] | rest => rest end)).

Definition example_poly_monic (p : Z) (a : list Z) : list Z :=
  let lead := hd 0 a in
  if lead =? 0 then a else map (fun x => (x * lead ^ (p - 2)) mod p) a.

(** Euclid's algorithm; the result is monic. *)
Fixpoint example_poly_euclid (p : Z) (fuel : nat) (a b : list Z) : list Z :=
  match fuel with
  | O => a
  | S fuel' =>
      if forallb (fun x => x =? 0) b then a
      else example_poly_euclid p fuel' b (snd (example_poly_divmod p a b))
  end.

Definition example_poly_gcd (p : Z) (a b : list Z) : list Z :=
  example_poly_monic p (example_poly_euclid p (length a + length b + 1) a b).

(** Square and multiply, modulo [m]. *)
Fixpoint example_poly_pow_pos (p : Z) (h : list Z) (e : positive) (m : list Z)
  : list Z :=
  match e with
  | xH => snd (example_poly_divmod p h m)
  | xO e' =>
      let s := example_poly_pow_pos p h e' m in
      snd (example_poly_divmod p (example_poly_mul p s s) m)
  | xI e' =>
      let s := example_poly_pow_pos p h e' m in
      let s2 := snd (example_poly_divmod p (example_poly_mul p s s) m) in
      snd (example_poly_divmod p (example_poly_mul p s2 h) m)
  end.

Definition example_poly_pow (p : Z) (h : list Z) (e : Z) (m : list Z) : list Z :=
  match e with
  | Z.pos e' => example_poly_pow_pos p h e' m
  | _ => snd (example_poly_divmod p [1] m)
  end.

Definition example_poly_derivative (p : Z) (a : list Z) : list Z :=
  let n := (length a - 1)%nat in
  strip_zeros
    (match map (fun j => (Z.of_nat (n - j) * nth j a 0) mod p) (seq 0 n) with
     | [] => [0]
     | c => c
     end).

Definition list_Z_eqb (a b : list Z) : bool :=
  (length a =? length b)%nat && forallb (fun xy => fst xy =? snd xy) (combine a b).

(** Modelled from the spec: the polynomials over the prime field
    [GF(p)] that [_poly.py], [_checks.py] and [_functions.py] provide,
    none of them among the sources; Section 4.2 of the spec (coefficient
    sequences in descending degree, arithmetic with the kernels of the
    field). *)
Definition example_polys (p : Z) : poly_lib := {|
  Poly := list Z;
  poly_eqb := list_Z_eqb;
  Poly_One := [1];
  poly_degree := fun a => Z.of_nat (length a) - 1;
  poly_integer := fun a => fold_left (fun acc c => acc * p + c) a 0;
  is_monic := fun a => hd 0 a =? 1;
  poly_sub := example_poly_sub p;
  poly_div := fun a b => fst (example_poly_divmod p a b);
  poly_gcd := example_poly_gcd p;
  poly_pow := example_poly_pow p;
  field_order := p
|}.

(** What [Poly.Random(random.randint(1, n - 1), field=GF(p))] can
    return: a polynomial over [GF(p)] of a degree between 1 and
    [n - 1]. *)
Definition possible_draw (p : Z) (n : Z) (h : list Z) : Prop :=
  1 <= Z.of_nat (length h) - 1 <= n - 1 /\
  hd 0 h <> 0 /\ Forall (fun c => 0 <= c < p) h.

(** A polynomial without a repeated factor: coprime to its derivative. *)
Definition square_free (p : Z) (a : list Z) : Prop :=
  example_poly_gcd p a (example_poly_derivative p a) = [1].


(** ** [meta_mixin_jit.py]: the interpreted routines and the dispatchers *)

(** [l[i]] for [i] produced by [range]: [IndexError] past the end. *)
Definition getitem (l : list Z) (i : nat) : result Z :=
  match nth_error l i with
  | Some x => Ok x
  | None => Raise IndexError
  end.

(** [c[i:i + len(v)] = op(c[i:i + len(v)], v)], the in-place operators
    [+=] and [-=] of a field array on a slice; every slice the routines
    take lies inside the array. *)
Definition slice_update (op : Z -> Z -> Z) (c : list Z) (i : nat) (v : list Z)
  : list Z :=
  firstn i c
  ++ map (fun cv => op (fst cv) (snd cv)) (combine (firstn (length v) (skipn i c)) v)
  ++ skipn (i + length v) c.

(** [_convolve_python].  The arithmetic of field arrays ([*], [+=]) is
    the field's, written with the kernels of the class.  [cls.Zeros]
    rejects the length [-1] of two empty operands. *)
Definition _convolve_python (cls : FieldClass) (a b : list Z) : result (list Z) :=
  if (length a + length b =? 0)%nat then Raise ValueError else
  let c := repeat 0 (length a + length b - 1) in
  let '(a, b) := if (length b <? length a)%nat then (b, a) else (a, b) in
  Ok (for_range (length a) (fun i c =>
        slice_update (_ADD_JIT cls) c i (map (_MULTIPLY_JIT cls (nth i a 0)) b)) c).

(** [np.convolve(a, v)] on integer arrays: [(a * v)[n] = sum_m a[m] v[n - m]];
    an empty operand is rejected. *)
Definition np_convolve (a v : list Z) : result (list Z) :=
  if ((length a =? 0) || (length v =? 0))%nat then Raise ValueError else
  Ok (map (fun n =>
             fold_left Z.add
               (map (fun m => if (m <=? n)%nat then nth m a 0 * nth (n - m) v 0 else 0)
                  (seq 0 (length a))) 0)
        (seq 0 (length a + length v - 1))).

(** [JITMixin._convolve].  The operands are arrays of the class, so the
    assertion passes.  In a prime field the [dtype] chosen holds every
    sum of products (or is [object]), so the integer convolution is
    exact.  In the compiled route [np.zeros] rejects the length [-1] of
    two empty operands. *)
Definition _convolve (cls : FieldClass) (a b : list Z) : result (list Z) :=
  if is_prime_field cls then
    c <- np_convolve a b ;;
    Ok (map (fun x => x mod characteristic cls) c)
  else if ufunc_mode_eqb (ufunc_mode cls) python_calculate then
    _convolve_python cls a b
  else if (length a + length b =? 0)%nat then Raise ValueError
  else Ok (_convolve_jit (_ADD_JIT cls) (_MULTIPLY_JIT cls) a b).

(** [_poly_divmod_python].  What the division [/] of the field does with
    a zero divisor is decided by the field class, outside the sources;
    it is written with the kernel, and the properties of this routine
    take [b[0]] non-zero. *)
Definition _poly_divmod_python (cls : FieldClass) (a b : list Z) : result (list Z) :=
  if (length b <=? length a)%nat then
    let q_degree := (length a - length b)%nat in
    let qr := a in
    for_range_m (q_degree + 1) (fun i qr =>
      qr_i <- getitem qr i ;;
      if qr_i >? 0 then
        b_0 <- getitem b 0 ;;
        let q := _DIVIDE_JIT cls qr_i b_0 in
        let qr := slice_update (_SUBTRACT_JIT cls) qr i (map (_MULTIPLY_JIT cls q) b) in
        Ok (upd i q qr)
      else Ok qr) qr
  else Raise AssertionError.

(** [_poly_evaluate_python] at one value. *)
Definition _poly_evaluate_python (cls : FieldClass) (coeffs : list Z) (values : Z)
  : result Z :=
  result_ <- getitem coeffs 0 ;;
  Ok (fold_left (fun result_ j =>
                   _ADD_JIT cls (nth j coeffs 0) (_MULTIPLY_JIT cls result_ values))
        (seq 1 (length coeffs - 1)) result_).

(** [_poly_evaluate_jit], with the signature [(n),(m)->(m)]: [results]
    is as long as [values].  The subscript [coeffs[0]] of an empty
    [coeffs] is not checked by the compiled code; the model stops with
    [IndexError], as the interpreter would. *)
Definition _poly_evaluate_jit (ADD_JIT MULTIPLY_JIT : Z -> Z -> Z)
  (coeffs values results : list Z) : result (list Z) :=
  for_range_m (length values) (fun i results =>
    coeffs_0 <- getitem coeffs 0 ;;
    let results := upd i coeffs_0 results in
    Ok (fold_left (fun results j =>
                     upd i (ADD_JIT (nth j coeffs 0)
                              (MULTIPLY_JIT (nth i results 0) (nth i values 0)))
                       results)
          (seq 1 (length coeffs - 1)) results)) results.

(** ** [reed_solomon.py]: the matrices as functions *)

(** [rs_generator_matrix] *)
Definition rs_generator_matrix (lib : galois_lib) (n k c : Z)
  (primitive_poly primitive_element_ : option Z) (systematic : bool)
  : result nddata :=
  r <- rs_generator_poly lib n k c primitive_poly primitive_element_ ;;
  let '(g, _, GF) := r in
  generator_poly_to_matrix GF n g systematic.

(** [rs_parity_check_matrix] *)
Definition rs_parity_check_matrix (lib : galois_lib) (n k c : Z)
  (primitive_poly primitive_element_ : option Z) : result nddata :=
  r <- rs_generator_poly lib n k c primitive_poly primitive_element_ ;;
  let '(_, roots, GF) := r in
  Ok (roots_to_parity_check_matrix GF n roots).

(** ** [_polys/_factor.py]: [distinct_degree_factorization] *)

(** [while l <= n // 2 and a != one: ...], with [x = Poly.Identity] and
    the remainder [%] of [Poly], which [_factor.py] takes from [_poly.py]
    and are not among the sources.  [None] when the fuel runs out while
    the loop is running. *)
Fixpoint distinct_degree_loop (L : poly_lib) (x : Poly L)
  (poly_mod : Poly L -> Poly L -> Poly L) (fuel : nat) (n l : Z)
  (a h : Poly L) (factors_ : list (Poly L)) (degrees : list Z)
  : option (Poly L * list (Poly L) * list Z) :=
  let one := Poly_One L in
  if (l <=? n / 2) && negb (poly_eqb L a one) then
    match fuel with
    | O => None
    | S fuel' =>
        let h := poly_pow L h (field_order L) a in
        let z := poly_gcd L a (poly_sub L h x) in
        if negb (poly_eqb L z one) then
          let a := poly_div L a z in
          let h := poly_mod h a in
          distinct_degree_loop L x poly_mod fuel' n (l + 1) a h
            (factors_ ++ [z]) (degrees ++ [l])
        else
          distinct_degree_loop L x poly_mod fuel' n (l + 1) a h factors_ degrees
    end
  else Some (a, factors_, degrees).

(** [distinct_degree_factorization(poly)].  The argument is typed, so
    the [isinstance] check passes. *)
Definition distinct_degree_factorization (L : poly_lib) (Poly_Identity : Poly L)
  (poly_mod : Poly L -> Poly L -> Poly L) (fuel : nat) (poly : Poly L)
  : result (option (list (Poly L) * list Z)) :=
  if negb (poly_degree L poly >=? 1) then Raise ValueError else
  if negb (is_monic L poly) then Raise ValueError else
  let n := poly_degree L poly in
  let one := Poly_One L in
  let x := Poly_Identity in
  match distinct_degree_loop L x poly_mod fuel n 1 poly x [] [] with
  | None => Ok None
  | Some (a, factors_, degrees) =>
      if negb (poly_eqb L a one)
      then Ok (Some (factors_ ++ [a], degrees ++ [poly_degree L a]))
      else Ok (Some (factors_, degrees))
  end.
(** * Auxiliary definitions of the proofs *)

(** ** The field as a ring

    The laws of [FieldLaws] hold on the elements of the field only.
    Clamping every operand into the field makes the kernels total
    operations, for the equality "same element after clamping". *)

Section FieldRingOperations.

Variable cls : FieldClass.

Definition clamp (x : Z) : Z :=
  if (0 <=? x) && (x <? order cls) then x else 0.

Definition fadd (a b : Z) : Z := _ADD_JIT cls (clamp a) (clamp b).
Definition fmul (a b : Z) : Z := _MULTIPLY_JIT cls (clamp a) (clamp b).
Definition fsub (a b : Z) : Z := _SUBTRACT_JIT cls (clamp a) (clamp b).
Definition fopp (a : Z) : Z := _SUBTRACT_JIT cls 0 (clamp a).
Definition feq (a b : Z) : Prop := clamp a = clamp b.

End FieldRingOperations.

(** ** Linear combinations of coefficient sequences *)

Section LinearCombinationOperations.

Variable cls : FieldClass.

(** The sum of two coefficient sequences and the multiple of one. *)
Fixpoint zip_add (u v : list Z) : list Z :=
  match u, v with
  | x :: u', y :: v' => _ADD_JIT cls x y :: zip_add u' v'
  | _, _ => []
  end.

Definition scale (s : Z) (u : list Z) : list Z := map (_MULTIPLY_JIT cls s) u.

(** [m_0 row_0 + m_1 row_1 + ...], on rows of length [n]. *)
Fixpoint lincomb (m : list Z) (rows : list (list Z)) (n : nat) : list Z :=
  match m, rows with
  | mi :: m', row :: rows' => zip_add (scale mi row) (lincomb m' rows' n)
  | _, _ => repeat 0 n
  end.

(** The product of a vector and a matrix with [n] columns, entry by
    entry. *)
Definition vecmat (m : list Z) (rows : list (list Z)) (n : nat) : list Z :=
  map (fun j => field_dot cls m (column rows j)) (seq 0 n).

End LinearCombinationOperations.

(** ** Shapes and products of matrices *)

(** A list of [M] rows of length [N]. *)
Definition rows_shaped (M N : nat) (C : list (list Z)) : Prop :=
  length C = M /\ Forall (fun r => length r = N) C.

(** The rows of the product the spec asks for. *)
Definition product_rows (cls : FieldClass) (M N : nat) (rowsA rowsB : list (list Z)) : list (list Z) :=
  map (fun i => map (fun j => field_dot cls (nth i rowsA []) (column rowsB j)) (seq 0 N))
    (seq 0 M).

(** ** Products with a linear factor *)

(** One pass of the outer loop of [_convolve_jit] when the second operand
    is [[1; s]]. *)
Definition linear_factor_step (add mul : Z -> Z -> Z) (a : list Z) (s : Z) (i : nat)
  (c : list Z) : list Z :=
  let c := upd (i + 1) (add (nth (i + 1) c 0) (mul (nth i a 0) s)) c in
  upd (i + 0) (add (nth (i + 0) c 0) (mul (nth i a 0) 1)) c.

(** The coefficients of [a(x) (x + s)], cell by cell as the loop leaves
    them; [carry] is what the previous coefficient put in the cell. *)
Fixpoint linear_factor_product (add mul : Z -> Z -> Z) (s carry : Z) (a : list Z) : list Z :=
  match a with
  | [] => [carry]
  | x :: a' =>
      add carry (mul x 1) :: linear_factor_product add mul s (add 0 (mul x s)) a'
  end.

(** ** Division, step by step *)

(** The statements under [for i in range(0, q_degree + 1):]. *)
Definition divide_step (SUBTRACT_JIT MULTIPLY_JIT DIVIDE_JIT : Z -> Z -> Z)
  (b : list Z) (i : nat) (qr : list Z) : list Z :=
  if nth i qr 0 >? 0 then
    let q := DIVIDE_JIT (nth i qr 0) (nth 0 b 0) in
    let qr :=
      for_range (length b) (fun j qr =>
        upd (i + j) (SUBTRACT_JIT (nth (i + j) qr 0) (MULTIPLY_JIT q (nth j b 0))) qr) qr in
    upd i q qr
  else qr.

(** ** Codes, rows and remainders *)


(** The rows of [G] of a code that is not systematic: [g] shifted. *)
Definition shifted_rows (g : list Z) (k : nat) : list (list Z) :=
  map (fun i => repeat 0 i ++ g ++ repeat 0 (k - 1 - i)) (seq 0 k).



(** ** The Forney step *)

(** The position of the symbol an error location names. *)
Definition error_position (n : nat) (location : Z) : nat := Z.to_nat (Z.of_nat n - 1 - location).

(** The correction of one symbol in the Forney loop. *)
Definition correct_symbol (n : nat) (SUBTRACT : BINARY_CALCULATE_SIG) (args : kernel_args)
  (delta : Z -> Z) (row : list Z) (root : Z * Z) : list Z :=
  upd (error_position n (snd root))
    (SUBTRACT (nth (error_position n (snd root)) row 0) (delta (fst root)) args) row.

(** ** Products of polynomials *)

(** [t + x * bs] on the leading coefficients of [t]. *)
Fixpoint add_scaled (ADD_JIT MULTIPLY_JIT : Z -> Z -> Z) (x : Z) (bs t : list Z)
  : list Z :=
  match bs, t with
  | b0 :: bs', h :: t' =>
      ADD_JIT h (MULTIPLY_JIT x b0) :: add_scaled ADD_JIT MULTIPLY_JIT x bs' t'
  | _, _ => t
  end.

(** Schoolbook multiplication, one coefficient of [a] at a time. *)
Fixpoint convolve_rows (ADD_JIT MULTIPLY_JIT : Z -> Z -> Z) (b a c : list Z)
  : list Z :=
  match a with
  | [] => c
  | x :: a' =>
      match add_scaled ADD_JIT MULTIPLY_JIT x b c with
      | [] => []
      | h :: t => h :: convolve_rows ADD_JIT MULTIPLY_JIT b a' t
      end
  end.

(** The product of two polynomials: the combination of the shifts of [b]
    with the coefficients of [a]. *)
Definition poly_product (cls : FieldClass) (a b : list Z) : list Z :=
  lincomb cls a (shifted_rows b (length a)) (length a + length b - 1).

(** ** Messages through [encode] *)

(** A code object whose generator matrix has the shape [(k, n)] of its
    documentation, with [0 <= k <= n]. *)
Definition generator_matrix_shaped (self : ReedSolomon) : Prop :=
  (exists rows, _G self = Arr2 (Z.to_nat (_k self)) (Z.to_nat (_n self)) rows) /\
  wf_data (_G self) /\ 0 <= _k self <= _n self.

(** The parity symbols [m @ G[:, k:]] of one message. *)
Definition parity_row (self : ReedSolomon) (m : list Z) : list Z :=
  map (fun j => matmul_entry (_field self) m (column (parity_matrix_rows self) j))
    (seq 0 (Z.to_nat (_n self) - Z.to_nat (_k self))).

(** What [encode] returns for one message. *)
Definition encoded_row (self : ReedSolomon) (parity_only : bool) (m : list Z) : list Z :=
  if parity_only then parity_row self m else encode_row self m.

(** ** Symbols changed by the decoder *)

(** The number of positions at which two arrays differ. *)
Definition differences (a b : list Z) : nat :=
  length (filter (fun xy => negb (fst xy =? snd xy)) (combine a b)).


(* ================================================================== *)
(** * Part II. Properties *)
(* ================================================================== *)

(** ** Loops over lists used as arrays *)

Lemma upd_length {A : Type} (i : nat) (x : A) (l : list A) :
  length (upd i x l) = length l.
Proof.
  revert i; induction l as [|h t IH]; intros [|i]; simpl; auto.
Qed.

Lemma nth_upd_eq {A : Type} (d : A) (i : nat) (x : A) (l : list A) :
  (i < length l)%nat -> nth i (upd i x l) d = x.
Proof.
  revert i; induction l as [|h t IH]; intros [|i] H; simpl in *; try lia; auto.
  apply IH; lia.
Qed.

Lemma nth_upd_ne {A : Type} (d : A) (i j : nat) (x : A) (l : list A) :
  i <> j -> nth j (upd i x l) d = nth j l d.
Proof.
  revert i j; induction l as [|h t IH]; intros [|i] [|j] H; simpl; auto; try lia.
Qed.

Lemma upd_upd {A : Type} (i : nat) (x y : A) (l : list A) :
  upd i y (upd i x l) = upd i y l.
Proof.
  revert i; induction l as [|h t IH]; intros [|i]; simpl; auto.
  now rewrite IH.
Qed.

Lemma upd_nth {A : Type} (d : A) (i : nat) (l : list A) :
  upd i (nth i l d) l = l.
Proof.
  revert i; induction l as [|h t IH]; intros [|i]; simpl; auto.
  now rewrite IH.
Qed.

Lemma upd_app_r {A : Type} (l1 l2 : list A) (x : A) :
  upd (length l1) x (l1 ++ l2) = l1 ++ upd 0 x l2.
Proof.
  induction l1 as [|h t IH]; simpl; [reflexivity | now rewrite IH].
Qed.

Lemma for_range_S {S : Type} (n : nat) (body : nat -> S -> S) (s : S) :
  for_range (Datatypes.S n) body s = body n (for_range n body s).
Proof.
  unfold for_range. rewrite seq_S, fold_left_app. reflexivity.
Qed.

Lemma for_range_0 {S : Type} (body : nat -> S -> S) (s : S) :
  for_range 0 body s = s.
Proof. reflexivity. Qed.

(** Two loop bodies that agree on every state satisfying an invariant
    run to the same result. *)
Lemma for_range_ext_inv {S : Type} (Inv : S -> Prop) (n : nat)
  (b1 b2 : nat -> S -> S) (s : S) :
  Inv s ->
  (forall k s', (k < n)%nat -> Inv s' -> b1 k s' = b2 k s' /\ Inv (b2 k s')) ->
  for_range n b1 s = for_range n b2 s /\ Inv (for_range n b2 s).
Proof.
  intros H0 Hb. induction n as [|n IH].
  - split; [reflexivity | exact H0].
  - rewrite !for_range_S.
    destruct IH as [E I]; [intros; apply Hb; auto; lia|].
    rewrite E. apply Hb; auto.
Qed.

(** A loop that only rewrites cell [i] is a loop on that cell. *)
Lemma for_range_lift {A : Type} (d : A) (i : nat) (b : nat -> A -> A) (n : nat)
  (l : list A) :
  (i < length l)%nat ->
  for_range n (fun k l => upd i (b k (nth i l d)) l) l
  = upd i (for_range n b (nth i l d)) l.
Proof.
  intros Hi. induction n as [|n IH].
  - rewrite !for_range_0. now rewrite upd_nth.
  - rewrite !for_range_S, IH. rewrite nth_upd_eq by exact Hi.
    now rewrite upd_upd.
Qed.

(** A loop that fills cell [i] at step [i] from the old value of the cell
    builds the array of the filled values. *)
Lemma for_range_fill_prefix {A : Type} (d : A) (f : nat -> A -> A) (l : list A)
  (k : nat) :
  (k <= length l)%nat ->
  for_range k (fun i l => upd i (f i (nth i l d)) l) l
  = map (fun i => f i (nth i l d)) (seq 0 k) ++ skipn k l.
Proof.
  induction k as [|k IH]; intros Hk.
  - reflexivity.
  - rewrite for_range_S, IH by lia.
    set (pre := map _ (seq 0 k)).
    assert (Hpre : length pre = k) by (unfold pre; now rewrite length_map, length_seq).
    assert (Hsk : skipn k l = nth k l d :: skipn (Datatypes.S k) l).
    { clear -Hk. revert k Hk. induction l as [|h t IHl]; intros [|k] Hk; simpl in *; try lia; auto.
      apply IHl; lia. }
    rewrite Hsk.
    rewrite app_nth2 by lia. rewrite Hpre, Nat.sub_diag. simpl nth.
    rewrite <- Hpre at 1. rewrite upd_app_r. simpl upd.
    rewrite seq_S, map_app. simpl. rewrite <- app_assoc. reflexivity.
Qed.

Lemma for_range_fill {A : Type} (d : A) (f : nat -> A -> A) (l : list A) :
  for_range (length l) (fun i l => upd i (f i (nth i l d)) l) l
  = map (fun i => f i (nth i l d)) (seq 0 (length l)).
Proof.
  rewrite for_range_fill_prefix by lia.
  rewrite skipn_all. now rewrite app_nil_r.
Qed.

(** ** The matrix product *)

Lemma Forall_upd {A : Type} (P : A -> Prop) (i : nat) (x : A) (l : list A) :
  P x -> Forall P l -> Forall P (upd i x l).
Proof.
  intros Hx Hl. revert i. induction Hl as [|h t Hh Ht IH]; intros [|i]; simpl; auto.
Qed.

Lemma nth_repeat_zero (n j : nat) : nth j (repeat 0 n) 0 = 0.
Proof.
  revert j; induction n as [|n IH]; intros [|j]; simpl; auto.
Qed.

Lemma column_nth (rows : list (list Z)) (j k : nat) :
  nth k (column rows j) 0 = get2 rows k j.
Proof.
  unfold column, get2.
  destruct (Nat.lt_ge_cases k (length rows)) as [H|H].
  - rewrite (nth_indep _ 0 (nth j [] 0)) by (now rewrite length_map).
    apply (map_nth (fun row => nth j row 0)).
  - rewrite (nth_overflow (map _ rows)) by (now rewrite length_map).
    rewrite (nth_overflow rows) by exact H.
    now destruct j.
Qed.

Lemma column_length (rows : list (list Z)) (j : nat) :
  length (column rows j) = length rows.
Proof. unfold column. apply length_map. Qed.

(** The innermost loop accumulates into one cell. *)
Lemma matmul_k_loop (F : nat -> Z -> Z) (K i j : nat) (C : list (list Z)) :
  (i < length C)%nat -> (j < length (nth i C []))%nat ->
  for_range K (fun k C => set2 C i j (F k (get2 C i j))) C
  = set2 C i j (fold_left (fun acc k => F k acc) (seq 0 K) (get2 C i j)).
Proof.
  intros Hi Hj. unfold set2, get2.
  rewrite (for_range_lift [] i (fun k row => upd j (F k (nth j row 0)) row)) by exact Hi.
  f_equal.
  rewrite (for_range_lift 0 j F) by exact Hj.
  reflexivity.
Qed.

(** The middle loop fills one row. *)
Lemma matmul_j_loop (h : nat -> Z -> Z) (N i : nat) (C : list (list Z)) :
  (i < length C)%nat -> length (nth i C []) = N ->
  for_range N (fun j C => set2 C i j (h j (get2 C i j))) C
  = upd i (map (fun j => h j (get2 C i j)) (seq 0 N)) C.
Proof.
  intros Hi HN. unfold set2, get2.
  rewrite (for_range_lift [] i (fun j row => upd j (h j (nth j row 0)) row)) by exact Hi.
  f_equal. subst N. apply for_range_fill.
Qed.

Lemma rows_shaped_nth (M N : nat) (C : list (list Z)) (i : nat) :
  rows_shaped M N C -> (i < M)%nat -> length (nth i C []) = N.
Proof.
  intros [HL HF] Hi. rewrite Forall_forall in HF. apply HF, nth_In. lia.
Qed.

Lemma rows_shaped_zeros (M N : nat) : rows_shaped M N (repeat (repeat 0 N) M).
Proof.
  split; [apply repeat_length|].
  apply Forall_forall. intros r Hr. apply repeat_spec in Hr. subst. apply repeat_length.
Qed.

Lemma rows_shaped_upd (M N : nat) (C : list (list Z)) (i : nat) (row : list Z) :
  rows_shaped M N C -> length row = N -> rows_shaped M N (upd i row C).
Proof.
  intros [HL HF] Hr. split; [now rewrite upd_length | now apply Forall_upd].
Qed.

(** Two loops that set every cell once, row by row, over a zero matrix. *)
Lemma fill_loops (h : nat -> nat -> Z -> Z) (M N : nat) :
  for_range M (fun i C =>
    for_range N (fun j C => set2 C i j (h i j (get2 C i j))) C)
    (repeat (repeat 0 N) M)
  = map (fun i => map (fun j => h i j 0) (seq 0 N)) (seq 0 M).
Proof.
  set (G := fun i (row : list Z) => map (fun j => h i j (nth j row 0)) (seq 0 N)).
  destruct (for_range_ext_inv (rows_shaped M N) M
              (fun i C => for_range N (fun j C => set2 C i j (h i j (get2 C i j))) C)
              (fun i C => upd i (G i (nth i C [])) C)
              (repeat (repeat 0 N) M) (rows_shaped_zeros M N)) as [E _].
  { intros i C Hi HC. split.
    - rewrite matmul_j_loop; [reflexivity | destruct HC; lia |].
      now apply (rows_shaped_nth M).
    - apply rows_shaped_upd; [exact HC|]. unfold G. now rewrite length_map, length_seq. }
  rewrite E.
  replace M with (length (repeat (repeat 0 N) M)) at 1 by apply repeat_length.
  rewrite (for_range_fill [] G). rewrite repeat_length.
  apply map_ext_in. intros i Hi. apply in_seq in Hi.
  unfold G. apply map_ext. intros j.
  replace (nth i (repeat (repeat 0 N) M) []) with (repeat 0 N).
  - now rewrite nth_repeat_zero.
  - symmetry. apply (repeat_spec M). apply nth_In. rewrite repeat_length. lia.
Qed.

(** The three loops of [_matmul_jit] compute, in every cell, the
    left-to-right accumulation of the products. *)
Lemma matmul_loops (add mul : Z -> Z -> Z) (M K N : nat) (rowsA rowsB : list (list Z)) :
  for_range M (fun i C =>
    for_range N (fun j C =>
      for_range K (fun k C =>
        set2 C i j (add (get2 C i j) (mul (get2 rowsA i k) (get2 rowsB k j)))) C) C)
    (repeat (repeat 0 N) M)
  = map (fun i =>
           map (fun j =>
                  fold_left (fun acc k => add acc (mul (get2 rowsA i k) (get2 rowsB k j)))
                    (seq 0 K) 0)
             (seq 0 N))
      (seq 0 M).
Proof.
  set (h := fun i j (x : Z) =>
              fold_left (fun acc k => add acc (mul (get2 rowsA i k) (get2 rowsB k j)))
                (seq 0 K) x).
  rewrite <- (fill_loops h).
  apply (for_range_ext_inv (rows_shaped M N)); [apply rows_shaped_zeros|].
  intros i C Hi HC.
  assert (HI : length C = M /\ length (nth i C []) = N).
  { split; [apply HC | now apply (rows_shaped_nth M)]. }
  destruct (for_range_ext_inv
              (fun C' : list (list Z) => length C' = M /\ length (nth i C' []) = N) N
              (fun j C =>
                 for_range K (fun k C =>
                   set2 C i j (add (get2 C i j) (mul (get2 rowsA i k) (get2 rowsB k j)))) C)
              (fun j C => set2 C i j (h i j (get2 C i j))) C HI) as [E _].
  { intros j C' Hj [HL HN]. split.
    - apply (matmul_k_loop
               (fun k x => add x (mul (get2 rowsA i k) (get2 rowsB k j)))); lia.
    - unfold set2. rewrite upd_length. split; [exact HL|].
      rewrite nth_upd_eq by lia. now rewrite upd_length. }
  split; [exact E|].
  rewrite matmul_j_loop by (destruct HI; lia).
  apply rows_shaped_upd; [exact HC|]. now rewrite length_map, length_seq.
Qed.

Lemma fold_left_ext_all {A B : Type} (f g : A -> B -> A) (l : list B) (a : A) :
  (forall a x, f a x = g a x) -> fold_left f l a = fold_left g l a.
Proof.
  intros H. revert a. induction l as [|x l IH]; intros a; simpl; auto.
  now rewrite H, IH.
Qed.

Lemma fold_left_map_in {A B C : Type} (f : A -> B -> A) (g : C -> B)
  (l : list C) (a : A) :
  fold_left f (map g l) a = fold_left (fun a x => f a (g x)) l a.
Proof.
  revert a; induction l as [|x l IH]; intros a; simpl; auto.
Qed.

(** The accumulation over [k] reads the row of [A] and the column of [B]
    in step. *)
Lemma fold_seq_combine (f : Z -> Z -> Z -> Z) (a b : list Z) (acc : Z) :
  length a = length b ->
  fold_left (fun acc k => f acc (nth k a 0) (nth k b 0)) (seq 0 (length a)) acc
  = fold_left (fun acc xy => f acc (fst xy) (snd xy)) (combine a b) acc.
Proof.
  revert b acc. induction a as [|x a IH]; intros [|y b] acc H; simpl in *; try lia; auto.
  rewrite <- seq_shift, fold_left_map_in. simpl.
  apply IH. lia.
Qed.

(** ** Elementary consequences of the field laws *)

Create HintDb fld.

Section FieldFacts.

Variable cls : FieldClass.
Hypothesis laws : FieldLaws cls.

Local Abbreviation F := (in_field cls).
Local Abbreviation add := (_ADD_JIT cls).
Local Abbreviation sub := (_SUBTRACT_JIT cls).
Local Abbreviation mul := (_MULTIPLY_JIT cls).

Lemma in_field_0 : F 0.
Proof. pose proof (law_order cls laws). unfold in_field. lia. Qed.

Lemma in_field_1 : F 1.
Proof. pose proof (law_order cls laws). unfold in_field. lia. Qed.

Lemma in_field_add a b : F a -> F b -> F (add a b).
Proof. apply (law_add_closed cls laws). Qed.

Lemma in_field_sub a b : F a -> F b -> F (sub a b).
Proof. apply (law_subtract_closed cls laws). Qed.

Lemma in_field_mul a b : F a -> F b -> F (mul a b).
Proof. apply (law_multiply_closed cls laws). Qed.

Hint Resolve in_field_0 in_field_1 in_field_add in_field_sub in_field_mul : fld.

Lemma add_zero_r a : F a -> add a 0 = a.
Proof.
  intros Ha. rewrite (law_add_comm cls laws) by auto with fld.
  now apply (law_add_zero cls laws).
Qed.

Lemma in_field_nth (l : list Z) (k : nat) : Forall F l -> F (nth k l 0).
Proof.
  intros H. destruct (Nat.lt_ge_cases k (length l)) as [Hk|Hk].
  - rewrite Forall_forall in H. apply H, nth_In, Hk.
  - rewrite nth_overflow by exact Hk. apply in_field_0.
Qed.

Lemma in_field_column (rows : list (list Z)) (j : nat) :
  Forall (Forall F) rows -> Forall F (column rows j).
Proof.
  intros H. unfold column. apply Forall_map.
  eapply Forall_impl; [|exact H]. intros row Hrow. now apply in_field_nth.
Qed.

Lemma in_field_nth_row (rows : list (list Z)) (i : nat) :
  Forall (Forall F) rows -> Forall F (nth i rows []).
Proof.
  intros H. destruct (Nat.lt_ge_cases i (length rows)) as [Hk|Hk].
  - rewrite Forall_forall in H. apply H, nth_In, Hk.
  - rewrite nth_overflow by exact Hk. constructor.
Qed.

Lemma in_field_dot (a b : list Z) :
  Forall F a -> Forall F b -> F (field_dot cls a b).
Proof.
  intros Ha. revert b. induction Ha as [|x a Hx Ha IH]; intros b Hb; simpl.
  - apply in_field_0.
  - destruct Hb as [|y b Hy Hb]; [apply in_field_0|]. auto with fld.
Qed.

(** Accumulating the products from the left adds the contraction to the
    accumulator. *)
Lemma fold_left_dot (a b : list Z) (acc : Z) :
  Forall F a -> Forall F b -> F acc ->
  fold_left (fun acc xy => add acc (mul (fst xy) (snd xy))) (combine a b) acc
  = add acc (field_dot cls a b).
Proof.
  intros Ha. revert b acc. induction Ha as [|x a Hx Ha IH]; intros b acc Hb Hacc; simpl.
  - now rewrite add_zero_r.
  - destruct Hb as [|y b Hy Hb]; simpl; [now rewrite add_zero_r|].
    rewrite IH by auto with fld.
    symmetry. apply (law_add_assoc cls laws); auto with fld.
    now apply in_field_dot.
Qed.

Lemma jit_entry (a b : list Z) :
  length a = length b -> Forall F a -> Forall F b ->
  fold_left (fun acc k => add acc (mul (nth k a 0) (nth k b 0))) (seq 0 (length a)) 0
  = field_dot cls a b.
Proof.
  intros HL Ha Hb.
  rewrite (fold_seq_combine (fun acc x y => add acc (mul x y))) by exact HL.
  rewrite fold_left_dot by auto with fld.
  apply (law_add_zero cls laws). now apply in_field_dot.
Qed.

(** [np.sum] of the products is the contraction as well. *)
Lemma python_entry (a b : list Z) :
  Forall F a -> Forall F b ->
  np_sum add (map (fun ab => mul (fst ab) (snd ab)) (combine a b))
  = field_dot cls a b.
Proof.
  intros Ha Hb. destruct Ha as [|x a Hx Ha]; [reflexivity|].
  destruct Hb as [|y b Hy Hb]; [reflexivity|]. simpl.
  rewrite fold_left_map_in.
  apply fold_left_dot; auto with fld.
Qed.

(** In a prime field the integer dot product reduced modulo [p] is the
    contraction. *)
Lemma int_dot_mod (a b : list Z) (acc : Z) :
  degree cls = 1 -> Forall F a -> Forall F b ->
  fold_left (fun acc ab => acc + fst ab * snd ab) (combine a b) acc
    mod characteristic cls
  = (acc + field_dot cls a b) mod characteristic cls.
Proof.
  intros Hd Ha. destruct (law_prime_field cls laws Hd) as [Ho Hk].
  revert b acc. induction Ha as [|x a Hx Ha IH]; intros b acc Hb; simpl.
  - now rewrite Z.add_0_r.
  - destruct Hb as [|y b Hy Hb]; simpl; [now rewrite Z.add_0_r|].
    rewrite IH by exact Hb.
    destruct (Hk x y Hx Hy) as [_ Hm]. rewrite Hm.
    assert (Hdot : F (field_dot cls a b)) by now apply in_field_dot.
    assert (Hxy : F ((x * y) mod characteristic cls)).
    { rewrite <- Hm. auto with fld. }
    destruct (Hk _ _ Hxy Hdot) as [Hadd _]. rewrite Hadd.
    rewrite Zplus_mod_idemp_r.
    replace (acc + ((x * y) mod characteristic cls + field_dot cls a b))
      with ((x * y) mod characteristic cls + (acc + field_dot cls a b)) by lia.
    rewrite Zplus_mod_idemp_l. f_equal. lia.
Qed.

Lemma lapack_entry (a b : list Z) :
  degree cls = 1 -> Forall F a -> Forall F b ->
  int_dot a b mod characteristic cls = field_dot cls a b.
Proof.
  intros Hd Ha Hb. unfold int_dot. rewrite int_dot_mod by assumption.
  simpl. apply Z.mod_small.
  destruct (law_prime_field cls laws Hd) as [Ho _]. rewrite <- Ho.
  now apply in_field_dot.
Qed.

End FieldFacts.

#[export] Hint Resolve in_field_0 in_field_1 in_field_add in_field_sub in_field_mul
  in_field_nth in_field_column in_field_nth_row in_field_dot : fld.

Section MatmulCorrect.

Variable cls : FieldClass.
Hypothesis laws : FieldLaws cls.

Local Abbreviation F := (in_field cls).

Lemma matmul_jit_rows (M K N : nat) (rowsA rowsB : list (list Z)) :
  rows_shaped M K rowsA -> length rowsB = K ->
  Forall (Forall F) rowsA -> Forall (Forall F) rowsB ->
  _matmul_jit (_ADD_JIT cls) (_MULTIPLY_JIT cls) (Arr2 M K rowsA) (Arr2 K N rowsB)
  = Ok (Arr2 M N (product_rows cls M N rowsA rowsB)).
Proof.
  intros HA HB FA FB. unfold _matmul_jit. rewrite Nat.eqb_refl.
  rewrite matmul_loops. do 2 f_equal. unfold product_rows.
  apply map_ext_in. intros i Hi. apply in_seq in Hi.
  apply map_ext. intros j.
  rewrite <- (jit_entry cls laws); auto with fld.
  - rewrite (rows_shaped_nth M K) by (auto; lia).
    apply fold_left_ext_all. intros acc k.
    now rewrite column_nth.
  - rewrite column_length, (rows_shaped_nth M K) by (auto; lia). now symmetry.
Qed.

Lemma matmul_python_rows (M K N : nat) (rowsA rowsB : list (list Z)) :
  Forall (Forall F) rowsA -> Forall (Forall F) rowsB ->
  _matmul_python cls (Arr2 M K rowsA) (Arr2 K N rowsB)
  = Ok (Arr2 M N (product_rows cls M N rowsA rowsB)).
Proof.
  intros FA FB. unfold _matmul_python. rewrite Nat.eqb_refl.
  rewrite (fill_loops
             (fun i j _ =>
                np_sum (_ADD_JIT cls)
                  (map (fun ab => _MULTIPLY_JIT cls (fst ab) (snd ab))
                     (combine (nth i rowsA []) (column rowsB j))))).
  do 2 f_equal. unfold product_rows.
  apply map_ext. intros i. apply map_ext. intros j.
  apply (python_entry cls laws); auto with fld.
Qed.

Lemma column_of_column_vector (b : list Z) :
  column (map (fun x => [x]) b) 0 = b.
Proof.
  unfold column. rewrite map_map. simpl. apply map_id.
Qed.

Lemma concat_singletons {A : Type} (f : nat -> A) (l : list nat) :
  concat (map (fun i => [f i]) l) = map f l.
Proof.
  induction l as [|x l IH]; simpl; [reflexivity | now rewrite IH].
Qed.

Lemma in_field_column_vector (b : list Z) :
  Forall F b -> Forall (Forall F) (map (fun x => [x]) b).
Proof.
  intros H. apply Forall_map. eapply Forall_impl; [|exact H].
  intros x Hx. now constructor.
Qed.

Lemma array_type_eqb_refl (t : array_type) : array_type_eqb t t = true.
Proof. destruct t; simpl; [reflexivity | apply Z.eqb_refl]. Qed.

(** The compiled and the interpreted product agree with the spec on
    operands whose inner dimensions match. *)
Lemma matmul_kernel_rows (M K N : nat) (rowsA rowsB : list (list Z)) :
  rows_shaped M K rowsA -> length rowsB = K ->
  Forall (Forall F) rowsA -> Forall (Forall F) rowsB ->
  (if ufunc_mode_eqb (ufunc_mode cls) python_calculate
   then _matmul_python cls (Arr2 M K rowsA) (Arr2 K N rowsB)
   else _matmul_jit (_ADD_JIT cls) (_MULTIPLY_JIT cls) (Arr2 M K rowsA) (Arr2 K N rowsB))
  = Ok (Arr2 M N (product_rows cls M N rowsA rowsB)).
Proof.
  intros. destruct (ufunc_mode_eqb _ _).
  - now apply matmul_python_rows.
  - now apply matmul_jit_rows.
Qed.

(** [_matmul] on operands of one or two dimensions over one field: a
    [ValueError] when the inner dimensions differ, the product of the
    spec otherwise. *)
Lemma matmul_characterised (A B : ndarray) :
  atype A = atype B ->
  is_vector_or_matrix (val A) -> is_vector_or_matrix (val B) ->
  wf_data (val A) -> wf_data (val B) ->
  data_in_field cls (val A) -> data_in_field cls (val B) ->
  _matmul cls A B
  = if (columns_of (val A) =? rows_of (val B))%nat
    then Ok {| atype := atype A; val := matmul_spec cls (val A) (val B) |}
    else Raise ValueError.
Proof.
  intros Ht VA VB WA WB FA FB.
  unfold _matmul. rewrite <- Ht, array_type_eqb_refl. simpl negb. cbv iota.
  destruct A as [tA dA], B as [tB dB]. simpl in *. unfold ndim, shape. simpl val.
  destruct dA as [x|a|M K rowsA|sA]; try contradiction;
    destruct dB as [y|b|K' N rowsB|sB]; try contradiction;
    simpl data_shape; simpl length; simpl andb; simpl negb; cbv iota;
    unfold columns_of, rows_of, last_dim, second_last_dim; simpl data_shape;
    simpl last; simpl hd; simpl removelast.
  - (* vector, vector *)
    destruct (is_prime_field cls) eqn:Hp.
    + unfold _lapack_linalg_matmul. simpl.
      destruct (length a =? length b)%nat; simpl; [|reflexivity].
      unfold is_prime_field in Hp. apply Z.eqb_eq in Hp.
      now rewrite (lapack_entry cls laws).
    + destruct (length a =? length b)%nat eqn:E; simpl negb; cbv iota; [|reflexivity].
      apply Nat.eqb_eq in E. rewrite <- E.
      rewrite matmul_kernel_rows.
      * simpl. unfold product_rows. simpl. now rewrite column_of_column_vector.
      * split; [reflexivity | now repeat constructor].
      * now rewrite length_map.
      * now repeat constructor.
      * now apply in_field_column_vector.
  - (* vector, matrix *)
    destruct WB as [WB1 WB2].
    destruct (is_prime_field cls) eqn:Hp.
    + unfold _lapack_linalg_matmul. simpl.
      destruct (length a =? K')%nat; simpl; [|reflexivity].
      unfold is_prime_field in Hp. apply Z.eqb_eq in Hp.
      do 3 f_equal. rewrite map_map. apply map_ext. intros j.
      apply (lapack_entry cls laws); auto with fld.
    + destruct (length a =? K')%nat eqn:E; simpl negb; cbv iota; [|reflexivity].
      apply Nat.eqb_eq in E. rewrite E.
      rewrite matmul_kernel_rows.
      * simpl. unfold product_rows. simpl. now rewrite app_nil_r.
      * split; [reflexivity | now repeat constructor].
      * exact WB1.
      * now repeat constructor.
      * exact FB.
  - (* matrix, vector *)
    destruct WA as [WA1 WA2].
    destruct (is_prime_field cls) eqn:Hp.
    + unfold _lapack_linalg_matmul. simpl.
      destruct (K =? length b)%nat; simpl; [|reflexivity].
      unfold is_prime_field in Hp. apply Z.eqb_eq in Hp.
      do 3 f_equal. rewrite map_map. apply map_ext. intros i.
      apply (lapack_entry cls laws); auto with fld.
    + destruct (K =? length b)%nat eqn:E; simpl negb; cbv iota; [|reflexivity].
      apply Nat.eqb_eq in E. rewrite <- E.
      rewrite matmul_kernel_rows.
      * simpl. unfold product_rows. simpl.
        rewrite column_of_column_vector.
        now rewrite (concat_singletons (fun i => field_dot cls (nth i rowsA []) b)).
      * now split.
      * now rewrite length_map.
      * exact FA.
      * now apply in_field_column_vector.
  - (* matrix, matrix *)
    destruct WA as [WA1 WA2]. destruct WB as [WB1 WB2].
    destruct (is_prime_field cls) eqn:Hp.
    + unfold _lapack_linalg_matmul. simpl.
      destruct (K =? K')%nat; simpl; [|reflexivity].
      unfold is_prime_field in Hp. apply Z.eqb_eq in Hp.
      do 3 f_equal. rewrite map_map. apply map_ext. intros i.
      rewrite map_map. apply map_ext. intros j.
      apply (lapack_entry cls laws); auto with fld.
    + destruct (K =? K')%nat eqn:E; simpl negb; cbv iota; [|reflexivity].
      apply Nat.eqb_eq in E. rewrite <- E in WB1. rewrite <- E.
      rewrite matmul_kernel_rows; auto.
      now split.
Qed.

End MatmulCorrect.

(** ** [decode_calculate], row by row *)

Lemma bind_ok {A B : Type} (r : result A) (k : A -> result B) (b : B) :
  bind r k = Ok b -> exists a, r = Ok a /\ k a = Ok b.
Proof.
  destruct r as [a|e]; simpl; intros H; [eauto | discriminate].
Qed.

Lemma for_each_m_app {S : Type} (l1 l2 : list nat) (body : nat -> S -> result S)
  (s : S) :
  for_each_m (l1 ++ l2) body s = s' <- for_each_m l1 body s ;; for_each_m l2 body s'.
Proof.
  revert s. induction l1 as [|i l1 IH]; intros s; simpl; [reflexivity|].
  destruct (body i s) as [s'|e]; simpl; [apply IH | reflexivity].
Qed.

Lemma for_each_m_ext {S : Type} (l : list nat) (b1 b2 : nat -> S -> result S) (s : S) :
  (forall i s', In i l -> b1 i s' = b2 i s') ->
  for_each_m l b1 s = for_each_m l b2 s.
Proof.
  revert s. induction l as [|i l IH]; intros s H; simpl; [reflexivity|].
  rewrite H by (now left). destruct (b2 i s) as [s'|e]; simpl; [|reflexivity].
  apply IH. intros; apply H; now right.
Qed.

(** A loop whose body only rewrites row [i] of the state is a loop on
    that row. *)
Lemma for_each_m_lift {A : Type} (d : A) (i : nat) (b : nat -> A -> result A)
  (js : list nat) (l : list A) :
  (i < length l)%nat ->
  for_each_m js (fun j l => r <- b j (nth i l d) ;; Ok (upd i r l)) l
  = r <- for_each_m js b (nth i l d) ;; Ok (upd i r l).
Proof.
  intros Hi. revert l Hi. induction js as [|j js IH]; intros l Hi; simpl.
  - now rewrite upd_nth.
  - destruct (b j (nth i l d)) as [r|e]; simpl; [|reflexivity].
    rewrite IH by (now rewrite upd_length).
    rewrite nth_upd_eq by exact Hi.
    destruct (for_each_m js b r) as [r'|e]; simpl; [|reflexivity].
    now rewrite upd_upd.
Qed.

Lemma sequence_length {A : Type} (xs : list (result A)) (rs : list A) :
  sequence xs = Ok rs -> length rs = length xs.
Proof.
  revert rs. induction xs as [|x xs IH]; intros rs H; simpl in *.
  - now inversion H.
  - destruct x as [a|e]; simpl in H; [|discriminate].
    destruct (sequence xs) as [rs'|e]; simpl in H; [|discriminate].
    inversion H; subst. simpl. f_equal. now apply IH.
Qed.

Lemma sequence_snoc {A : Type} (xs : list (result A)) (y : result A) :
  sequence (xs ++ [y]) = rs <- sequence xs ;; r <- y ;; Ok (rs ++ [r]).
Proof.
  induction xs as [|x xs IHx]; simpl.
  - destruct y; reflexivity.
  - destruct x as [a|e]; simpl; [|reflexivity]. rewrite IHx.
    destruct (sequence xs); simpl; [|reflexivity]. destruct y; reflexivity.
Qed.

Lemma sequence_nth {A : Type} (d : A) (xs : list (result A)) (rs : list A) (i : nat) :
  sequence xs = Ok rs -> (i < length xs)%nat -> nth i xs (Ok d) = Ok (nth i rs d).
Proof.
  revert rs i. induction xs as [|x xs IH]; intros rs i H Hi; simpl in *; [lia|].
  destruct x as [a|e]; simpl in H; [|discriminate].
  destruct (sequence xs) as [rs'|e] eqn:E; simpl in H; [|discriminate].
  inversion H; subst. destruct i as [|i]; simpl; [reflexivity|].
  apply IH; [reflexivity | lia].
Qed.

Lemma sequence_all_ok {A : Type} (xs : list (result A)) :
  (forall x, In x xs -> exists a, x = Ok a) -> exists rs, sequence xs = Ok rs.
Proof.
  induction xs as [|x xs IH]; intros H; simpl.
  - now exists [].
  - destruct (H x (or_introl eq_refl)) as [a ->].
    destruct IH as [rs ->]; [intros; apply H; now right|].
    simpl. eauto.
Qed.

Lemma skipn_nth_cons {A : Type} (d : A) (k : nat) (l : list A) :
  (k < length l)%nat -> skipn k l = nth k l d :: skipn (S k) l.
Proof.
  revert k. induction l as [|h t IHl]; intros [|k] Hk; simpl in *; try lia; auto.
  apply IHl; lia.
Qed.

(** A loop that at step [i] replaces row [i] by a function of that row
    and can stop with an exception: the rows are computed one by one
    from the initial rows. *)
Lemma for_each_m_rows_prefix {A : Type} (d : A) (f : nat -> A -> result A)
  (l : list A) (k : nat) :
  (k <= length l)%nat ->
  for_each_m (seq 0 k) (fun i l => r <- f i (nth i l d) ;; Ok (upd i r l)) l
  = rs <- sequence (map (fun i => f i (nth i l d)) (seq 0 k)) ;; Ok (rs ++ skipn k l).
Proof.
  induction k as [|k IH]; intros Hk.
  - reflexivity.
  - rewrite seq_S, for_each_m_app, IH by lia. simpl.
    rewrite map_app. simpl. rewrite sequence_snoc.
    destruct (sequence (map (fun i => f i (nth i l d)) (seq 0 k))) as [rs|e] eqn:E;
      simpl; [|reflexivity].
    assert (Hrs : length rs = k).
    { apply sequence_length in E. now rewrite length_map, length_seq in E. }
    rewrite (skipn_nth_cons d k l) by lia.
    rewrite app_nth2 by lia. rewrite Hrs, Nat.sub_diag. simpl nth.
    destruct (f k (nth k l d)) as [r|e]; simpl; [|reflexivity].
    rewrite <- Hrs at 1. rewrite upd_app_r. simpl.
    now rewrite <- app_assoc.
Qed.

Lemma for_each_m_rows {A : Type} (d : A) (f : nat -> A -> result A) (l : list A) :
  for_range_m (length l) (fun i l => r <- f i (nth i l d) ;; Ok (upd i r l)) l
  = sequence (map (fun i => f i (nth i l d)) (seq 0 (length l))).
Proof.
  unfold for_range_m. rewrite for_each_m_rows_prefix by lia.
  rewrite skipn_all. destruct (sequence _); simpl; [|reflexivity].
  now rewrite app_nil_r.
Qed.

Lemma axis_index_last (n : nat) : axis_index (n + 1) (-1) = Ok n.
Proof.
  unfold axis_index.
  replace (0 <=? -1) with false by reflexivity. simpl andb. cbv iota.
  replace ((- Z.of_nat (n + 1) <=? -1) && (-1 <? 0)) with true.
  - f_equal. lia.
  - symmetry. apply andb_true_iff. split; [apply Z.leb_le; lia | reflexivity].
Qed.

Lemma axis_index_range (len : nat) (i : Z) (p : nat) :
  axis_index len i = Ok p -> (p < len)%nat.
Proof.
  unfold axis_index.
  destruct ((0 <=? i) && (i <? Z.of_nat len)) eqn:E1.
  - apply andb_true_iff in E1. destruct E1 as [H1 H2].
    apply Z.leb_le in H1. apply Z.ltb_lt in H2. intros H; inversion H. lia.
  - destruct ((- Z.of_nat len <=? i) && (i <? 0)) eqn:E2; [|discriminate].
    apply andb_true_iff in E2. destruct E2 as [H1 H2].
    apply Z.leb_le in H1. apply Z.ltb_lt in H2. intros H; inversion H. lia.
Qed.

Lemma axis_index_in_range (len : nat) (i : Z) :
  0 <= i < Z.of_nat len -> axis_index len i = Ok (Z.to_nat i).
Proof.
  intros H. unfold axis_index.
  replace ((0 <=? i) && (i <? Z.of_nat len)) with true; [reflexivity|].
  symmetry. apply andb_true_iff. split; [apply Z.leb_le | apply Z.ltb_lt]; lia.
Qed.

Section Decoder.

Variables (n : nat) (t primitive_element_ : Z).
Variables (ADD SUBTRACT MULTIPLY : BINARY_CALCULATE_SIG).
Variable RECIPROCAL : UNARY_CALCULATE_SIG.
Variable POWER : BINARY_CALCULATE_SIG.
Variable BERLEKAMP_MASSEY : BERLEKAMP_MASSEY_CALCULATE_SIG.
Variable POLY_ROOTS : POLY_ROOTS_CALCULATE_SIG.
Variable POLY_EVAL : POLY_EVALUATE_CALCULATE_SIG.
Variable CONVOLVE : CONVOLVE_CALCULATE_SIG.
Variable CHARACTERISTIC : Z.
Variable args : kernel_args.

Local Abbreviation body syndrome :=
  (decode_calculate_body n syndrome t primitive_element_ ADD SUBTRACT MULTIPLY
     RECIPROCAL POWER BERLEKAMP_MASSEY POLY_ROOTS POLY_EVAL CONVOLVE
     CHARACTERISTIC args).

Local Abbreviation row_step :=
  (decode_row n t primitive_element_ ADD SUBTRACT MULTIPLY
     RECIPROCAL POWER BERLEKAMP_MASSEY POLY_ROOTS POLY_EVAL CONVOLVE
     CHARACTERISTIC args).

(** The loop that fills [sigma_prime] builds the formal derivative. *)
Lemma sigma_prime_loop (sigma : list Z) :
  0 <= Z.of_nat (length sigma) - 1 ->
  for_range (Z.to_nat (Z.of_nat (length sigma) - 1))
    (fun j sigma_prime =>
       upd j (MULTIPLY ((Z.of_nat (length sigma) - 1 - Z.of_nat j) mod CHARACTERISTIC)
                (nth j sigma 0) args) sigma_prime)
    (repeat 0 (Z.to_nat (Z.of_nat (length sigma) - 1)))
  = formal_derivative MULTIPLY CHARACTERISTIC args sigma.
Proof.
  intros Hv. unfold formal_derivative.
  replace (Z.to_nat (Z.of_nat (length sigma) - 1)) with (length sigma - 1)%nat by lia.
  set (v := (length sigma - 1)%nat).
  pose proof (for_range_fill 0
    (fun j (_ : Z) =>
       MULTIPLY ((Z.of_nat (length sigma) - 1 - Z.of_nat j) mod CHARACTERISTIC)
         (nth j sigma 0) args) (repeat 0 v)) as H.
  rewrite repeat_length in H. rewrite H.
  apply map_ext_in. intros j Hj. apply in_seq in Hj.
  do 2 f_equal. unfold v in *. lia.
Qed.

(** Iteration [i] of the loop of [decode_calculate] rewrites row [i] of
    [dec_codeword] by [decode_row] and leaves the other rows alone. *)
Lemma decode_calculate_body_row (syndrome dec : list (list Z)) (i : nat) :
  (i < length dec)%nat ->
  body syndrome i dec
  = r <- row_step (nth i syndrome []) (nth i dec []) ;; Ok (upd i r dec).
Proof.
  intros Hi. unfold decode_calculate_body, decode_row, locator, locator_roots.
  destruct (forallb (fun s => s =? 0) (nth i syndrome [])); simpl negb; cbv iota.
  1:{ simpl. now rewrite upd_nth. }
  set (sigma := BERLEKAMP_MASSEY (nth i syndrome []) ADD SUBTRACT MULTIPLY RECIPROCAL args).
  set (sigma_rev := BERLEKAMP_MASSEY (rev (nth i syndrome [])) ADD SUBTRACT MULTIPLY RECIPROCAL args).
  cbv zeta.
  destruct (Z.of_nat (length sigma) - 1 >? t).
  { unfold setitem2. rewrite axis_index_last. reflexivity. }
  set (roots := POLY_ROOTS (arange_down (length sigma_rev)) sigma_rev primitive_element_
                  ADD MULTIPLY POWER args).
  rewrite length_map.
  destruct (Z.of_nat (length roots) =? Z.of_nat (length sigma) - 1) eqn:Ev;
    simpl negb; cbv iota.
  2:{ unfold setitem2. rewrite axis_index_last. reflexivity. }
  apply Z.eqb_eq in Ev.
  rewrite sigma_prime_loop by lia.
  fold (error_evaluator ADD MULTIPLY CONVOLVE args sigma (nth i syndrome [])).
  set (Z0 := error_evaluator ADD MULTIPLY CONVOLVE args sigma (nth i syndrome [])).
  set (sigma_prime := formal_derivative MULTIPLY CHARACTERISTIC args sigma).
  unfold for_range_m. rewrite <- Ev, Nat2Z.id.
  set (step := fun (j : nat) (row : list Z) =>
         p <- axis_index (n + 1)
                (Z.of_nat n - 1 - snd (nth j roots (0, 0))) ;;
         Ok (upd p
               (SUBTRACT (nth p row 0)
                  (error_value SUBTRACT MULTIPLY RECIPROCAL ADD POLY_EVAL args Z0
                     sigma_prime (fst (nth j roots (0, 0)))) args) row)).
  rewrite (for_each_m_ext _ _
             (fun j dec => r <- step j (nth i dec []) ;; Ok (upd i r dec))).
  2:{ intros j dec' _. unfold getitem2, setitem2, step, error_value.
      rewrite <- (map_nth snd roots (0, 0) j), <- (map_nth fst roots (0, 0) j).
      simpl fst. simpl snd.
      destruct (axis_index (n + 1) (Z.of_nat n - 1 - nth j (map snd roots) 0));
        reflexivity. }
  rewrite (for_each_m_lift [] i step) by exact Hi.
  fold step.
  destruct (for_each_m (seq 0 (length roots)) step (nth i dec [])) as [row'|e];
    simpl; [|reflexivity].
  unfold setitem2. rewrite axis_index_last. simpl. unfold set2.
  rewrite nth_upd_eq by exact Hi. now rewrite upd_upd.
Qed.

(** The loop over the codewords decodes each row from that row and its
    syndrome; it stops with an exception exactly when some row does. *)
Lemma decode_calculate_loop (syndrome dec : list (list Z)) :
  for_range_m (length dec) (body syndrome) dec
  = sequence (map (fun i => row_step (nth i syndrome []) (nth i dec []))
                (seq 0 (length dec))).
Proof.
  rewrite <- (for_each_m_rows [] (fun i row => row_step (nth i syndrome []) row)).
  unfold for_range_m.
  assert (G : forall k s, (k <= length s)%nat ->
            for_each_m (seq 0 k) (body syndrome) s
            = for_each_m (seq 0 k)
                (fun i l => r <- row_step (nth i syndrome []) (nth i l []) ;;
                            Ok (upd i r l)) s).
  { induction k as [|k IH]; intros s Hk; [reflexivity|].
    rewrite seq_S, !for_each_m_app, IH by lia. simpl.
    destruct (for_each_m (seq 0 k) _ s) as [s'|e] eqn:E; simpl; [|reflexivity].
    assert (Hs' : length s' = length s).
    { clear -E. revert s s' E. generalize 0%nat as start.
      induction k as [|k IHk]; intros start s s' E; simpl in E.
      - now inversion E.
      - destruct (row_step _ _) as [r|e]; simpl in E; [|discriminate].
        apply IHk in E. now rewrite upd_length in E. }
    rewrite decode_calculate_body_row by lia.
    destruct (row_step _ _); reflexivity. }
  apply G. lia.
Qed.

Local Abbreviation is_uncorrectable :=
  (uncorrectable t primitive_element_ ADD SUBTRACT MULTIPLY RECIPROCAL POWER
     BERLEKAMP_MASSEY POLY_ROOTS args).

(** [decode_calculate] on a batch of [N] codewords: every row is decoded
    by [decode_row] from the codeword followed by a zero count. *)
Lemma decode_calculate_rows (N S N' : nat) (cw_rows syn_rows : list (list Z))
  (DEGREE IRREDUCIBLE_POLY : Z) :
  args = (CHARACTERISTIC, DEGREE, IRREDUCIBLE_POLY) ->
  length cw_rows = N ->
  decode_calculate (Arr2 N n cw_rows) (Arr2 N' S syn_rows) t primitive_element_
    ADD SUBTRACT MULTIPLY RECIPROCAL POWER BERLEKAMP_MASSEY POLY_ROOTS POLY_EVAL
    CONVOLVE CHARACTERISTIC DEGREE IRREDUCIBLE_POLY
  = rows <- sequence
              (map (fun i => row_step (nth i syn_rows []) (nth i cw_rows [] ++ [0]))
                 (seq 0 N)) ;;
    Ok (Arr2 N (n + 1) rows).
Proof.
  intros Hargs HN. unfold decode_calculate. rewrite <- Hargs.
  set (dec := map (fun row => row ++ [0]) cw_rows).
  assert (Hdec : length dec = N) by (unfold dec; now rewrite length_map).
  rewrite <- Hdec at 1. rewrite decode_calculate_loop. rewrite Hdec.
  replace (map (fun i => row_step (nth i syn_rows []) (nth i dec [])) (seq 0 N))
    with (map (fun i => row_step (nth i syn_rows []) (nth i cw_rows [] ++ [0])) (seq 0 N));
    [reflexivity|].
  apply map_ext_in. intros i Hi. apply in_seq in Hi. f_equal.
  unfold dec.
  rewrite (nth_indep (map (fun row => row ++ [0]) cw_rows) [] ([] ++ [0]))
    by (rewrite length_map; lia).
  symmetry. apply (map_nth (fun row => row ++ [0])).
Qed.

Lemma nonzero_syndrome (s : list Z) :
  forallb (fun x => x =? 0) s = false <-> Exists (fun x => x <> 0) s.
Proof.
  induction s as [|x s IH]; simpl.
  - split; [discriminate | intros H; inversion H].
  - destruct (x =? 0) eqn:E; simpl.
    + apply Z.eqb_eq in E. rewrite IH. split; intros H.
      * now right.
      * inversion H; subst; [contradiction | assumption].
    + apply Z.eqb_neq in E. split; intros _; [now left | reflexivity].
Qed.



(** A row that is not uncorrectable and has a non-zero syndrome goes
    through the Forney step. *)
Lemma decode_row_correctable (syndrome_i row : list Z) :
  Exists (fun s => s <> 0) syndrome_i -> ~ is_uncorrectable syndrome_i ->
  let sigma := locator ADD SUBTRACT MULTIPLY RECIPROCAL BERLEKAMP_MASSEY args syndrome_i in
  let roots := locator_roots primitive_element_ ADD SUBTRACT MULTIPLY RECIPROCAL
                 POWER BERLEKAMP_MASSEY POLY_ROOTS args syndrome_i in
  Z.of_nat (length roots) = Z.of_nat (length sigma) - 1 /\
  Z.of_nat (length sigma) - 1 <= t /\
  row_step syndrome_i row
  = row' <- for_each_m (seq 0 (length roots)) (fun j row =>
              let root := nth j roots (0, 0) in
              let delta := error_value SUBTRACT MULTIPLY RECIPROCAL ADD POLY_EVAL args
                             (error_evaluator ADD MULTIPLY CONVOLVE args sigma syndrome_i)
                             (formal_derivative MULTIPLY CHARACTERISTIC args sigma)
                             (fst root) in
              p <- axis_index (n + 1) (Z.of_nat n - 1 - snd root) ;;
              Ok (upd p (SUBTRACT (nth p row 0) delta args) row)) row ;;
    Ok (upd n (Z.of_nat (length sigma) - 1) row').
Proof.
  intros Hs Hnu. cbv zeta.
  assert (Hc : ~ (Z.of_nat (length (locator ADD SUBTRACT MULTIPLY RECIPROCAL
                                      BERLEKAMP_MASSEY args syndrome_i)) - 1 > t \/
                  Z.of_nat (length (locator_roots primitive_element_ ADD SUBTRACT MULTIPLY
                                      RECIPROCAL POWER BERLEKAMP_MASSEY POLY_ROOTS args
                                      syndrome_i))
                  <> Z.of_nat (length (locator ADD SUBTRACT MULTIPLY RECIPROCAL
                                         BERLEKAMP_MASSEY args syndrome_i)) - 1)).
  { intros H. apply Hnu. split; assumption. }
  assert (H1 : Z.of_nat (length (locator_roots primitive_element_ ADD SUBTRACT MULTIPLY
                                      RECIPROCAL POWER BERLEKAMP_MASSEY POLY_ROOTS args
                                      syndrome_i))
               = Z.of_nat (length (locator ADD SUBTRACT MULTIPLY RECIPROCAL
                                         BERLEKAMP_MASSEY args syndrome_i)) - 1) by lia.
  assert (H2 : Z.of_nat (length (locator ADD SUBTRACT MULTIPLY RECIPROCAL
                                         BERLEKAMP_MASSEY args syndrome_i)) - 1 <= t) by lia.
  split; [exact H1|]. split; [exact H2|].
  unfold decode_row. apply nonzero_syndrome in Hs. rewrite Hs.
  cbv zeta.
  destruct (_ >? t) eqn:E; [apply Z.gtb_gt in E; lia|].
  apply Z.eqb_eq in H1. rewrite H1. reflexivity.
Qed.



End Decoder.

Lemma last_nth (l : list Z) (n : nat) :
  length l = (n + 1)%nat -> last l 0 = nth n l 0.
Proof.
  revert n. induction l as [|x l IH]; intros n H; simpl in *; [lia|].
  destruct l as [|y l].
  - simpl in H. assert (n = 0)%nat by lia. now subst.
  - destruct n as [|n]; [simpl in H; lia|].
    rewrite (IH n) by (simpl in *; lia). reflexivity.
Qed.


Lemma map_seq_nth {A : Type} (d : A) (f : nat -> A) (N i : nat) :
  (i < N)%nat -> nth i (map f (seq 0 N)) d = f i.
Proof.
  intros H. rewrite (nth_indep _ d (f 0%nat)) by (now rewrite length_map, length_seq).
  rewrite (map_nth f). now rewrite seq_nth.
Qed.


(** ** The Forney step *)

Lemma for_each_m_map {S : Type} (g : nat -> nat) (l : list nat)
  (body : nat -> S -> result S) (s : S) :
  for_each_m (map g l) body s = for_each_m l (fun i s => body (g i) s) s.
Proof.
  revert s. induction l as [|i l IH]; intros s; simpl; [reflexivity|].
  destruct (body (g i) s); simpl; [apply IH | reflexivity].
Qed.

(** A loop over the subscripts of a list that reads the list at its
    subscript is a traversal of the list. *)
Lemma for_each_m_nth {A S : Type} (d : A) (g : A -> S -> result S) (l : list A) (s : S) :
  for_each_m (seq 0 (length l)) (fun j s => g (nth j l d) s) s
  = fold_left (fun acc x => s' <- acc ;; g x s') l (Ok s).
Proof.
  revert s. induction l as [|x l IH]; intros s; simpl; [reflexivity|].
  destruct (g x s) as [s'|e]; simpl.
  - rewrite <- seq_shift, for_each_m_map. simpl. apply IH.
  - clear. induction l as [|y l IHl]; simpl; [reflexivity | exact IHl].
Qed.

Section Forney.

Variable n : nat.
Variable SUBTRACT : BINARY_CALCULATE_SIG.
Variable args : kernel_args.
Variable delta : Z -> Z.

(** With every location in [[0, n)] no subscript is out of range and the
    loop is a plain fold. *)
Lemma forney_loop_in_range (roots : list (Z * Z)) (row : list Z) :
  Forall (fun root => 0 <= snd root < Z.of_nat n) roots ->
  fold_left (fun acc root =>
               row <- acc ;;
               p <- axis_index (n + 1) (Z.of_nat n - 1 - snd root) ;;
               Ok (upd p (SUBTRACT (nth p row 0) (delta (fst root)) args) row))
    roots (Ok row)
  = Ok (fold_left (correct_symbol n SUBTRACT args delta) roots row).
Proof.
  intros H. revert row. induction H as [|root roots Hr Hrs IH]; intros row; simpl.
  - reflexivity.
  - rewrite axis_index_in_range by lia. simpl. apply IH.
Qed.

Lemma correct_symbols_length (roots : list (Z * Z)) (row : list Z) :
  length (fold_left (correct_symbol n SUBTRACT args delta) roots row) = length row.
Proof.
  revert row. induction roots as [|r roots IH]; intros row; simpl; [reflexivity|].
  rewrite IH. apply upd_length.
Qed.

(** A position that no location names keeps its symbol. *)
Lemma correct_symbols_other (roots : list (Z * Z)) (row : list Z) (p : nat) :
  ~ In p (map (fun root => error_position n (snd root)) roots) ->
  nth p (fold_left (correct_symbol n SUBTRACT args delta) roots row) 0 = nth p row 0.
Proof.
  revert row. induction roots as [|r roots IH]; intros row Hp; simpl; [reflexivity|].
  simpl in Hp. rewrite IH by tauto.
  unfold correct_symbol. apply nth_upd_ne. tauto.
Qed.

(** With distinct locations, the symbol at each named position has the
    error value of its locator subtracted, once. *)
Lemma correct_symbols_at (roots : list (Z * Z)) (row : list Z) (root : Z * Z) :
  NoDup (map (fun root => error_position n (snd root)) roots) ->
  (forall r, In r roots -> (error_position n (snd r) < length row)%nat) ->
  In root roots ->
  nth (error_position n (snd root)) (fold_left (correct_symbol n SUBTRACT args delta) roots row) 0
  = SUBTRACT (nth (error_position n (snd root)) row 0) (delta (fst root)) args.
Proof.
  revert row. induction roots as [|r roots IH]; intros row Hnd Hlen Hin; simpl.
  - contradiction.
  - simpl in Hnd. inversion Hnd as [|x xs Hx Hxs]; subst.
    destruct Hin as [->|Hin].
    + rewrite correct_symbols_other by exact Hx.
      unfold correct_symbol. apply nth_upd_eq. apply Hlen. now left.
    + rewrite IH; [| exact Hxs | | exact Hin].
      * f_equal. unfold correct_symbol. apply nth_upd_ne.
        intros E. apply Hx. rewrite E. now apply (in_map (fun root => error_position n (snd root))).
      * intros r' Hr'. unfold correct_symbol. rewrite upd_length. apply Hlen. now right.
Qed.

Lemma error_position_inj (a b : Z) :
  0 <= a < Z.of_nat n -> 0 <= b < Z.of_nat n ->
  error_position n a = error_position n b -> a = b.
Proof. unfold error_position. lia. Qed.

Lemma error_positions_NoDup (roots : list (Z * Z)) :
  Forall (fun root => 0 <= snd root < Z.of_nat n) roots ->
  NoDup (map snd roots) ->
  NoDup (map (fun root => error_position n (snd root)) roots).
Proof.
  intros HF. induction HF as [|r roots Hr Hrs IH]; intros Hnd; simpl.
  - constructor.
  - simpl in Hnd. inversion Hnd as [|x xs Hx Hxs]; subst. constructor; [|now apply IH].
    intros Hin. apply in_map_iff in Hin. destruct Hin as [r' [E Hr']].
    apply Hx. apply in_map_iff. exists r'. split; [|exact Hr'].
    rewrite Forall_forall in Hrs.
    apply error_position_inj; auto.
Qed.

End Forney.

(** [decode_calculate] returns, in row [i], what [decode_row] makes of
    codeword [i] and syndrome [i]. *)
Lemma decode_calculate_row_result
  (n N S N' : nat) (cw_rows syn_rows dec : list (list Z)) (t primitive_element_ : Z)
  (ADD SUBTRACT MULTIPLY : BINARY_CALCULATE_SIG)
  (RECIPROCAL : UNARY_CALCULATE_SIG) (POWER : BINARY_CALCULATE_SIG)
  (BERLEKAMP_MASSEY : BERLEKAMP_MASSEY_CALCULATE_SIG)
  (POLY_ROOTS : POLY_ROOTS_CALCULATE_SIG)
  (POLY_EVAL : POLY_EVALUATE_CALCULATE_SIG)
  (CONVOLVE : CONVOLVE_CALCULATE_SIG)
  (CHARACTERISTIC DEGREE IRREDUCIBLE_POLY : Z) (i : nat) :
  length cw_rows = N ->
  decode_calculate (Arr2 N n cw_rows) (Arr2 N' S syn_rows) t primitive_element_
    ADD SUBTRACT MULTIPLY RECIPROCAL POWER BERLEKAMP_MASSEY POLY_ROOTS POLY_EVAL
    CONVOLVE CHARACTERISTIC DEGREE IRREDUCIBLE_POLY
  = Ok (Arr2 N (n + 1) dec) ->
  (i < N)%nat ->
  decode_row n t primitive_element_ ADD SUBTRACT MULTIPLY RECIPROCAL POWER
    BERLEKAMP_MASSEY POLY_ROOTS POLY_EVAL CONVOLVE CHARACTERISTIC
    (CHARACTERISTIC, DEGREE, IRREDUCIBLE_POLY)
    (nth i syn_rows []) (nth i cw_rows [] ++ [0])
  = Ok (nth i dec []).
Proof.
  intros HN Hout Hi.
  rewrite (decode_calculate_rows n t primitive_element_ ADD SUBTRACT MULTIPLY RECIPROCAL
             POWER BERLEKAMP_MASSEY POLY_ROOTS POLY_EVAL CONVOLVE CHARACTERISTIC
             (CHARACTERISTIC, DEGREE, IRREDUCIBLE_POLY) N S N' cw_rows syn_rows
             DEGREE IRREDUCIBLE_POLY eq_refl HN) in Hout.
  apply bind_ok in Hout. destruct Hout as [rows [E Hout]].
  inversion Hout; subst dec.
  pose proof (sequence_nth [] _ _ i E) as Hrow.
  rewrite length_map, length_seq in Hrow. specialize (Hrow Hi).
  now rewrite map_seq_nth in Hrow by exact Hi.
Qed.

(** C5. In [decode_calculate], for every correctable codeword with [v]
    errors: the derivative [sigma'] holds, for the coefficient of degree
    [d >= 1] of [sigma], that coefficient multiplied by [d mod p], which
    is 0 when [p] divides [d]; the symbol at position [n-1-j] of every
    error location [j] has the error value
    [-Z0(1/beta) / sigma'(1/beta)] of its locator [beta] subtracted; the
    other symbols are kept; and the reported count is [v]. *)
Theorem forney_error_values
  (n N S N' : nat) (cw_rows syn_rows dec : list (list Z)) (t primitive_element_ : Z)
  (ADD SUBTRACT MULTIPLY : BINARY_CALCULATE_SIG)
  (RECIPROCAL : UNARY_CALCULATE_SIG) (POWER : BINARY_CALCULATE_SIG)
  (BERLEKAMP_MASSEY : BERLEKAMP_MASSEY_CALCULATE_SIG)
  (POLY_ROOTS : POLY_ROOTS_CALCULATE_SIG)
  (POLY_EVAL : POLY_EVALUATE_CALCULATE_SIG)
  (CONVOLVE : CONVOLVE_CALCULATE_SIG)
  (CHARACTERISTIC DEGREE IRREDUCIBLE_POLY : Z) (i : nat) :
  let args := (CHARACTERISTIC, DEGREE, IRREDUCIBLE_POLY) in
  let syndrome_i := nth i syn_rows [] in
  let codeword_i := nth i cw_rows [] in
  let sigma := locator ADD SUBTRACT MULTIPLY RECIPROCAL BERLEKAMP_MASSEY args syndrome_i in
  let roots := locator_roots primitive_element_ ADD SUBTRACT MULTIPLY RECIPROCAL
                 POWER BERLEKAMP_MASSEY POLY_ROOTS args syndrome_i in
  let v := Z.of_nat (length sigma) - 1 in
  let sigma_prime := formal_derivative MULTIPLY CHARACTERISTIC args sigma in
  let Z0 := error_evaluator ADD MULTIPLY CONVOLVE args sigma syndrome_i in
  let delta beta :=
    error_value SUBTRACT MULTIPLY RECIPROCAL ADD POLY_EVAL args Z0 sigma_prime beta in
  wf_data (Arr2 N n cw_rows) ->
  decode_calculate (Arr2 N n cw_rows) (Arr2 N' S syn_rows) t primitive_element_
    ADD SUBTRACT MULTIPLY RECIPROCAL POWER BERLEKAMP_MASSEY POLY_ROOTS POLY_EVAL
    CONVOLVE CHARACTERISTIC DEGREE IRREDUCIBLE_POLY
  = Ok (Arr2 N (n + 1) dec) ->
  (i < N)%nat ->
  Exists (fun s => s <> 0) syndrome_i ->
  ~ uncorrectable t primitive_element_ ADD SUBTRACT MULTIPLY RECIPROCAL POWER
      BERLEKAMP_MASSEY POLY_ROOTS args syndrome_i ->
  Forall (fun root => 0 <= snd root < Z.of_nat n) roots ->
  NoDup (map snd roots) ->
  (length sigma_prime = Z.to_nat v /\
   forall j, (j < Z.to_nat v)%nat ->
     nth j sigma_prime 0
     = MULTIPLY ((v - Z.of_nat j) mod CHARACTERISTIC) (nth j sigma 0) args) /\
  ((forall a, MULTIPLY 0 a args = 0) ->
   forall j, (j < Z.to_nat v)%nat -> (v - Z.of_nat j) mod CHARACTERISTIC = 0 ->
     nth j sigma_prime 0 = 0) /\
  (forall beta location, In (beta, location) roots ->
     nth (Z.to_nat (Z.of_nat n - 1 - location)) (nth i dec []) 0
     = SUBTRACT (nth (Z.to_nat (Z.of_nat n - 1 - location)) codeword_i 0)
         (delta beta) args) /\
  (forall p, (p < n)%nat ->
     (forall beta location, In (beta, location) roots ->
        p <> Z.to_nat (Z.of_nat n - 1 - location)) ->
     nth p (nth i dec []) 0 = nth p codeword_i 0) /\
  last (nth i dec []) 0 = v /\
  v = Z.of_nat (length roots).
Proof.
  intros args syndrome_i codeword_i sigma roots v sigma_prime Z0 delta
    [HN HF] Hout Hi Hs Hnu Hrange Hnd.
  assert (Hcw : length codeword_i = n).
  { rewrite Forall_forall in HF. apply HF, nth_In. lia. }
  pose proof (decode_calculate_row_result _ _ _ _ _ _ _ _ _ _ _ _ _ _ _ _ _ _ _ _ _ i
                HN Hout Hi) as Hrow.
  destruct (decode_row_correctable n t primitive_element_ ADD SUBTRACT MULTIPLY RECIPROCAL
              POWER BERLEKAMP_MASSEY POLY_ROOTS POLY_EVAL CONVOLVE CHARACTERISTIC args
              syndrome_i (codeword_i ++ [0]) Hs Hnu) as [E1 [E2 E3]].
  fold sigma roots v in E1, E2.
  assert (Hv : 0 <= v) by lia.
  assert (Hderiv : forall j, (j < Z.to_nat v)%nat ->
            nth j sigma_prime 0
            = MULTIPLY ((v - Z.of_nat j) mod CHARACTERISTIC) (nth j sigma 0) args).
  { intros j Hj. unfold sigma_prime, formal_derivative.
    rewrite map_seq_nth by (unfold v in Hj; lia).
    do 2 f_equal. unfold v in *. lia. }
  split; [split; [|exact Hderiv]|].
  { unfold sigma_prime, formal_derivative. rewrite length_map, length_seq.
    unfold v. lia. }
  split.
  { intros Hz j Hj Hd. rewrite Hderiv by exact Hj. rewrite Hd. apply Hz. }
  fold args syndrome_i codeword_i in Hrow. rewrite E3 in Hrow.
  fold sigma roots v sigma_prime Z0 in Hrow.
  rewrite (for_each_m_nth (0, 0)
             (fun root row =>
                p <- axis_index (n + 1) (Z.of_nat n - 1 - snd root) ;;
                Ok (upd p (SUBTRACT (nth p row 0) (delta (fst root)) args) row)))
    in Hrow.
  rewrite (forney_loop_in_range n SUBTRACT args delta roots _ Hrange) in Hrow.
  simpl in Hrow. inversion Hrow as [Hdec]. clear Hrow.
  set (fixed := fold_left (correct_symbol n SUBTRACT args delta) roots (codeword_i ++ [0])).
  assert (Hfix : length fixed = (n + 1)%nat).
  { unfold fixed. rewrite correct_symbols_length, length_app, Hcw. reflexivity. }
  assert (Hpos : forall r, In r roots -> (error_position n (snd r) < n)%nat).
  { intros r Hr. rewrite Forall_forall in Hrange. specialize (Hrange r Hr).
    unfold error_position. lia. }
  split; [|split; [|split]].
  - intros beta location Hin.
    change (Z.to_nat (Z.of_nat n - 1 - location)) with (error_position n (snd (beta, location))).
    pose proof (Hpos _ Hin) as Hp.
    rewrite nth_upd_ne by lia.
    unfold fixed. rewrite correct_symbols_at; [| | |exact Hin].
    + rewrite app_nth1 by (rewrite Hcw; exact Hp). reflexivity.
    + now apply error_positions_NoDup.
    + intros r Hr. rewrite length_app, Hcw. specialize (Hpos r Hr). simpl. lia.
  - intros p Hp Hother.
    rewrite nth_upd_ne by lia.
    unfold fixed. rewrite correct_symbols_other.
    + now rewrite app_nth1 by (rewrite Hcw; exact Hp).
    + intros Hin. apply in_map_iff in Hin. destruct Hin as [[beta location] [E Hr]].
      apply (Hother beta location Hr). simpl in E. now rewrite <- E.
  - rewrite (last_nth _ n) by (now rewrite upd_length).
    apply nth_upd_eq. lia.
  - lia.
Qed.

(** ** The field as a ring, for the [ring] tactic

    The laws hold on the elements of the field only.  Clamping every
    operand into the field makes the kernels total ring operations for
    the equality "same element after clamping", on which [ring] can
    work; on elements of the field they are the kernels themselves. *)

Section FieldRing.

Variable cls : FieldClass.
Hypothesis laws : FieldLaws cls.

Local Abbreviation F := (in_field cls).
Local Abbreviation add := (_ADD_JIT cls).
Local Abbreviation sub := (_SUBTRACT_JIT cls).
Local Abbreviation mul := (_MULTIPLY_JIT cls).

Lemma clamp_in_field x : F (clamp cls x).
Proof.
  unfold clamp. destruct ((0 <=? x) && (x <? order cls)) eqn:E.
  - apply andb_true_iff in E. destruct E as [H1 H2].
    apply Z.leb_le in H1. apply Z.ltb_lt in H2. split; assumption.
  - apply (in_field_0 cls laws).
Qed.

Lemma clamp_id x : F x -> clamp cls x = x.
Proof.
  intros [H1 H2]. unfold clamp.
  replace ((0 <=? x) && (x <? order cls)) with true; [reflexivity|].
  symmetry. apply andb_true_iff. split; [apply Z.leb_le | apply Z.ltb_lt]; assumption.
Qed.

Lemma in_field_fadd a b : F (fadd cls a b).
Proof. apply (in_field_add cls laws); apply clamp_in_field. Qed.
Lemma in_field_fmul a b : F (fmul cls a b).
Proof. apply (in_field_mul cls laws); apply clamp_in_field. Qed.
Lemma in_field_fsub a b : F (fsub cls a b).
Proof. apply (in_field_sub cls laws); apply clamp_in_field. Qed.
Lemma in_field_fopp a : F (fopp cls a).
Proof. apply (in_field_sub cls laws); [apply (in_field_0 cls laws) | apply clamp_in_field]. Qed.

Lemma fadd_eq a b : F a -> F b -> add a b = fadd cls a b.
Proof. intros Ha Hb. unfold fadd. now rewrite !clamp_id. Qed.
Lemma fmul_eq a b : F a -> F b -> mul a b = fmul cls a b.
Proof. intros Ha Hb. unfold fmul. now rewrite !clamp_id. Qed.
Lemma fsub_eq a b : F a -> F b -> sub a b = fsub cls a b.
Proof. intros Ha Hb. unfold fsub. now rewrite !clamp_id. Qed.

Lemma feq_eq a b : F a -> F b -> feq cls a b -> a = b.
Proof. intros Ha Hb H. unfold feq in H. now rewrite !clamp_id in H. Qed.

Lemma add_cancel_r p q b : F p -> F q -> F b -> add p b = add q b -> p = q.
Proof.
  intros Hp Hq Hb H.
  assert (Hw : F (sub 0 b)).
  { apply (in_field_sub cls laws); [apply (in_field_0 cls laws) | assumption]. }
  assert (Hbw : add b (sub 0 b) = 0).
  { rewrite (law_add_comm cls laws) by assumption.
    apply (law_subtract cls laws); [apply (in_field_0 cls laws) | assumption]. }
  assert (G : forall r, F r -> add (add r b) (sub 0 b) = r).
  { intros r Hr. rewrite <- (law_add_assoc cls laws) by assumption.
    rewrite Hbw. now apply (add_zero_r cls laws). }
  rewrite <- (G p Hp), <- (G q Hq). now rewrite H.
Qed.

Lemma sub_as_add_opp a b : F a -> F b -> sub a b = add a (sub 0 b).
Proof.
  intros Ha Hb.
  assert (H0 : F 0) by apply (in_field_0 cls laws).
  assert (Hw : F (sub 0 b)) by (apply (in_field_sub cls laws); assumption).
  apply (add_cancel_r _ _ b); auto.
  - apply (in_field_sub cls laws); assumption.
  - apply (in_field_add cls laws); assumption.
  - rewrite (law_subtract cls laws) by assumption.
    rewrite <- (law_add_assoc cls laws) by assumption.
    rewrite (law_subtract cls laws) by assumption.
    symmetry. now apply (add_zero_r cls laws).
Qed.

Lemma field_ring_theory : ring_theory 0 1 (fadd cls) (fmul cls) (fsub cls) (fopp cls) (feq cls).
Proof.
  assert (H0 : F 0) by apply (in_field_0 cls laws).
  assert (H1 : F 1) by apply (in_field_1 cls laws).
  assert (A : forall a b, F a -> F b -> clamp cls (add a b) = add a b).
  { intros. apply clamp_id, (in_field_add cls laws); assumption. }
  assert (M : forall a b, F a -> F b -> clamp cls (mul a b) = mul a b).
  { intros. apply clamp_id, (in_field_mul cls laws); assumption. }
  assert (S : forall a b, F a -> F b -> clamp cls (sub a b) = sub a b).
  { intros. apply clamp_id, (in_field_sub cls laws); assumption. }
  assert (Ac : forall a b, F a -> F b -> F (add a b)) by apply (in_field_add cls laws).
  assert (Mc : forall a b, F a -> F b -> F (mul a b)) by apply (in_field_mul cls laws).
  assert (Sc : forall a b, F a -> F b -> F (sub a b)) by apply (in_field_sub cls laws).
  constructor; unfold feq, fadd, fmul, fsub, fopp.
  - intros x. generalize (clamp_in_field x). generalize (clamp cls x). intros cx Hx.
    rewrite (clamp_id 0 H0). rewrite A by auto.
    apply (law_add_zero cls laws); auto.
  - intros x y. generalize (clamp_in_field x) (clamp_in_field y).
    generalize (clamp cls x) (clamp cls y). intros cx cy Hx Hy.
    f_equal. apply (law_add_comm cls laws); auto.
  - intros x y z. generalize (clamp_in_field x) (clamp_in_field y) (clamp_in_field z).
    generalize (clamp cls x) (clamp cls y) (clamp cls z). intros cx cy cz Hx Hy Hz.
    rewrite (A cy cz), (A cx cy) by auto. rewrite !A by auto.
    apply (law_add_assoc cls laws); auto.
  - intros x. generalize (clamp_in_field x). generalize (clamp cls x). intros cx Hx.
    rewrite (clamp_id 1 H1). rewrite M by auto.
    apply (law_multiply_one cls laws); auto.
  - intros x y. generalize (clamp_in_field x) (clamp_in_field y).
    generalize (clamp cls x) (clamp cls y). intros cx cy Hx Hy.
    f_equal. apply (law_multiply_comm cls laws); auto.
  - intros x y z. generalize (clamp_in_field x) (clamp_in_field y) (clamp_in_field z).
    generalize (clamp cls x) (clamp cls y) (clamp cls z). intros cx cy cz Hx Hy Hz.
    rewrite (M cy cz), (M cx cy) by auto. rewrite !M by auto.
    apply (law_multiply_assoc cls laws); auto.
  - intros x y z. generalize (clamp_in_field x) (clamp_in_field y) (clamp_in_field z).
    generalize (clamp cls x) (clamp cls y) (clamp cls z). intros cx cy cz Hx Hy Hz.
    rewrite (A cx cy), (M cx cz), (M cy cz) by auto. rewrite M, A by auto.
    rewrite (law_multiply_comm cls laws (add cx cy)) by auto.
    rewrite (law_distr cls laws) by auto.
    now rewrite (law_multiply_comm cls laws cz cx), (law_multiply_comm cls laws cz cy) by auto.
  - intros x y. generalize (clamp_in_field x) (clamp_in_field y).
    generalize (clamp cls x) (clamp cls y). intros cx cy Hx Hy.
    rewrite (S 0 cy) by auto. rewrite S, A by auto. apply sub_as_add_opp; auto.
  - intros x. generalize (clamp_in_field x). generalize (clamp cls x). intros cx Hx.
    rewrite (S 0 cx) by auto. rewrite A by auto. rewrite (clamp_id 0 H0).
    rewrite (law_add_comm cls laws) by auto.
    apply (law_subtract cls laws); auto.
Qed.

Lemma feq_equivalence : Equivalence (feq cls).
Proof.
  constructor; unfold feq; [intros x | intros x y H | intros x y z H1 H2]; congruence.
Qed.

Lemma field_ring_eq_ext : ring_eq_ext (fadd cls) (fmul cls) (fopp cls) (feq cls).
Proof.
  constructor; unfold feq, fadd, fmul, fopp.
  - intros a a' Ha b b' Hb. now rewrite Ha, Hb.
  - intros a a' Ha b b' Hb. now rewrite Ha, Hb.
  - intros a a' Ha. now rewrite Ha.
Qed.

End FieldRing.

#[export] Hint Resolve in_field_fadd in_field_fmul in_field_fsub in_field_fopp : fld.

(** [field_ring cls laws]: an equation between expressions of the
    kernels over elements of the field, by [ring]. *)
Ltac to_clamped cls :=
  repeat match goal with
  | |- context [_ADD_JIT cls ?a ?b] =>
      rewrite (fadd_eq cls a b) by (auto 12 with fld)
  | |- context [_MULTIPLY_JIT cls ?a ?b] =>
      rewrite (fmul_eq cls a b) by (auto 12 with fld)
  | |- context [_SUBTRACT_JIT cls ?a ?b] =>
      rewrite (fsub_eq cls a b) by (auto 12 with fld)
  end.

Ltac field_ring cls :=
  to_clamped cls; apply (feq_eq cls); [auto 12 with fld | auto 12 with fld | ring].

(** ** Polynomial algebra over the field *)

Section PolyAlgebra.

Variable cls : FieldClass.
Hypothesis laws : FieldLaws cls.

Add Ring field_ring_inst : (field_ring_theory cls laws)
  (setoid (feq_equivalence cls) (field_ring_eq_ext cls)).

Local Abbreviation F := (in_field cls).
Local Abbreviation add := (_ADD_JIT cls).
Local Abbreviation sub := (_SUBTRACT_JIT cls).
Local Abbreviation mul := (_MULTIPLY_JIT cls).

Lemma in_field_pow x k : F x -> F (field_pow cls x k).
Proof. intros Hx. induction k as [|k IH]; simpl; auto with fld. Qed.

Lemma in_field_horner x acc p : F x -> F acc -> Forall F p -> F (horner cls x acc p).
Proof.
  intros Hx Hacc Hp. revert acc Hacc. unfold horner.
  induction Hp as [|c p Hc Hp IH]; intros acc Hacc; simpl; [exact Hacc|].
  apply IH. auto with fld.
Qed.

Hint Resolve in_field_pow in_field_horner : fld.

Lemma horner_cons x acc c p :
  horner cls x acc (c :: p) = horner cls x (add c (mul acc x)) p.
Proof. reflexivity. Qed.

Lemma horner_app x acc p q :
  horner cls x acc (p ++ q) = horner cls x (horner cls x acc p) q.
Proof. unfold horner. apply fold_left_app. Qed.

(** [horner] is affine in its accumulator. *)
Lemma horner_affine x acc p :
  F x -> F acc -> Forall F p ->
  horner cls x acc p
  = add (mul acc (field_pow cls x (length p))) (horner cls x 0 p).
Proof.
  intros Hx Hacc Hp. revert acc Hacc.
  induction Hp as [|c p Hc Hp IH]; intros acc Hacc.
  - simpl. field_ring cls.
  - rewrite !horner_cons. rewrite IH by auto with fld.
    rewrite (IH (add c (mul 0 x))) by auto with fld.
    simpl length. simpl field_pow.
    assert (HP : F (field_pow cls x (length p))) by auto with fld.
    assert (HQ : F (horner cls x 0 p)) by auto with fld.
    revert HP HQ. generalize (field_pow cls x (length p)) (horner cls x 0 p).
    intros P Q HP HQ. field_ring cls.
Qed.

Lemma poly_eval_horner p x :
  F x -> Forall F p -> poly_eval cls p x = horner cls x 0 p.
Proof.
  intros Hx Hp. destruct Hp as [|c p Hc Hp]; [reflexivity|].
  simpl poly_eval. rewrite horner_cons. f_equal. field_ring cls.
Qed.

Lemma horner_zeros x acc k :
  F x -> F acc ->
  horner cls x acc (repeat 0 k) = mul acc (field_pow cls x k).
Proof.
  intros Hx Hacc. revert acc Hacc. induction k as [|k IH]; intros acc Hacc.
  - simpl. field_ring cls.
  - simpl repeat. rewrite horner_cons, IH by auto with fld. simpl field_pow.
    assert (HP : F (field_pow cls x k)) by auto with fld.
    revert HP. generalize (field_pow cls x k). intros P HP. field_ring cls.
Qed.

Lemma Forall_repeat_zero k : Forall F (repeat 0 k).
Proof. apply Forall_forall. intros y Hy. apply repeat_spec in Hy. subst. auto with fld. Qed.

End PolyAlgebra.

#[export] Hint Resolve in_field_pow in_field_horner Forall_repeat_zero : fld.

(** ** Multiplication by a linear factor and [Poly.Roots] *)

Lemma for_range_shift {S : Type} (n : nat) (body : nat -> S -> S) (s : S) :
  for_range (Datatypes.S n) body s = for_range n (fun i => body (Datatypes.S i)) (body 0%nat s).
Proof.
  unfold for_range. simpl. rewrite <- seq_shift. now rewrite fold_left_map_in.
Qed.

(** A loop whose later steps neither read nor write the first cell runs
    on the rest of the array. *)
Lemma for_range_tail {A : Type} (body body' : nat -> list A -> list A) (h : A)
  (n : nat) (t : list A) :
  (forall i t, body (S i) (h :: t) = h :: body' i t) ->
  for_range n (fun i => body (S i)) (h :: t) = h :: for_range n body' t.
Proof.
  intros H. induction n as [|n IH]; [reflexivity|].
  rewrite !for_range_S, IH. apply H.
Qed.

Lemma convolve_linear_factor_loop (add mul : Z -> Z -> Z) (a : list Z) (s carry : Z) :
  for_range (length a) (linear_factor_step add mul a s) (carry :: repeat 0 (length a))
  = linear_factor_product add mul s carry a.
Proof.
  revert carry. induction a as [|x a IH]; intros carry; [reflexivity|].
  simpl length. rewrite for_range_shift.
  unfold linear_factor_step at 2. simpl.
  rewrite (for_range_tail _ (linear_factor_step add mul a s)).
  - now rewrite IH.
  - intros i t. unfold linear_factor_step. simpl.
    rewrite !Nat.add_0_r. reflexivity.
Qed.

Lemma convolve_linear_factor (add mul : Z -> Z -> Z) (a : list Z) (s : Z) :
  _convolve_jit add mul a [1; s] = linear_factor_product add mul s 0 a.
Proof.
  unfold _convolve_jit. simpl length.
  replace (length a + 2 - 1)%nat with (S (length a)) by lia. simpl repeat.
  rewrite <- convolve_linear_factor_loop.
  reflexivity.
Qed.

Lemma linear_factor_product_length (add mul : Z -> Z -> Z) (s carry : Z) (a : list Z) :
  length (linear_factor_product add mul s carry a) = S (length a).
Proof.
  revert carry. induction a as [|x a IH]; intros carry; simpl; [reflexivity|].
  now rewrite IH.
Qed.

Section PolyRoots.

Variable cls : FieldClass.
Hypothesis laws : FieldLaws cls.

Add Ring field_ring_roots : (field_ring_theory cls laws)
  (setoid (feq_equivalence cls) (field_ring_eq_ext cls)).

Local Abbreviation F := (in_field cls).
Local Abbreviation add := (_ADD_JIT cls).
Local Abbreviation sub := (_SUBTRACT_JIT cls).
Local Abbreviation mul := (_MULTIPLY_JIT cls).

Lemma in_field_linear_factor_product s carry a :
  F s -> F carry -> Forall F a -> Forall F (linear_factor_product add mul s carry a).
Proof.
  intros Hs Hc Ha. revert carry Hc.
  induction Ha as [|x a Hx Ha IH]; intros carry Hc; simpl.
  - now constructor.
  - constructor; [auto with fld|]. apply IH. auto with fld.
Qed.

Lemma Poly_mul_linear (p : list Z) (s : Z) :
  Poly_mul cls p [1; s] = linear_factor_product add mul s 0 p.
Proof. unfold Poly_mul. apply convolve_linear_factor. Qed.

(** Horner evaluation of [a(x) (x + s)]. *)
Lemma horner_linear_factor_product x s acc carry a :
  F x -> F s -> F acc -> F carry -> Forall F a ->
  horner cls x acc (linear_factor_product add mul s carry a)
  = add (mul (add (mul acc x) carry) (field_pow cls x (length a)))
      (mul (horner cls x 0 a) (add x s)).
Proof.
  intros Hx Hs Hacc Hc Ha. revert acc carry Hacc Hc.
  induction Ha as [|c a Hc' Ha IH]; intros acc carry Hacc Hc.
  - simpl. field_ring cls.
  - simpl linear_factor_product. rewrite horner_cons.
    rewrite IH by auto with fld.
    rewrite (horner_cons cls x 0 c a).
    rewrite (horner_affine cls laws x (add c (mul 0 x))) by auto with fld.
    simpl length. simpl field_pow.
    assert (HP : F (field_pow cls x (length a))) by auto with fld.
    assert (HQ : F (horner cls x 0 a)) by auto with fld.
    revert HP HQ. generalize (field_pow cls x (length a)) (horner cls x 0 a).
    intros P Q HP HQ. field_ring cls.
Qed.

Lemma in_field_product_of_differences x roots :
  F x -> Forall F roots -> F (product_of_differences cls x roots).
Proof.
  intros Hx Hr. induction Hr as [|r roots Hr Hrs IH]; simpl; auto with fld.
Qed.

(** [Poly.Roots], started from any polynomial [p0], multiplies [p0] by
    the linear factors of the roots. *)
Lemma Poly_Roots_from (roots p0 : list Z) (x : Z) :
  F x -> Forall F roots -> Forall F p0 ->
  let g := fold_left (fun poly root => Poly_mul cls poly [1; sub 0 root]) roots p0 in
  Forall F g /\
  length g = (length p0 + length roots)%nat /\
  hd 0 g = hd 0 p0 /\
  horner cls x 0 g = mul (horner cls x 0 p0) (product_of_differences cls x roots).
Proof.
  intros Hx Hr. revert p0.
  induction Hr as [|r roots Hr Hrs IH]; intros p0 Hp0; cbn [fold_left length].
  - repeat split; auto.
    cbn [product_of_differences fold_right].
    assert (HQ : F (horner cls x 0 p0)) by auto with fld.
    revert HQ. generalize (horner cls x 0 p0). intros Q HQ. field_ring cls.
  - rewrite Poly_mul_linear.
    change (product_of_differences cls x (r :: roots))
      with (mul (sub x r) (product_of_differences cls x roots)).
    assert (Hs : F (sub 0 r)) by auto with fld.
    assert (Hq : Forall F (linear_factor_product add mul (sub 0 r) 0 p0)).
    { apply in_field_linear_factor_product; auto with fld. }
    destruct (IH _ Hq) as [G1 [G2 [G3 G4]]].
    split; [exact G1|]. split; [|split].
    + rewrite G2, linear_factor_product_length. lia.
    + rewrite G3. destruct Hp0 as [|c p0 Hc Hp0]; simpl; [reflexivity|].
      field_ring cls.
    + rewrite G4. rewrite horner_linear_factor_product by auto with fld.
      assert (HP : F (field_pow cls x (length p0))) by auto with fld.
      assert (HQ : F (horner cls x 0 p0)) by auto with fld.
      assert (HR : F (product_of_differences cls x roots)).
      { now apply in_field_product_of_differences. }
      revert HP HQ HR.
      generalize (field_pow cls x (length p0)) (horner cls x 0 p0)
        (product_of_differences cls x roots).
      intros P Q R HP HQ HR. field_ring cls.
Qed.

(** The generator polynomial of a list of roots: monic, of degree the
    number of roots, with value [(x - r_1) ... (x - r_m)] at every [x]. *)
Lemma Poly_Roots_spec (roots : list Z) :
  Forall F roots ->
  let g := Poly_Roots cls roots in
  Forall F g /\
  length g = S (length roots) /\
  hd 0 g = 1 /\
  forall x, F x -> poly_eval cls g x = product_of_differences cls x roots.
Proof.
  intros Hr g.
  assert (H1 : Forall F [1]) by (constructor; auto with fld).
  split; [|split; [|split]].
  - apply (Poly_Roots_from roots [1] 0); auto with fld.
  - apply (Poly_Roots_from roots [1] 0); auto with fld.
  - apply (Poly_Roots_from roots [1] 0); auto with fld.
  - intros x Hx.
    destruct (Poly_Roots_from roots [1] x Hx Hr H1) as [G1 [G2 [G3 G4]]].
    rewrite poly_eval_horner by auto. unfold g, Poly_Roots. rewrite G4.
    assert (HR : F (product_of_differences cls x roots)).
    { now apply in_field_product_of_differences. }
    simpl. revert HR. generalize (product_of_differences cls x roots).
    intros R HR. unfold horner. simpl. field_ring cls.
Qed.

End PolyRoots.

(** ** Construction *)

Lemma prime_power_ge_2 (q : Z) : is_prime_power q -> 2 <= q.
Proof.
  intros [p [m [Hp [Hm ->]]]]. destruct Hp as [Hp _].
  replace m with (Z.succ (m - 1)) by lia.
  rewrite Z.pow_succ_r by lia.
  assert (0 < p ^ (m - 1)) by (apply Z.pow_pos_nonneg; lia). nia.
Qed.

(** A factorisation with exactly one prime is that of a prime power. *)
Lemma single_factor_prime_power (x p0 m0 : Z) :
  factorisation_of x [p0] [m0] -> is_prime_power x /\ x = p0 ^ m0.
Proof.
  intros [_ [Hp [Hm [_ Hx]]]]. simpl in Hx. rewrite Z.mul_1_r in Hx.
  inversion Hp; subst. inversion Hm; subst.
  split; [|reflexivity]. exists p0, m0. auto.
Qed.

Lemma prime_divides_factorisation (x : Z) (p m : list Z) (q : Z) :
  length p = length m -> Forall (fun e => 1 <= e) m ->
  x = fold_right (fun pe acc => fst pe ^ snd pe * acc) 1 (combine p m) ->
  In q p -> (q | x).
Proof.
  revert m x. induction p as [|p0 p IH]; intros m x HL Hm Hx Hin; [contradiction|].
  destruct m as [|m0 m]; [discriminate|]. simpl in *.
  inversion Hm; subst.
  destruct Hin as [->|Hin].
  - apply Z.divide_mul_l.
    replace m0 with (Z.succ (m0 - 1)) by lia. rewrite Z.pow_succ_r by lia.
    apply Z.divide_mul_l, Z.divide_refl.
  - apply Z.divide_mul_r. apply (IH m); auto.
Qed.

(** The factorisation of a prime power has exactly one prime. *)
Lemma prime_power_single_factor (x : Z) (p m : list Z) :
  is_prime_power x -> factorisation_of x p m ->
  exists p0 m0, p = [p0] /\ m = [m0].
Proof.
  intros [q [e [Hq [He Hx]]]] [HL [Hp [Hm [Hnd Hprod]]]].
  assert (Hall : forall r, In r p -> r = q).
  { intros r Hr.
    apply (Z.divide_prime_pp r q e).
    - apply prime_alt. rewrite Forall_forall in Hp. now apply Hp.
    - now apply prime_alt.
    - lia.
    - rewrite <- Hx. now apply (prime_divides_factorisation x p m). }
  destruct p as [|p0 p].
  - destruct m; [|discriminate]. simpl in Hprod.
    pose proof (prime_power_ge_2 x (ex_intro _ q (ex_intro _ e (conj Hq (conj He Hx))))).
    lia.
  - destruct m as [|m0 m]; [discriminate|].
    destruct p as [|p1 p].
    + destruct m; [|discriminate]. eauto.
    + exfalso. inversion Hnd as [|a l Hnotin _]; subst.
      apply Hnotin. left.
      rewrite (Hall p0) by (now left). apply Hall. right. now left.
Qed.

Lemma Poly_Roots_length (cls : FieldClass) (roots : list Z) :
  length (Poly_Roots cls roots) = S (length roots).
Proof.
  unfold Poly_Roots.
  assert (G : forall p0, length (fold_left (fun poly root =>
                 Poly_mul cls poly [1; _SUBTRACT_JIT cls 0 root]) roots p0)
              = (length p0 + length roots)%nat).
  { induction roots as [|r roots IH]; intros p0; simpl; [lia|].
    rewrite IH. unfold Poly_mul. rewrite convolve_linear_factor.
    rewrite linear_factor_product_length. lia. }
  rewrite G. reflexivity.
Qed.

(** ** Polynomial division *)

Section Division.

Variables SUBTRACT_JIT MULTIPLY_JIT DIVIDE_JIT : Z -> Z -> Z.

Lemma sub_scaled_length q bs t : length (sub_scaled SUBTRACT_JIT MULTIPLY_JIT q bs t) = length t.
Proof.
  revert t. induction bs as [|b0 bs IH]; intros [|x t]; simpl; auto.
Qed.

Lemma sub_scaled_loop q bs t :
  (length bs <= length t)%nat ->
  map (fun j => SUBTRACT_JIT (nth j t 0) (MULTIPLY_JIT q (nth j bs 0))) (seq 0 (length bs))
    ++ skipn (length bs) t
  = sub_scaled SUBTRACT_JIT MULTIPLY_JIT q bs t.
Proof.
  revert t. induction bs as [|b0 bs IH]; intros t H; [reflexivity|].
  destruct t as [|x t]; [simpl in H; lia|]. simpl.
  rewrite <- seq_shift, map_map. simpl. f_equal.
  apply IH. simpl in H. lia.
Qed.

Lemma for_range_cons {A : Type} (f f' : nat -> list A -> list A) (h : A) (n : nat)
  (l : list A) :
  (forall j l, f j (h :: l) = h :: f' j l) ->
  for_range n f (h :: l) = h :: for_range n f' l.
Proof.
  intros H. induction n as [|n IH]; [reflexivity|].
  now rewrite !for_range_S, IH, H.
Qed.

Lemma divide_step_length b i qr : length (divide_step SUBTRACT_JIT MULTIPLY_JIT DIVIDE_JIT b i qr) = length qr.
Proof.
  unfold divide_step. destruct (_ >? 0); [|reflexivity].
  rewrite upd_length.
  induction (length b) as [|k IH]; [reflexivity|].
  now rewrite for_range_S, upd_length.
Qed.

Lemma divide_step_tail b i h t :
  divide_step SUBTRACT_JIT MULTIPLY_JIT DIVIDE_JIT b (S i) (h :: t) = h :: divide_step SUBTRACT_JIT MULTIPLY_JIT DIVIDE_JIT b i t.
Proof.
  unfold divide_step. simpl nth. destruct (_ >? 0); [|reflexivity].
  cbv zeta.
  rewrite (for_range_cons _
             (fun j qr =>
                upd (i + j)
                  (SUBTRACT_JIT (nth (i + j) qr 0)
                     (MULTIPLY_JIT (DIVIDE_JIT (nth i t 0) (nth 0 b 0)) (nth j b 0))) qr)).
  - reflexivity.
  - intros j l. reflexivity.
Qed.

(** The loop of [_poly_divmod_jit] is schoolbook division. *)
Lemma divide_loop (b : list Z) (steps : nat) (qr : list Z) :
  (steps + length b <= length qr + 1)%nat ->
  for_range steps (divide_step SUBTRACT_JIT MULTIPLY_JIT DIVIDE_JIT b) qr = long_division SUBTRACT_JIT MULTIPLY_JIT DIVIDE_JIT b steps qr.
Proof.
  revert qr. induction steps as [|s IH]; intros qr H.
  - destruct qr; reflexivity.
  - rewrite for_range_shift.
    destruct qr as [|h t].
    + unfold divide_step at 2. simpl.
      clear. induction s as [|s IHs]; [reflexivity|].
      rewrite for_range_S, IHs. unfold divide_step. now destruct s.
    + assert (Hb : (length b <= length (h :: t))%nat) by (simpl in *; lia).
      unfold divide_step at 2. change (nth 0 (h :: t) 0) with h.
      cbn [long_division].
      destruct (h >? 0).
      * cbv zeta.
        change (for_range (length b) _ (h :: t))
          with (for_range (length b)
                  (fun j l =>
                     upd j ((fun j old => SUBTRACT_JIT old
                               (MULTIPLY_JIT (DIVIDE_JIT h (nth 0 b 0)) (nth j b 0)))
                              j (nth j l 0)) l) (h :: t)).
        cbv beta.
        rewrite (for_range_fill_prefix 0
                   (fun j old => SUBTRACT_JIT old
                                   (MULTIPLY_JIT (DIVIDE_JIT h (nth 0 b 0)) (nth j b 0)))
                   (h :: t) (length b) Hb).
        destruct b as [|b0 b'].
        { simpl. rewrite (for_range_tail (divide_step SUBTRACT_JIT MULTIPLY_JIT DIVIDE_JIT []) (divide_step SUBTRACT_JIT MULTIPLY_JIT DIVIDE_JIT [])) by (intros; apply divide_step_tail).
          rewrite IH by (simpl in *; lia). reflexivity. }
        simpl length. cbn [seq map app skipn upd].
        rewrite <- seq_shift, map_map. cbn [nth tl hd].
        rewrite (for_range_tail (divide_step SUBTRACT_JIT MULTIPLY_JIT DIVIDE_JIT (b0 :: b')) (divide_step SUBTRACT_JIT MULTIPLY_JIT DIVIDE_JIT (b0 :: b'))) by (intros; apply divide_step_tail).
        rewrite sub_scaled_loop by (simpl in *; lia).
        rewrite IH by (rewrite sub_scaled_length; simpl in *; lia).
        reflexivity.
      * rewrite (for_range_tail (divide_step SUBTRACT_JIT MULTIPLY_JIT DIVIDE_JIT b) (divide_step SUBTRACT_JIT MULTIPLY_JIT DIVIDE_JIT b)) by (intros; apply divide_step_tail).
        rewrite IH by (simpl in *; lia). reflexivity.
Qed.

Lemma long_division_length b steps qr :
  length (long_division SUBTRACT_JIT MULTIPLY_JIT DIVIDE_JIT b steps qr) = length qr.
Proof.
  revert qr. induction steps as [|s IH]; intros [|h t]; simpl; auto.
  destruct (h >? 0); simpl; rewrite IH; [now rewrite sub_scaled_length | reflexivity].
Qed.

(** [_poly_divmod_jit] succeeds on a dividend at least as long as the
    divisor and returns the schoolbook division. *)
Lemma poly_divmod_jit_ok (a b : list Z) :
  (length b <= length a)%nat ->
  _poly_divmod_jit SUBTRACT_JIT MULTIPLY_JIT DIVIDE_JIT a b
  = Ok (long_division SUBTRACT_JIT MULTIPLY_JIT DIVIDE_JIT b (length a - length b + 1) a).
Proof.
  intros H. unfold _poly_divmod_jit.
  replace (length b <=? length a)%nat with true by (symmetry; now apply Nat.leb_le).
  f_equal. fold (divide_step SUBTRACT_JIT MULTIPLY_JIT DIVIDE_JIT b).
  change (for_range (length a - length b + 1)
            (fun i qr => divide_step SUBTRACT_JIT MULTIPLY_JIT DIVIDE_JIT b i qr) a = long_division SUBTRACT_JIT MULTIPLY_JIT DIVIDE_JIT b (length a - length b + 1) a).
  apply divide_loop. lia.
Qed.

End Division.

(** ** Construction: the field, the roots and the matrices *)

Lemma sequence_map_ok {A B : Type} (f : A -> result B) (g : A -> B) (l : list A) :
  (forall x, In x l -> f x = Ok (g x)) -> sequence (map f l) = Ok (map g l).
Proof.
  induction l as [|x l IH]; intros H; simpl; [reflexivity|].
  rewrite H by (now left). simpl. rewrite IH by (intros; apply H; now right).
  reflexivity.
Qed.

Lemma check_field_ok_inv (lib : galois_lib) (n k c : Z)
  (primitive_poly primitive_element_ : option Z) (GF : FieldClass) :
  _check_and_compute_field lib n k c primitive_poly primitive_element_ = Ok GF ->
  (n - k) mod 2 = 0 /\ 1 <= c /\
  exists p m,
    prime_factors lib (n + 1) = Ok ([p], [m]) /\
    Field lib (p ^ m) (default_primitive_poly lib p m primitive_poly) primitive_element_
    = Ok GF.
Proof.
  unfold _check_and_compute_field.
  destruct ((n - k) mod 2 =? 0) eqn:E; simpl; [|discriminate].
  destruct (prime_factors lib (n + 1)) as [[p m]|e] eqn:Epf; simpl; [|discriminate].
  destruct ((length p =? 1)%nat && (length m =? 1)%nat) eqn:El; simpl; [|discriminate].
  destruct (c >=? 1) eqn:Ec; simpl; [|discriminate].
  intros HF. apply Z.eqb_eq in E.
  apply andb_prop in El. destruct El as [E1 E2].
  apply Nat.eqb_eq in E1. apply Nat.eqb_eq in E2.
  destruct p as [|p0 [|]]; try discriminate.
  destruct m as [|m0 [|]]; try discriminate.
  split; [exact E|]. split; [apply Z.geb_le in Ec; lia|].
  exists p0, m0. auto.
Qed.

(** With a parameter out of range [_check_and_compute_field] stops before
    the field factory is called: with its own [ValueError], or with the
    exception of [prime_factors]. *)
Lemma check_field_rejects (lib : galois_lib) (n k c : Z)
  (primitive_poly primitive_element_ : option Z) :
  (forall p m, prime_factors lib (n + 1) = Ok (p, m) -> factorisation_of (n + 1) p m) ->
  ~ is_prime_power (n + 1) \/ (n - k) mod 2 <> 0 \/ c < 1 ->
  exists e,
    _check_and_compute_field lib n k c primitive_poly primitive_element_ = Raise e /\
    (e = ValueError \/ prime_factors lib (n + 1) = Raise e).
Proof.
  intros Hpf Hbad. unfold _check_and_compute_field.
  destruct ((n - k) mod 2 =? 0) eqn:E; simpl; [|eauto].
  destruct (prime_factors lib (n + 1)) as [[p m]|e] eqn:Epf; simpl; [|eauto].
  destruct ((length p =? 1)%nat && (length m =? 1)%nat) eqn:El; simpl; [|eauto].
  destruct (c >=? 1) eqn:Ec; simpl; [|eauto].
  exfalso. apply Z.eqb_eq in E. apply Z.geb_le in Ec.
  apply andb_prop in El. destruct El as [E1 E2].
  apply Nat.eqb_eq in E1. apply Nat.eqb_eq in E2.
  destruct p as [|p0 [|]]; try discriminate.
  destruct m as [|m0 [|]]; try discriminate.
  destruct (single_factor_prime_power _ _ _ (Hpf _ _ eq_refl)) as [Hpp _].
  destruct Hbad as [H|[H|H]]; [tauto | tauto | lia].
Qed.

Lemma check_field_accepts (lib : galois_lib) (n k c : Z)
  (primitive_poly primitive_element_ : option Z) :
  library_contract lib n primitive_poly primitive_element_ ->
  is_prime_power (n + 1) -> (n - k) mod 2 = 0 -> 1 <= c ->
  exists GF,
    _check_and_compute_field lib n k c primitive_poly primitive_element_ = Ok GF /\
    order GF = n + 1.
Proof.
  intros [Hfact [Hret Hfield]] Hpp Heven Hc.
  destruct (Hret (prime_power_ge_2 _ Hpp)) as [p [m Epf]].
  pose proof (Hfact p m Epf) as Hf.
  destruct (prime_power_single_factor _ _ _ Hpp Hf) as [p0 [m0 [-> ->]]].
  destruct (single_factor_prime_power _ _ _ Hf) as [_ Hq].
  destruct Hf as [_ [Hp [Hm _]]]. inversion Hp; subst. inversion Hm; subst.
  destruct (Hfield p0 m0) as [GF [EF Hord]]; auto.
  exists GF. split; [|congruence].
  unfold _check_and_compute_field.
  replace ((n - k) mod 2 =? 0) with true by (symmetry; now apply Z.eqb_eq).
  rewrite Epf. simpl.
  replace (c >=? 1) with true by (symmetry; apply Z.geb_le; lia).
  simpl. exact EF.
Qed.

Lemma arange_0 (b : Z) : arange 0 b = map Z.of_nat (seq 0 (Z.to_nat b)).
Proof.
  unfold arange. rewrite Z.sub_0_r. apply map_ext. intros i. lia.
Qed.

Lemma rs_generator_poly_ok_inv (lib : galois_lib) (n k c : Z)
  (primitive_poly primitive_element_ : option Z) (g roots_ : list Z) (GF : FieldClass) :
  rs_generator_poly lib n k c primitive_poly primitive_element_ = Ok (g, roots_, GF) ->
  _check_and_compute_field lib n k c primitive_poly primitive_element_ = Ok GF /\
  roots_ = map (fun i => _POWER_JIT GF (primitive_element GF) (c + Z.of_nat i))
             (seq 0 (Z.to_nat (2 * ((n - k) / 2)))) /\
  g = Poly_Roots GF roots_.
Proof.
  unfold rs_generator_poly.
  destruct (_check_and_compute_field lib n k c primitive_poly primitive_element_)
    as [GF'|e]; simpl; [|discriminate].
  intros H. inversion H; subst. clear H.
  rewrite arange_0, !map_map. auto.
Qed.

Lemma unit_vector_length (n i : nat) : (i < n)%nat -> length (unit_vector n i) = n.
Proof.
  intros H. unfold unit_vector. rewrite !length_app, !repeat_length. simpl. lia.
Qed.

(** [_poly_divmod] succeeds on a dividend at least as long as the
    non-empty divisor: the quotient and the remainder are the two parts of
    the schoolbook division. *)
Lemma poly_divmod_ok (cls : FieldClass) (a b : list Z) :
  (1 <= length b <= length a)%nat ->
  let steps := (length a - length b + 1)%nat in
  let qr := long_division (_SUBTRACT_JIT cls) (_MULTIPLY_JIT cls) (_DIVIDE_JIT cls)
              b steps a in
  _poly_divmod cls a b = Ok (firstn steps qr, skipn steps qr).
Proof.
  intros H steps qr. unfold _poly_divmod.
  rewrite poly_divmod_jit_ok by lia. simpl bind. fold steps. fold qr.
  assert (Hlen : length qr = length a) by apply long_division_length.
  unfold slice. rewrite Hlen. unfold slice_bound.
  replace (0 <? 0) with false by reflexivity.
  replace (Z.of_nat (length a) - Z.of_nat (length b) + 1 <? 0) with false
    by (symmetry; apply Z.ltb_ge; lia).
  replace (Z.of_nat (length a) - Z.of_nat (length b) + 1 +
           (Z.of_nat (length b) - 1) + 1 <? 0) with false
    by (symmetry; apply Z.ltb_ge; lia).
  replace (Z.to_nat (Z.min 0 (Z.of_nat (length a)))) with 0%nat by lia.
  replace (Z.to_nat (Z.min (Z.of_nat (length a) - Z.of_nat (length b) + 1)
                       (Z.of_nat (length a)))) with steps by (unfold steps; lia).
  replace (Z.to_nat (Z.min (Z.of_nat (length a) - Z.of_nat (length b) + 1 +
                            (Z.of_nat (length b) - 1) + 1)
                       (Z.of_nat (length a)))) with (length a) by lia.
  rewrite Nat.sub_0_r. simpl skipn at 1.
  f_equal. f_equal.
  apply firstn_all2. rewrite length_skipn. lia.
Qed.

Lemma generator_poly_to_matrix_ok (cls : FieldClass) (n : Z) (g : list Z)
  (systematic : bool) :
  (1 <= length g <= Z.to_nat n)%nat ->
  generator_poly_to_matrix cls n g systematic
  = Ok (Arr2 (Z.to_nat n - (length g - 1)) (Z.to_nat n)
          (generator_rows cls (Z.to_nat n) g systematic)).
Proof.
  intros H. unfold generator_poly_to_matrix, generator_rows.
  destruct systematic; [|reflexivity].
  rewrite (sequence_map_ok _
             (fun i =>
                unit_vector (Z.to_nat n - (length g - 1)) i ++
                map (_SUBTRACT_JIT cls 0)
                  (skipn (Z.to_nat n - (length g - 1))
                     (long_division (_SUBTRACT_JIT cls) (_MULTIPLY_JIT cls)
                        (_DIVIDE_JIT cls) g (Z.to_nat n - (length g - 1))
                        (unit_vector (Z.to_nat n) i))))).
  - reflexivity.
  - intros i Hi. apply in_seq in Hi.
    rewrite poly_divmod_ok by (rewrite unit_vector_length; lia).
    rewrite unit_vector_length by lia. simpl.
    replace (Z.to_nat n - length g + 1)%nat with (Z.to_nat n - (length g - 1))%nat by lia.
    reflexivity.
Qed.

(** ** Construction: [ReedSolomon.__new__] *)

Lemma ReedSolomon_new_ok_inv (lib : galois_lib) (n k c : Z)
  (primitive_poly primitive_element_ : option Z) (systematic : bool)
  (self : ReedSolomon) :
  snd (ReedSolomon_new lib n k c primitive_poly primitive_element_ systematic) = Ok self ->
  exists g roots GF G,
    rs_generator_poly lib n k c primitive_poly primitive_element_ = Ok (g, roots, GF) /\
    generator_poly_to_matrix GF n g systematic = Ok G /\
    self = {| _n := n; _k := k; _c := c; _systematic := systematic;
              _generator_poly := g; _roots := roots; _field := GF;
              _t := Z.of_nat (length roots) / 2; _G := G;
              _H := roots_to_parity_check_matrix GF n roots;
              _is_narrow_sense := (c =? 1) |}.
Proof.
  unfold ReedSolomon_new.
  destruct (rs_generator_poly lib n k c primitive_poly primitive_element_)
    as [[[g roots] GF]|e]; [|discriminate].
  destruct (generator_poly_to_matrix GF n g systematic) as [G|e] eqn:EG; [|discriminate].
  simpl. intros H. inversion H. exists g, roots, GF, G. auto.
Qed.

Lemma ReedSolomon_new_raise (lib : galois_lib) (n k c : Z)
  (primitive_poly primitive_element_ : option Z) (systematic : bool) (e : exception) :
  _check_and_compute_field lib n k c primitive_poly primitive_element_ = Raise e ->
  ReedSolomon_new lib n k c primitive_poly primitive_element_ systematic
  = ([attr_n; attr_k; attr_c; attr_systematic], Raise e).
Proof.
  intros H. unfold ReedSolomon_new, rs_generator_poly. rewrite H. reflexivity.
Qed.

Lemma rs_generator_poly_ok (lib : galois_lib) (n k c : Z)
  (primitive_poly primitive_element_ : option Z) (GF : FieldClass) :
  _check_and_compute_field lib n k c primitive_poly primitive_element_ = Ok GF ->
  let roots := map (fun i => _POWER_JIT GF (primitive_element GF) (c + Z.of_nat i))
                 (seq 0 (Z.to_nat (2 * ((n - k) / 2)))) in
  rs_generator_poly lib n k c primitive_poly primitive_element_
  = Ok (Poly_Roots GF roots, roots, GF).
Proof.
  intros H roots. unfold rs_generator_poly. rewrite H. cbn [bind].
  rewrite arange_0, !map_map. reflexivity.
Qed.

Lemma even_halves (x : Z) : x mod 2 = 0 -> 2 * (x / 2) = x.
Proof.
  intros H. pose proof (Z.div_mod x 2). lia.
Qed.

Lemma ReedSolomon_new_ok (lib : galois_lib) (n k c : Z)
  (primitive_poly primitive_element_ : option Z) (systematic : bool) (GF : FieldClass) :
  _check_and_compute_field lib n k c primitive_poly primitive_element_ = Ok GF ->
  1 <= k <= n ->
  let roots := map (fun i => _POWER_JIT GF (primitive_element GF) (c + Z.of_nat i))
                 (seq 0 (Z.to_nat (n - k))) in
  let g := Poly_Roots GF roots in
  ReedSolomon_new lib n k c primitive_poly primitive_element_ systematic
  = ([attr_n; attr_k; attr_c; attr_systematic; attr_generator_poly; attr_roots;
      attr_field; attr_t; attr_G; attr_H; attr_is_narrow_sense],
     Ok {| _n := n; _k := k; _c := c; _systematic := systematic;
           _generator_poly := g; _roots := roots; _field := GF;
           _t := (n - k) / 2;
           _G := Arr2 (Z.to_nat k) (Z.to_nat n)
                   (generator_rows GF (Z.to_nat n) g systematic);
           _H := roots_to_parity_check_matrix GF n roots;
           _is_narrow_sense := (c =? 1) |}).
Proof.
  intros HGF Hk roots g.
  destruct (check_field_ok_inv _ _ _ _ _ _ _ HGF) as [Heven _].
  unfold ReedSolomon_new. rewrite (rs_generator_poly_ok _ _ _ _ _ _ _ HGF).
  rewrite (even_halves _ Heven). fold roots. fold g.
  assert (Hr : length roots = Z.to_nat (n - k))
    by (unfold roots; now rewrite length_map, length_seq).
  assert (Hg : length g = S (Z.to_nat (n - k)))
    by (unfold g; now rewrite Poly_Roots_length, Hr).
  rewrite generator_poly_to_matrix_ok by lia.
  cbv zeta. simpl app.
  replace (Z.to_nat n - (length g - 1))%nat with (Z.to_nat k) by lia.
  replace (Z.of_nat (length roots)) with (n - k) by lia.
  reflexivity.
Qed.

(** C3. Construction checks its parameters before anything is derived
    from them.  When [n + 1] is not a prime power, [n - k] is odd or
    [c < 1], [ReedSolomon.__new__] raises (a [ValueError], unless
    [prime_factors] itself raised on [n + 1]) while only the four
    arguments [n], [k], [c] and [systematic] have been stored: no
    generator polynomial, roots, field, [t], [G] or [H] has been assigned.
    With valid parameters, and a field factory that accepts the
    field-selection inputs, construction returns a code over the field of
    order [q = n + 1], with every attribute assigned. *)
Theorem construction_checks_parameters (lib : galois_lib) (n k c : Z)
  (primitive_poly primitive_element_ : option Z) (systematic : bool) :
  library_contract lib n primitive_poly primitive_element_ ->
  (~ is_prime_power (n + 1) \/ (n - k) mod 2 <> 0 \/ c < 1 ->
   exists e,
     ReedSolomon_new lib n k c primitive_poly primitive_element_ systematic
     = ([attr_n; attr_k; attr_c; attr_systematic], Raise e) /\
     (e = ValueError \/ prime_factors lib (n + 1) = Raise e)) /\
  (valid_parameters n k c ->
   exists self,
     ReedSolomon_new lib n k c primitive_poly primitive_element_ systematic
     = ([attr_n; attr_k; attr_c; attr_systematic; attr_generator_poly; attr_roots;
         attr_field; attr_t; attr_G; attr_H; attr_is_narrow_sense], Ok self) /\
     order (_field self) = n + 1 /\
     _n self = n /\ _k self = k /\ _c self = c /\ _t self = (n - k) / 2 /\
     _systematic self = systematic).
Proof.
  intros Hlib. split.
  - intros Hbad. destruct Hlib as [Hfact _].
    destruct (check_field_rejects lib n k c primitive_poly primitive_element_ Hfact Hbad)
      as [e [He Hkind]].
    exists e. split; [|exact Hkind].
    now apply ReedSolomon_new_raise.
  - intros [Hpp [Heven [Hc Hk]]].
    destruct (check_field_accepts lib n k c primitive_poly primitive_element_
                Hlib Hpp Heven Hc) as [GF [HGF Hord]].
    eexists. split.
    + apply (ReedSolomon_new_ok lib n k c primitive_poly primitive_element_
               systematic GF HGF Hk).
    + simpl. auto 10.
Qed.

(** ** The generator polynomial *)

Section GeneratorPolynomial.

Variable cls : FieldClass.
Hypothesis laws : FieldLaws cls.

Add Ring field_ring_generator : (field_ring_theory cls laws)
  (setoid (feq_equivalence cls) (field_ring_eq_ext cls)).

Local Abbreviation F := (in_field cls).
Local Abbreviation add := (_ADD_JIT cls).
Local Abbreviation sub := (_SUBTRACT_JIT cls).
Local Abbreviation mul := (_MULTIPLY_JIT cls).

(** The [power] kernel on a non-negative exponent is repeated
    multiplication. *)
Lemma power_field_pow (a e : Z) :
  F a -> 0 <= e -> _POWER_JIT cls a e = field_pow cls a (Z.to_nat e).
Proof.
  intros Ha He. rewrite <- (Z2Nat.id e He) at 1.
  induction (Z.to_nat e) as [|j IH].
  - apply (law_power_zero cls laws). exact Ha.
  - rewrite Nat2Z.inj_succ, <- Z.add_1_r.
    rewrite (law_power_succ cls laws) by (auto; lia).
    simpl. now rewrite IH.
Qed.

Lemma in_field_power (a e : Z) : F a -> 0 <= e -> F (_POWER_JIT cls a e).
Proof.
  intros Ha He. rewrite power_field_pow by auto. auto with fld.
Qed.

(** The convolution with [x - r], cell by cell, is [x p(x) - r p(x)]. *)
Lemma linear_factor_product_spec (r carry y : Z) (p : list Z) :
  F r -> F y -> Forall F p -> carry = sub 0 y ->
  linear_factor_product add mul (sub 0 r) carry p
  = map (fun ab => sub (fst ab) (snd ab)) (combine (p ++ [0]) (y :: map (mul r) p)).
Proof.
  intros Hr Hy Hp. revert carry y Hy.
  induction Hp as [|x p Hx Hp IH]; intros carry y Hy ->; simpl.
  - reflexivity.
  - f_equal.
    + field_ring cls.
    + apply IH; [auto with fld|]. field_ring cls.
Qed.

Lemma Poly_mul_times_linear_factor (p : list Z) (r : Z) :
  F r -> Forall F p ->
  Poly_mul cls p [1; sub 0 r] = times_linear_factor cls p r.
Proof.
  intros Hr Hp. unfold Poly_mul, times_linear_factor.
  rewrite convolve_linear_factor.
  apply linear_factor_product_spec; auto with fld.
  field_ring cls.
Qed.

Lemma in_field_times_linear_factor (p : list Z) (r : Z) :
  F r -> Forall F p -> Forall F (times_linear_factor cls p r).
Proof.
  intros Hr Hp. rewrite <- Poly_mul_times_linear_factor by auto.
  unfold Poly_mul. rewrite convolve_linear_factor.
  apply in_field_linear_factor_product; auto with fld.
Qed.

(** [Poly.Roots] computes the product of the linear factors of the
    roots. *)
Lemma Poly_Roots_product (roots : list Z) :
  Forall F roots -> Poly_Roots cls roots = product_of_linear_factors cls roots.
Proof.
  intros Hr. unfold Poly_Roots, product_of_linear_factors.
  assert (H1 : Forall F [1]) by (constructor; auto with fld).
  revert H1. generalize [1].
  induction Hr as [|r roots Hr Hrs IH]; intros p0 Hp0; simpl; [reflexivity|].
  rewrite Poly_mul_times_linear_factor by auto.
  apply IH. now apply in_field_times_linear_factor.
Qed.

(** The consecutive powers of an element of the field are elements of
    the field, and are its powers by repeated multiplication. *)
Lemma consecutive_powers (a c : Z) (m : nat) :
  F a -> 0 <= c ->
  let roots := map (fun i => _POWER_JIT cls a (c + Z.of_nat i)) (seq 0 m) in
  Forall F roots /\
  roots = map (fun i => field_pow cls a (Z.to_nat c + i)) (seq 0 m).
Proof.
  intros Ha Hc roots. split.
  - apply Forall_forall. intros x Hx. apply in_map_iff in Hx.
    destruct Hx as [i [<- _]]. apply in_field_power; auto. lia.
  - apply map_ext. intros i. rewrite power_field_pow by (auto; lia).
    f_equal. lia.
Qed.

End GeneratorPolynomial.

(** C4. The generator polynomial of a constructed code is the product of
    the linear factors [x - alpha^(c+i)], [i = 0 .. 2t - 1], of its roots:
    coefficient by coefficient it is that product, it is monic of degree
    [2t], and its value at every [x] of the field is
    [(x - alpha^c) ... (x - alpha^(c+2t-1))].  The roots the code exposes
    are the [2t] consecutive powers [alpha^c, ..., alpha^(c+2t-1)] of the
    primitive element, in that order. *)
Theorem generator_polynomial_of_constructed_code (lib : galois_lib) (n k c : Z)
  (primitive_poly primitive_element_ : option Z) (systematic : bool)
  (self : ReedSolomon) :
  snd (ReedSolomon_new lib n k c primitive_poly primitive_element_ systematic) = Ok self ->
  FieldLaws (_field self) ->
  let GF := _field self in
  let alpha := primitive_element GF in
  let t := (n - k) / 2 in
  _roots self
  = map (fun i => field_pow GF alpha (Z.to_nat c + i)) (seq 0 (Z.to_nat (2 * t))) /\
  _generator_poly self = product_of_linear_factors GF (_roots self) /\
  length (_generator_poly self) = S (Z.to_nat (2 * t)) /\
  hd 0 (_generator_poly self) = 1 /\
  Forall (in_field GF) (_generator_poly self) /\
  (forall x, in_field GF x ->
     poly_eval GF (_generator_poly self) x = product_of_differences GF x (_roots self)).
Proof.
  intros Hnew.
  destruct (ReedSolomon_new_ok_inv _ _ _ _ _ _ _ _ Hnew) as [g [roots [GF' [G [Hg [_ ->]]]]]].
  simpl. intros laws.
  apply rs_generator_poly_ok_inv in Hg. destruct Hg as [Hfield [-> ->]].
  destruct (check_field_ok_inv _ _ _ _ _ _ _ Hfield) as [_ [Hc _]].
  destruct (consecutive_powers GF' laws (primitive_element GF') c
              (Z.to_nat (2 * ((n - k) / 2)))) as [HF Hroots];
    [apply (law_primitive_element _ laws) | lia |].
  destruct (Poly_Roots_spec GF' laws _ HF) as [G1 [G2 [G3 G4]]].
  split; [exact Hroots|].
  split; [now apply Poly_Roots_product|].
  split; [now rewrite G2, length_map, length_seq|].
  auto.
Qed.

(** ** The matrix product: the claim, and its entries without the laws *)

(** C7. For arrays [A] and [B] of one or two dimensions over one field,
    prime or extension, whose entries are elements of the field,
    [matmul(A, B)] raises [ValueError] whenever the number of columns of
    [A] differs from the number of rows of [B], and otherwise returns the
    array of the field's class whose entries are the contractions
    [sum_k A[i,k] * B[k,j]] computed with the field's own [add] and
    [multiply] on integers: the exact product. *)
Theorem matmul_shape_error_or_exact_product (cls : FieldClass) (A B : ndarray) :
  FieldLaws cls ->
  atype A = atype B ->
  is_vector_or_matrix (val A) -> is_vector_or_matrix (val B) ->
  wf_data (val A) -> wf_data (val B) ->
  data_in_field cls (val A) -> data_in_field cls (val B) ->
  (columns_of (val A) <> rows_of (val B) -> _matmul cls A B = Raise ValueError) /\
  (columns_of (val A) = rows_of (val B) ->
   _matmul cls A B = Ok {| atype := atype A; val := matmul_spec cls (val A) (val B) |}).
Proof.
  intros laws Ht VA VB WA WB FA FB.
  rewrite (matmul_characterised cls laws A B) by assumption.
  split; intros H.
  - apply Nat.eqb_neq in H. now rewrite H.
  - apply Nat.eqb_eq in H. now rewrite H.
Qed.

(** [_matmul] on two matrices, whatever their entries. *)
Lemma matmul_matrix_matrix (cls : FieldClass) (t : array_type) (M K K' N : nat)
  (rowsA rowsB : list (list Z)) :
  length rowsB = K' ->
  _matmul cls {| atype := t; val := Arr2 M K rowsA |} {| atype := t; val := Arr2 K' N rowsB |}
  = if (K =? K')%nat
    then Ok {| atype := t; val := Arr2 M N (matmul_rows cls M N rowsA rowsB) |}
    else Raise ValueError.
Proof.
  intros HB. unfold _matmul, matmul_rows, matmul_entry.
  simpl atype. rewrite array_type_eqb_refl.
  unfold ndim, shape. simpl val. simpl data_shape. simpl length.
  simpl andb. simpl negb. cbv iota.
  destruct (is_prime_field cls).
  - unfold _lapack_linalg_matmul. simpl.
    destruct (K =? K')%nat; simpl; [|reflexivity].
    do 3 f_equal. rewrite map_map. apply map_ext. intros i. now rewrite map_map.
  - unfold last_dim, second_last_dim. simpl.
    destruct (K =? K')%nat eqn:E; simpl; [|reflexivity].
    apply Nat.eqb_eq in E. subst K.
    destruct (ufunc_mode_eqb (ufunc_mode cls) python_calculate).
    + rewrite (fill_loops
                 (fun i j _ =>
                    np_sum (_ADD_JIT cls)
                      (map (fun ab => _MULTIPLY_JIT cls (fst ab) (snd ab))
                         (combine (nth i rowsA []) (column rowsB j))))).
      reflexivity.
    + rewrite matmul_loops.
      simpl. do 3 f_equal.
      apply map_ext. intros i. apply map_ext. intros j.
      rewrite column_length, HB.
      apply fold_left_ext_all. intros acc k. now rewrite column_nth.
Qed.

Lemma matmul_rows_shaped (cls : FieldClass) (M N : nat) (rowsA rowsB : list (list Z)) :
  wf_data (Arr2 M N (matmul_rows cls M N rowsA rowsB)).
Proof.
  unfold matmul_rows. split.
  - now rewrite length_map, length_seq.
  - apply Forall_forall. intros row Hrow. apply in_map_iff in Hrow.
    destruct Hrow as [i [<- _]]. now rewrite length_map, length_seq.
Qed.

Lemma matmul_rows_nth (cls : FieldClass) (M N : nat) (rowsA rowsB : list (list Z)) (i : nat) :
  (i < M)%nat ->
  nth i (matmul_rows cls M N rowsA rowsB) []
  = map (fun j => matmul_entry cls (nth i rowsA []) (column rowsB j)) (seq 0 N).
Proof.
  intros Hi. unfold matmul_rows.
  now rewrite (map_seq_nth [] _ M i) by lia.
Qed.

(** [_matmul] on a vector and a matrix, whatever their entries. *)
Lemma matmul_vector_matrix (cls : FieldClass) (t : array_type) (K' N : nat)
  (a : list Z) (rowsB : list (list Z)) :
  length rowsB = K' ->
  _matmul cls {| atype := t; val := Arr1 a |} {| atype := t; val := Arr2 K' N rowsB |}
  = if (length a =? K')%nat
    then Ok {| atype := t;
               val := Arr1 (map (fun j => matmul_entry cls a (column rowsB j)) (seq 0 N)) |}
    else Raise ValueError.
Proof.
  intros HB. unfold _matmul, matmul_entry.
  simpl atype. rewrite array_type_eqb_refl.
  unfold ndim, shape. simpl val. simpl data_shape. simpl length.
  simpl andb. simpl negb. cbv iota.
  destruct (is_prime_field cls).
  - unfold _lapack_linalg_matmul. simpl.
    destruct (length a =? K')%nat; simpl; [|reflexivity].
    do 3 f_equal. now rewrite map_map.
  - unfold last_dim, second_last_dim. simpl.
    destruct (length a =? K')%nat eqn:E; simpl; [|reflexivity].
    apply Nat.eqb_eq in E.
    destruct (ufunc_mode_eqb (ufunc_mode cls) python_calculate).
    + rewrite (fill_loops
                 (fun i j _ =>
                    np_sum (_ADD_JIT cls)
                      (map (fun ab => _MULTIPLY_JIT cls (fst ab) (snd ab))
                         (combine (nth i [a] []) (column rowsB j))))).
      simpl. now rewrite app_nil_r.
    + rewrite matmul_loops.
      simpl. rewrite app_nil_r. do 3 f_equal.
      apply map_ext. intros j.
      rewrite column_length, HB, <- E.
      apply fold_left_ext_all. intros acc k. now rewrite column_nth.
Qed.

Section MatmulEntry.

Variable cls : FieldClass.
Hypothesis laws : FieldLaws cls.

(** On elements of the field every route computes the contraction of
    the spec. *)
Lemma matmul_entry_dot (a b : list Z) :
  length a = length b -> Forall (in_field cls) a -> Forall (in_field cls) b ->
  matmul_entry cls a b = field_dot cls a b.
Proof.
  intros HL Ha Hb. unfold matmul_entry.
  destruct (is_prime_field cls) eqn:Hp.
  - unfold is_prime_field in Hp. apply Z.eqb_eq in Hp.
    now apply (lapack_entry cls laws).
  - destruct (ufunc_mode_eqb (ufunc_mode cls) python_calculate).
    + now apply (python_entry cls laws).
    + rewrite <- HL. now apply (jit_entry cls laws).
Qed.

End MatmulEntry.

(** ** [decode], codeword by codeword *)

Lemma map_nth_seq {A B : Type} (d : A) (f : A -> B) (l : list A) :
  map (fun i => f (nth i l d)) (seq 0 (length l)) = map f l.
Proof.
  induction l as [|x l IH]; simpl; [reflexivity|].
  now rewrite <- seq_shift, map_map, IH.
Qed.

(** What [ReedSolomon.__new__] leaves in the object it returns. *)
Lemma constructed_inv (self : ReedSolomon) :
  constructed self ->
  _H self = roots_to_parity_check_matrix (_field self) (_n self) (_roots self) /\
  _t self = Z.of_nat (length (_roots self)) / 2 /\
  _roots self
  = map (fun i => _POWER_JIT (_field self) (primitive_element (_field self))
                    (_c self + Z.of_nat i))
      (seq 0 (Z.to_nat (2 * ((_n self - _k self) / 2)))) /\
  _generator_poly self = Poly_Roots (_field self) (_roots self) /\
  generator_poly_to_matrix (_field self) (_n self) (_generator_poly self)
    (_systematic self) = Ok (_G self) /\
  (_n self - _k self) mod 2 = 0 /\ 1 <= _c self.
Proof.
  intros [lib [pp [pe Hnew]]].
  destruct (ReedSolomon_new_ok_inv _ _ _ _ _ _ _ _ Hnew)
    as [g [roots [GF [G [Hg [HG Hself]]]]]].
  apply rs_generator_poly_ok_inv in Hg. destruct Hg as [Hfield [Hroots Hgp]].
  destruct (check_field_ok_inv _ _ _ _ _ _ _ Hfield) as [Heven [Hc _]].
  rewrite Hself. simpl. subst g. auto 10.
Qed.

Lemma constructed_parity_check (self : ReedSolomon) :
  constructed self ->
  transpose (_H self)
  = Arr2 (Z.to_nat (_n self)) (length (_roots self)) (parity_check_columns self) /\
  length (parity_check_columns self) = Z.to_nat (_n self).
Proof.
  intros Hc. destruct (constructed_inv self Hc) as [HH _].
  unfold parity_check_columns. rewrite HH. unfold roots_to_parity_check_matrix.
  simpl. rewrite !length_map, length_seq. auto.
Qed.

(** The syndrome product of [decode] on a batch. *)
Lemma decode_syndrome (self : ReedSolomon) (ty : array_type) (N m : nat)
  (rows : list (list Z)) :
  constructed self ->
  length rows = N ->
  _matmul (_field self)
    (view {| atype := ty; val := Arr2 N m rows |} (field_type (_field self)))
    {| atype := field_type (_field self); val := transpose (_H self) |}
  = if (m =? Z.to_nat (_n self))%nat
    then Ok {| atype := field_type (_field self);
               val := Arr2 N (length (_roots self)) (map (syndrome_row self) rows) |}
    else Raise ValueError.
Proof.
  intros Hc HN.
  destruct (constructed_parity_check self Hc) as [HT HL].
  rewrite HT. unfold view. simpl val.
  rewrite matmul_matrix_matrix by exact HL.
  destruct (m =? Z.to_nat (_n self))%nat; [|reflexivity].
  do 3 f_equal. unfold matmul_rows. rewrite <- HN.
  rewrite <- (map_nth_seq [] (syndrome_row self) rows). reflexivity.
Qed.

(** The compiled decoder on a batch decodes every codeword from its own
    syndrome. *)
Lemma decode_jit_rows (self : ReedSolomon) (N : nat) (rows : list (list Z)) :
  wf_data (Arr2 N (Z.to_nat (_n self)) rows) ->
  _decode_jit self (Arr2 N (Z.to_nat (_n self)) rows)
    (Arr2 N (length (_roots self)) (map (syndrome_row self) rows))
  = dec <- sequence (map (decode_row_of self) rows) ;;
    Ok (Arr2 N (Z.to_nat (_n self) + 1) dec).
Proof.
  intros [HN Hrows]. unfold _decode_jit.
  rewrite (decode_calculate_rows (Z.to_nat (_n self)) (_t self)
             (primitive_element (_field self))
             (_calculate_jit_add (_field self)) (_calculate_jit_subtract (_field self))
             (_calculate_jit_multiply (_field self))
             (_calculate_jit_reciprocal (_field self))
             (_calculate_jit_power (_field self))
             (_function_berlekamp_massey (_field self))
             (_function_poly_roots (_field self))
             (_function_poly_evaluate (_field self))
             (_function_convolve (_field self))
             (characteristic (_field self))
             (characteristic (_field self), degree (_field self),
              _irreducible_poly_int (_field self))
             N (length (_roots self)) N rows (map (syndrome_row self) rows)
             (degree (_field self)) (_irreducible_poly_int (_field self)) eq_refl HN).
  replace (map (decode_row_of self) rows)
    with (map (fun i => decode_row_of self (nth i rows [])) (seq 0 N))
    by (rewrite <- HN; apply map_nth_seq).
  f_equal. f_equal. apply map_ext_in. intros i Hi. apply in_seq in Hi.
  unfold decode_row_of.
  assert (Hin : In (nth i rows []) rows) by (apply nth_In; lia).
  rewrite Forall_forall in Hrows. rewrite (Hrows _ Hin).
  rewrite (nth_indep (map (syndrome_row self) rows) [] (syndrome_row self []))
    by (rewrite length_map; lia).
  now rewrite (map_nth (syndrome_row self)).
Qed.

Lemma sequence_map_bind {A B C : Type} (f : A -> B) (g : B -> result C) (l : list A) :
  sequence (map g (map f l)) = sequence (map (fun x => g (f x)) l).
Proof. now rewrite map_map. Qed.


(** [decode] on a single codeword of length [n]. *)
Lemma decode_single (self : ReedSolomon) (ty : array_type) (v : list Z) (errors : bool) :
  constructed self ->
  length v = Z.to_nat (_n self) ->
  decode self (PyArray {| atype := ty; val := Arr1 v |}) errors
  = if ufunc_mode_eqb (ufunc_mode (_field self)) python_calculate
    then Raise NotImplementedError
    else
      dec <- decode_row_of self v ;;
      m <- message_of self dec ;;
      let message := {| atype := ty; val := Arr1 m |} in
      if errors then Ok (MessageErrors message (Arr0 (last dec 0)))
      else Ok (Message message).
Proof.
  intros Hc Hv.
  assert (Hwf : wf_data (Arr2 1 (Z.to_nat (_n self)) [v])).
  { split; [reflexivity | now repeat constructor]. }
  unfold decode. cbn [atleast_2d val atype]. rewrite Hv.
  rewrite (decode_syndrome self ty 1 (Z.to_nat (_n self)) [v] Hc eq_refl).
  rewrite Nat.eqb_refl. cbn [bind].
  destruct (ufunc_mode_eqb (ufunc_mode (_field self)) python_calculate);
    [reflexivity|].
  cbn [negb val]. rewrite (decode_jit_rows self 1 [v] Hwf).
  cbn [map sequence bind].
  destruct (decode_row_of self v) as [dec|e]; [|reflexivity].
  cbn [bind]. unfold message_of.
  destruct (_systematic self).
  - cbn [columns_upto bind]. unfold ndim, shape. simpl.
    destruct errors; reflexivity.
  - cbn [columns_upto _poly_divmod_rows map sequence bind].
    destruct (_poly_divmod _ _ _) as [qr|e]; [|reflexivity].
    cbn [bind]. unfold ndim, shape. simpl.
    destruct errors; reflexivity.
Qed.

(** ** [encode], message by message *)


Lemma slice_bound_in_range (len : nat) (k : Z) :
  0 <= k <= Z.of_nat len -> slice_bound len k = Z.to_nat k.
Proof.
  intros H. unfold slice_bound.
  replace (k <? 0) with false by (symmetry; apply Z.ltb_ge; lia).
  f_equal. lia.
Qed.



(** ** What [decode] rejects, and what it does not support *)








(** ** The laws of a small field, by exhaustion *)

Lemma elements_in (q a : Z) : 0 <= a < q -> In a (elements q).
Proof.
  intros H. unfold elements. apply in_map_iff.
  exists (Z.to_nat a). split; [lia|]. apply in_seq. lia.
Qed.

Lemma all1_sound (q : Z) (P : Z -> bool) :
  all1 q P = true -> forall a, 0 <= a < q -> P a = true.
Proof.
  unfold all1. intros H a Ha.
  rewrite forallb_forall in H. apply H. now apply elements_in.
Qed.

Lemma all2_sound (q : Z) (P : Z -> Z -> bool) :
  all2 q P = true -> forall a b, 0 <= a < q -> 0 <= b < q -> P a b = true.
Proof.
  unfold all2. intros H a b Ha Hb.
  apply (all1_sound q (P a)); [|exact Hb].
  now apply (all1_sound q (fun a => all1 q (P a))).
Qed.

Lemma all3_sound (q : Z) (P : Z -> Z -> Z -> bool) :
  all3 q P = true ->
  forall a b c, 0 <= a < q -> 0 <= b < q -> 0 <= c < q -> P a b c = true.
Proof.
  unfold all3. intros H a b c Ha Hb Hc.
  apply (all2_sound q (P a)); [|exact Hb|exact Hc].
  now apply (all1_sound q (fun a => all2 q (P a))).
Qed.

Lemma in_fieldb_sound (cls : FieldClass) (x : Z) :
  in_fieldb cls x = true -> in_field cls x.
Proof.
  unfold in_fieldb, in_field. intros H. apply andb_prop in H. lia.
Qed.

Lemma guarded_sound (b : Z) (P : bool) : (b =? 0) || P = true -> b <> 0 -> P = true.
Proof.
  intros H Hb. apply orb_prop in H. destruct H as [H|H]; [|exact H].
  apply Z.eqb_eq in H. contradiction.
Qed.

Lemma Z_iter_succ {A : Type} (f : A -> A) (x : A) (e : Z) :
  0 <= e -> Z.iter (Z.succ e) f x = f (Z.iter e f x).
Proof.
  intros He. destruct e as [|p|p]; [reflexivity | | lia].
  unfold Z.succ. simpl. rewrite Pos.add_1_r. apply Pos.iter_succ.
Qed.

(** A class that passes the check and whose [power] is repeated
    multiplication satisfies the laws. *)
Lemma field_laws_check_sound (cls : FieldClass) :
  field_laws_check cls = true ->
  _calculate_jit_power cls = power_of (_calculate_jit_multiply cls) ->
  FieldLaws cls.
Proof.
  unfold field_laws_check. intros H Hpow.
  repeat (apply andb_prop in H; let H' := fresh "L" in destruct H as [H H']).
  constructor; unfold in_field.
  - lia.
  - intros a b Ha Hb. apply in_fieldb_sound. now apply (all2_sound _ _ L16).
  - intros a b Ha Hb. apply in_fieldb_sound. now apply (all2_sound _ _ L15).
  - intros a b Ha Hb. apply in_fieldb_sound. now apply (all2_sound _ _ L14).
  - intros a b Ha Hb. apply Z.eqb_eq. now apply (all2_sound _ _ L13).
  - intros a b c Ha Hb Hc. apply Z.eqb_eq. now apply (all3_sound _ _ L12).
  - intros a Ha. apply Z.eqb_eq. now apply (all1_sound _ _ L11).
  - intros a b Ha Hb. apply Z.eqb_eq. now apply (all2_sound _ _ L10).
  - intros a b Ha Hb. apply Z.eqb_eq. now apply (all2_sound _ _ L9).
  - intros a b c Ha Hb Hc. apply Z.eqb_eq. now apply (all3_sound _ _ L8).
  - intros a Ha. apply Z.eqb_eq. now apply (all1_sound _ _ L7).
  - intros a b c Ha Hb Hc. apply Z.eqb_eq. now apply (all3_sound _ _ L6).
  - intros a b Ha Hb Hnz. apply in_fieldb_sound.
    apply (guarded_sound b); [|exact Hnz]. now apply (all2_sound _ _ L5).
  - intros a b Ha Hb Hnz. apply Z.eqb_eq.
    apply (guarded_sound b); [|exact Hnz]. now apply (all2_sound _ _ L4).
  - intros a Ha Hnz. apply in_fieldb_sound.
    apply (guarded_sound a); [|exact Hnz]. now apply (all1_sound _ _ L3).
  - intros a Ha Hnz. apply Z.eqb_eq.
    apply (guarded_sound a); [|exact Hnz]. now apply (all1_sound _ _ L2).
  - intros a Ha. unfold _POWER_JIT. rewrite Hpow. reflexivity.
  - intros a e Ha He. unfold _POWER_JIT, _MULTIPLY_JIT. rewrite Hpow.
    unfold power_of. rewrite Z.add_1_r. now rewrite Z_iter_succ.
  - now apply in_fieldb_sound.
  - lia.
  - intros Hd. apply orb_prop in L. destruct L as [L|L].
    + apply negb_true_iff in L. apply Z.eqb_neq in L. contradiction.
    + apply andb_prop in L. destruct L as [Lq Lp]. apply Z.eqb_eq in Lq.
      split; [exact Lq|]. intros a b Ha Hb.
      pose proof (all2_sound _ _ Lp a b Ha Hb) as E.
      apply andb_prop in E. destruct E as [E1 E2].
      apply Z.eqb_eq in E1. apply Z.eqb_eq in E2. auto.
Qed.

Lemma GF7_laws : FieldLaws GF7.
Proof. apply field_laws_check_sound; [vm_compute|]; reflexivity. Qed.

Lemma GF8_laws : FieldLaws GF8.
Proof. apply field_laws_check_sound; [vm_compute|]; reflexivity. Qed.

(** ** The example library and its codes *)

Lemma prime_power_unique (p q m e : Z) :
  prime p -> prime q -> 1 <= m -> 1 <= e -> p ^ m = q ^ e -> p = q /\ m = e.
Proof.
  intros Hp Hq Hm He H.
  assert (Hpq : p = q).
  { apply (Z.divide_prime_pp p q e); [now apply prime_alt | now apply prime_alt | lia |].
    rewrite <- H. replace m with (Z.succ (m - 1)) by lia.
    rewrite Z.pow_succ_r by lia. apply Z.divide_mul_l, Z.divide_refl. }
  split; [exact Hpq|]. subst q.
  destruct Hp as [Hp _].
  apply (Z.pow_inj_r p); lia.
Qed.

Lemma rel_prime_gcd (a b : Z) : Z.gcd a b = 1 -> rel_prime a b.
Proof.
  intros H. constructor; try apply Z.divide_1_l.
  intros x Ha Hb. rewrite <- H. now apply Z.gcd_greatest.
Qed.

Lemma prime_two : prime 2.
Proof. apply prime_alt. exact Z.prime_2. Qed.

Lemma prime_7 : prime 7.
Proof.
  apply prime_intro; [lia|]. intros n Hn.
  assert (Hc : n = 1 \/ n = 2 \/ n = 3 \/ n = 4 \/ n = 5 \/ n = 6) by lia.
  destruct Hc as [->|[->|[->|[->|[->| ->]]]]];
    apply rel_prime_gcd; reflexivity.
Qed.

(** The example library meets the contract of construction wherever its
    factorisation returns one prime whose field its factory builds. *)
Lemma example_contract (n p0 m0 : Z) (GF : FieldClass) :
  example_prime_factors (n + 1) = Ok ([p0], [m0]) ->
  prime p0 -> 1 <= m0 -> n + 1 = p0 ^ m0 ->
  example_Field (p0 ^ m0) (default_primitive_poly example_lib p0 m0 None) None = Ok GF ->
  order GF = p0 ^ m0 ->
  library_contract example_lib n None None.
Proof.
  intros Hpf Hp Hm Hn HF Hord. unfold library_contract. simpl prime_factors.
  split; [|split].
  - intros p m H. rewrite Hpf in H. inversion H; subst.
    repeat split; auto.
    + repeat constructor. intros [].
    + simpl. lia.
  - intros _. eauto.
  - intros p m Hp' Hm' Hpm. rewrite Hn in Hpm.
    destruct (prime_power_unique p0 p m0 m Hp Hp' Hm Hm' Hpm) as [<- <-].
    exists GF. auto.
Qed.

Lemma example_contract_6 : library_contract example_lib 6 None None.
Proof.
  apply (example_contract 6 7 1 GF7); try reflexivity; try lia. exact prime_7.
Qed.

Lemma example_contract_7 : library_contract example_lib 7 None None.
Proof.
  apply (example_contract 7 2 3 GF8); try reflexivity; try lia. exact prime_two.
Qed.

Lemma valid_parameters_7_3 : valid_parameters 7 3 1.
Proof.
  split; [|split; [reflexivity | lia]].
  exists 2, 3. split; [exact prime_two | split; [lia | reflexivity]].
Qed.


Lemma RS_7_3_constructed : constructed RS_7_3.
Proof. exists example_lib, None, None. vm_compute. reflexivity. Qed.






(** ** Codewords as linear combinations of the rows of [G] *)

Lemma map_const_seq {A : Type} (x : A) (n : nat) :
  map (fun _ => x) (seq 0 n) = repeat x n.
Proof.
  generalize 0%nat. induction n as [|n IH]; intros s; simpl; [reflexivity|].
  now rewrite IH.
Qed.

Lemma list_as_map_nth (l : list Z) :
  map (fun j => nth j l 0) (seq 0 (length l)) = l.
Proof.
  rewrite (map_nth_seq 0 (fun x => x) l). apply map_id.
Qed.

Section LinearCombinations.

Variable cls : FieldClass.
Hypothesis laws : FieldLaws cls.

Add Ring field_ring_lincomb : (field_ring_theory cls laws)
  (setoid (feq_equivalence cls) (field_ring_eq_ext cls)).

Local Abbreviation F := (in_field cls).
Local Abbreviation add := (_ADD_JIT cls).
Local Abbreviation sub := (_SUBTRACT_JIT cls).
Local Abbreviation mul := (_MULTIPLY_JIT cls).

Lemma zip_add_map {A : Type} (a b : A -> Z) (l : list A) :
  zip_add cls (map a l) (map b l) = map (fun j => add (a j) (b j)) l.
Proof. induction l as [|x l IH]; simpl; [reflexivity | now rewrite IH]. Qed.

Lemma zip_add_length (u v : list Z) :
  length u = length v -> length (zip_add cls u v) = length u.
Proof.
  revert v. induction u as [|x u IH]; intros [|y v] H; simpl in *; try lia.
  now rewrite IH by lia.
Qed.

Lemma scale_length (s : Z) (u : list Z) : length (scale cls s u) = length u.
Proof. apply length_map. Qed.

Lemma lincomb_length (m : list Z) (rows : list (list Z)) (n : nat) :
  Forall (fun row => length row = n) rows -> length (lincomb cls m rows n) = n.
Proof.
  intros H. revert m. induction H as [|row rows Hrow Hrows IH]; intros m.
  - destruct m; simpl; apply repeat_length.
  - destruct m as [|mi m]; simpl; [apply repeat_length|].
    rewrite zip_add_length; rewrite scale_length; [exact Hrow | now rewrite IH].
Qed.

Lemma in_field_zip_add (u v : list Z) :
  Forall F u -> Forall F v -> Forall F (zip_add cls u v).
Proof.
  intros Hu. revert v. induction Hu as [|x u Hx Hu IH]; intros v Hv; simpl.
  - constructor.
  - destruct Hv as [|y v Hy Hv]; constructor; auto with fld.
Qed.

Lemma in_field_scale (s : Z) (u : list Z) : F s -> Forall F u -> Forall F (scale cls s u).
Proof.
  intros Hs Hu. unfold scale. apply Forall_map.
  eapply Forall_impl; [|exact Hu]. intros x Hx. auto with fld.
Qed.

Lemma in_field_lincomb (m : list Z) (rows : list (list Z)) (n : nat) :
  Forall F m -> Forall (Forall F) rows -> Forall F (lincomb cls m rows n).
Proof.
  intros Hm. revert rows. induction Hm as [|mi m Hmi Hm IH]; intros rows Hrows.
  - simpl. auto with fld.
  - destruct Hrows as [|row rows Hrow Hrows]; simpl; [auto with fld|].
    apply in_field_zip_add; [now apply in_field_scale | now apply IH].
Qed.

Lemma vecmat_cons (m0 : Z) (m : list Z) (row : list Z) (rows : list (list Z)) (n : nat) :
  length row = n ->
  vecmat cls (m0 :: m) (row :: rows) n = zip_add cls (scale cls m0 row) (vecmat cls m rows n).
Proof.
  intros Hrow. unfold vecmat, scale.
  rewrite <- (list_as_map_nth row) at 1. rewrite Hrow, map_map, zip_add_map.
  reflexivity.
Qed.

(** The product [m @ G] is the linear combination of the rows of [G]
    with the symbols of [m]. *)
Lemma vecmat_lincomb (m : list Z) (rows : list (list Z)) (n : nat) :
  Forall (fun row => length row = n) rows ->
  vecmat cls m rows n = lincomb cls m rows n.
Proof.
  intros H. revert m. induction H as [|row rows Hrow Hrows IH]; intros m.
  - unfold vecmat. destruct m; simpl; apply map_const_seq.
  - destruct m as [|m0 m].
    + unfold vecmat. simpl. apply map_const_seq.
    + rewrite vecmat_cons by exact Hrow. simpl. now rewrite IH.
Qed.

Lemma horner_zip_add (r a1 a2 : Z) (u v : list Z) :
  F r -> F a1 -> F a2 -> Forall F u -> Forall F v -> length u = length v ->
  horner cls r (add a1 a2) (zip_add cls u v) = add (horner cls r a1 u) (horner cls r a2 v).
Proof.
  intros Hr Ha1 Ha2 Hu. revert a1 a2 v Ha1 Ha2.
  induction Hu as [|x u Hx Hu IH]; intros a1 a2 v Ha1 Ha2 Hv HL.
  - destruct v; [reflexivity | discriminate].
  - destruct Hv as [|y v Hy Hv]; [discriminate|].
    simpl zip_add. rewrite !horner_cons.
    rewrite <- IH by (auto with fld; simpl in HL; lia).
    f_equal. field_ring cls.
Qed.

Lemma horner_scale (r s a : Z) (u : list Z) :
  F r -> F s -> F a -> Forall F u ->
  horner cls r (mul s a) (scale cls s u) = mul s (horner cls r a u).
Proof.
  intros Hr Hs Ha Hu. revert a Ha.
  induction Hu as [|x u Hx Hu IH]; intros a Ha; [reflexivity|].
  unfold scale. simpl map. rewrite !horner_cons.
  fold (scale cls s u). rewrite <- IH by auto with fld.
  f_equal. field_ring cls.
Qed.


Lemma field_dot_nil_r (m : list Z) : field_dot cls m [] = 0.
Proof. destruct m; reflexivity. Qed.

(** The value of a linear combination of rows is the combination of
    the values of the rows. *)
Lemma horner_lincomb (r : Z) (m : list Z) (rows : list (list Z)) (n : nat) :
  F r -> Forall F m -> Forall (Forall F) rows ->
  Forall (fun row => length row = n) rows ->
  horner cls r 0 (lincomb cls m rows n)
  = field_dot cls m (map (horner cls r 0) rows).
Proof.
  intros Hr Hm. revert rows.
  induction Hm as [|m0 m Hm0 Hm IH]; intros rows HF HL.
  - simpl. rewrite horner_zeros by auto with fld. field_ring cls.
  - destruct HF as [|row rows Hrow HF].
    + simpl. rewrite horner_zeros by auto with fld. field_ring cls.
    + inversion HL as [|? ? Hlen HL']; subst. simpl lincomb. simpl map. simpl field_dot.
      rewrite <- IH by assumption.
      rewrite <- (horner_scale r m0 0 row) by auto with fld.
      rewrite <- horner_zip_add; auto with fld.
      * f_equal. field_ring cls.
      * now apply in_field_scale.
      * now apply in_field_lincomb.
      * now rewrite scale_length, lincomb_length.
Qed.



End LinearCombinations.

(** ** The algebra of the code: roots, rows and division *)

Section CodeAlgebra.

Variable cls : FieldClass.
Hypothesis laws : FieldLaws cls.

Add Ring field_ring_code : (field_ring_theory cls laws)
  (setoid (feq_equivalence cls) (field_ring_eq_ext cls)).

Local Abbreviation F := (in_field cls).
Local Abbreviation add := (_ADD_JIT cls).
Local Abbreviation sub := (_SUBTRACT_JIT cls).
Local Abbreviation mul := (_MULTIPLY_JIT cls).
Local Abbreviation div := (_DIVIDE_JIT cls).
Local Abbreviation pow := (field_pow cls).


(** The contraction of a coefficient sequence with the descending powers
    of [r] is its value at [r]. *)
Lemma dot_powers (r : Z) (c : list Z) (n : nat) :
  F r -> Forall F c -> length c = n ->
  field_dot cls c (map (fun j => pow r (n - 1 - j)) (seq 0 n)) = horner cls r 0 c.
Proof.
  intros Hr Hc. revert n.
  induction Hc as [|x c Hx Hc IH]; intros n Hn.
  - simpl in Hn. subst n. reflexivity.
  - simpl in Hn. subst n. simpl seq. simpl map. simpl field_dot.
    rewrite <- seq_shift, map_map.
    rewrite (map_ext (fun j => pow r (S (length c) - 1 - S j))
               (fun j => pow r (length c - 1 - j)))
      by (intros j; f_equal; lia).
    rewrite IH by reflexivity.
    rewrite horner_cons, (horner_affine cls laws r (add x (mul 0 r))) by auto with fld.
    rewrite !Nat.sub_0_r.
    assert (HP : F (pow r (length c))) by auto with fld.
    assert (HQ : F (horner cls r 0 c)) by auto with fld.
    revert HP HQ. generalize (pow r (length c)) (horner cls r 0 c).
    intros P Q HP HQ. field_ring cls.
Qed.



(** The value of [g(x) x^d], the row of [g] shifted. *)
Lemma horner_shifted (r : Z) (g : list Z) (i d : nat) :
  F r -> Forall F g ->
  horner cls r 0 (repeat 0 i ++ g ++ repeat 0 d) = mul (horner cls r 0 g) (pow r d).
Proof.
  intros Hr Hg.
  rewrite !horner_app, (horner_zeros cls laws r 0 i) by auto with fld.
  assert (HI : F (pow r i)) by auto with fld.
  rewrite (horner_affine cls laws r (mul 0 (pow r i)) g) by auto with fld.
  rewrite horner_zeros by auto with fld.
  assert (HG : F (pow r (length g))) by auto with fld.
  assert (HD : F (pow r d)) by auto with fld.
  assert (HQ : F (horner cls r 0 g)) by auto with fld.
  revert HI HG HD HQ.
  generalize (pow r i) (pow r (length g)) (pow r d) (horner cls r 0 g).
  intros I G D Q HI HG HD HQ. field_ring cls.
Qed.



Lemma not_positive_zero (h : Z) : F h -> (h >? 0) = false -> h = 0.
Proof.
  intros [H _] E. destruct (Z.gtb_spec h 0); [discriminate | lia].
Qed.

End CodeAlgebra.

(** ** Division by the generator polynomial *)

Section DivisionAlgebra.

Variable cls : FieldClass.
Hypothesis laws : FieldLaws cls.

Add Ring field_ring_division : (field_ring_theory cls laws)
  (setoid (feq_equivalence cls) (field_ring_eq_ext cls)).

Local Abbreviation F := (in_field cls).
Local Abbreviation add := (_ADD_JIT cls).
Local Abbreviation sub := (_SUBTRACT_JIT cls).
Local Abbreviation mul := (_MULTIPLY_JIT cls).
Local Abbreviation div := (_DIVIDE_JIT cls).
Local Abbreviation pow := (field_pow cls).
Local Abbreviation ssub := (sub_scaled (_SUBTRACT_JIT cls) (_MULTIPLY_JIT cls)).
Local Abbreviation ldiv :=
  (long_division (_SUBTRACT_JIT cls) (_MULTIPLY_JIT cls) (_DIVIDE_JIT cls)).

Lemma in_field_sub_scaled (q : Z) (bs t : list Z) :
  F q -> Forall F bs -> Forall F t -> Forall F (ssub q bs t).
Proof.
  intros Hq Hbs. revert t. induction Hbs as [|b bs Hb Hbs IH]; intros t Ht.
  - destruct t; exact Ht.
  - destruct Ht as [|x t Hx Ht]; simpl; [constructor|].
    constructor; [auto with fld | now apply IH].
Qed.



End DivisionAlgebra.

(** ** The quotient of a codeword by the generator polynomial *)

Lemma shifted_rows_S (g : list Z) (k : nat) :
  shifted_rows g (S k) = (g ++ repeat 0 k) :: map (cons 0) (shifted_rows g k).
Proof.
  unfold shifted_rows. cbn [seq map]. f_equal.
  - simpl. now rewrite !Nat.sub_0_r.
  - rewrite <- seq_shift, !map_map. apply map_ext. intros i.
    simpl. do 4 f_equal. lia.
Qed.

Lemma shifted_rows_length (g : list Z) (k : nat) :
  Forall (fun row => length row = (k + length g - 1)%nat) (shifted_rows g k).
Proof.
  apply Forall_forall. intros row Hrow. unfold shifted_rows in Hrow.
  apply in_map_iff in Hrow. destruct Hrow as [i [<- Hi]]. apply in_seq in Hi.
  rewrite !length_app, !repeat_length.
  destruct g; simpl; lia.
Qed.

Section Quotient.

Variable cls : FieldClass.
Hypothesis laws : FieldLaws cls.

Add Ring field_ring_quotient : (field_ring_theory cls laws)
  (setoid (feq_equivalence cls) (field_ring_eq_ext cls)).

Local Abbreviation F := (in_field cls).
Local Abbreviation add := (_ADD_JIT cls).
Local Abbreviation sub := (_SUBTRACT_JIT cls).
Local Abbreviation mul := (_MULTIPLY_JIT cls).
Local Abbreviation ssub := (sub_scaled (_SUBTRACT_JIT cls) (_MULTIPLY_JIT cls)).
Local Abbreviation ldiv :=
  (long_division (_SUBTRACT_JIT cls) (_MULTIPLY_JIT cls) (_DIVIDE_JIT cls)).

Lemma in_field_shifted_rows (g : list Z) (k : nat) :
  Forall F g -> Forall (Forall F) (shifted_rows g k).
Proof.
  intros Hg. apply Forall_forall. intros row Hrow. unfold shifted_rows in Hrow.
  apply in_map_iff in Hrow. destruct Hrow as [i [<- _]].
  apply Forall_app. split; [auto with fld|].
  apply Forall_app. split; [exact Hg | auto with fld].
Qed.

Lemma lincomb_cons_zero (m : list Z) (rows : list (list Z)) (n : nat) :
  Forall F m -> Forall (Forall F) rows ->
  lincomb cls m (map (cons 0) rows) (S n) = 0 :: lincomb cls m rows n.
Proof.
  intros Hm. revert rows. induction Hm as [|m0 m Hm0 Hm IH]; intros rows Hrows.
  - reflexivity.
  - destruct Hrows as [|row rows Hrow Hrows]; [reflexivity|].
    simpl map. simpl lincomb. rewrite IH by exact Hrows.
    unfold scale. simpl map. simpl zip_add. f_equal. field_ring cls.
Qed.

Lemma zip_add_scale_zeros (q : Z) (c : list Z) :
  F q -> Forall F c -> zip_add cls (scale cls q (repeat 0 (length c))) c = c.
Proof.
  intros Hq Hc. unfold scale. induction Hc as [|y c Hy Hc IH]; [reflexivity|].
  cbn [length repeat map zip_add]. rewrite IH. f_equal. field_ring cls.
Qed.

(** Subtracting [q g'] from [q g' + c] leaves [c]. *)
Lemma sub_scaled_cancel (q : Z) (g' c : list Z) (k : nat) :
  F q -> Forall F g' -> Forall F c -> length c = (length g' + k)%nat ->
  ssub q g' (zip_add cls (scale cls q (g' ++ repeat 0 k)) c) = c.
Proof.
  intros Hq Hg'. revert c. induction Hg' as [|b g' Hb Hg' IH]; intros c Hc HL.
  - simpl in HL. rewrite <- HL. simpl app.
    rewrite zip_add_scale_zeros by assumption. destruct c; reflexivity.
  - destruct Hc as [|y c Hy Hc]; [discriminate|].
    simpl in HL. simpl app. unfold scale. simpl map. simpl zip_add.
    cbn [sub_scaled]. fold (scale cls q (g' ++ repeat 0 k)).
    rewrite IH by (auto; lia). f_equal. field_ring cls.
Qed.

Lemma zip_add_scale_zero (u c : list Z) :
  Forall F u -> Forall F c -> length u = length c ->
  zip_add cls (scale cls 0 u) c = c.
Proof.
  intros Hu. revert c. induction Hu as [|x u Hx Hu IH]; intros c Hc HL.
  - destruct c; [reflexivity | discriminate].
  - destruct Hc as [|y c Hy Hc]; [discriminate|].
    unfold scale. simpl. fold (scale cls 0 u).
    rewrite IH by (auto; simpl in HL; lia). f_equal. field_ring cls.
Qed.


End Quotient.

(** ** The round trip *)



Section RoundTrip.

Variable self : ReedSolomon.
Hypothesis Hconstructed : constructed self.
Hypothesis Hk : 1 <= _k self <= _n self.
Hypothesis laws : FieldLaws (_field self).

Add Ring field_ring_round_trip : (field_ring_theory (_field self) laws)
  (setoid (feq_equivalence (_field self)) (field_ring_eq_ext (_field self))).

Local Abbreviation GF := (_field self).
Local Abbreviation F := (in_field (_field self)).
Local Abbreviation add := (_ADD_JIT (_field self)).
Local Abbreviation sub := (_SUBTRACT_JIT (_field self)).
Local Abbreviation mul := (_MULTIPLY_JIT (_field self)).
Local Abbreviation pow := (field_pow (_field self)).
Local Abbreviation n' := (Z.to_nat (_n self)).
Local Abbreviation k' := (Z.to_nat (_k self)).






Lemma Forall_skipn {A : Type} (P : A -> Prop) (n : nat) (l : list A) :
  Forall P l -> Forall P (skipn n l).
Proof.
  revert l. induction n as [|n IH]; intros l H; [exact H|].
  destruct H as [|x l Hx Hl]; [constructor | now apply IH].
Qed.

Lemma Forall_firstn {A : Type} (P : A -> Prop) (n : nat) (l : list A) :
  Forall P l -> Forall P (firstn n l).
Proof.
  revert l. induction n as [|n IH]; intros l H; [constructor|].
  destruct H as [|x l Hx Hl]; constructor; auto.
Qed.

Lemma skipn_app_exact {A : Type} (l1 l2 : list A) (n : nat) :
  length l1 = n -> skipn n (l1 ++ l2) = l2.
Proof.
  intros H. rewrite skipn_app, <- H, skipn_all, Nat.sub_diag. reflexivity.
Qed.

Lemma firstn_app_exact {A : Type} (l1 l2 : list A) (n : nat) :
  length l1 = n -> firstn n (l1 ++ l2) = l1.
Proof.
  intros H. rewrite firstn_app, <- H, firstn_all, Nat.sub_diag.
  simpl. apply app_nil_r.
Qed.





Lemma combine_map_same {A B C : Type} (a : A -> B) (b : A -> C) (l : list A) :
  combine (map a l) (map b l) = map (fun i => (a i, b i)) l.
Proof. induction l as [|x l IH]; simpl; [reflexivity | now rewrite IH]. Qed.


Lemma slice_prefix {A : Type} (l : list A) (k : Z) :
  0 <= k <= Z.of_nat (length l) -> slice l 0 k = firstn (Z.to_nat k) l.
Proof.
  intros H. unfold slice. rewrite slice_bound_in_range by exact H.
  rewrite slice_bound_in_range by lia. simpl. now rewrite Nat.sub_0_r.
Qed.





End RoundTrip.




(** ** [equal_degree_factorization]: when the loop ends *)

Lemma insert_by_length {A : Type} (key : A -> Z) (x : A) (l : list A) :
  length (insert_by key x l) = S (length l).
Proof.
  induction l as [|y l IH]; simpl; [reflexivity|].
  destruct (key x <=? key y); simpl; [reflexivity | now rewrite IH].
Qed.

Lemma sorted_length {A : Type} (key : A -> Z) (l : list A) :
  length (sorted key l) = length l.
Proof.
  induction l as [|x l IH]; simpl; [reflexivity|].
  now rewrite insert_by_length, IH.
Qed.

Section EqualDegree.

Variable L : poly_lib.
Variable draws : nat -> Poly L.
Variable poly : Poly L.
Variable d : Z.

Local Abbreviation r := (poly_degree L poly / d).

Lemma equal_degree_factorization_accepted (fuel : nat) :
  accepted_input L poly d ->
  equal_degree_factorization L draws fuel poly d
  = res <- factorization_loop L draws fuel 0 poly d r [poly] ;;
    Ok (option_map (sorted (poly_integer L)) res).
Proof.
  intros [Hdeg [Hmonic [Hd Hmod]]]. unfold equal_degree_factorization.
  replace (poly_degree L poly >=? 1) with true by (symmetry; apply Z.geb_le; lia).
  rewrite Hmonic.
  replace (d =? 0) with false by (symmetry; now apply Z.eqb_neq).
  rewrite Hmod. reflexivity.
Qed.

(** A pass of the [for] loop whose [g] does not split [poly] leaves the
    list [[poly]] as it is. *)
Lemma split_factors_no_split (fuel : nat) (g : Poly L) :
  (let gcd := poly_gcd L g poly in
   poly_eqb L gcd (Poly_One L) || poly_eqb L gcd poly = true) ->
  split_factors L (S fuel) g 0 [poly] = Ok (Some [poly]).
Proof.
  intros H. cbv zeta in H. cbn [split_factors nth_error]. rewrite H. cbn [negb].
  destruct fuel; reflexivity.
Qed.

(** While no draw splits [poly], the loop is still running, whatever the
    fuel. *)
Lemma loop_without_split (fuel iteration : nat) :
  2 <= r -> (forall i, no_split L draws poly d i) ->
  factorization_loop L draws fuel iteration poly d r [poly] = Ok None.
Proof.
  intros Hr Hno. revert iteration.
  induction fuel as [|fuel IH]; intros iteration; cbn [factorization_loop length].
  - replace (Z.of_nat 1 <? r) with true by (symmetry; apply Z.ltb_lt; lia).
    reflexivity.
  - replace (Z.of_nat 1 <? r) with true by (symmetry; apply Z.ltb_lt; lia).
    cbv zeta.
    rewrite (split_factors_no_split fuel) by apply (Hno iteration).
    cbn [bind]. apply IH.
Qed.

(** When the loop ends, at least [r] factors have accumulated. *)
Lemma loop_result_length (fuel iteration : nat) (factors_ fs : list (Poly L)) :
  factorization_loop L draws fuel iteration poly d r factors_ = Ok (Some fs) ->
  r <= Z.of_nat (length fs).
Proof.
  revert iteration factors_.
  induction fuel as [|fuel IH]; intros iteration factors_;
    cbn [factorization_loop]; destruct (Z.of_nat (length factors_) <? r) eqn:E.
  - discriminate.
  - intros H. inversion H; subst. apply Z.ltb_ge in E. exact E.
  - cbv zeta. destruct (split_factors L (S fuel) _ 0 factors_) as [[fs'|]|e];
      cbn [bind]; try discriminate.
    apply IH.
  - intros H. inversion H; subst. apply Z.ltb_ge in E. exact E.
Qed.

(** C9 (amended). [equal_degree_factorization(poly, d)] has no retry
    bound and need not terminate.  With [r = deg(poly) / d], on
    arguments its checks accept: it returns [[poly]] at once when
    [r <= 1]; it never returns when [r >= 2] and no draw yields a [g]
    whose gcd with [poly] is a proper factor, which is every draw when
    [poly] is irreducible, a case the function does not check; when it
    returns, at least [r] factors have accumulated; and it returns after
    the first draw when that draw splits the polynomial into at least
    [r] factors. *)
Theorem equal_degree_factorization_returns_when_split :
  accepted_input L poly d ->
  (r <= 1 -> forall fuel,
     equal_degree_factorization L draws fuel poly d = Ok (Some [poly])) /\
  (2 <= r -> (forall i, no_split L draws poly d i) -> forall fuel,
     equal_degree_factorization L draws fuel poly d = Ok None) /\
  (forall fuel fs,
     equal_degree_factorization L draws fuel poly d = Ok (Some fs) ->
     r <= Z.of_nat (length fs)) /\
  (2 <= r -> forall fuel fs,
     split_factors L (S fuel) (splitting_poly L draws 0 poly d) 0 [poly] = Ok (Some fs) ->
     r <= Z.of_nat (length fs) ->
     equal_degree_factorization L draws (S fuel) poly d
     = Ok (Some (sorted (poly_integer L) fs))).
Proof.
  intros Hacc. split; [|split; [|split]].
  - intros Hr fuel. rewrite equal_degree_factorization_accepted by exact Hacc.
    assert (E : factorization_loop L draws fuel 0 poly d r [poly] = Ok (Some [poly])).
    { destruct fuel; cbn [factorization_loop length];
        replace (Z.of_nat 1 <? r) with false by (symmetry; apply Z.ltb_ge; lia);
        reflexivity. }
    rewrite E. reflexivity.
  - intros Hr Hno fuel. rewrite equal_degree_factorization_accepted by exact Hacc.
    rewrite loop_without_split by assumption. reflexivity.
  - intros fuel fs. rewrite equal_degree_factorization_accepted by exact Hacc.
    destruct (factorization_loop L draws fuel 0 poly d r [poly]) as [[fs'|]|e] eqn:E;
      cbn [bind option_map]; try discriminate.
    intros H. inversion H; subst. rewrite sorted_length.
    now apply (loop_result_length fuel 0 [poly]).
  - intros Hr fuel fs Hsplit Hlen.
    rewrite equal_degree_factorization_accepted by exact Hacc.
    cbn [factorization_loop length].
    replace (Z.of_nat 1 <? r) with true by (symmetry; apply Z.ltb_lt; lia).
    cbv zeta. fold (splitting_poly L draws 0 poly d). rewrite Hsplit. cbn [bind].
    assert (E : factorization_loop L draws fuel 1 poly d r fs = Ok (Some fs)).
    { destruct fuel; cbn [factorization_loop];
        replace (Z.of_nat (length fs) <? r) with false
          by (symmetry; apply Z.ltb_ge; lia);
        reflexivity. }
    rewrite E. reflexivity.
Qed.

End EqualDegree.

(** Over [GF(2)] a draw for a polynomial of degree 2 is [x] or
    [x + 1]. *)
Lemma possible_draw_2_2 (h : list Z) :
  possible_draw 2 2 h -> h = [1; 0] \/ h = [1; 1].
Proof.
  intros [Hlen [Hhd Hc]].
  destruct h as [|a [|b [|c h]]]; cbn [length] in Hlen; try lia.
  simpl in Hhd. inversion Hc as [|? ? Ha Hc']; subst.
  inversion Hc' as [|? ? Hb _]; subst.
  assert (a = 1) by lia. subst a.
  assert (Hb' : b = 0 \/ b = 1) by lia.
  destruct Hb' as [-> | ->]; auto.
Qed.

(** * Part III. Worked examples *)

Lemma example_decode_calculate :
  decode_calculate (Arr2 4 6 example_codewords) (Arr2 4 4 example_syndromes) 2 3
    prime_add prime_subtract prime_multiply (reciprocal_of prime_multiply)
    (power_of prime_multiply) berlekamp_massey_model poly_roots_model
    poly_evaluate_model convolve_model 7 1 7
  = Ok (Arr2 4 (6 + 1) example_decoded).
Proof. vm_compute. reflexivity. Qed.

Lemma example_codewords_wf : wf_data (Arr2 4 6 example_codewords).
Proof. split; [reflexivity | repeat constructor]. Qed.


(** The third codeword of the batch has two symbols changed: the one at
    position [6 - 1 - 4 = 1], whose locator is [beta = 4], has its error
    value subtracted, and the count reported is 2. *)
Lemma forney_error_values_witness :
  let args := (7, 1, 7) in
  let syndrome_i := nth 2 example_syndromes [] in
  let sigma :=
    locator prime_add prime_subtract prime_multiply (reciprocal_of prime_multiply)
      berlekamp_massey_model args syndrome_i in
  let sigma_prime := formal_derivative prime_multiply 7 args sigma in
  let Z0 := error_evaluator prime_add prime_multiply convolve_model args sigma syndrome_i in
  nth 1 (nth 2 example_decoded []) 0
  = prime_subtract (nth 1 (nth 2 example_codewords []) 0)
      (error_value prime_subtract prime_multiply (reciprocal_of prime_multiply)
         prime_add poly_evaluate_model args Z0 sigma_prime 4) args /\
  last (nth 2 example_decoded []) 0 = 2.
Proof.
  assert (Hs : Exists (fun s => s <> 0) (nth 2 example_syndromes [])).
  { apply Exists_cons_tl, Exists_cons_hd. vm_compute. discriminate. }
  assert (Hc : ~ uncorrectable 2 3 prime_add prime_subtract prime_multiply
                   (reciprocal_of prime_multiply) (power_of prime_multiply)
                   berlekamp_massey_model poly_roots_model (7, 1, 7)
                   (nth 2 example_syndromes [])).
  { intros [_ [H|H]]; [vm_compute in H; discriminate | apply H; vm_compute; reflexivity]. }
  assert (Hr : Forall (fun root => 0 <= snd root < Z.of_nat 6)
                 (locator_roots 3 prime_add prime_subtract prime_multiply
                    (reciprocal_of prime_multiply) (power_of prime_multiply)
                    berlekamp_massey_model poly_roots_model (7, 1, 7)
                    (nth 2 example_syndromes []))).
  { vm_compute. repeat constructor; discriminate. }
  assert (Hn : NoDup (map snd
                 (locator_roots 3 prime_add prime_subtract prime_multiply
                    (reciprocal_of prime_multiply) (power_of prime_multiply)
                    berlekamp_massey_model poly_roots_model (7, 1, 7)
                    (nth 2 example_syndromes [])))).
  { vm_compute. repeat constructor; simpl; intuition discriminate. }
  pose proof (forney_error_values 6 4 4 4 example_codewords example_syndromes
                example_decoded 2 3 prime_add prime_subtract prime_multiply
                (reciprocal_of prime_multiply) (power_of prime_multiply)
                berlekamp_massey_model poly_roots_model poly_evaluate_model
                convolve_model 7 1 7 2%nat example_codewords_wf
                example_decode_calculate ltac:(lia) Hs Hc Hr Hn)
    as [_ [_ [Hfix [_ [Hcount _]]]]].
  split.
  - apply (Hfix 4 4). vm_compute. auto.
  - rewrite Hcount. vm_compute. reflexivity.
Defined.

(** [RS(7, 3)] over [GF(2^3)] is constructed by the example library. *)
Lemma construction_checks_parameters_witness :
  exists self,
    ReedSolomon_new example_lib 7 3 1 None None true
    = ([attr_n; attr_k; attr_c; attr_systematic; attr_generator_poly; attr_roots;
        attr_field; attr_t; attr_G; attr_H; attr_is_narrow_sense], Ok self) /\
    order (_field self) = 7 + 1 /\
    _n self = 7 /\ _k self = 3 /\ _c self = 1 /\ _t self = (7 - 3) / 2 /\
    _systematic self = true.
Proof.
  exact (proj2 (construction_checks_parameters example_lib 7 3 1 None None true
                  example_contract_7) valid_parameters_7_3).
Defined.

(** The generator polynomial of [RS(7, 3)]. *)
Lemma generator_polynomial_of_constructed_code_witness :
  _roots RS_7_3
  = map (fun i => field_pow GF8 2 (Z.to_nat 1 + i)) (seq 0 (Z.to_nat (2 * ((7 - 3) / 2)))) /\
  _generator_poly RS_7_3 = product_of_linear_factors GF8 (_roots RS_7_3) /\
  length (_generator_poly RS_7_3) = S (Z.to_nat (2 * ((7 - 3) / 2))) /\
  hd 0 (_generator_poly RS_7_3) = 1 /\
  Forall (in_field GF8) (_generator_poly RS_7_3) /\
  (forall x, in_field GF8 x ->
     poly_eval GF8 (_generator_poly RS_7_3) x
     = product_of_differences GF8 x (_roots RS_7_3)).
Proof.
  assert (Hnew : snd (ReedSolomon_new example_lib 7 3 1 None None true) = Ok RS_7_3)
    by (vm_compute; reflexivity).
  exact (generator_polynomial_of_constructed_code example_lib 7 3 1 None None true
           RS_7_3 Hnew GF8_laws).
Defined.

(** A product over [GF(2^3)], and a shape error. *)
Lemma matmul_shape_error_or_exact_product_witness :
  _matmul GF8 {| atype := FieldArray 8; val := Arr2 2 2 [[1; 2]; [3; 4]] |}
    {| atype := FieldArray 8; val := Arr2 2 1 [[5]; [6]] |}
  = Ok {| atype := FieldArray 8;
          val := matmul_spec GF8 (Arr2 2 2 [[1; 2]; [3; 4]]) (Arr2 2 1 [[5]; [6]]) |} /\
  _matmul GF8 {| atype := FieldArray 8; val := Arr2 2 2 [[1; 2]; [3; 4]] |}
    {| atype := FieldArray 8; val := Arr1 [5; 6; 7] |}
  = Raise ValueError.
Proof.
  assert (HA : data_in_field GF8 (Arr2 2 2 [[1; 2]; [3; 4]]))
    by (repeat constructor; unfold in_field; simpl; lia).
  assert (HB : data_in_field GF8 (Arr2 2 1 [[5]; [6]]))
    by (repeat constructor; unfold in_field; simpl; lia).
  assert (HC : data_in_field GF8 (Arr1 [5; 6; 7]))
    by (repeat constructor; unfold in_field; simpl; lia).
  assert (WA : wf_data (Arr2 2 2 [[1; 2]; [3; 4]]))
    by (split; [reflexivity | repeat constructor]).
  assert (WB : wf_data (Arr2 2 1 [[5]; [6]]))
    by (split; [reflexivity | repeat constructor]).
  split.
  - apply (matmul_shape_error_or_exact_product GF8
             {| atype := FieldArray 8; val := Arr2 2 2 [[1; 2]; [3; 4]] |}
             {| atype := FieldArray 8; val := Arr2 2 1 [[5]; [6]] |}
             GF8_laws eq_refl I I WA WB HA HB).
    reflexivity.
  - apply (matmul_shape_error_or_exact_product GF8
             {| atype := FieldArray 8; val := Arr2 2 2 [[1; 2]; [3; 4]] |}
             {| atype := FieldArray 8; val := Arr1 [5; 6; 7] |}
             GF8_laws eq_refl I I WA I HA HC).
    unfold columns_of, rows_of. simpl. lia.
Defined.







(** [x (x + 1)] over [GF(2)], the example of the docstring, with the
    draw [x + 1]: the first draw splits it and the factors are
    returned. *)
Lemma equal_degree_factorization_returns_when_split_witness :
  equal_degree_factorization (example_polys 2) (fun _ => [1; 1]) 2 [1; 1; 0] 1
  = Ok (Some (sorted (poly_integer (example_polys 2)) [[1; 1]; [1; 0]])) /\
  sorted (poly_integer (example_polys 2)) [[1; 1]; [1; 0]] = [[1; 0]; [1; 1]].
Proof.
  assert (Hacc : accepted_input (example_polys 2) [1; 1; 0] 1).
  { repeat split; simpl; try reflexivity; lia. }
  split; [|reflexivity].
  apply (proj2 (proj2 (proj2
           (equal_degree_factorization_returns_when_split (example_polys 2)
              (fun _ => [1; 1]) [1; 1; 0] 1 Hacc)))).
  - vm_compute. discriminate.
  - vm_compute. reflexivity.
  - vm_compute. discriminate.
Defined.

(** C9, counterexample.  [x^2 + x + 1] over [GF(2)] is monic and
    square-free and its degree is divisible by [d = 1], so the checks
    accept it; but it is irreducible, and whatever [Poly.Random] draws,
    the loop is still running after any number of steps.  And
    [x (x - 1)] over [GF(5)], a product of two factors of degree 1, is
    never split by the draw [x + 2]. *)
Lemma equal_degree_factorization_runs_forever :
  accepted_input (example_polys 2) [1; 1; 1] 1 /\
  square_free 2 [1; 1; 1] /\
  (forall draws : nat -> list Z,
     (forall i, possible_draw 2 2 (draws i)) ->
     forall fuel,
       equal_degree_factorization (example_polys 2) draws fuel [1; 1; 1] 1 = Ok None) /\
  accepted_input (example_polys 5) [1; 4; 0] 1 /\
  square_free 5 [1; 4; 0] /\
  (forall fuel,
     equal_degree_factorization (example_polys 5) (fun _ => [1; 2]) fuel [1; 4; 0] 1
     = Ok None).
Proof.
  assert (A2 : accepted_input (example_polys 2) [1; 1; 1] 1).
  { repeat split; simpl; try reflexivity; lia. }
  assert (A5 : accepted_input (example_polys 5) [1; 4; 0] 1).
  { repeat split; simpl; try reflexivity; lia. }
  split; [exact A2|]. split; [reflexivity|]. split; [|split; [exact A5|split]].
  - intros draws Hdraws fuel.
    rewrite equal_degree_factorization_accepted by exact A2.
    rewrite loop_without_split; [reflexivity | vm_compute; discriminate |].
    intros i. unfold no_split, splitting_poly.
    destruct (possible_draw_2_2 _ (Hdraws i)) as [-> | ->]; reflexivity.
  - reflexivity.
  - intros fuel.
    rewrite equal_degree_factorization_accepted by exact A5.
    rewrite loop_without_split; [reflexivity | vm_compute; discriminate |].
    intros i. reflexivity.
Qed.

(* ================================================================== *)
(** * Part IV. Further properties of the code *)
(* ================================================================== *)

(** ** Convolution is polynomial multiplication *)

Lemma firstn_snoc_nth {A : Type} (d : A) (i : nat) (l : list A) :
  (i < length l)%nat -> firstn (S i) l = firstn i l ++ [nth i l d].
Proof.
  revert l. induction i as [|i IH]; intros [|h t] H; simpl in *; try lia.
  - reflexivity.
  - f_equal. apply IH. lia.
Qed.

Section ConvolveLoop.

Variables ADD_JIT MULTIPLY_JIT : Z -> Z -> Z.

Lemma add_scaled_length x bs t :
  length (add_scaled ADD_JIT MULTIPLY_JIT x bs t) = length t.
Proof.
  revert t. induction bs as [|b bs IH]; intros [|h t]; simpl; auto.
Qed.

(** The inner loop of [_convolve_jit], in descending [j]. *)
Lemma convolve_inner_loop (x : Z) (b : list Z) (i : nat) (c : list Z) :
  (i + length b <= length c)%nat ->
  fold_left (fun c j =>
               upd (i + j) (ADD_JIT (nth (i + j) c 0) (MULTIPLY_JIT x (nth j b 0))) c)
    (rev (seq 0 (length b))) c
  = firstn i c ++ add_scaled ADD_JIT MULTIPLY_JIT x b (skipn i c).
Proof.
  revert i c. induction b as [|b0 b IH]; intros i c H.
  - simpl. replace (add_scaled ADD_JIT MULTIPLY_JIT x [] (skipn i c)) with (skipn i c)
      by (destruct (skipn i c); reflexivity).
    now rewrite firstn_skipn.
  - simpl length in *. cbn [seq]. rewrite <- seq_shift. cbn [rev].
    rewrite fold_left_app. cbn [fold_left].
    rewrite <- map_rev, fold_left_map_in.
    rewrite (fold_left_ext_all _
               (fun c j => upd (S i + j)
                             (ADD_JIT (nth (S i + j) c 0) (MULTIPLY_JIT x (nth j b 0))) c)).
    2:{ intros a j. cbn [nth]. now replace (i + S j)%nat with (S i + j)%nat by lia. }
    rewrite IH by lia.
    rewrite Nat.add_0_r. cbn [nth].
    assert (Hi : (i < length c)%nat) by lia.
    rewrite (skipn_nth_cons 0 i c Hi). cbn [add_scaled].
    rewrite app_nth1 by (rewrite length_firstn; lia).
    rewrite (firstn_snoc_nth 0 i c Hi).
    rewrite <- app_assoc. cbn [app].
    assert (HL : length (firstn i c) = i) by (rewrite length_firstn; lia).
    rewrite <- HL at 1. rewrite upd_app_r. cbn [upd].
    rewrite <- HL at 2. rewrite nth_middle. reflexivity.
Qed.
Lemma convolve_outer_loop (a b c : list Z) :
  for_range (length a)
    (fun i c => firstn i c ++ add_scaled ADD_JIT MULTIPLY_JIT (nth i a 0) b (skipn i c)) c
  = convolve_rows ADD_JIT MULTIPLY_JIT b a c.
Proof.
  revert c. induction a as [|x a IH]; intros c.
  - reflexivity.
  - cbn [length]. rewrite for_range_shift. cbn [firstn skipn nth app convolve_rows].
    destruct (add_scaled ADD_JIT MULTIPLY_JIT x b c) as [|h t] eqn:E.
    + clear. induction (length a) as [|n IHn]; [reflexivity|].
      rewrite for_range_S, IHn. simpl. now destruct b.
    + rewrite (for_range_tail
                 (fun i c => firstn i c ++
                    add_scaled ADD_JIT MULTIPLY_JIT (nth i (x :: a) 0) b (skipn i c))
                 (fun i c => firstn i c ++
                    add_scaled ADD_JIT MULTIPLY_JIT (nth i a 0) b (skipn i c)))
        by (intros; reflexivity).
      now rewrite IH.
Qed.

(** [_convolve_jit] is schoolbook multiplication. *)
Lemma convolve_jit_rows (a b : list Z) :
  _convolve_jit ADD_JIT MULTIPLY_JIT a b
  = convolve_rows ADD_JIT MULTIPLY_JIT b a (repeat 0 (length a + length b - 1)).
Proof.
  unfold _convolve_jit. cbv zeta.
  rewrite <- convolve_outer_loop.
  set (c0 := repeat 0 (length a + length b - 1)).
  apply (for_range_ext_inv (fun c => length c = length c0)); [reflexivity|].
  intros i c Hi Hc.
  assert (HL : (i + length b <= length c)%nat).
  { rewrite Hc. unfold c0. rewrite repeat_length. lia. }
  rewrite convolve_inner_loop by exact HL. split; [reflexivity|].
  rewrite length_app, add_scaled_length, length_firstn, length_skipn. lia.
Qed.

Lemma convolve_rows_length (b a c : list Z) :
  length (convolve_rows ADD_JIT MULTIPLY_JIT b a c) = length c.
Proof.
  revert c. induction a as [|x a IH]; intros c; [reflexivity|].
  cbn [convolve_rows].
  destruct (add_scaled ADD_JIT MULTIPLY_JIT x b c) as [|h t] eqn:E.
  - rewrite <- (add_scaled_length x b c), E. reflexivity.
  - simpl. rewrite IH. rewrite <- (add_scaled_length x b c), E. reflexivity.
Qed.

End ConvolveLoop.

Section ConvolveAlgebra.

Variable cls : FieldClass.
Hypothesis laws : FieldLaws cls.

Add Ring field_ring_convolve : (field_ring_theory cls laws)
  (setoid (feq_equivalence cls) (field_ring_eq_ext cls)).

Local Abbreviation F := (in_field cls).
Local Abbreviation add := (_ADD_JIT cls).
Local Abbreviation sub := (_SUBTRACT_JIT cls).
Local Abbreviation mul := (_MULTIPLY_JIT cls).
Local Abbreviation pow := (field_pow cls).

Lemma zip_add_assoc (u v w : list Z) :
  Forall F u -> Forall F v -> Forall F w ->
  zip_add cls (zip_add cls u v) w = zip_add cls u (zip_add cls v w).
Proof.
  intros Hu. revert v w. induction Hu as [|x u Hx Hu IH]; intros v w Hv Hw.
  - reflexivity.
  - destruct Hv as [|y v Hy Hv]; [reflexivity|].
    destruct Hw as [|z w Hz Hw]; [reflexivity|].
    simpl. rewrite IH by assumption. f_equal. field_ring cls.
Qed.

Lemma zip_add_comm (u v : list Z) :
  Forall F u -> Forall F v -> zip_add cls u v = zip_add cls v u.
Proof.
  intros Hu. revert v. induction Hu as [|x u Hx Hu IH]; intros v Hv.
  - destruct v; reflexivity.
  - destruct Hv as [|y v Hy Hv]; [reflexivity|].
    simpl. rewrite IH by assumption. f_equal. field_ring cls.
Qed.

Lemma zip_add_zeros_r (c : list Z) (n : nat) :
  Forall F c -> (length c <= n)%nat -> zip_add cls c (repeat 0 n) = c.
Proof.
  intros Hc. revert n. induction Hc as [|x c Hx Hc IH]; intros n Hn.
  - reflexivity.
  - destruct n as [|n]; [simpl in Hn; lia|]. simpl in *.
    rewrite IH by lia. f_equal. field_ring cls.
Qed.

Lemma zip_add_zeros_l (c : list Z) (n : nat) :
  Forall F c -> (length c <= n)%nat -> zip_add cls (repeat 0 n) c = c.
Proof.
  intros Hc Hn. rewrite zip_add_comm by auto with fld. now apply zip_add_zeros_r.
Qed.

Lemma in_field_add_scaled (x : Z) (bs t : list Z) :
  F x -> Forall F bs -> Forall F t -> Forall F (add_scaled add mul x bs t).
Proof.
  intros Hx Hbs. revert t. induction Hbs as [|b bs Hb Hbs IH]; intros t Ht.
  - destruct t; exact Ht.
  - destruct Ht as [|h t Hh Ht]; simpl; [constructor|].
    constructor; [auto with fld | now apply IH].
Qed.

Lemma zip_add_scaled_zeros_r (x : Z) (t : list Z) (n : nat) :
  F x -> Forall F t -> (length t <= n)%nat ->
  zip_add cls t (scale cls x (repeat 0 n)) = t.
Proof.
  intros Hx Ht. revert n. induction Ht as [|h t Hh Ht IH]; intros n Hn.
  - reflexivity.
  - destruct n as [|n]; [simpl in Hn; lia|]. simpl in Hn.
    unfold scale in *. cbn [repeat map zip_add]. rewrite IH by lia.
    f_equal. field_ring cls.
Qed.

(** Adding [x bs] to the leading coefficients of [t]. *)
Lemma add_scaled_zip_add (x : Z) (bs t : list Z) :
  F x -> Forall F bs -> Forall F t -> (length bs <= length t)%nat ->
  add_scaled add mul x bs t
  = zip_add cls t (scale cls x (bs ++ repeat 0 (length t - length bs))).
Proof.
  intros Hx Hbs. revert t. induction Hbs as [|b bs Hb Hbs IH]; intros t Ht HL.
  - cbn [app length]. rewrite Nat.sub_0_r.
    replace (add_scaled add mul x [] t) with t by (destruct t; reflexivity).
    now rewrite zip_add_scaled_zeros_r.
  - destruct Ht as [|h t Hh Ht]; [simpl in HL; lia|].
    simpl in HL. cbn [add_scaled length app]. rewrite IH by (auto; lia).
    reflexivity.
Qed.

Lemma poly_product_length (a b : list Z) :
  length (poly_product cls a b) = (length a + length b - 1)%nat.
Proof.
  unfold poly_product. apply lincomb_length.
  eapply Forall_impl; [|apply shifted_rows_length]. intros row H. exact H.
Qed.

Lemma in_field_poly_product (a b : list Z) :
  Forall F a -> Forall F b -> Forall F (poly_product cls a b).
Proof.
  intros Ha Hb. unfold poly_product.
  apply (in_field_lincomb cls laws); [exact Ha|].
  now apply (in_field_shifted_rows cls laws).
Qed.

Lemma poly_product_cons_l (x : Z) (a b : list Z) :
  Forall F a -> Forall F b -> (1 <= length b)%nat ->
  poly_product cls (x :: a) b
  = zip_add cls (scale cls x (b ++ repeat 0 (length a))) (0 :: poly_product cls a b).
Proof.
  intros Ha Hb HL. unfold poly_product. cbn [length].
  rewrite shifted_rows_S. cbn [lincomb].
  replace (S (length a) + length b - 1)%nat with (S (length a + length b - 1)) by lia.
  rewrite (lincomb_cons_zero cls laws) by (auto; now apply (in_field_shifted_rows cls laws)).
  reflexivity.
Qed.

Lemma convolve_rows_product (a b c : list Z) :
  Forall F a -> Forall F b -> Forall F c -> (1 <= length b)%nat ->
  length c = (length a + length b - 1)%nat ->
  convolve_rows add mul b a c = zip_add cls c (poly_product cls a b).
Proof.
  intros Ha Hb. revert c. induction Ha as [|x a Hx Ha IH]; intros c Hc HL Hlen.
  - cbn [convolve_rows]. unfold poly_product. cbn [lincomb length].
    now rewrite zip_add_zeros_r by (auto; simpl in Hlen; lia).
  - rewrite poly_product_cons_l by assumption.
    destruct Hb as [|b0 b Hb0 Hb]; [simpl in HL; lia|].
    destruct Hc as [|c0 c Hc0 Hc]; [simpl in Hlen; lia|].
    cbn [length] in Hlen. cbn [convolve_rows add_scaled].
    rewrite IH; [| now apply in_field_add_scaled | simpl; lia
                 | rewrite add_scaled_length; simpl; lia].
    rewrite add_scaled_zip_add by (auto; lia).
    replace (length c - length b)%nat with (length a) by lia.
    unfold scale. cbn [app map zip_add]. fold (scale cls x (b ++ repeat 0 (length a))).
    rewrite zip_add_assoc;
      [| exact Hc
       | apply (in_field_scale cls laws); [exact Hx|];
         apply Forall_app; split; auto with fld
       | apply in_field_poly_product; auto].
    f_equal. field_ring cls.
Qed.

(** [_convolve_jit] returns the product of the two polynomials. *)
Lemma convolve_jit_product (a b : list Z) :
  Forall F a -> Forall F b -> (1 <= length b)%nat ->
  _convolve_jit add mul a b = poly_product cls a b.
Proof.
  intros Ha Hb HL. rewrite convolve_jit_rows.
  rewrite convolve_rows_product; auto with fld; [|now rewrite repeat_length].
  apply zip_add_zeros_l; [now apply in_field_poly_product|].
  rewrite poly_product_length. lia.
Qed.

Lemma Forall_padded (b : list Z) (k : nat) : Forall F b -> Forall F (b ++ repeat 0 k).
Proof. intros Hb. apply Forall_app. split; auto with fld. Qed.

Lemma poly_product_single_l (x : Z) (b : list Z) :
  F x -> Forall F b -> (1 <= length b)%nat ->
  poly_product cls [x] b = scale cls x b.
Proof.
  intros Hx Hb HL. rewrite poly_product_cons_l by auto.
  cbn [length repeat]. rewrite app_nil_r.
  unfold poly_product. cbn [lincomb length].
  change (0 :: repeat 0 (0 + length b - 1)) with (repeat 0 (S (length b - 1))).
  apply zip_add_zeros_r; [now apply (in_field_scale cls laws)|].
  rewrite scale_length. lia.
Qed.

Lemma poly_product_cons_r (y : Z) (a b : list Z) :
  Forall F a -> F y -> Forall F b -> (1 <= length b)%nat ->
  poly_product cls a (y :: b)
  = zip_add cls (scale cls y (a ++ repeat 0 (length b))) (0 :: poly_product cls a b).
Proof.
  intros Ha Hy Hb HL. induction Ha as [|x a Hx Ha IH].
  - unfold poly_product. cbn [lincomb length app].
    change (0 :: repeat 0 (0 + length b - 1)) with (repeat 0 (S (length b - 1))).
    replace (S (length b - 1)) with (length b) by lia.
    replace (0 + S (length b) - 1)%nat with (length b) by lia.
    symmetry. rewrite zip_add_comm by (auto with fld; apply (in_field_scale cls laws); auto with fld).
    rewrite zip_add_scaled_zeros_r; auto with fld. now rewrite repeat_length.
  - rewrite poly_product_cons_l by (auto; simpl; lia).
    rewrite IH. rewrite (poly_product_cons_l x a b) by auto.
    unfold scale. cbn [app map zip_add].
    fold (scale cls x (b ++ repeat 0 (length a))).
    fold (scale cls y (a ++ repeat 0 (length b))).
    assert (H1 : Forall F (scale cls x (b ++ repeat 0 (length a))))
      by (apply (in_field_scale cls laws); auto using Forall_padded).
    assert (H2 : Forall F (scale cls y (a ++ repeat 0 (length b))))
      by (apply (in_field_scale cls laws); auto using Forall_padded).
    assert (H3 : Forall F (0 :: poly_product cls a b))
      by (constructor; [auto with fld | now apply in_field_poly_product]).
    rewrite <- zip_add_assoc by assumption.
    rewrite (zip_add_comm (scale cls x (b ++ repeat 0 (length a)))) by assumption.
    rewrite zip_add_assoc by assumption.
    f_equal. field_ring cls.
Qed.

Lemma poly_product_single_r (y : Z) (a : list Z) :
  F y -> Forall F a -> poly_product cls a [y] = scale cls y a.
Proof.
  intros Hy Ha. induction Ha as [|x a Hx Ha IH]; [reflexivity|].
  rewrite poly_product_cons_l by (auto; simpl; lia).
  rewrite IH. unfold scale. cbn [app map zip_add]. f_equal; [field_ring cls|].
  fold (scale cls x (repeat 0 (length a))). fold (scale cls y a).
  rewrite zip_add_comm;
    [| apply (in_field_scale cls laws); auto with fld
     | now apply (in_field_scale cls laws)].
  apply zip_add_scaled_zeros_r; [exact Hx | now apply (in_field_scale cls laws)|].
  now rewrite scale_length.
Qed.

(** The product does not depend on the order of the factors. *)
Lemma poly_product_comm (a b : list Z) :
  Forall F a -> Forall F b -> (1 <= length a)%nat -> (1 <= length b)%nat ->
  poly_product cls a b = poly_product cls b a.
Proof.
  intros Ha Hb HLa HLb.
  destruct Ha as [|x a Hx Ha]; [simpl in HLa; lia|]. clear HLa.
  revert x Hx. induction Ha as [|x' a Hx' Ha IH]; intros x Hx.
  - rewrite poly_product_single_l, poly_product_single_r by auto. reflexivity.
  - rewrite poly_product_cons_l by auto.
    rewrite (poly_product_cons_r x b (x' :: a)) by (auto; simpl; lia).
    now rewrite IH.
Qed.

Lemma field_dot_scale_r (s : Z) (a v : list Z) :
  F s -> Forall F a -> Forall F v ->
  field_dot cls a (map (mul s) v) = mul s (field_dot cls a v).
Proof.
  intros Hs Ha. revert v. induction Ha as [|x a Hx Ha IH]; intros v Hv.
  - simpl. field_ring cls.
  - destruct Hv as [|y v Hy Hv]; [simpl; field_ring cls|].
    cbn [map field_dot]. rewrite IH by assumption.
    assert (HD : F (field_dot cls a v)) by (apply (in_field_dot cls laws); assumption).
    revert HD. generalize (field_dot cls a v). intros D HD. field_ring cls.
Qed.

(** The value of a product is the product of the values. *)
Lemma horner_poly_product (r : Z) (a b : list Z) :
  F r -> Forall F a -> Forall F b ->
  horner cls r 0 (poly_product cls a b)
  = mul (horner cls r 0 a) (horner cls r 0 b).
Proof.
  intros Hr Ha Hb. unfold poly_product.
  rewrite (horner_lincomb cls laws);
    [| exact Hr | exact Ha | now apply (in_field_shifted_rows cls laws)
     | eapply Forall_impl; [|apply shifted_rows_length]; intros row H; exact H].
  unfold shifted_rows. rewrite map_map.
  rewrite (map_ext _ (fun i => mul (horner cls r 0 b) (pow r (length a - 1 - i)))).
  2:{ intros i. apply (horner_shifted cls laws); assumption. }
  rewrite <- (map_map (fun i => pow r (length a - 1 - i)) (mul (horner cls r 0 b))).
  rewrite field_dot_scale_r;
    [| auto with fld | exact Ha
     | apply Forall_forall; intros p Hp; apply in_map_iff in Hp;
       destruct Hp as [i [<- _]]; auto with fld].
  rewrite (dot_powers cls laws) by auto.
  assert (HA : F (horner cls r 0 a)) by auto with fld.
  assert (HB : F (horner cls r 0 b)) by auto with fld.
  revert HA HB. generalize (horner cls r 0 a) (horner cls r 0 b). intros A B HA HB.
  field_ring cls.
Qed.

End ConvolveAlgebra.

#[export] Hint Resolve Forall_padded in_field_poly_product : fld.

Section DivisionIdentity.

Variable cls : FieldClass.
Hypothesis laws : FieldLaws cls.

Add Ring field_ring_divmod : (field_ring_theory cls laws)
  (setoid (feq_equivalence cls) (field_ring_eq_ext cls)).

Local Abbreviation F := (in_field cls).
Local Abbreviation add := (_ADD_JIT cls).
Local Abbreviation sub := (_SUBTRACT_JIT cls).
Local Abbreviation mul := (_MULTIPLY_JIT cls).
Local Abbreviation div := (_DIVIDE_JIT cls).
Local Abbreviation ssub := (sub_scaled (_SUBTRACT_JIT cls) (_MULTIPLY_JIT cls)).
Local Abbreviation ldiv :=
  (long_division (_SUBTRACT_JIT cls) (_MULTIPLY_JIT cls) (_DIVIDE_JIT cls)).

Lemma mul_cancel_r (p q b : Z) :
  F p -> F q -> F b -> b <> 0 -> mul p b = mul q b -> p = q.
Proof.
  intros Hp Hq Hb Hb0 E.
  assert (HR : F (_RECIPROCAL_JIT cls b)) by (apply (law_reciprocal_closed cls laws); assumption).
  assert (E1 : mul b (_RECIPROCAL_JIT cls b) = 1) by (apply (law_reciprocal cls laws); assumption).
  assert (Ep : p = mul (mul p b) (_RECIPROCAL_JIT cls b)).
  { transitivity (mul p (mul b (_RECIPROCAL_JIT cls b))).
    - rewrite E1. field_ring cls.
    - revert HR. generalize (_RECIPROCAL_JIT cls b). intros R HR. field_ring cls. }
  assert (Eq : q = mul (mul q b) (_RECIPROCAL_JIT cls b)).
  { transitivity (mul q (mul b (_RECIPROCAL_JIT cls b))).
    - rewrite E1. field_ring cls.
    - revert HR. generalize (_RECIPROCAL_JIT cls b). intros R HR. field_ring cls. }
  rewrite Ep, Eq, E. reflexivity.
Qed.

Lemma divide_product (m b : Z) : F m -> F b -> b <> 0 -> div (mul m b) b = m.
Proof.
  intros Hm Hb Hb0.
  apply (mul_cancel_r _ _ b); auto with fld.
  - apply (law_divide_closed cls laws); auto with fld.
  - apply (law_divide cls laws); auto with fld.
Qed.

Lemma mul_zero_l (b : Z) : F b -> mul 0 b = 0.
Proof. intros Hb. field_ring cls. Qed.

Lemma product_zero (m b : Z) : F m -> F b -> b <> 0 -> mul m b = 0 -> m = 0.
Proof.
  intros Hm Hb Hb0 E. apply (mul_cancel_r _ _ b); auto with fld.
  now rewrite mul_zero_l.
Qed.

Lemma in_field_long_division_by (b : list Z) (steps : nat) (a : list Z) :
  Forall F b -> hd 0 b <> 0 -> Forall F a -> Forall F (ldiv b steps a).
Proof.
  intros Hb Hb0. revert a. induction steps as [|s IH]; intros a Ha.
  - destruct a; exact Ha.
  - destruct Ha as [|h t Hh Ht]; [constructor|].
    assert (Hhd : F (hd 0 b)) by (destruct Hb; simpl; auto with fld).
    assert (Htl : Forall F (tl b)) by (destruct Hb; simpl; auto).
    cbn [long_division]. destruct (h >? 0).
    + cbv zeta.
      assert (Hq : F (div h (hd 0 b))) by (apply (law_divide_closed cls laws); assumption).
      constructor; [exact Hq|]. apply IH.
      now apply (in_field_sub_scaled cls laws).
    + constructor; [exact Hh | now apply IH].
Qed.

(** Adding [q bs] back to [t - q bs]. *)
Lemma sub_scaled_restore (q : Z) (bs t : list Z) (k : nat) :
  F q -> Forall F bs -> Forall F t -> length t = (length bs + k)%nat ->
  zip_add cls (scale cls q (bs ++ repeat 0 k)) (ssub q bs t) = t.
Proof.
  intros Hq Hbs. revert t. induction Hbs as [|b bs Hb Hbs IH]; intros t Ht HL.
  - simpl in HL. subst k. cbn [app].
    replace (ssub q [] t) with t by (destruct t; reflexivity).
    now apply (zip_add_scale_zeros cls laws).
  - destruct Ht as [|x t Hx Ht]; [discriminate|].
    simpl in HL. unfold scale. cbn [app map sub_scaled zip_add].
    fold (scale cls q (bs ++ repeat 0 k)).
    rewrite IH by (auto; lia). f_equal. field_ring cls.
Qed.

(** Schoolbook division leaves [q] and [r] with [a = q b + r]. *)
Lemma long_division_identity (b0 : Z) (b' : list Z) (steps : nat) (a : list Z) :
  F b0 -> b0 <> 0 -> Forall F b' -> Forall F a ->
  length a = (steps + length b')%nat ->
  let qr := ldiv (b0 :: b') steps a in
  zip_add cls (poly_product cls (firstn steps qr) (b0 :: b'))
    (repeat 0 steps ++ skipn steps qr) = a.
Proof.
  intros Hb0 Hne Hb'. revert a. induction steps as [|s IH]; intros a Ha HL.
  - cbv zeta. cbn [long_division firstn skipn repeat app].
    unfold poly_product. cbn [lincomb length].
    apply (zip_add_zeros_l cls laws); [exact Ha | simpl in *; lia].
  - destruct Ha as [|h t Hh Ht]; [discriminate|].
    simpl in HL. cbv zeta. cbn [long_division hd tl].
    assert (Hb : Forall F (b0 :: b')) by (constructor; assumption).
    destruct (h >? 0) eqn:E.
    + cbv zeta.
      assert (Hq : F (div h b0)) by (apply (law_divide_closed cls laws); assumption).
      assert (Eq : mul (div h b0) b0 = h) by (apply (law_divide cls laws); assumption).
      set (q := div h b0) in *.
      assert (Ht' : Forall F (ssub q b' t)) by now apply (in_field_sub_scaled cls laws).
      assert (HL' : length (ssub q b' t) = (s + length b')%nat)
        by (rewrite sub_scaled_length; lia).
      specialize (IH _ Ht' HL'). cbv zeta in IH.
      set (qr := ldiv (b0 :: b') s (ssub q b' t)) in *.
      assert (Hqr : Forall F qr)
        by (apply in_field_long_division_by; [exact Hb | exact Hne | exact Ht']).
      assert (Lqr : length qr = (s + length b')%nat)
        by (unfold qr; rewrite long_division_length; exact HL').
      cbn [firstn skipn repeat app].
      rewrite (poly_product_cons_l cls laws)
        by (auto using Forall_firstn; simpl; lia).
      rewrite length_firstn. replace (Nat.min s (length qr)) with s by lia.
      unfold scale. cbn [app map zip_add].
      fold (scale cls q (b' ++ repeat 0 s)).
      rewrite (zip_add_assoc cls laws);
        [| apply (in_field_scale cls laws); auto with fld
         | apply (in_field_poly_product cls laws); auto using Forall_firstn
         | apply Forall_app; split; auto using Forall_skipn with fld].
      rewrite IH. rewrite sub_scaled_restore by (auto; lia).
      f_equal. rewrite Eq. field_ring cls.
    + assert (h = 0) by (apply (not_positive_zero cls); assumption). subst h.
      specialize (IH _ Ht ltac:(lia)). cbv zeta in IH.
      set (qr := ldiv (b0 :: b') s t) in *.
      assert (Hqr : Forall F qr)
        by (apply in_field_long_division_by; [exact Hb | exact Hne | exact Ht]).
      assert (Lqr : length qr = (s + length b')%nat)
        by (unfold qr; rewrite long_division_length; lia).
      cbn [firstn skipn repeat app].
      rewrite (poly_product_cons_l cls laws)
        by (auto using Forall_firstn; simpl; lia).
      rewrite length_firstn. replace (Nat.min s (length qr)) with s by lia.
      unfold scale. cbn [app map zip_add].
      fold (scale cls 0 (b' ++ repeat 0 s)).
      rewrite (zip_add_assoc cls laws);
        [| apply (in_field_scale cls laws); auto with fld
         | apply (in_field_poly_product cls laws); auto using Forall_firstn
         | apply Forall_app; split; auto using Forall_skipn with fld].
      rewrite IH.
      rewrite (zip_add_scale_zero cls laws);
        [| auto with fld | exact Ht
         | rewrite length_app, repeat_length; lia].
      f_equal. field_ring cls.
Qed.

(** Dividing [m(x) b(x)] by [b] gives back [m] and no remainder. *)
Lemma long_division_of_product (b0 : Z) (b' m : list Z) :
  F b0 -> b0 <> 0 -> Forall F b' -> Forall F m ->
  ldiv (b0 :: b') (length m) (poly_product cls m (b0 :: b'))
  = m ++ repeat 0 (length b').
Proof.
  intros Hb0 Hne Hb' Hm.
  assert (Hb : Forall F (b0 :: b')) by (constructor; assumption).
  induction Hm as [|m0 m Hm0 Hm IH].
  - unfold poly_product. cbn [lincomb length long_division app].
    f_equal. lia.
  - rewrite (poly_product_cons_l cls laws) by (auto; simpl; lia).
    set (P := poly_product cls m (b0 :: b')) in *.
    assert (HP : Forall F P) by (unfold P; auto with fld).
    assert (LP : length P = (length b' + length m)%nat).
    { unfold P. rewrite poly_product_length. simpl. lia. }
    unfold scale. cbn [app map zip_add length].
    fold (scale cls m0 (b' ++ repeat 0 (length m))).
    replace (add (mul m0 b0) 0) with (mul m0 b0) by (field_ring cls).
    cbn [long_division hd tl].
    destruct (mul m0 b0 >? 0) eqn:E.
    + cbv zeta. rewrite divide_product by assumption.
      rewrite (sub_scaled_cancel cls laws) by assumption.
      rewrite IH. reflexivity.
    + assert (E0 : mul m0 b0 = 0)
        by (apply (not_positive_zero cls); auto with fld).
      assert (m0 = 0) by (apply (product_zero m0 b0); assumption). subst m0.
      rewrite E0.
      rewrite (zip_add_scale_zero cls laws);
        [| auto with fld | exact HP | rewrite length_app, repeat_length; lia].
      rewrite IH. reflexivity.
Qed.

End DivisionIdentity.

(** ** The interpreted routines and the routes of the dispatchers *)

Lemma for_range_m_ok {S : Type} (Inv : S -> Prop) (n : nat)
  (bm : nat -> S -> result S) (b : nat -> S -> S) (s : S) :
  Inv s ->
  (forall k s', (k < n)%nat -> Inv s' -> bm k s' = Ok (b k s') /\ Inv (b k s')) ->
  for_range_m n bm s = Ok (for_range n b s) /\ Inv (for_range n b s).
Proof.
  intros H0 Hstep. induction n as [|n IH].
  - split; [reflexivity | exact H0].
  - destruct IH as [E I]; [intros k s' Hk; apply Hstep; lia|].
    destruct (Hstep n _ (Nat.lt_succ_diag_r n) I) as [E' I'].
    unfold for_range_m in *. rewrite seq_S, for_each_m_app, E.
    rewrite for_range_S. simpl. rewrite E'. split; [reflexivity | exact I'].
Qed.

Lemma for_range_ext {S : Type} (n : nat) (b1 b2 : nat -> S -> S) (s : S) :
  (forall k s', b1 k s' = b2 k s') -> for_range n b1 s = for_range n b2 s.
Proof. intros H. unfold for_range. apply fold_left_ext_all. intros a x. apply H. Qed.

Lemma firstn_upd_snoc {A : Type} (i : nat) (x : A) (c : list A) :
  (i < length c)%nat -> firstn (S i) (upd i x c) = firstn i c ++ [x].
Proof.
  revert c. induction i as [|i IH]; intros [|h t] H; simpl in *; try lia.
  - reflexivity.
  - f_equal. apply IH. lia.
Qed.

Lemma skipn_upd_after {A : Type} (i : nat) (x : A) (c : list A) :
  skipn (S i) (upd i x c) = skipn (S i) c.
Proof.
  revert c. induction i as [|i IH]; intros [|h t]; try reflexivity.
  apply (IH t).
Qed.

Lemma getitem_nth (l : list Z) (i : nat) :
  (i < length l)%nat -> getitem l i = Ok (nth i l 0).
Proof.
  intros H. unfold getitem.
  destruct (nth_error l i) eqn:E.
  - now rewrite (nth_error_nth _ _ 0 E).
  - apply nth_error_None in E. lia.
Qed.

Lemma getitem_out (l : list Z) (i : nat) :
  (length l <= i)%nat -> getitem l i = Raise IndexError.
Proof.
  intros H. unfold getitem. now replace (nth_error l i) with (@None Z)
    by (symmetry; now apply nth_error_None).
Qed.

Section SliceUpdates.

Variables ADD_JIT SUBTRACT_JIT MULTIPLY_JIT : Z -> Z -> Z.

Lemma add_scaled_combine (x : Z) (b t : list Z) :
  (length b <= length t)%nat ->
  map (fun cv => ADD_JIT (fst cv) (snd cv))
    (combine (firstn (length b) t) (map (MULTIPLY_JIT x) b))
  ++ skipn (length b) t
  = add_scaled ADD_JIT MULTIPLY_JIT x b t.
Proof.
  revert t. induction b as [|b0 b IH]; intros t H.
  - destruct t; reflexivity.
  - destruct t as [|h t]; [simpl in H; lia|]. simpl in *. f_equal. apply IH. lia.
Qed.

Lemma sub_scaled_combine (q : Z) (b t : list Z) :
  (length b <= length t)%nat ->
  map (fun cv => SUBTRACT_JIT (fst cv) (snd cv))
    (combine (firstn (length b) t) (map (MULTIPLY_JIT q) b))
  ++ skipn (length b) t
  = sub_scaled SUBTRACT_JIT MULTIPLY_JIT q b t.
Proof.
  revert t. induction b as [|b0 b IH]; intros t H.
  - destruct t; reflexivity.
  - destruct t as [|h t]; [simpl in H; lia|]. simpl in *. f_equal. apply IH. lia.
Qed.

(** [c[i:i + b.size] += x * b] *)
Lemma slice_update_add_scaled (x : Z) (b c : list Z) (i : nat) :
  (i + length b <= length c)%nat ->
  slice_update ADD_JIT c i (map (MULTIPLY_JIT x) b)
  = firstn i c ++ add_scaled ADD_JIT MULTIPLY_JIT x b (skipn i c).
Proof.
  intros H. unfold slice_update. rewrite length_map. f_equal.
  rewrite <- add_scaled_combine by (rewrite length_skipn; lia).
  now rewrite skipn_skipn, (Nat.add_comm (length b) i).
Qed.

(** [qr[i:i + b.size] -= q * b] *)
Lemma slice_update_sub_scaled (q : Z) (b c : list Z) (i : nat) :
  (i + length b <= length c)%nat ->
  slice_update SUBTRACT_JIT c i (map (MULTIPLY_JIT q) b)
  = firstn i c ++ sub_scaled SUBTRACT_JIT MULTIPLY_JIT q b (skipn i c).
Proof.
  intros H. unfold slice_update. rewrite length_map. f_equal.
  rewrite <- sub_scaled_combine by (rewrite length_skipn; lia).
  now rewrite skipn_skipn, (Nat.add_comm (length b) i).
Qed.

(** The inner loop of [_poly_divmod_jit]. *)
Lemma divmod_inner_loop (q : Z) (b : list Z) (i : nat) (c : list Z) :
  (i + length b <= length c)%nat ->
  for_range (length b) (fun j c =>
    upd (i + j) (SUBTRACT_JIT (nth (i + j) c 0) (MULTIPLY_JIT q (nth j b 0))) c) c
  = firstn i c ++ sub_scaled SUBTRACT_JIT MULTIPLY_JIT q b (skipn i c).
Proof.
  revert i c. induction b as [|b0 b IH]; intros i c H.
  - cbn [length]. rewrite for_range_0.
    replace (sub_scaled SUBTRACT_JIT MULTIPLY_JIT q [] (skipn i c)) with (skipn i c)
      by (destruct (skipn i c); reflexivity).
    now rewrite firstn_skipn.
  - cbn [length] in *. rewrite for_range_shift. rewrite Nat.add_0_r. cbn [nth].
    assert (Hi : (i < length c)%nat) by lia.
    set (c' := upd i (SUBTRACT_JIT (nth i c 0) (MULTIPLY_JIT q b0)) c).
    transitivity
      (for_range (length b) (fun j c =>
         upd (S i + j) (SUBTRACT_JIT (nth (S i + j) c 0) (MULTIPLY_JIT q (nth j b 0))) c) c').
    { apply for_range_ext. intros j s'. cbn [nth].
      now replace (i + S j)%nat with (S i + j)%nat by lia. }
    rewrite IH by (unfold c'; rewrite upd_length; lia).
    unfold c'. rewrite firstn_upd_snoc by exact Hi. rewrite skipn_upd_after.
    rewrite (skipn_nth_cons 0 i c Hi). cbn [sub_scaled].
    now rewrite <- app_assoc.
Qed.
End SliceUpdates.

Section InterpretedRoutines.

Variable cls : FieldClass.

Local Abbreviation add := (_ADD_JIT cls).
Local Abbreviation sub := (_SUBTRACT_JIT cls).
Local Abbreviation mul := (_MULTIPLY_JIT cls).
Local Abbreviation div := (_DIVIDE_JIT cls).

Lemma convolve_python_loop (a b c : list Z) :
  (length a + length b <= length c + 1)%nat ->
  for_range (length a) (fun i c =>
    slice_update add c i (map (mul (nth i a 0)) b)) c
  = convolve_rows add mul b a c.
Proof.
  intros H. rewrite <- convolve_outer_loop.
  apply (for_range_ext_inv (fun c' => length c' = length c)); [reflexivity|].
  intros i c' Hi Hc'.
  rewrite slice_update_add_scaled by lia. split; [reflexivity|].
  rewrite length_app, add_scaled_length, length_firstn, length_skipn. lia.
Qed.

(** [_convolve_python] runs the loop of [_convolve_jit] with the shorter
    operand first. *)
Lemma convolve_python_jit (a b : list Z) :
  (1 <= length a + length b)%nat ->
  _convolve_python cls a b
  = Ok (if (length b <? length a)%nat then _convolve_jit add mul b a
        else _convolve_jit add mul a b).
Proof.
  intros H. unfold _convolve_python.
  replace (length a + length b =? 0)%nat with false
    by (symmetry; apply Nat.eqb_neq; lia).
  cbv zeta. destruct (length b <? length a)%nat.
  - rewrite convolve_python_loop by (rewrite repeat_length; lia).
    rewrite convolve_jit_rows. do 3 f_equal. lia.
  - rewrite convolve_python_loop by (rewrite repeat_length; lia).
    now rewrite convolve_jit_rows.
Qed.

(** [_poly_divmod_python] runs the division of [_poly_divmod_jit]. *)
Lemma poly_divmod_python_jit (a b : list Z) :
  (1 <= length b)%nat ->
  _poly_divmod_python cls a b = _poly_divmod_jit sub mul div a b.
Proof.
  intros Hb. unfold _poly_divmod_python, _poly_divmod_jit.
  destruct (length b <=? length a)%nat eqn:E; [|reflexivity].
  apply Nat.leb_le in E. cbv zeta.
  apply (for_range_m_ok (fun qr => length qr = length a)); [reflexivity|].
  intros i qr Hi Hqr.
  rewrite getitem_nth by lia. cbn [bind].
  destruct (nth i qr 0 >? 0).
  - rewrite getitem_nth by lia. cbn [bind].
    rewrite slice_update_sub_scaled by lia.
    rewrite divmod_inner_loop by lia.
    split; [reflexivity|].
    rewrite upd_length, length_app, sub_scaled_length, length_firstn, length_skipn. lia.
  - split; [reflexivity | exact Hqr].
Qed.

Lemma evaluate_fold (coeffs : list Z) (c0 x : Z) (rest : list Z) :
  coeffs = c0 :: rest ->
  fold_left (fun result_ j => add (nth j coeffs 0) (mul result_ x))
    (seq 1 (length coeffs - 1)) c0
  = poly_eval cls coeffs x.
Proof.
  intros ->. cbn [length poly_eval].
  replace (S (length rest) - 1)%nat with (length rest) by lia.
  rewrite <- seq_shift, fold_left_map_in. cbn [nth]. unfold horner.
  rewrite <- (list_as_map_nth rest) at 2. rewrite fold_left_map_in. reflexivity.
Qed.

(** [_poly_evaluate_python] is Horner's rule. *)
Lemma poly_evaluate_python_horner (coeffs : list Z) (x : Z) :
  (1 <= length coeffs)%nat ->
  _poly_evaluate_python cls coeffs x = Ok (poly_eval cls coeffs x).
Proof.
  intros H. destruct coeffs as [|c0 rest]; [simpl in H; lia|].
  unfold _poly_evaluate_python. cbn [getitem nth_error bind].
  now rewrite (evaluate_fold (c0 :: rest) c0 x rest).
Qed.

(** [_poly_evaluate_jit] is Horner's rule at every value. *)
Lemma poly_evaluate_jit_horner (coeffs values results : list Z) :
  (1 <= length coeffs)%nat -> length results = length values ->
  _poly_evaluate_jit add mul coeffs values results
  = Ok (map (poly_eval cls coeffs) values).
Proof.
  intros H HL. destruct coeffs as [|c0 rest] eqn:Ec; [simpl in H; lia|].
  rewrite <- Ec in *. unfold _poly_evaluate_jit.
  assert (Hbody : forall i r, (i < length r)%nat ->
            fold_left (fun results j =>
                upd i (add (nth j coeffs 0) (mul (nth i results 0) (nth i values 0)))
                  results) (seq 1 (length coeffs - 1)) (upd i c0 r)
            = upd i (poly_eval cls coeffs (nth i values 0)) r).
  { intros i r Hi. rewrite <- (evaluate_fold coeffs c0 (nth i values 0) rest Ec).
    generalize (seq 1 (length coeffs - 1)). intros js. revert r Hi.
    generalize c0. induction js as [|j js IH]; intros acc r Hi; [reflexivity|].
    cbn [fold_left]. rewrite nth_upd_eq by exact Hi. rewrite upd_upd.
    apply IH. exact Hi. }
  destruct (for_range_m_ok (fun r => length r = length values) (length values)
              (fun i results =>
                 coeffs_0 <- getitem coeffs 0 ;;
                 Ok (fold_left (fun results j =>
                       upd i (add (nth j coeffs 0)
                                (mul (nth i results 0) (nth i values 0))) results)
                     (seq 1 (length coeffs - 1)) (upd i coeffs_0 results)))
              (fun i r => upd i ((fun i _ => poly_eval cls coeffs (nth i values 0)) i (nth i r 0)) r)
              results HL) as [E _].
  { intros i r Hi Hr. rewrite getitem_nth by lia. rewrite Ec at 1. cbn [nth bind].
    rewrite Hbody by lia. split; [reflexivity | now rewrite upd_length]. }
  cbv zeta. rewrite E. f_equal.
  rewrite <- HL.
  rewrite (for_range_fill 0 (fun i _ => poly_eval cls coeffs (nth i values 0)) results).
  rewrite HL.
  apply (map_nth_seq 0 (poly_eval cls coeffs) values).
Qed.

End InterpretedRoutines.

Lemma fold_left_ext_in {A B : Type} (f g : A -> B -> A) (l : list B) (a : A) :
  (forall a x, In x l -> f a x = g a x) -> fold_left f l a = fold_left g l a.
Proof.
  revert a. induction l as [|x l IH]; intros a H; [reflexivity|].
  simpl. rewrite H by now left. apply IH. intros a' y Hy. apply H. now right.
Qed.

Lemma nth_shifted_row (b : list Z) (i d n : nat) :
  nth n (repeat 0 i ++ b ++ repeat 0 d) 0
  = if (i <=? n)%nat then nth (n - i) b 0 else 0.
Proof.
  destruct (i <=? n)%nat eqn:E.
  - apply Nat.leb_le in E.
    rewrite app_nth2 by (rewrite repeat_length; lia). rewrite repeat_length.
    destruct (Nat.lt_ge_cases (n - i) (length b)) as [H|H].
    + now rewrite app_nth1.
    + rewrite app_nth2 by lia. rewrite nth_repeat_zero.
      now rewrite nth_overflow.
  - apply Nat.leb_gt in E.
    rewrite app_nth1 by (rewrite repeat_length; lia). apply nth_repeat_zero.
Qed.

(** One coefficient of [np.convolve] is the integer contraction of [a]
    with a column of the shifts of [b]. *)
Lemma np_convolve_entry (a b : list Z) (n : nat) :
  fold_left Z.add
    (map (fun m => if (m <=? n)%nat then nth m a 0 * nth (n - m) b 0 else 0)
       (seq 0 (length a))) 0
  = int_dot a (column (shifted_rows b (length a)) n).
Proof.
  unfold int_dot.
  rewrite <- (fold_seq_combine (fun acc x y => acc + x * y))
    by (rewrite column_length; unfold shifted_rows; now rewrite length_map, length_seq).
  rewrite fold_left_map_in.
  apply fold_left_ext_in. intros acc k Hk. apply in_seq in Hk.
  f_equal. unfold column, shifted_rows. rewrite map_map.
  rewrite (map_seq_nth 0) by lia. rewrite nth_shifted_row.
  destruct (k <=? n)%nat; [reflexivity | lia].
Qed.

Section ConvolveRoutes.

Variable cls : FieldClass.
Hypothesis laws : FieldLaws cls.

Local Abbreviation F := (in_field cls).
Local Abbreviation add := (_ADD_JIT cls).
Local Abbreviation mul := (_MULTIPLY_JIT cls).

Lemma poly_product_entries (a b : list Z) :
  Forall F a -> Forall F b ->
  poly_product cls a b
  = map (fun n => field_dot cls a (column (shifted_rows b (length a)) n))
      (seq 0 (length a + length b - 1)).
Proof.
  intros Ha Hb. unfold poly_product.
  rewrite <- (vecmat_lincomb cls); [reflexivity|].
  eapply Forall_impl; [|apply shifted_rows_length]. intros row H. exact H.
Qed.

(** In a prime field the integer convolution reduced modulo the
    characteristic is the product of the polynomials. *)
Lemma prime_field_convolve (a b : list Z) :
  degree cls = 1 -> Forall F a -> Forall F b ->
  (1 <= length a)%nat -> (1 <= length b)%nat ->
  (c <- np_convolve a b ;; Ok (map (fun x => x mod characteristic cls) c))
  = Ok (poly_product cls a b).
Proof.
  intros Hd Ha Hb HLa HLb. unfold np_convolve.
  replace ((length a =? 0)%nat || (length b =? 0)%nat) with false.
  2:{ symmetry. apply orb_false_iff. split; apply Nat.eqb_neq; lia. }
  cbn [bind]. f_equal. rewrite poly_product_entries by assumption.
  rewrite map_map. apply map_ext. intros n.
  rewrite np_convolve_entry.
  apply (lapack_entry cls laws); [exact Hd | exact Ha|].
  apply (in_field_column cls laws). now apply (in_field_shifted_rows cls laws).
Qed.

End ConvolveRoutes.

(** ** The algebra of the matrix product *)

Section MatmulAlgebra.

Variable cls : FieldClass.
Hypothesis laws : FieldLaws cls.

Add Ring field_ring_matmul : (field_ring_theory cls laws)
  (setoid (feq_equivalence cls) (field_ring_eq_ext cls)).

Local Abbreviation F := (in_field cls).
Local Abbreviation add := (_ADD_JIT cls).
Local Abbreviation mul := (_MULTIPLY_JIT cls).

Lemma field_dot_nil_l (c : list Z) : field_dot cls [] c = 0.
Proof. reflexivity. Qed.

Lemma field_dot_zeros_l (k : nat) (c : list Z) :
  Forall F c -> field_dot cls (repeat 0 k) c = 0.
Proof.
  intros Hc. revert k. induction Hc as [|y c Hy Hc IH]; intros [|k]; try reflexivity.
  cbn [repeat field_dot]. rewrite IH. field_ring cls.
Qed.

Lemma field_dot_zip_add (u v c : list Z) :
  Forall F u -> Forall F v -> Forall F c -> length u = length v ->
  field_dot cls (zip_add cls u v) c = add (field_dot cls u c) (field_dot cls v c).
Proof.
  intros Hu. revert v c. induction Hu as [|x u Hx Hu IH]; intros v c Hv Hc HL.
  - destruct v; [|discriminate]. simpl. field_ring cls.
  - destruct Hv as [|y v Hy Hv]; [discriminate|].
    destruct Hc as [|z c Hz Hc]; [simpl; field_ring cls|].
    cbn [zip_add field_dot]. rewrite IH by (auto; simpl in HL; lia).
    assert (H1 : F (field_dot cls u c)) by (apply (in_field_dot cls laws); assumption).
    assert (H2 : F (field_dot cls v c)) by (apply (in_field_dot cls laws); assumption).
    revert H1 H2. generalize (field_dot cls u c) (field_dot cls v c). intros D1 D2 H1 H2.
    field_ring cls.
Qed.

Lemma field_dot_scale_l (s : Z) (u c : list Z) :
  F s -> Forall F u -> Forall F c ->
  field_dot cls (scale cls s u) c = mul s (field_dot cls u c).
Proof.
  intros Hs Hu. revert c. induction Hu as [|x u Hx Hu IH]; intros c Hc.
  - simpl. field_ring cls.
  - destruct Hc as [|z c Hz Hc]; [simpl; field_ring cls|].
    unfold scale in *. cbn [map field_dot]. rewrite IH by assumption.
    assert (H1 : F (field_dot cls u c)) by (apply (in_field_dot cls laws); assumption).
    revert H1. generalize (field_dot cls u c). intros D1 H1. field_ring cls.
Qed.

(** Contracting a combination of rows is combining the contractions. *)
Lemma field_dot_lincomb (a : list Z) (rows : list (list Z)) (n : nat) (c : list Z) :
  Forall F a -> Forall (Forall F) rows -> Forall (fun row => length row = n) rows ->
  Forall F c ->
  field_dot cls (lincomb cls a rows n) c
  = field_dot cls a (map (fun row => field_dot cls row c) rows).
Proof.
  intros Ha. revert rows. induction Ha as [|a0 a Ha0 Ha IH]; intros rows Hr HL Hc.
  - cbn [lincomb]. now apply field_dot_zeros_l.
  - destruct Hr as [|row rows Hrow Hrows].
    + cbn [lincomb map]. rewrite field_dot_zeros_l by assumption.
      symmetry. apply (field_dot_nil_r cls).
    + inversion HL as [|? ? HL1 HL2]; subst.
      cbn [lincomb map field_dot].
      rewrite field_dot_zip_add;
        [| now apply (in_field_scale cls laws)
         | now apply (in_field_lincomb cls laws)
         | exact Hc
         | rewrite scale_length, lincomb_length by exact HL2; reflexivity].
      rewrite field_dot_scale_l by assumption.
      now rewrite IH.
Qed.

Lemma product_rows_shaped (M N : nat) (rowsA rowsB : list (list Z)) :
  rows_shaped M N (product_rows cls M N rowsA rowsB).
Proof.
  unfold product_rows. split.
  - now rewrite length_map, length_seq.
  - apply Forall_forall. intros row Hrow. apply in_map_iff in Hrow.
    destruct Hrow as [i [<- _]]. now rewrite length_map, length_seq.
Qed.

Lemma in_field_product_rows (M N : nat) (rowsA rowsB : list (list Z)) :
  Forall (Forall F) rowsA -> Forall (Forall F) rowsB ->
  Forall (Forall F) (product_rows cls M N rowsA rowsB).
Proof.
  intros HA HB. unfold product_rows.
  apply Forall_forall. intros row Hrow. apply in_map_iff in Hrow.
  destruct Hrow as [i [<- _]].
  apply Forall_forall. intros x Hx. apply in_map_iff in Hx.
  destruct Hx as [j [<- _]].
  apply (in_field_dot cls laws).
  - now apply (in_field_nth_row cls).
  - now apply (in_field_column cls laws).
Qed.

(** The product of matrices is associative. *)
Lemma product_rows_assoc (M K L N : nat) (rowsA rowsB rowsC : list (list Z)) :
  rows_shaped M K rowsA -> rows_shaped K L rowsB -> rows_shaped L N rowsC ->
  Forall (Forall F) rowsA -> Forall (Forall F) rowsB -> Forall (Forall F) rowsC ->
  product_rows cls M N (product_rows cls M L rowsA rowsB) rowsC
  = product_rows cls M N rowsA (product_rows cls K N rowsB rowsC).
Proof.
  intros SA SB SC FA FB FC.
  unfold product_rows at 1 3.
  apply map_ext_in. intros i Hi. apply in_seq in Hi.
  apply map_ext_in. intros l Hl. apply in_seq in Hl.
  unfold product_rows at 1. rewrite (map_seq_nth []) by lia.
  change (map (fun j => field_dot cls (nth i rowsA []) (column rowsB j)) (seq 0 L))
    with (vecmat cls (nth i rowsA []) rowsB L).
  destruct SB as [SB1 SB2].
  rewrite (vecmat_lincomb cls) by exact SB2.
  rewrite field_dot_lincomb;
    [| now apply (in_field_nth_row cls) | exact FB | exact SB2
     | now apply (in_field_column cls laws)].
  f_equal. unfold column at 2. unfold product_rows. rewrite map_map.
  rewrite <- SB1.
  rewrite <- (map_nth_seq [] (fun row => field_dot cls row (column rowsC l)) rowsB).
  apply map_ext. intros j.
  now rewrite (map_seq_nth 0) by lia.
Qed.

End MatmulAlgebra.

(** X10. The compiled matrix product is associative: over a field, for
    matrices of shapes [(M, K)], [(K, L)] and [(L, N)], multiplying by
    [_matmul_jit] in either grouping succeeds with the same matrix. *)
Theorem matmul_jit_associative (cls : FieldClass) (M K L N : nat)
  (rowsA rowsB rowsC : list (list Z)) :
  FieldLaws cls ->
  wf_data (Arr2 M K rowsA) -> wf_data (Arr2 K L rowsB) -> wf_data (Arr2 L N rowsC) ->
  Forall (Forall (in_field cls)) rowsA -> Forall (Forall (in_field cls)) rowsB ->
  Forall (Forall (in_field cls)) rowsC ->
  let matmul := _matmul_jit (_ADD_JIT cls) (_MULTIPLY_JIT cls) in
  exists D,
    (AB <- matmul (Arr2 M K rowsA) (Arr2 K L rowsB) ;; matmul AB (Arr2 L N rowsC)) = Ok D /\
    (BC <- matmul (Arr2 K L rowsB) (Arr2 L N rowsC) ;; matmul (Arr2 M K rowsA) BC) = Ok D.
Proof.
  intros laws WA WB WC FA FB FC matmul. unfold matmul.
  destruct WB as [WB1 WB2]. destruct WC as [WC1 WC2].
  exists (Arr2 M N (product_rows cls M N rowsA (product_rows cls K N rowsB rowsC))).
  rewrite !(matmul_jit_rows cls laws) by (assumption || (split; assumption)).
  cbn [bind].
  rewrite !(matmul_jit_rows cls laws);
    try assumption;
    try apply product_rows_shaped;
    try (apply (in_field_product_rows cls laws); assumption);
    try (apply product_rows_shaped).
  split; [|reflexivity].
  do 2 f_equal.
  apply (product_rows_assoc cls laws); try assumption; split; assumption.
Qed.

(** ** Convolution, division and evaluation *)

(** X1. [_convolve_jit] multiplies polynomials: over a field, the
    convolution of two non-empty coefficient arrays has
    [a.size + b.size - 1] coefficients of the field, and
    [_poly_evaluate_jit] of it at any values is the product of the
    evaluations of the two operands. *)
Theorem convolve_jit_multiplies_polynomials (cls : FieldClass) (a b : list Z) :
  FieldLaws cls ->
  Forall (in_field cls) a -> Forall (in_field cls) b ->
  (1 <= length a)%nat -> (1 <= length b)%nat ->
  let ADD_JIT := _ADD_JIT cls in
  let MULTIPLY_JIT := _MULTIPLY_JIT cls in
  let c := _convolve_jit ADD_JIT MULTIPLY_JIT a b in
  length c = (length a + length b - 1)%nat /\
  Forall (in_field cls) c /\
  forall values results : list Z,
    Forall (in_field cls) values -> length results = length values ->
    exists ya yb,
      _poly_evaluate_jit ADD_JIT MULTIPLY_JIT a values results = Ok ya /\
      _poly_evaluate_jit ADD_JIT MULTIPLY_JIT b values results = Ok yb /\
      _poly_evaluate_jit ADD_JIT MULTIPLY_JIT c values results
      = Ok (map (fun y => MULTIPLY_JIT (fst y) (snd y)) (combine ya yb)).
Proof.
  intros laws Ha Hb HLa HLb ADD_JIT MULTIPLY_JIT c.
  assert (Ec : c = poly_product cls a b)
    by (apply (convolve_jit_product cls laws); assumption).
  assert (Lc : length c = (length a + length b - 1)%nat)
    by (rewrite Ec; apply poly_product_length).
  assert (Hc : Forall (in_field cls) c)
    by (rewrite Ec; now apply (in_field_poly_product cls laws)).
  split; [exact Lc|]. split; [exact Hc|].
  intros values results Hv HL.
  exists (map (poly_eval cls a) values), (map (poly_eval cls b) values).
  unfold ADD_JIT, MULTIPLY_JIT.
  rewrite !poly_evaluate_jit_horner by (assumption || lia).
  split; [reflexivity|]. split; [reflexivity|]. f_equal.
  rewrite combine_map_same, map_map. cbn [fst snd].
  apply map_ext_in. intros x Hx.
  assert (Fx : in_field cls x) by (eapply Forall_forall; eassumption).
  rewrite !(poly_eval_horner cls laws) by assumption.
  rewrite Ec. now apply (horner_poly_product cls laws).
Qed.

(** X2. Over a field [_convolve_jit] does not depend on the order of its
    operands. *)
Theorem convolve_jit_commutes (cls : FieldClass) (a b : list Z) :
  FieldLaws cls ->
  Forall (in_field cls) a -> Forall (in_field cls) b ->
  (1 <= length a)%nat -> (1 <= length b)%nat ->
  _convolve_jit (_ADD_JIT cls) (_MULTIPLY_JIT cls) a b
  = _convolve_jit (_ADD_JIT cls) (_MULTIPLY_JIT cls) b a.
Proof.
  intros laws Ha Hb HLa HLb.
  rewrite !(convolve_jit_product cls laws) by assumption.
  now apply (poly_product_comm cls laws).
Qed.

(** X3. [JITMixin._convolve] returns the same coefficients on each of its
    three routes: the integer convolution reduced modulo the
    characteristic in a prime field, [_convolve_python] (which puts the
    shorter operand first), and the compiled [_convolve_jit]. *)
Theorem convolve_routes_agree (cls : FieldClass) (a b : list Z) :
  FieldLaws cls ->
  Forall (in_field cls) a -> Forall (in_field cls) b ->
  (1 <= length a)%nat -> (1 <= length b)%nat ->
  _convolve cls a b = Ok (_convolve_jit (_ADD_JIT cls) (_MULTIPLY_JIT cls) a b) /\
  _convolve_python cls a b = Ok (_convolve_jit (_ADD_JIT cls) (_MULTIPLY_JIT cls) a b) /\
  (is_prime_field cls = true ->
   (c <- np_convolve a b ;; Ok (map (fun x => x mod characteristic cls) c))
   = Ok (_convolve_jit (_ADD_JIT cls) (_MULTIPLY_JIT cls) a b)).
Proof.
  intros laws Ha Hb HLa HLb.
  assert (Hpy : _convolve_python cls a b
                = Ok (_convolve_jit (_ADD_JIT cls) (_MULTIPLY_JIT cls) a b)).
  { rewrite convolve_python_jit by lia.
    destruct (length b <? length a)%nat; [|reflexivity].
    f_equal. rewrite !(convolve_jit_product cls laws) by assumption.
    now apply (poly_product_comm cls laws). }
  assert (Hpr : is_prime_field cls = true ->
                (c <- np_convolve a b ;; Ok (map (fun x => x mod characteristic cls) c))
                = Ok (_convolve_jit (_ADD_JIT cls) (_MULTIPLY_JIT cls) a b)).
  { intros Hp. unfold is_prime_field in Hp. apply Z.eqb_eq in Hp.
    rewrite (prime_field_convolve cls laws) by assumption.
    now rewrite (convolve_jit_product cls laws). }
  split; [|split; assumption].
  unfold _convolve. destruct (is_prime_field cls); [now apply Hpr|].
  destruct (ufunc_mode_eqb (ufunc_mode cls) python_calculate); [exact Hpy|].
  now replace (length a + length b =? 0)%nat with false
    by (symmetry; apply Nat.eqb_neq; lia).
Qed.

Lemma convolve_rows_nil (add mul : Z -> Z -> Z) (a c : list Z) :
  convolve_rows add mul [] a c = c.
Proof.
  revert c. induction a as [|x a IH]; intros c; [reflexivity|].
  cbn [convolve_rows add_scaled]. destruct c as [|h t]; [reflexivity|].
  now rewrite IH.
Qed.

(** X4. With an empty operand [JITMixin._convolve] raises [ValueError] in
    a prime field and when both operands are empty; in an extension
    field one empty operand gives the zeros of [np.zeros(size - 1)]. *)
Theorem convolve_of_empty_operand (cls : FieldClass) :
  _convolve cls [] [] = Raise ValueError /\
  (forall a : list Z,
     is_prime_field cls = true ->
     _convolve cls a [] = Raise ValueError /\ _convolve cls [] a = Raise ValueError) /\
  (forall a : list Z,
     is_prime_field cls = false -> (1 <= length a)%nat ->
     _convolve cls a [] = Ok (repeat 0 (length a - 1)) /\
     _convolve cls [] a = Ok (repeat 0 (length a - 1))).
Proof.
  split; [|split].
  - unfold _convolve, np_convolve, _convolve_python. cbn.
    destruct (is_prime_field cls); [reflexivity|].
    now destruct (ufunc_mode_eqb (ufunc_mode cls) python_calculate).
  - intros a Hp. unfold _convolve, np_convolve. rewrite Hp. cbn [length].
    rewrite orb_true_r. simpl. split; reflexivity.
  - intros a Hp HL. unfold _convolve. rewrite Hp.
    assert (E1 : (length a + length (@nil Z) =? 0)%nat = false)
      by (apply Nat.eqb_neq; simpl; lia).
    assert (E2 : (length (@nil Z) + length a =? 0)%nat = false)
      by (apply Nat.eqb_neq; simpl; lia).
    destruct (ufunc_mode_eqb (ufunc_mode cls) python_calculate).
    + rewrite !convolve_python_jit by (simpl; lia).
      replace (length (@nil Z) <? length a)%nat with true
        by (symmetry; apply Nat.ltb_lt; simpl; lia).
      replace (length a <? length (@nil Z))%nat with false
        by (symmetry; apply Nat.ltb_ge; simpl; lia).
      unfold _convolve_jit. cbn [length for_range seq fold_left].
      now rewrite Nat.add_0_l.
    + rewrite E1, E2. split.
      * rewrite convolve_jit_rows, convolve_rows_nil. cbn [length].
        now rewrite Nat.add_0_r.
      * reflexivity.
Qed.

(** X5. [_poly_divmod] satisfies the division identity: for a divisor
    with a non-zero leading coefficient, no longer than the dividend,
    it returns [a.size - b.size + 1] quotient and [b.size - 1] remainder
    coefficients of the field with [a = q b + r], the product being the
    one [_convolve_jit] computes. *)
Theorem poly_divmod_division_identity (cls : FieldClass) (a b : list Z) :
  FieldLaws cls ->
  Forall (in_field cls) a -> Forall (in_field cls) b ->
  (1 <= length b <= length a)%nat -> nth 0 b 0 <> 0 ->
  exists q r,
    _poly_divmod cls a b = Ok (q, r) /\
    length q = (length a - length b + 1)%nat /\
    length r = (length b - 1)%nat /\
    Forall (in_field cls) q /\ Forall (in_field cls) r /\
    zip_add cls (_convolve_jit (_ADD_JIT cls) (_MULTIPLY_JIT cls) q b)
      (repeat 0 (length q) ++ r) = a.
Proof.
  intros laws Ha Hb HL Hne.
  destruct b as [|b0 b']; [simpl in HL; lia|]. cbn [nth] in Hne.
  assert (Hb0 : in_field cls b0) by now inversion Hb.
  assert (Hb' : Forall (in_field cls) b') by now inversion Hb.
  set (steps := (length a - length (b0 :: b') + 1)%nat).
  set (qr := long_division (_SUBTRACT_JIT cls) (_MULTIPLY_JIT cls) (_DIVIDE_JIT cls)
               (b0 :: b') steps a).
  assert (Hqr : Forall (in_field cls) qr)
    by (apply (in_field_long_division_by cls laws); assumption).
  assert (Lqr : length qr = length a) by apply long_division_length.
  assert (Lq : length (firstn steps qr) = steps)
    by (rewrite length_firstn; unfold steps; simpl in *; lia).
  exists (firstn steps qr), (skipn steps qr).
  split; [now apply poly_divmod_ok|].
  split; [exact Lq|].
  split; [rewrite length_skipn; unfold steps; simpl in *; lia|].
  split; [now apply Forall_firstn|].
  split; [now apply Forall_skipn|].
  rewrite (convolve_jit_product cls laws)
    by (auto using Forall_firstn; simpl; lia).
  rewrite Lq.
  apply (long_division_identity cls laws b0 b' steps a); auto.
  unfold steps. simpl in *. lia.
Qed.

(** X6. Dividing a product by one of its factors gives back the other:
    [_poly_divmod] of [_convolve_jit(m, b)] by [b], for [b] with a
    non-zero leading coefficient, returns the quotient [m] and a zero
    remainder. *)
Theorem poly_divmod_of_product (cls : FieldClass) (m b : list Z) :
  FieldLaws cls ->
  Forall (in_field cls) m -> Forall (in_field cls) b ->
  (1 <= length m)%nat -> (1 <= length b)%nat -> nth 0 b 0 <> 0 ->
  _poly_divmod cls (_convolve_jit (_ADD_JIT cls) (_MULTIPLY_JIT cls) m b) b
  = Ok (m, repeat 0 (length b - 1)).
Proof.
  intros laws Hm Hb HLm HLb Hne.
  destruct b as [|b0 b']; [simpl in HLb; lia|]. cbn [nth] in Hne.
  assert (Hb0 : in_field cls b0) by now inversion Hb.
  assert (Hb' : Forall (in_field cls) b') by now inversion Hb.
  rewrite (convolve_jit_product cls laws) by assumption.
  rewrite poly_divmod_ok by (rewrite poly_product_length; simpl in *; lia).
  cbv zeta. rewrite poly_product_length.
  replace (length m + length (b0 :: b') - 1 - length (b0 :: b') + 1)%nat
    with (length m) by (simpl; lia).
  rewrite (long_division_of_product cls laws) by assumption.
  rewrite firstn_app_exact, skipn_app_exact by reflexivity.
  do 3 f_equal. simpl. lia.
Qed.

(** X7. The interpreted division runs the compiled one: for a divisor
    with a non-zero leading coefficient [_poly_divmod_python] returns
    what [_poly_divmod_jit] returns with the kernels of the class, and
    it stops with [AssertionError] on a dividend shorter than the
    divisor. *)
Theorem poly_divmod_python_agrees (cls : FieldClass) (a b : list Z) :
  (1 <= length b)%nat -> nth 0 b 0 <> 0 ->
  _poly_divmod_python cls a b
  = _poly_divmod_jit (_SUBTRACT_JIT cls) (_MULTIPLY_JIT cls) (_DIVIDE_JIT cls) a b /\
  ((length a < length b)%nat -> _poly_divmod_python cls a b = Raise AssertionError).
Proof.
  intros Hb _. split; [now apply poly_divmod_python_jit|].
  intros H. unfold _poly_divmod_python.
  now replace (length b <=? length a)%nat with false
    by (symmetry; apply Nat.leb_gt; exact H).
Qed.

(** X8. [_poly_evaluate_jit] and [_poly_evaluate_python] compute, by
    Horner's rule, the sum of [coeffs[j] * x^(coeffs.size - 1 - j)] at
    every value [x]; the initial contents of [results] do not matter. *)
Theorem poly_evaluate_is_sum_of_powers (cls : FieldClass)
  (coeffs values results : list Z) :
  FieldLaws cls ->
  Forall (in_field cls) coeffs -> Forall (in_field cls) values ->
  (1 <= length coeffs)%nat -> length results = length values ->
  let value x :=
    field_dot cls coeffs
      (map (fun j => field_pow cls x (length coeffs - 1 - j)) (seq 0 (length coeffs))) in
  _poly_evaluate_jit (_ADD_JIT cls) (_MULTIPLY_JIT cls) coeffs values results
  = Ok (map value values) /\
  forall x, In x values -> _poly_evaluate_python cls coeffs x = Ok (value x).
Proof.
  intros laws Hc Hv HL HR value.
  assert (E : forall x, In x values -> poly_eval cls coeffs x = value x).
  { intros x Hx.
    assert (Fx : in_field cls x) by (eapply Forall_forall; eassumption).
    rewrite (poly_eval_horner cls laws) by assumption.
    unfold value. now rewrite (dot_powers cls laws). }
  split.
  - rewrite poly_evaluate_jit_horner by assumption. f_equal.
    now apply map_ext_in.
  - intros x Hx. rewrite poly_evaluate_python_horner by assumption.
    f_equal. now apply E.
Qed.

(** X9. The interpreted matrix product returns what the compiled one
    returns: on arrays over the field [_matmul_python] and [_matmul_jit]
    have the same outcome, which for matrices whose inner dimensions
    differ is [AssertionError]. *)
Theorem matmul_python_agrees (cls : FieldClass) (A B : nddata) :
  FieldLaws cls -> wf_data A -> wf_data B ->
  data_in_field cls A -> data_in_field cls B ->
  _matmul_python cls A B = _matmul_jit (_ADD_JIT cls) (_MULTIPLY_JIT cls) A B /\
  (forall M K K' N rowsA rowsB,
     K <> K' ->
     _matmul_python cls (Arr2 M K rowsA) (Arr2 K' N rowsB) = Raise AssertionError).
Proof.
  intros laws WA WB FA FB. split.
  - destruct A as [x|v|M KA rowsA|s]; try reflexivity.
    destruct B as [x|v|K N rowsB|s]; try reflexivity.
    destruct (Nat.eq_dec KA K) as [->|Hne].
    + destruct WA as [HA1 HA2]. destruct WB as [HB1 HB2].
      rewrite (matmul_python_rows cls laws) by assumption.
      rewrite (matmul_jit_rows cls laws); auto. split; assumption.
    + unfold _matmul_python, _matmul_jit.
      now replace (KA =? K)%nat with false by (symmetry; now apply Nat.eqb_neq).
  - intros M K K' N rowsA rowsB H. unfold _matmul_python.
    now replace (K =? K')%nat with false by (symmetry; now apply Nat.eqb_neq).
Qed.

(** ** [encode] *)

Lemma generator_matrix_rows_shaped (self : ReedSolomon) :
  generator_matrix_shaped self ->
  _G self = Arr2 (Z.to_nat (_k self)) (Z.to_nat (_n self)) (generator_matrix_rows self) /\
  length (generator_matrix_rows self) = Z.to_nat (_k self) /\
  Forall (fun row => length row = Z.to_nat (_n self)) (generator_matrix_rows self).
Proof.
  intros [[rows HG] [WG Hk]]. unfold generator_matrix_rows. rewrite HG in *.
  destruct WG as [W1 W2]. auto.
Qed.

Lemma encode_one (self : ReedSolomon) (ty : array_type) (m : list Z) (parity_only : bool) :
  generator_matrix_shaped self -> length m = Z.to_nat (_k self) ->
  (parity_only = true -> _systematic self = true) ->
  encode self (PyArray {| atype := ty; val := Arr1 m |}) parity_only
  = Ok {| atype := ty; val := Arr1 (encoded_row self parity_only m) |}.
Proof.
  intros HS Hm Hpo.
  destruct (generator_matrix_rows_shaped self HS) as [HG [HGL HGW]].
  destruct HS as [_ [_ Hk]].
  unfold encode.
  replace (parity_only && negb (_systematic self)) with false.
  2:{ destruct parity_only; [rewrite Hpo by reflexivity|]; reflexivity. }
  unfold shape. cbn [val data_shape rev app].
  replace (Z.of_nat (length m) =? _k self) with true
    by (symmetry; apply Z.eqb_eq; lia).
  cbn [negb]. unfold encoded_row, parity_row, encode_row, parity_matrix_rows.
  rewrite HG.
  destruct parity_only.
  - unfold view. cbn [val atype columns_from].
    rewrite matmul_vector_matrix by (now rewrite length_map).
    rewrite Hm, Nat.eqb_refl. cbn [bind val atype].
    rewrite slice_bound_in_range by lia. reflexivity.
  - destruct (_systematic self).
    + unfold view. cbn [val atype columns_from].
      rewrite matmul_vector_matrix by (now rewrite length_map).
      rewrite Hm, Nat.eqb_refl. cbn [bind val hstack].
      rewrite slice_bound_in_range by lia. reflexivity.
    + unfold view. cbn [val atype].
      rewrite matmul_vector_matrix by exact HGL.
      rewrite Hm, Nat.eqb_refl. reflexivity.
Qed.

Lemma combine_map_app {A : Type} (f : list A -> list A) (rows : list (list A)) :
  map (fun xy => fst xy ++ snd xy) (combine rows (map f rows))
  = map (fun row => row ++ f row) rows.
Proof. induction rows as [|r rows IH]; simpl; [reflexivity | now rewrite IH]. Qed.

Lemma encode_many (self : ReedSolomon) (ty : array_type) (N : nat)
  (rows : list (list Z)) (parity_only : bool) :
  generator_matrix_shaped self -> wf_data (Arr2 N (Z.to_nat (_k self)) rows) ->
  (parity_only = true -> _systematic self = true) ->
  encode self (PyArray {| atype := ty; val := Arr2 N (Z.to_nat (_k self)) rows |}) parity_only
  = Ok {| atype := ty;
          val := Arr2 N (length (encoded_row self parity_only (repeat 0 (Z.to_nat (_k self)))))
                   (map (encoded_row self parity_only) rows) |}.
Proof.
  intros HS [HN Hrows] Hpo.
  destruct (generator_matrix_rows_shaped self HS) as [HG [HGL HGW]].
  destruct HS as [_ [_ Hk]].
  unfold encode.
  replace (parity_only && negb (_systematic self)) with false.
  2:{ destruct parity_only; [rewrite Hpo by reflexivity|]; reflexivity. }
  unfold shape. cbn [val data_shape rev app].
  replace (Z.of_nat (Z.to_nat (_k self)) =? _k self) with true
    by (symmetry; apply Z.eqb_eq; lia).
  cbn [negb]. unfold encoded_row, parity_row, encode_row, parity_matrix_rows.
  rewrite HG.
  destruct parity_only.
  - unfold view. cbn [val atype columns_from].
    rewrite matmul_matrix_matrix by (now rewrite length_map).
    rewrite Nat.eqb_refl. cbn [bind val atype].
    rewrite slice_bound_in_range by lia.
    rewrite length_map, length_seq.
    do 3 f_equal. unfold matmul_rows. rewrite <- HN.
    now rewrite (map_nth_seq []
               (fun row =>
                  map (fun j =>
                         matmul_entry (_field self) row
                           (column (map (fun r => slice_from r (_k self))
                                      (generator_matrix_rows self)) j))
                    (seq 0 (Z.to_nat (_n self) - Z.to_nat (_k self))))).
  - destruct (_systematic self).
    + unfold view. cbn [val atype columns_from].
      rewrite matmul_matrix_matrix by (now rewrite length_map).
      rewrite Nat.eqb_refl. cbn [bind val hstack]. rewrite Nat.eqb_refl.
      cbn [bind]. rewrite slice_bound_in_range by lia.
      rewrite length_app, repeat_length, length_map, length_seq.
      do 3 f_equal. unfold matmul_rows. rewrite <- HN.
      rewrite (map_nth_seq []
                 (fun row =>
                    map (fun j =>
                           matmul_entry (_field self) row
                             (column (map (fun r => slice_from r (_k self))
                                        (generator_matrix_rows self)) j))
                      (seq 0 (Z.to_nat (_n self) - Z.to_nat (_k self))))).
      apply combine_map_app.
    + unfold view. cbn [val atype].
      rewrite matmul_matrix_matrix by exact HGL.
      rewrite Nat.eqb_refl. cbn [bind val atype].
      rewrite length_map, length_seq.
      do 3 f_equal. unfold matmul_rows. rewrite <- HN.
      now rewrite (map_nth_seq []
                     (fun row =>
                        map (fun j =>
                               matmul_entry (_field self) row
                                 (column (generator_matrix_rows self) j))
                          (seq 0 (Z.to_nat (_n self))))).
Qed.

(** X11. [encode] rejects, in this order: a message that is not an array
    ([TypeError]); [parity_only=True] on a code that is not systematic
    ([ValueError], whatever the message); a zero-dimensional message
    ([IndexError] from [shape[-1]]); a last dimension other than [k]
    ([ValueError]). *)
Theorem encode_rejects_bad_arguments (self : ReedSolomon) :
  (forall parity_only, encode self PyOther parity_only = Raise TypeError) /\
  (forall message,
     _systematic self = false ->
     encode self (PyArray message) true = Raise ValueError) /\
  (forall message parity_only,
     (parity_only = true -> _systematic self = true) ->
     ndim message = 0%nat ->
     encode self (PyArray message) parity_only = Raise IndexError) /\
  (forall message parity_only,
     (parity_only = true -> _systematic self = true) ->
     ndim message <> 0%nat ->
     Z.of_nat (last (shape message) 0%nat) <> _k self ->
     encode self (PyArray message) parity_only = Raise ValueError).
Proof.
  assert (Hpo : forall po, (po = true -> _systematic self = true) ->
                  po && negb (_systematic self) = false).
  { intros po H. destruct po; [rewrite H by reflexivity|]; reflexivity. }
  split; [|split; [|split]].
  - reflexivity.
  - intros message Hs. unfold encode. rewrite Hs. reflexivity.
  - intros message po H Hd. unfold encode. rewrite (Hpo po H).
    unfold ndim in Hd. apply length_zero_iff_nil in Hd. now rewrite Hd.
  - intros message po H Hd Hk. unfold encode. rewrite (Hpo po H).
    unfold ndim in Hd.
    destruct (shape message) as [|d0 s] eqn:Es using rev_ind; [contradiction|].
    rewrite rev_app_distr. cbn [rev app].
    rewrite last_last in Hk.
    now replace (Z.of_nat d0 =? _k self) with false
      by (symmetry; now apply Z.eqb_neq).
Qed.

(** X12. In a systematic code the codeword is the message followed by its
    parity symbols: [encode(m)] is [m] followed by
    [encode(m, parity_only=True)], which has [n - k] symbols, for a
    single message and row by row for a batch.  (Stated over an
    extension field, where [_matmul] runs the routines of the sources.) *)
Theorem encode_systematic_appends_parity (self : ReedSolomon) (ty : array_type) :
  generator_matrix_shaped self -> _systematic self = true ->
  is_prime_field (_field self) = false ->
  (forall m : list Z,
     length m = Z.to_nat (_k self) ->
     exists p,
       length p = (Z.to_nat (_n self) - Z.to_nat (_k self))%nat /\
       encode self (PyArray {| atype := ty; val := Arr1 m |}) true
       = Ok {| atype := ty; val := Arr1 p |} /\
       encode self (PyArray {| atype := ty; val := Arr1 m |}) false
       = Ok {| atype := ty; val := Arr1 (m ++ p) |}) /\
  (forall (N : nat) (rows : list (list Z)),
     wf_data (Arr2 N (Z.to_nat (_k self)) rows) ->
     exists P,
       encode self (PyArray {| atype := ty; val := Arr2 N (Z.to_nat (_k self)) rows |}) true
       = Ok {| atype := ty;
               val := Arr2 N (Z.to_nat (_n self) - Z.to_nat (_k self)) P |} /\
       encode self (PyArray {| atype := ty; val := Arr2 N (Z.to_nat (_k self)) rows |}) false
       = Ok {| atype := ty;
               val := Arr2 N (Z.to_nat (_n self))
                        (map (fun mp => fst mp ++ snd mp) (combine rows P)) |}).
Proof.
  intros HS Hsys _.
  assert (Hk : 0 <= _k self <= _n self) by apply HS.
  split.
  - intros m Hm. exists (parity_row self m).
    split; [unfold parity_row; now rewrite length_map, length_seq|].
    rewrite !encode_one by auto. unfold encoded_row, encode_row. rewrite Hsys.
    split; reflexivity.
  - intros N rows W. exists (map (parity_row self) rows).
    rewrite !encode_many by auto. unfold encoded_row at 1 3.
    unfold parity_row at 1. rewrite length_map, length_seq.
    split; [reflexivity|].
    unfold encoded_row, encode_row. rewrite Hsys.
    rewrite length_app, repeat_length, length_map, length_seq.
    replace (Z.to_nat (_k self) + (Z.to_nat (_n self) - Z.to_nat (_k self)))%nat
      with (Z.to_nat (_n self)) by lia.
    do 3 f_equal. symmetry. apply (combine_map_app (parity_row self)).
Qed.

(** X13. [encode] treats the messages of a batch independently: row [i]
    of the encoded batch is what [encode] returns for message [i] alone.
    (Stated over an extension field.) *)
Theorem encode_batch_is_rowwise (self : ReedSolomon) (ty : array_type) (N : nat)
  (rows : list (list Z)) (parity_only : bool) :
  generator_matrix_shaped self ->
  is_prime_field (_field self) = false ->
  wf_data (Arr2 N (Z.to_nat (_k self)) rows) ->
  (parity_only = true -> _systematic self = true) ->
  exists width out,
    encode self (PyArray {| atype := ty; val := Arr2 N (Z.to_nat (_k self)) rows |})
      parity_only
    = Ok {| atype := ty; val := Arr2 N width out |} /\
    length out = N /\
    forall i, (i < N)%nat ->
      encode self (PyArray {| atype := ty; val := Arr1 (nth i rows []) |}) parity_only
      = Ok {| atype := ty; val := Arr1 (nth i out []) |}.
Proof.
  intros HS _ W Hpo.
  exists (length (encoded_row self parity_only (repeat 0 (Z.to_nat (_k self))))),
         (map (encoded_row self parity_only) rows).
  split; [now apply encode_many|].
  destruct W as [W1 W2].
  split; [now rewrite length_map|].
  intros i Hi.
  rewrite encode_one; auto.
  - do 3 f_equal.
    rewrite (nth_indep (map (encoded_row self parity_only) rows) []
               (encoded_row self parity_only []))
      by (rewrite length_map; lia).
    symmetry. apply (map_nth (encoded_row self parity_only)).
  - rewrite Forall_forall in W2. apply W2. apply nth_In. lia.
Qed.

Section EncodeLinear.

Variable self : ReedSolomon.
Hypothesis laws : FieldLaws (_field self).
Hypothesis shaped : generator_matrix_shaped self.
Hypothesis G_in_field : data_in_field (_field self) (_G self).

Local Abbreviation GF := (_field self).
Local Abbreviation F := (in_field (_field self)).

Lemma generator_matrix_rows_in_field : Forall (Forall F) (generator_matrix_rows self).
Proof.
  destruct (generator_matrix_rows_shaped self shaped) as [HG _].
  rewrite HG in G_in_field. exact G_in_field.
Qed.

Lemma parity_matrix_rows_in_field : Forall (Forall F) (parity_matrix_rows self).
Proof.
  unfold parity_matrix_rows. apply Forall_map.
  eapply Forall_impl; [|apply generator_matrix_rows_in_field].
  intros row Hrow. unfold slice_from. now apply Forall_skipn.
Qed.

Lemma zip_add_app (a b pa pb : list Z) :
  length a = length b ->
  zip_add GF (a ++ pa) (b ++ pb) = zip_add GF a b ++ zip_add GF pa pb.
Proof.
  revert b. induction a as [|x a IH]; intros [|y b] H; try discriminate.
  - reflexivity.
  - simpl. f_equal. apply IH. simpl in H. lia.
Qed.

Lemma entries_of_sum (rows : list (list Z)) (a b : list Z) (w : nat) :
  Forall (Forall F) rows -> Forall F a -> Forall F b ->
  length a = length rows -> length b = length rows ->
  map (fun j => matmul_entry GF (zip_add GF a b) (column rows j)) (seq 0 w)
  = zip_add GF
      (map (fun j => matmul_entry GF a (column rows j)) (seq 0 w))
      (map (fun j => matmul_entry GF b (column rows j)) (seq 0 w)).
Proof.
  intros Hr Ha Hb La Lb. rewrite (zip_add_map GF).
  apply map_ext. intros j.
  assert (Hc : Forall F (column rows j)) by now apply (in_field_column GF laws).
  assert (Lc : length (column rows j) = length rows) by apply column_length.
  rewrite !(matmul_entry_dot GF laws);
    try assumption; try lia;
    try (apply (in_field_zip_add GF laws); assumption);
    try (rewrite (zip_add_length GF); lia).
  apply (field_dot_zip_add GF laws); auto. lia.
Qed.

Lemma encoded_row_sum (parity_only : bool) (a b : list Z) :
  Forall F a -> Forall F b ->
  length a = Z.to_nat (_k self) -> length b = Z.to_nat (_k self) ->
  encoded_row self parity_only (zip_add GF a b)
  = zip_add GF (encoded_row self parity_only a) (encoded_row self parity_only b).
Proof.
  intros Ha Hb La Lb.
  destruct (generator_matrix_rows_shaped self shaped) as [_ [HGL _]].
  assert (HPL : length (parity_matrix_rows self) = Z.to_nat (_k self))
    by (unfold parity_matrix_rows; now rewrite length_map).
  unfold encoded_row, parity_row, encode_row.
  destruct parity_only; [|destruct (_systematic self)].
  - apply entries_of_sum; auto using parity_matrix_rows_in_field; lia.
  - rewrite zip_add_app by lia. f_equal.
    apply entries_of_sum; auto using parity_matrix_rows_in_field; lia.
  - apply entries_of_sum; auto using generator_matrix_rows_in_field; lia.
Qed.

End EncodeLinear.

(** X14. The code is linear: the codeword of the sum of two messages is
    the sum of their codewords, symbol by symbol in the field (and
    likewise for the parity symbols alone).  (Stated over an extension
    field.) *)
Theorem encode_is_linear (self : ReedSolomon) (ty : array_type) (a b : list Z)
  (parity_only : bool) :
  FieldLaws (_field self) -> generator_matrix_shaped self ->
  data_in_field (_field self) (_G self) ->
  is_prime_field (_field self) = false ->
  (parity_only = true -> _systematic self = true) ->
  Forall (in_field (_field self)) a -> Forall (in_field (_field self)) b ->
  length a = Z.to_nat (_k self) -> length b = Z.to_nat (_k self) ->
  exists ca cb,
    encode self (PyArray {| atype := ty; val := Arr1 a |}) parity_only
    = Ok {| atype := ty; val := Arr1 ca |} /\
    encode self (PyArray {| atype := ty; val := Arr1 b |}) parity_only
    = Ok {| atype := ty; val := Arr1 cb |} /\
    encode self (PyArray {| atype := ty; val := Arr1 (zip_add (_field self) a b) |})
      parity_only
    = Ok {| atype := ty; val := Arr1 (zip_add (_field self) ca cb) |}.
Proof.
  intros laws HS HG _ Hpo Ha Hb La Lb.
  exists (encoded_row self parity_only a), (encoded_row self parity_only b).
  rewrite !encode_one by (auto; rewrite (zip_add_length (_field self)); lia).
  split; [reflexivity|]. split; [reflexivity|].
  now rewrite (encoded_row_sum self laws HS HG).
Qed.

(** ** [decode_calculate]: counts and changed symbols *)

Lemma differences_same (a : list Z) : differences a a = 0%nat.
Proof.
  unfold differences. induction a as [|x a IH]; [reflexivity|].
  simpl. now rewrite Z.eqb_refl.
Qed.

Lemma differences_cons (x y : Z) (a b : list Z) :
  differences (x :: a) (y :: b)
  = ((if (x =? y)%Z then 0 else 1) + differences a b)%nat.
Proof. unfold differences. simpl. now destruct (x =? y). Qed.

Lemma differences_upd (p : nat) (x : Z) (row orig : list Z) :
  (differences (upd p x row) orig <= S (differences row orig))%nat.
Proof.
  revert p orig. induction row as [|h row IH]; intros p orig.
  - destruct p; simpl; lia.
  - destruct orig as [|o orig]; [destruct p; unfold differences; simpl; lia|].
    destruct p as [|p]; cbn [upd]; rewrite !differences_cons.
    + destruct (x =? o), (h =? o); lia.
    + specialize (IH p orig). lia.
Qed.

Lemma firstn_upd (n p : nat) (x : Z) (row : list Z) :
  firstn n (upd p x row) = if (p <? n)%nat then upd p x (firstn n row) else firstn n row.
Proof.
  revert p row. induction n as [|n IH]; intros p row.
  - destruct (p <? 0)%nat; destruct p; reflexivity.
  - destruct row as [|h row]; [destruct (p <? S n)%nat; destruct p; reflexivity|].
    destruct p as [|p]; [reflexivity|]. cbn [upd firstn]. rewrite IH.
    change (S p <? S n)%nat with (p <? n)%nat. now destruct (p <? n)%nat.
Qed.

Lemma differences_firstn_upd (n p : nat) (x : Z) (row orig : list Z) :
  (differences (firstn n (upd p x row)) orig <= S (differences (firstn n row) orig))%nat.
Proof.
  rewrite firstn_upd. destruct (p <? n)%nat; [apply differences_upd | lia].
Qed.

Lemma differences_firstn (k : nat) (a b : list Z) :
  (differences (firstn k a) (firstn k b) <= differences a b)%nat.
Proof.
  revert a b. induction k as [|k IH]; intros a b.
  - unfold differences at 1. simpl. lia.
  - destruct a as [|x a]; [unfold differences; simpl; lia|].
    destruct b as [|y b]; [unfold differences; simpl; lia|].
    cbn [firstn]. rewrite !differences_cons. specialize (IH a b). lia.
Qed.

Lemma differences_zero (a b : list Z) :
  length a = length b -> differences a b = 0%nat -> a = b.
Proof.
  revert b. induction a as [|x a IH]; intros [|y b] HL D0; try discriminate.
  - reflexivity.
  - rewrite differences_cons in D0. destruct (x =? y) eqn:E; [|lia].
    apply Z.eqb_eq in E. subst y. f_equal. apply IH; [simpl in HL; lia | lia].
Qed.

Section DecoderBounds.

Variables (n : nat) (t primitive_element_ : Z).
Variables (ADD SUBTRACT MULTIPLY : BINARY_CALCULATE_SIG).
Variable RECIPROCAL : UNARY_CALCULATE_SIG.
Variable POWER : BINARY_CALCULATE_SIG.
Variable BERLEKAMP_MASSEY : BERLEKAMP_MASSEY_CALCULATE_SIG.
Variable POLY_ROOTS : POLY_ROOTS_CALCULATE_SIG.
Variable POLY_EVAL : POLY_EVALUATE_CALCULATE_SIG.
Variable CONVOLVE : CONVOLVE_CALCULATE_SIG.
Variable CHARACTERISTIC : Z.
Variable args : kernel_args.

Local Abbreviation row_step :=
  (decode_row n t primitive_element_ ADD SUBTRACT MULTIPLY
     RECIPROCAL POWER BERLEKAMP_MASSEY POLY_ROOTS POLY_EVAL CONVOLVE
     CHARACTERISTIC args).

(** The Forney loop changes at most one symbol per root. *)
Lemma forney_loop_differences (delta : Z -> Z) (roots : list (Z * Z)) (row row' orig : list Z)
  (js : list nat) :
  for_each_m js (fun j row =>
     let root := nth j roots (0, 0) in
     p <- axis_index (n + 1) (Z.of_nat n - 1 - snd root) ;;
     Ok (upd p (SUBTRACT (nth p row 0) (delta (fst root)) args) row)) row = Ok row' ->
  length row' = length row /\
  (differences (firstn n row') orig <= length js + differences (firstn n row) orig)%nat.
Proof.
  revert row. induction js as [|j js IH]; intros row H.
  - simpl in H. inversion H; subst. split; [reflexivity | simpl; lia].
  - cbn [for_each_m] in H. apply bind_ok in H. destruct H as [row1 [H1 H2]].
    cbv zeta in H1. apply bind_ok in H1. destruct H1 as [p [_ H1]]. inversion H1; subst row1.
    destruct (IH _ H2) as [L D]. rewrite upd_length in L. split; [exact L|].
    pose proof (differences_firstn_upd n p
                  (SUBTRACT (nth p row 0) (delta (fst (nth j roots (0, 0)))) args) row orig).
    simpl length. lia.
Qed.

(** What [decode_calculate] does to one codeword: the count is between
    [-1] and [t], and no more symbols change than the count says. *)
Lemma decode_row_bounds (syndrome_i cw row' : list Z) :
  length cw = n -> 0 <= t ->
  row_step syndrome_i (cw ++ [0]) = Ok row' ->
  length row' = (n + 1)%nat /\
  -1 <= nth n row' 0 <= t /\
  Z.of_nat (differences (firstn n row') cw) <= Z.max 0 (nth n row' 0) /\
  (forallb (fun s => s =? 0) syndrome_i = true -> row' = cw ++ [0]).
Proof.
  intros Hn Ht H.
  assert (L0 : length (cw ++ [0]) = (n + 1)%nat) by (rewrite length_app; simpl; lia).
  assert (F0 : firstn n (cw ++ [0]) = cw) by (now apply firstn_app_exact).
  assert (N0 : nth n (cw ++ [0]) 0 = 0) by (rewrite <- Hn; apply nth_middle).
  assert (Hunc : forall x, firstn n (upd n x (cw ++ [0])) = cw).
  { intros x. rewrite firstn_upd. rewrite Nat.ltb_irrefl. exact F0. }
  unfold decode_row in H.
  destruct (forallb (fun s => s =? 0) syndrome_i).
  { inversion H; subst row'. rewrite F0, N0, differences_same.
    repeat split; (lia || auto). }
  cbv zeta in H.
  set (sigma := locator ADD SUBTRACT MULTIPLY RECIPROCAL BERLEKAMP_MASSEY args syndrome_i) in *.
  destruct (Z.of_nat (length sigma) - 1 >? t) eqn:Ev.
  { inversion H; subst row'. rewrite upd_length, Hunc, differences_same.
    rewrite nth_upd_eq by lia. repeat split; (lia || discriminate). }
  set (roots := locator_roots primitive_element_ ADD SUBTRACT MULTIPLY RECIPROCAL
                  POWER BERLEKAMP_MASSEY POLY_ROOTS args syndrome_i) in *.
  destruct (Z.of_nat (length roots) =? Z.of_nat (length sigma) - 1) eqn:Er;
    cbn [negb] in H.
  2:{ inversion H; subst row'. rewrite upd_length, Hunc, differences_same.
      rewrite nth_upd_eq by lia. repeat split; (lia || discriminate). }
  apply Z.eqb_eq in Er. rewrite Z.gtb_ltb in Ev. apply Z.ltb_ge in Ev.
  apply bind_ok in H. destruct H as [r [Hr H]]. inversion H; subst row'. clear H.
  apply (forney_loop_differences _ roots _ _ cw) in Hr. destruct Hr as [L D].
  rewrite length_seq, F0, differences_same in D.
  rewrite upd_length, L. rewrite nth_upd_eq by lia.
  rewrite firstn_upd, Nat.ltb_irrefl.
  repeat split; (lia || discriminate).
Qed.

End DecoderBounds.

Lemma decode_calculate_ok_rows
  (n N S N' : nat) (cw_rows syn_rows : list (list Z)) (t primitive_element_ : Z)
  (ADD SUBTRACT MULTIPLY : BINARY_CALCULATE_SIG)
  (RECIPROCAL : UNARY_CALCULATE_SIG) (POWER : BINARY_CALCULATE_SIG)
  (BERLEKAMP_MASSEY : BERLEKAMP_MASSEY_CALCULATE_SIG)
  (POLY_ROOTS : POLY_ROOTS_CALCULATE_SIG)
  (POLY_EVAL : POLY_EVALUATE_CALCULATE_SIG)
  (CONVOLVE : CONVOLVE_CALCULATE_SIG)
  (CHARACTERISTIC DEGREE IRREDUCIBLE_POLY : Z) (out : nddata) :
  length cw_rows = N ->
  decode_calculate (Arr2 N n cw_rows) (Arr2 N' S syn_rows) t primitive_element_
    ADD SUBTRACT MULTIPLY RECIPROCAL POWER BERLEKAMP_MASSEY POLY_ROOTS POLY_EVAL
    CONVOLVE CHARACTERISTIC DEGREE IRREDUCIBLE_POLY = Ok out ->
  exists dec, out = Arr2 N (n + 1) dec /\ length dec = N.
Proof.
  intros HN Hout.
  rewrite (decode_calculate_rows n t primitive_element_ ADD SUBTRACT MULTIPLY RECIPROCAL
             POWER BERLEKAMP_MASSEY POLY_ROOTS POLY_EVAL CONVOLVE CHARACTERISTIC
             (CHARACTERISTIC, DEGREE, IRREDUCIBLE_POLY) N S N' cw_rows syn_rows
             DEGREE IRREDUCIBLE_POLY eq_refl HN) in Hout.
  apply bind_ok in Hout. destruct Hout as [rows [E Hout]].
  inversion Hout; subst out. exists rows. split; [reflexivity|].
  apply sequence_length in E. now rewrite length_map, length_seq in E.
Qed.

(** X15. Whenever [decode_calculate] returns, its result has one row of
    [n + 1] entries per codeword, the last entry of each row (the error
    count) lies between [-1] and [t], and a codeword whose syndrome is
    all zero comes back unchanged with the count 0. *)
Theorem decode_calculate_count_within_capacity
  (n N S N' : nat) (cw_rows syn_rows : list (list Z)) (t primitive_element_ : Z)
  (ADD SUBTRACT MULTIPLY : BINARY_CALCULATE_SIG)
  (RECIPROCAL : UNARY_CALCULATE_SIG) (POWER : BINARY_CALCULATE_SIG)
  (BERLEKAMP_MASSEY : BERLEKAMP_MASSEY_CALCULATE_SIG)
  (POLY_ROOTS : POLY_ROOTS_CALCULATE_SIG)
  (POLY_EVAL : POLY_EVALUATE_CALCULATE_SIG)
  (CONVOLVE : CONVOLVE_CALCULATE_SIG)
  (CHARACTERISTIC DEGREE IRREDUCIBLE_POLY : Z) (out : nddata) :
  wf_data (Arr2 N n cw_rows) -> 0 <= t ->
  decode_calculate (Arr2 N n cw_rows) (Arr2 N' S syn_rows) t primitive_element_
    ADD SUBTRACT MULTIPLY RECIPROCAL POWER BERLEKAMP_MASSEY POLY_ROOTS POLY_EVAL
    CONVOLVE CHARACTERISTIC DEGREE IRREDUCIBLE_POLY = Ok out ->
  exists dec,
    out = Arr2 N (n + 1) dec /\ wf_data (Arr2 N (n + 1) dec) /\
    forall i, (i < N)%nat ->
      -1 <= last (nth i dec []) 0 <= t /\
      (forallb (fun s => s =? 0) (nth i syn_rows []) = true ->
       nth i dec [] = nth i cw_rows [] ++ [0]).
Proof.
  intros [HN Hrows] Ht Hout.
  destruct (decode_calculate_ok_rows _ _ _ _ _ _ _ _ _ _ _ _ _ _ _ _ _ _ _ _ _ HN Hout)
    as [dec [-> Hdec]].
  exists dec. split; [reflexivity|].
  assert (Hrow : forall i, (i < N)%nat ->
            length (nth i dec []) = (n + 1)%nat /\
            -1 <= nth n (nth i dec []) 0 <= t /\
            Z.of_nat (differences (firstn n (nth i dec [])) (nth i cw_rows []))
              <= Z.max 0 (nth n (nth i dec []) 0) /\
            (forallb (fun s => s =? 0) (nth i syn_rows []) = true ->
             nth i dec [] = nth i cw_rows [] ++ [0])).
  { intros i Hi.
    pose proof (decode_calculate_row_result _ _ _ _ _ _ _ _ _ _ _ _ _ _ _ _ _ _ _ _ _ i
                  HN Hout Hi) as Hr.
    apply decode_row_bounds in Hr; auto.
    rewrite Forall_forall in Hrows. apply Hrows. apply nth_In. lia. }
  split.
  - split; [exact Hdec|]. apply Forall_forall. intros row Hin.
    destruct (In_nth _ _ [] Hin) as [i [Hi <-]]. apply Hrow. lia.
  - intros i Hi. destruct (Hrow i Hi) as [L [C [_ Z0]]].
    rewrite (last_nth _ n L). split; assumption.
Qed.

(** X16. [decode_calculate] never alters more symbols of a codeword than
    the error count it reports for it, and none when the count is [-1]
    or 0: the first [n] entries of row [i] differ from codeword [i] in
    at most [max(0, count)] positions. *)
Theorem decode_calculate_alters_at_most_count
  (n N S N' : nat) (cw_rows syn_rows dec : list (list Z)) (t primitive_element_ : Z)
  (ADD SUBTRACT MULTIPLY : BINARY_CALCULATE_SIG)
  (RECIPROCAL : UNARY_CALCULATE_SIG) (POWER : BINARY_CALCULATE_SIG)
  (BERLEKAMP_MASSEY : BERLEKAMP_MASSEY_CALCULATE_SIG)
  (POLY_ROOTS : POLY_ROOTS_CALCULATE_SIG)
  (POLY_EVAL : POLY_EVALUATE_CALCULATE_SIG)
  (CONVOLVE : CONVOLVE_CALCULATE_SIG)
  (CHARACTERISTIC DEGREE IRREDUCIBLE_POLY : Z) (i : nat) :
  wf_data (Arr2 N n cw_rows) -> 0 <= t ->
  decode_calculate (Arr2 N n cw_rows) (Arr2 N' S syn_rows) t primitive_element_
    ADD SUBTRACT MULTIPLY RECIPROCAL POWER BERLEKAMP_MASSEY POLY_ROOTS POLY_EVAL
    CONVOLVE CHARACTERISTIC DEGREE IRREDUCIBLE_POLY = Ok (Arr2 N (n + 1) dec) ->
  (i < N)%nat ->
  let count := last (nth i dec []) 0 in
  Z.of_nat (differences (firstn n (nth i dec [])) (nth i cw_rows [])) <= Z.max 0 count /\
  (count <= 0 -> firstn n (nth i dec []) = nth i cw_rows []).
Proof.
  intros [HN Hrows] Ht Hout Hi count.
  pose proof (decode_calculate_row_result _ _ _ _ _ _ _ _ _ _ _ _ _ _ _ _ _ _ _ _ _ i
                HN Hout Hi) as Hr.
  assert (Hcw : length (nth i cw_rows []) = n).
  { rewrite Forall_forall in Hrows. apply Hrows. apply nth_In. lia. }
  apply decode_row_bounds in Hr; auto.
  destruct Hr as [L [C [D _]]].
  unfold count. rewrite (last_nth _ n L). split; [exact D|].
  intros Hc. apply differences_zero; [rewrite length_firstn; lia | lia].
Qed.

(** X17. What [decode] returns for one received word in a systematic
    code: a message of [k] symbols with the class of the input and an
    error count between [-1] and [t]; the message differs from the first
    [k] received symbols in at most [max(0, count)] positions, and is
    those symbols unchanged when the count is [-1] or 0. *)
Theorem decode_systematic_changes_at_most_count (self : ReedSolomon) (ty : array_type)
  (v : list Z) (message : ndarray) (N_errors : nddata) :
  constructed self -> _systematic self = true -> 1 <= _k self <= _n self ->
  length v = Z.to_nat (_n self) ->
  decode self (PyArray {| atype := ty; val := Arr1 v |}) true
  = Ok (MessageErrors message N_errors) ->
  exists m count,
    message = {| atype := ty; val := Arr1 m |} /\ N_errors = Arr0 count /\
    length m = Z.to_nat (_k self) /\
    -1 <= count <= _t self /\
    Z.of_nat (differences m (firstn (Z.to_nat (_k self)) v)) <= Z.max 0 count /\
    (count <= 0 -> m = firstn (Z.to_nat (_k self)) v).
Proof.
  intros Hc Hsys Hk Hv Hdec.
  rewrite decode_single in Hdec by assumption.
  destruct (ufunc_mode_eqb (ufunc_mode (_field self)) python_calculate); [discriminate|].
  apply bind_ok in Hdec. destruct Hdec as [dec [Hrow Hdec]].
  apply bind_ok in Hdec. destruct Hdec as [m [Hm Hdec]].
  cbv zeta in Hdec. inversion Hdec; subst message N_errors. clear Hdec.
  unfold message_of in Hm. rewrite Hsys in Hm. inversion Hm; subst m. clear Hm.
  destruct (constructed_inv self Hc) as [_ [Ht _]].
  assert (Ht0 : 0 <= _t self).
  { rewrite Ht. apply Z.div_pos; lia. }
  unfold decode_row_of in Hrow.
  apply decode_row_bounds in Hrow; [|reflexivity | exact Ht0].
  destruct Hrow as [L [C [D _]]].
  rewrite <- (last_nth dec (length v)) in C, D by exact L.
  assert (Hs : slice dec 0 (_k self) = firstn (Z.to_nat (_k self)) dec).
  { apply slice_prefix. rewrite L. lia. }
  assert (Hf : firstn (Z.to_nat (_k self)) dec
               = firstn (Z.to_nat (_k self)) (firstn (length v) dec)).
  { rewrite firstn_firstn. f_equal. lia. }
  pose proof (differences_firstn (Z.to_nat (_k self)) (firstn (length v) dec) v) as Hd.
  exists (slice dec 0 (_k self)), (last dec 0).
  rewrite Hs, Hf.
  split; [reflexivity|]. split; [reflexivity|].
  split; [rewrite !length_firstn; lia|].
  split; [exact C|]. split; [lia|].
  intros H0. apply differences_zero; [rewrite !length_firstn; lia | lia].
Qed.


(** ** The matrices as functions, and the factorisation routines *)

(** X18. The free functions return the matrices of the code object:
    whenever [ReedSolomon(n, k, c, ...)] is constructed,
    [rs_generator_matrix] and [rs_parity_check_matrix] with the same
    arguments return its [G] and [H]; and when [rs_generator_poly]
    raises, the constructor and both functions raise the same. *)
Theorem rs_matrices_are_those_of_the_code (lib : galois_lib) (n k c : Z)
  (primitive_poly primitive_element_ : option Z) (systematic : bool) :
  (forall self,
     snd (ReedSolomon_new lib n k c primitive_poly primitive_element_ systematic) = Ok self ->
     rs_generator_matrix lib n k c primitive_poly primitive_element_ systematic
     = Ok (_G self) /\
     rs_parity_check_matrix lib n k c primitive_poly primitive_element_ = Ok (_H self)) /\
  (forall e,
     rs_generator_poly lib n k c primitive_poly primitive_element_ = Raise e ->
     snd (ReedSolomon_new lib n k c primitive_poly primitive_element_ systematic) = Raise e /\
     rs_generator_matrix lib n k c primitive_poly primitive_element_ systematic = Raise e /\
     rs_parity_check_matrix lib n k c primitive_poly primitive_element_ = Raise e).
Proof.
  split.
  - intros self H. apply ReedSolomon_new_ok_inv in H.
    destruct H as [g [roots [GF [G [Hg [HG ->]]]]]].
    unfold rs_generator_matrix, rs_parity_check_matrix. rewrite Hg. cbn [bind].
    cbn [_G _H]. split; [exact HG | reflexivity].
  - intros e H. unfold ReedSolomon_new, rs_generator_matrix, rs_parity_check_matrix.
    rewrite H. repeat split; reflexivity.
Qed.


Section DistinctDegree.

Variable L : poly_lib.
Variable Poly_Identity : Poly L.
Variable poly_mod : Poly L -> Poly L -> Poly L.

(** The loop stops once [l] has passed [n // 2]: fuel for the remaining
    values of [l] is enough, and the lists stay aligned. *)
Lemma distinct_degree_loop_returns (n : Z) (fuel : nat) (l : Z) (a h : Poly L)
  (factors_ : list (Poly L)) (degrees : list Z) :
  1 <= l -> n / 2 + 1 - l <= Z.of_nat fuel ->
  length factors_ = length degrees ->
  Forall (fun e => 1 <= e < l) degrees ->
  StronglySorted Z.lt degrees ->
  exists a' fs ds,
    distinct_degree_loop L Poly_Identity poly_mod fuel n l a h factors_ degrees
    = Some (a', fs, ds) /\
    length fs = length ds /\
    Forall (fun e => 1 <= e <= n / 2 \/ In e degrees) ds /\
    StronglySorted Z.lt ds.
Proof.
  revert l a h factors_ degrees.
  induction fuel as [|fuel IH]; intros l a h factors_ degrees Hl Hf HL HD HS.
  - cbn [distinct_degree_loop].
    replace (l <=? n / 2) with false by (symmetry; apply Z.leb_gt; lia).
    cbn [andb]. exists a, factors_, degrees. repeat split; auto.
    apply Forall_forall. intros e He. now right.
  - cbn [distinct_degree_loop].
    destruct ((l <=? n / 2) && negb (poly_eqb L a (Poly_One L))) eqn:E.
    2:{ exists a, factors_, degrees. repeat split; auto.
        apply Forall_forall. intros e He. now right. }
    apply andb_true_iff in E. destruct E as [E _]. apply Z.leb_le in E.
    cbv zeta.
    destruct (negb (poly_eqb L _ (Poly_One L))).
    + destruct (IH (l + 1)
                  (poly_div L a
                     (poly_gcd L a
                        (poly_sub L (poly_pow L h (field_order L) a) Poly_Identity)))
                  (poly_mod (poly_pow L h (field_order L) a)
                     (poly_div L a
                        (poly_gcd L a
                           (poly_sub L (poly_pow L h (field_order L) a) Poly_Identity))))
                  (factors_ ++
                     [poly_gcd L a
                        (poly_sub L (poly_pow L h (field_order L) a) Poly_Identity)])
                  (degrees ++ [l]))
        as [a' [fs [ds [E1 [E2 [E3 E4]]]]]].
      * lia.
      * lia.
      * rewrite !length_app. simpl. lia.
      * apply Forall_app. split.
        -- eapply Forall_impl; [|exact HD]. intros e He. simpl in He. lia.
        -- constructor; [lia | constructor].
      * clear -HD HS. induction HS as [|e ds HS IHS He].
        -- constructor; constructor.
        -- inversion HD; subst. cbn [app]. constructor; [now apply IHS|].
           apply Forall_app. split; [exact He|]. constructor; [lia | constructor].
      * exists a', fs, ds. repeat split; auto.
        eapply Forall_impl; [|exact E3]. intros e [He|He]; [now left|].
        apply in_app_iff in He. destruct He as [He|[<-|[]]]; [now right | left; lia].
    + destruct (IH (l + 1) a (poly_pow L h (field_order L) a) factors_ degrees)
        as [a' [fs [ds [E1 [E2 [E3 E4]]]]]]; auto; try lia.
      * eapply Forall_impl; [|exact HD]. intros e He. simpl in He. lia.
      * exists a', fs, ds. repeat split; auto.
Qed.

End DistinctDegree.

Lemma increasing_length (ds : list Z) (lo hi : Z) :
  StronglySorted Z.lt ds -> Forall (fun e => lo <= e <= hi) ds ->
  Z.of_nat (length ds) <= Z.max 0 (hi - lo + 1).
Proof.
  intros HS. revert lo. induction HS as [|e ds HS IH He]; intros lo HF.
  - simpl. lia.
  - inversion HF as [|? ? He0 HF']; subst.
    assert (H1 : Forall (fun x => e + 1 <= x <= hi) ds).
    { apply Forall_forall. intros x Hx.
      rewrite Forall_forall in He, HF'. specialize (He x Hx). specialize (HF' x Hx). lia. }
    specialize (IH (e + 1) H1). cbn [length]. lia.
Qed.

(** X20. [distinct_degree_factorization] rejects a constant or non-monic
    polynomial with [ValueError]; on any other polynomial its loop ends
    within [n // 2] iterations whatever the polynomial library computes,
    and it returns as many degrees as factors: the degrees the loop
    records are strictly increasing between 1 and [n // 2], followed by
    at most one more for the remaining factor. *)
Theorem distinct_degree_factorization_returns (L : poly_lib) (Poly_Identity : Poly L)
  (poly_mod : Poly L -> Poly L -> Poly L) (poly : Poly L) :
  let n := poly_degree L poly in
  (n < 1 \/ is_monic L poly = false ->
   forall fuel,
     distinct_degree_factorization L Poly_Identity poly_mod fuel poly = Raise ValueError) /\
  (1 <= n -> is_monic L poly = true ->
   forall fuel, n / 2 <= Z.of_nat fuel ->
     exists fs ds0 rest,
       distinct_degree_factorization L Poly_Identity poly_mod fuel poly
       = Ok (Some (fs, ds0 ++ rest)) /\
       length fs = length (ds0 ++ rest) /\
       (length rest <= 1)%nat /\
       StronglySorted Z.lt ds0 /\
       Forall (fun e => 1 <= e <= n / 2) ds0 /\
       Z.of_nat (length fs) <= n / 2 + 1).
Proof.
  intros n. split.
  - intros H fuel. unfold distinct_degree_factorization. fold n.
    destruct (n >=? 1) eqn:E; [|reflexivity]. cbn [negb].
    destruct H as [H|H]; [rewrite Z.geb_leb in E; apply Z.leb_le in E; lia|].
    now rewrite H.
  - intros Hn Hm fuel Hf. unfold distinct_degree_factorization. fold n.
    replace (n >=? 1) with true by (symmetry; rewrite Z.geb_leb; apply Z.leb_le; lia).
    rewrite Hm. cbn [negb]. cbv zeta.
    destruct (distinct_degree_loop_returns L Poly_Identity poly_mod n fuel 1 poly
                Poly_Identity [] [])
      as [a [fs [ds [E [EL [EF ES]]]]]]; try lia; try constructor.
    rewrite E.
    assert (EF' : Forall (fun e => 1 <= e <= n / 2) ds).
    { eapply Forall_impl; [|exact EF]. intros e [He|[]]. exact He. }
    pose proof (increasing_length ds 1 (n / 2) ES EF') as HB.
    assert (0 <= n / 2) by (apply Z.div_pos; lia).
    destruct (negb (poly_eqb L a (Poly_One L))).
    + exists (fs ++ [a]), ds, [poly_degree L a].
      repeat split; auto.
      * rewrite !length_app. simpl. lia.
      * rewrite length_app. simpl. lia.
    + exists fs, ds, []. rewrite app_nil_r.
      repeat split; auto. lia.
Qed.

(** ** Worked examples *)

(** Elements of a concrete field, listed. *)
Ltac in_field_list := repeat constructor; unfold in_field; simpl; lia.

(** [(x + 2) (3 x^2 + x + 5)] over [GF(2^3)]. *)
Lemma convolve_jit_multiplies_polynomials_witness :
  let ADD_JIT := _ADD_JIT GF8 in
  let MULTIPLY_JIT := _MULTIPLY_JIT GF8 in
  let c := _convolve_jit ADD_JIT MULTIPLY_JIT [1; 2] [3; 1; 5] in
  length c = (length [1; 2] + length [3; 1; 5] - 1)%nat /\
  Forall (in_field GF8) c /\
  forall values results : list Z,
    Forall (in_field GF8) values -> length results = length values ->
    exists ya yb,
      _poly_evaluate_jit ADD_JIT MULTIPLY_JIT [1; 2] values results = Ok ya /\
      _poly_evaluate_jit ADD_JIT MULTIPLY_JIT [3; 1; 5] values results = Ok yb /\
      _poly_evaluate_jit ADD_JIT MULTIPLY_JIT c values results
      = Ok (map (fun y => MULTIPLY_JIT (fst y) (snd y)) (combine ya yb)).
Proof.
  apply (convolve_jit_multiplies_polynomials GF8 [1; 2] [3; 1; 5] GF8_laws);
    [in_field_list | in_field_list | simpl; lia | simpl; lia].
Defined.

Lemma convolve_jit_commutes_witness :
  _convolve_jit (_ADD_JIT GF8) (_MULTIPLY_JIT GF8) [1; 2] [3; 1; 5]
  = _convolve_jit (_ADD_JIT GF8) (_MULTIPLY_JIT GF8) [3; 1; 5] [1; 2].
Proof.
  apply (convolve_jit_commutes GF8 [1; 2] [3; 1; 5] GF8_laws);
    [in_field_list | in_field_list | simpl; lia | simpl; lia].
Defined.

(** The three routes on [(x + 2) (3 x^2 + x + 5)] over the prime field
    [GF(7)]: [3 x^3 + 0 x^2 + 0 x + 3]. *)
Lemma convolve_routes_agree_witness :
  _convolve GF7 [1; 2] [3; 1; 5] = Ok [3; 0; 0; 3] /\
  _convolve_python GF7 [1; 2] [3; 1; 5] = Ok [3; 0; 0; 3] /\
  _convolve_jit (_ADD_JIT GF7) (_MULTIPLY_JIT GF7) [1; 2] [3; 1; 5] = [3; 0; 0; 3].
Proof.
  destruct (convolve_routes_agree GF7 [1; 2] [3; 1; 5] GF7_laws) as [H1 [H2 _]];
    [in_field_list | in_field_list | simpl; lia | simpl; lia |].
  rewrite H1, H2. vm_compute. repeat split; reflexivity.
Defined.

(** [3 x^3 + x + 4] divided by [2 x + 1] over [GF(7)]. *)
Lemma poly_divmod_division_identity_witness :
  exists q r,
    _poly_divmod GF7 [3; 0; 1; 4] [2; 1] = Ok (q, r) /\
    length q = (length [3; 0; 1; 4] - length [2; 1] + 1)%nat /\
    length r = (length [2; 1] - 1)%nat /\
    Forall (in_field GF7) q /\ Forall (in_field GF7) r /\
    zip_add GF7 (_convolve_jit (_ADD_JIT GF7) (_MULTIPLY_JIT GF7) q [2; 1])
      (repeat 0 (length q) ++ r) = [3; 0; 1; 4].
Proof.
  apply (poly_divmod_division_identity GF7 [3; 0; 1; 4] [2; 1] GF7_laws);
    [in_field_list | in_field_list | simpl; lia | simpl; lia].
Defined.

Lemma poly_divmod_of_product_witness :
  _poly_divmod GF8
    (_convolve_jit (_ADD_JIT GF8) (_MULTIPLY_JIT GF8) [1; 2; 0] [3; 1; 5]) [3; 1; 5]
  = Ok ([1; 2; 0], repeat 0 (length [3; 1; 5] - 1)).
Proof.
  apply (poly_divmod_of_product GF8 [1; 2; 0] [3; 1; 5] GF8_laws);
    [in_field_list | in_field_list | simpl; lia | simpl; lia | simpl; lia].
Defined.

Lemma poly_divmod_python_agrees_witness :
  _poly_divmod_python GF8 [3; 0; 1; 4] [2; 1]
  = _poly_divmod_jit (_SUBTRACT_JIT GF8) (_MULTIPLY_JIT GF8) (_DIVIDE_JIT GF8)
      [3; 0; 1; 4] [2; 1] /\
  ((length [3; 0; 1; 4] < length [2; 1])%nat ->
   _poly_divmod_python GF8 [3; 0; 1; 4] [2; 1] = Raise AssertionError).
Proof.
  apply (poly_divmod_python_agrees GF8 [3; 0; 1; 4] [2; 1]); simpl; lia.
Defined.

(** [3 x^2 + x + 5] at [0, 1, 2, 6] over [GF(7)]. *)
Lemma poly_evaluate_is_sum_of_powers_witness :
  _poly_evaluate_jit (_ADD_JIT GF7) (_MULTIPLY_JIT GF7) [3; 1; 5] [0; 1; 2; 6] [0; 0; 0; 0]
  = Ok [5; 2; 5; 0] /\
  _poly_evaluate_python GF7 [3; 1; 5] 6 = Ok 0.
Proof.
  destruct (poly_evaluate_is_sum_of_powers GF7 [3; 1; 5] [0; 1; 2; 6] [0; 0; 0; 0]
              GF7_laws) as [H1 H2];
    [in_field_list | in_field_list | simpl; lia | reflexivity |].
  split.
  - rewrite H1. vm_compute. reflexivity.
  - rewrite (H2 6) by (simpl; auto). vm_compute. reflexivity.
Defined.

Lemma matmul_python_agrees_witness :
  _matmul_python GF8 (Arr2 2 2 [[1; 2]; [3; 4]]) (Arr2 2 1 [[5]; [6]])
  = _matmul_jit (_ADD_JIT GF8) (_MULTIPLY_JIT GF8)
      (Arr2 2 2 [[1; 2]; [3; 4]]) (Arr2 2 1 [[5]; [6]]).
Proof.
  apply (matmul_python_agrees GF8 (Arr2 2 2 [[1; 2]; [3; 4]]) (Arr2 2 1 [[5]; [6]])
           GF8_laws);
    [split; [reflexivity | repeat constructor]
    | split; [reflexivity | repeat constructor]
    | in_field_list | in_field_list].
Defined.

Lemma matmul_jit_associative_witness :
  let matmul := _matmul_jit (_ADD_JIT GF8) (_MULTIPLY_JIT GF8) in
  exists D,
    (AB <- matmul (Arr2 1 2 [[1; 2]]) (Arr2 2 2 [[3; 4]; [5; 6]]) ;;
     matmul AB (Arr2 2 1 [[7]; [1]])) = Ok D /\
    (BC <- matmul (Arr2 2 2 [[3; 4]; [5; 6]]) (Arr2 2 1 [[7]; [1]]) ;;
     matmul (Arr2 1 2 [[1; 2]]) BC) = Ok D.
Proof.
  apply (matmul_jit_associative GF8 1 2 2 1 [[1; 2]] [[3; 4]; [5; 6]] [[7]; [1]] GF8_laws);
    try (split; [reflexivity | repeat constructor]); in_field_list.
Defined.

(** [RS(7, 3)] over [GF(2^3)], systematic. *)
Lemma RS_7_3_generator_matrix_shaped : generator_matrix_shaped RS_7_3.
Proof.
  split; [|split].
  - exists (generator_matrix_rows RS_7_3). vm_compute. reflexivity.
  - vm_compute. split; [reflexivity | repeat constructor].
  - simpl. lia.
Qed.

Lemma RS_7_3_generator_matrix_in_field : data_in_field (_field RS_7_3) (_G RS_7_3).
Proof.
  change (_field RS_7_3) with GF8.
  assert (E : _G RS_7_3 = Arr2 3 7 (generator_matrix_rows RS_7_3))
    by (vm_compute; reflexivity).
  rewrite E. vm_compute generator_matrix_rows. in_field_list.
Qed.

Lemma encode_systematic_appends_parity_witness :
  (exists p,
     length p = (Z.to_nat (_n RS_7_3) - Z.to_nat (_k RS_7_3))%nat /\
     encode RS_7_3 (PyArray {| atype := np_ndarray; val := Arr1 [1; 2; 3] |}) true
     = Ok {| atype := np_ndarray; val := Arr1 p |} /\
     encode RS_7_3 (PyArray {| atype := np_ndarray; val := Arr1 [1; 2; 3] |}) false
     = Ok {| atype := np_ndarray; val := Arr1 ([1; 2; 3] ++ p) |}) /\
  encode RS_7_3 (PyArray {| atype := np_ndarray; val := Arr1 [1; 2; 3] |}) false
  = Ok {| atype := np_ndarray; val := Arr1 [1; 2; 3; 0; 0; 1; 3] |}.
Proof.
  split.
  - apply (proj1 (encode_systematic_appends_parity RS_7_3 np_ndarray
                    RS_7_3_generator_matrix_shaped eq_refl eq_refl)).
    reflexivity.
  - vm_compute. reflexivity.
Defined.

Lemma encode_batch_is_rowwise_witness :
  exists width out,
    encode RS_7_3
      (PyArray {| atype := np_ndarray;
                  val := Arr2 2 (Z.to_nat (_k RS_7_3)) [[1; 2; 3]; [0; 7; 1]] |}) false
    = Ok {| atype := np_ndarray; val := Arr2 2 width out |} /\
    length out = 2%nat /\
    forall i, (i < 2)%nat ->
      encode RS_7_3
        (PyArray {| atype := np_ndarray;
                    val := Arr1 (nth i [[1; 2; 3]; [0; 7; 1]] []) |}) false
      = Ok {| atype := np_ndarray; val := Arr1 (nth i out []) |}.
Proof.
  apply (encode_batch_is_rowwise RS_7_3 np_ndarray 2 [[1; 2; 3]; [0; 7; 1]] false
           RS_7_3_generator_matrix_shaped eq_refl).
  - split; [reflexivity | repeat constructor].
  - discriminate.
Defined.

Lemma encode_is_linear_witness :
  exists ca cb,
    encode RS_7_3 (PyArray {| atype := np_ndarray; val := Arr1 [1; 2; 3] |}) false
    = Ok {| atype := np_ndarray; val := Arr1 ca |} /\
    encode RS_7_3 (PyArray {| atype := np_ndarray; val := Arr1 [0; 7; 1] |}) false
    = Ok {| atype := np_ndarray; val := Arr1 cb |} /\
    encode RS_7_3
      (PyArray {| atype := np_ndarray;
                  val := Arr1 (zip_add (_field RS_7_3) [1; 2; 3] [0; 7; 1]) |}) false
    = Ok {| atype := np_ndarray; val := Arr1 (zip_add (_field RS_7_3) ca cb) |}.
Proof.
  apply (encode_is_linear RS_7_3 np_ndarray [1; 2; 3] [0; 7; 1] false GF8_laws
           RS_7_3_generator_matrix_shaped RS_7_3_generator_matrix_in_field eq_refl).
  - discriminate.
  - change (_field RS_7_3) with GF8. in_field_list.
  - change (_field RS_7_3) with GF8. in_field_list.
  - reflexivity.
  - reflexivity.
Defined.

(** The batch of four codewords over [GF(7)] with [t = 2]: counts 0, 1,
    2 and -1. *)
Lemma decode_calculate_count_within_capacity_witness :
  exists dec,
    Arr2 4 (6 + 1) example_decoded = Arr2 4 (6 + 1) dec /\
    wf_data (Arr2 4 (6 + 1) dec) /\
    forall i, (i < 4)%nat ->
      -1 <= last (nth i dec []) 0 <= 2 /\
      (forallb (fun s => s =? 0) (nth i example_syndromes []) = true ->
       nth i dec [] = nth i example_codewords [] ++ [0]).
Proof.
  apply (decode_calculate_count_within_capacity 6 4 4 4 example_codewords
           example_syndromes 2 3 prime_add prime_subtract prime_multiply
           (reciprocal_of prime_multiply) (power_of prime_multiply)
           berlekamp_massey_model poly_roots_model poly_evaluate_model
           convolve_model 7 1 7 (Arr2 4 (6 + 1) example_decoded)
           example_codewords_wf ltac:(lia) example_decode_calculate).
Defined.

Lemma decode_calculate_alters_at_most_count_witness :
  Z.of_nat (differences (firstn 6 (nth 2 example_decoded [])) (nth 2 example_codewords []))
  <= Z.max 0 (last (nth 2 example_decoded []) 0) /\
  last (nth 2 example_decoded []) 0 = 2 /\
  firstn 6 (nth 3 example_decoded []) = nth 3 example_codewords [].
Proof.
  split; [|split].
  - apply (decode_calculate_alters_at_most_count 6 4 4 4 example_codewords
             example_syndromes example_decoded 2 3 prime_add prime_subtract
             prime_multiply (reciprocal_of prime_multiply) (power_of prime_multiply)
             berlekamp_massey_model poly_roots_model poly_evaluate_model
             convolve_model 7 1 7 2%nat
             example_codewords_wf ltac:(lia) example_decode_calculate ltac:(lia)).
  - vm_compute. reflexivity.
  - apply (decode_calculate_alters_at_most_count 6 4 4 4 example_codewords
             example_syndromes example_decoded 2 3 prime_add prime_subtract
             prime_multiply (reciprocal_of prime_multiply) (power_of prime_multiply)
             berlekamp_massey_model poly_roots_model poly_evaluate_model
             convolve_model 7 1 7 3%nat
             example_codewords_wf ltac:(lia) example_decode_calculate ltac:(lia)).
    vm_compute. discriminate.
Defined.

(** One symbol of a codeword of [RS(7, 3)] changed: the message comes back
    with the count 1. *)
Lemma decode_systematic_changes_at_most_count_witness :
  exists m count,
    {| atype := np_ndarray; val := Arr1 [1; 2; 3] |}
    = {| atype := np_ndarray; val := Arr1 m |} /\ Arr0 1 = Arr0 count /\
    length m = Z.to_nat (_k RS_7_3) /\
    -1 <= count <= _t RS_7_3 /\
    Z.of_nat (differences m (firstn (Z.to_nat (_k RS_7_3)) [1; 5; 3; 0; 0; 1; 3]))
      <= Z.max 0 count /\
    (count <= 0 -> m = firstn (Z.to_nat (_k RS_7_3)) [1; 5; 3; 0; 0; 1; 3]).
Proof.
  apply (decode_systematic_changes_at_most_count RS_7_3 np_ndarray [1; 5; 3; 0; 0; 1; 3]
           {| atype := np_ndarray; val := Arr1 [1; 2; 3] |} (Arr0 1)
           RS_7_3_constructed eq_refl).
  - simpl. lia.
  - reflexivity.
  - vm_compute. reflexivity.
Defined.

(** One empty operand over [GF(2^3)] and over the prime field [GF(7)]. *)
Lemma convolve_of_empty_operand_witness :
  (_convolve GF8 [1; 2] [] = Ok (repeat 0 (length [1; 2] - 1)) /\
   _convolve GF8 [] [1; 2] = Ok (repeat 0 (length [1; 2] - 1))) /\
  (_convolve GF7 [1; 2] [] = Raise ValueError /\
   _convolve GF7 [] [1; 2] = Raise ValueError).
Proof.
  split.
  - apply (proj2 (proj2 (convolve_of_empty_operand GF8)) [1; 2] eq_refl). simpl. lia.
  - apply (proj1 (proj2 (convolve_of_empty_operand GF7)) [1; 2] eq_refl).
Defined.

(** Parity symbols asked of [RS(6, 2)], which is not systematic, and a
    message of two symbols given to [RS(7, 3)]. *)
Lemma encode_rejects_bad_arguments_witness :
  encode RS_6_2 (PyArray {| atype := np_ndarray; val := Arr1 [1; 2] |}) true
  = Raise ValueError /\
  encode RS_7_3 (PyArray {| atype := np_ndarray; val := Arr1 [1; 2] |}) false
  = Raise ValueError /\
  encode RS_7_3 (PyArray {| atype := np_ndarray; val := Arr0 1 |}) false
  = Raise IndexError.
Proof.
  split; [|split].
  - apply (proj1 (proj2 (encode_rejects_bad_arguments RS_6_2))). reflexivity.
  - apply (proj2 (proj2 (proj2 (encode_rejects_bad_arguments RS_7_3)))).
    + discriminate.
    + simpl. discriminate.
    + simpl. discriminate.
  - apply (proj1 (proj2 (proj2 (encode_rejects_bad_arguments RS_7_3)))).
    + discriminate.
    + reflexivity.
Defined.

Lemma RS_7_3_new :
  snd (ReedSolomon_new example_lib 7 3 1 None None true) = Ok RS_7_3.
Proof. vm_compute. reflexivity. Qed.

(** The matrices of [RS(7, 3)] over [GF(2^3)], and [n = 8]. *)
Lemma rs_matrices_are_those_of_the_code_witness :
  (rs_generator_matrix example_lib 7 3 1 None None true = Ok (_G RS_7_3) /\
   rs_parity_check_matrix example_lib 7 3 1 None None = Ok (_H RS_7_3)) /\
  rs_generator_matrix example_lib 8 4 1 None None true = Raise ValueError.
Proof.
  split.
  - apply (proj1 (rs_matrices_are_those_of_the_code example_lib 7 3 1 None None true)).
    exact RS_7_3_new.
  - apply (proj2 (rs_matrices_are_those_of_the_code example_lib 8 4 1 None None true)).
    vm_compute. reflexivity.
Defined.


(** [x^3 + 1 = (x + 1) (x^2 + x + 1)] over [GF(2)]: one factor of each
    degree. *)
Lemma distinct_degree_factorization_returns_witness :
  (exists fs ds0 rest,
     distinct_degree_factorization (example_polys 2) [1; 0]
       (fun h a => snd (example_poly_divmod 2 h a)) 1 [1; 0; 0; 1]
     = Ok (Some (fs, ds0 ++ rest)) /\
     length fs = length (ds0 ++ rest) /\
     (length rest <= 1)%nat /\
     StronglySorted Z.lt ds0 /\
     Forall (fun e => 1 <= e <= poly_degree (example_polys 2) [1; 0; 0; 1] / 2) ds0 /\
     Z.of_nat (length fs) <= poly_degree (example_polys 2) [1; 0; 0; 1] / 2 + 1) /\
  distinct_degree_factorization (example_polys 2) [1; 0]
    (fun h a => snd (example_poly_divmod 2 h a)) 1 [1; 0; 0; 1]
  = Ok (Some ([[1; 1]; [1; 1; 1]], [1; 2])).
Proof.
  split.
  - apply (proj2 (distinct_degree_factorization_returns (example_polys 2) [1; 0]
                    (fun h a => snd (example_poly_divmod 2 h a)) [1; 0; 0; 1]));
      [simpl; lia | reflexivity | vm_compute; discriminate].
  - vm_compute. reflexivity.
Defined.
